(** * pixi-layout-engine: the grid placement core of [layouts.ts]

    A shallow embedding of the square-grid strategies, the occupancy-grid
    spanning placer, the perimeter grid and the cell metrics, followed by
    the properties of the specification that were checked against them.

    Conventions of the embedding.
    - A JavaScript [number] holding a size, a gap or a coordinate is a
      rational [Q]; the arithmetic on it is exact.  Grid indices, column and
      row counts are integers [Z]; array indices and lengths are [nat].
      Where the code takes an integer of a quotient or a product of doubles
      (the diamond, the zones of the clustered fill, the random index), the
      quotient or product is computed in doubles ([Double]).
    - An optional field ([colSpan?: number], every key of [LayoutOptions])
      is an [option]; a destructuring default [{ columns = 3 } = options] is
      [default 3 (columns options)].
    - A function that mutates its [components] in place returns the updated
      list, in the order of the array it was given, next to its [Bounds].
    - A call whose arithmetic leaves the integers and rationals
      ([Infinity], [NaN], [Math.sqrt], [Math.cos] ...), that throws or that
      does not terminate has no result in the model: [None]. *)

From Stdlib Require Import ZArith QArith Qround Qabs List Bool String Ascii Lia Arith Permutation Sorted Lqa.
From Stdlib Require Import Floats.SpecFloat.
Import ListNotations.

Local Open Scope Z_scope.

(** ** JavaScript arithmetic on integers *)

Module JS.

(** [Math.floor(a / b)] for integers [a], [b] with [b <> 0]. *)
Definition floorDiv (a b : Z) : Z := a / b.

(** [Math.ceil(a / b)] for integers [a], [b] with [b <> 0]. *)
Definition ceilDiv (a b : Z) : Z := - ((- a) / b).

(** [a % b]: the remainder takes the sign of the dividend. *)
Definition rem (a b : Z) : Z := Z.rem a b.

(** [x ?? d] and destructuring defaults. *)
Definition default {A : Type} (d : A) (o : option A) : A :=
  match o with Some a => a | None => d end.

(** [s.includes(sub)] *)
Definition includes (s sub : string) : bool :=
  match String.index 0 sub s with Some _ => true | None => false end.

(** [s === t] on strings *)
Definition streq (s t : string) : bool := String.eqb s t.

(** [a > b] on rationals *)
Definition Qgtb (a b : Q) : bool := negb (Qle_bool a b).

(** [Math.max(a, b)] and [Math.min(a, b)] on rationals *)
Definition Qmax (a b : Q) : Q := if Qle_bool a b then b else a.
Definition Qmin (a b : Q) : Q := if Qle_bool a b then a else b.

(** [Math.sqrt(3)]: the double nearest to the square root of three,
    [0x3FFBB67AE8584CAA]. *)
Definition sqrt3 : Q := 3900231685776981 # 2251799813685248.

(** truthiness of a number: [0] is falsy *)
Definition truthyQ (o : option Q) : bool :=
  match o with Some q => negb (Qeq_bool q 0) | None => false end.

Definition truthyZ (o : option Z) : bool :=
  match o with Some z => negb (z =? 0) | None => false end.

(** [for (let k = 0; k < n; k++)] over integers *)
Definition upto (n : Z) : list Z := map Z.of_nat (seq 0 (Z.to_nat n)).

End JS.

(** ** JavaScript numbers as doubles

    Where the code multiplies or divides integers and then takes an integer
    of the result ([Math.ceil], [Math.floor], [Math.round]), the integer
    depends on the rounding of the double arithmetic.  These computations
    are carried out on IEEE 754 binary64 numbers, with the operations of the
    standard library's [SpecFloat] (round to nearest, ties to even). *)

Module Double.

Definition t : Type := spec_float.

Definition prec : Z := 53.
Definition emax : Z := 1024.

(** The double of an integer literal or of an integer variable. *)
Definition ofZ (z : Z) : t := binary_normalize prec emax z 0 false.

Definition add : t -> t -> t := SFadd prec emax.
Definition sub : t -> t -> t := SFsub prec emax.
Definition mul : t -> t -> t := SFmul prec emax.
Definition div : t -> t -> t := SFdiv prec emax.

(** [Math.abs(a)] *)
Definition abs : t -> t := SFabs.

(** [a > b]: false when either is [NaN]. *)
Definition gtb (a b : t) : bool := SFltb b a.

(** [Math.max(a, b)]: [NaN] when either is [NaN]; [+0] is above [-0]. *)
Definition max (a b : t) : t :=
  match SFcompare a b with
  | Some Lt => b
  | Some Gt => a
  | Some Eq =>
      match a, b with
      | S754_zero true, S754_zero sign => S754_zero sign
      | _, _ => a
      end
  | None => S754_nan
  end.

(** The integer [m * 2^e] or [- m * 2^e] that a finite double stands for,
    taken down ([Math.floor]), up ([Math.ceil]) or to the nearest integer
    with ties upwards ([Math.round]).  No integer for [NaN] and the
    infinities. *)
Definition floor (x : t) : option Z :=
  match x with
  | S754_zero _ => Some 0
  | S754_finite sign m e =>
      let n := if sign then Z.neg m else Z.pos m in
      Some (if 0 <=? e then n * 2 ^ e else n / 2 ^ (- e))
  | _ => None
  end.

Definition ceil (x : t) : option Z :=
  match x with
  | S754_zero _ => Some 0
  | S754_finite sign m e =>
      let n := if sign then Z.neg m else Z.pos m in
      Some (if 0 <=? e then n * 2 ^ e else - ((- n) / 2 ^ (- e)))
  | _ => None
  end.

Definition round (x : t) : option Z :=
  match x with
  | S754_zero _ => Some 0
  | S754_finite sign m e =>
      let n := if sign then Z.neg m else Z.pos m in
      Some (if 0 <=? e then n * 2 ^ e else (2 * n + 2 ^ (- e)) / 2 ^ (- e + 1))
  | _ => None
  end.

End Double.

(** ** Data model ([types.ts]) *)

Record Vec2 := mkVec2 { vx : Q; vy : Q }.

Record LayoutComponent := mkComponent {
  position : Vec2;
  scale : option Vec2;
  width : Q;
  height : Q;
  value : option Q;
  colSpan : option Z;
  rowSpan : option Z;
  visible : option bool;
  zIndex : option Z;
  group : option string  (* read as [(comp as any).group] *)
}.

Record Bounds := mkBounds { minX : Q; minY : Q; maxX : Q; maxY : Q }.

Definition zeroBounds : Bounds := mkBounds 0 0 0 0.

Record LayoutOptions := mkOptions {
  spacing : option Q;
  columns : option Z;
  rows : option Z;
  autoRows : option bool;
  useGridSpanning : option bool;
  sizingMode : option string;
  fixedWidth : option Q;
  fixedHeight : option Q;
  alignItems : option string;
  justifyItems : option string;
  columnGap : option Q;
  rowGap : option Q;
  flowDirection : option string;
  flowReverse : option bool;
  lastRowAlign : option string;
  honeycombOrientation : option string;
  cornerOffset : option Q;
  excludeCorners : option bool;
  priorityDirection : option string;
  overflowAlignment : option string;
  equalDistribution : option bool;
  startCorner : option string;
  direction : option string;
  offset : option Q;
  globalRotation : option Q;
  perspectiveY : option Q;
  depthScale : option Q;
  enableZIndex : option bool;
  (* keys read through [options as any] *)
  braidRows : option Z;
  blockWidth : option Z;
  blockHeight : option Z
}.

(** The empty options object [{}]. *)
Definition noOptions : LayoutOptions :=
  mkOptions None None None None None None None None None None None None None None
            None None None None None None None None None None None None None None
            None None None.

Definition withColumns (c : Z) (o : LayoutOptions) : LayoutOptions :=
  mkOptions (spacing o) (Some c) (rows o) (autoRows o) (useGridSpanning o) (sizingMode o)
    (fixedWidth o) (fixedHeight o) (alignItems o) (justifyItems o) (columnGap o) (rowGap o)
    (flowDirection o) (flowReverse o) (lastRowAlign o) (honeycombOrientation o)
    (cornerOffset o) (excludeCorners o) (priorityDirection o) (overflowAlignment o)
    (equalDistribution o) (startCorner o) (direction o) (offset o) (globalRotation o)
    (perspectiveY o) (depthScale o) (enableZIndex o)
    (braidRows o) (blockWidth o) (blockHeight o).

Definition withRows (r : Z) (o : LayoutOptions) : LayoutOptions :=
  mkOptions (spacing o) (columns o) (Some r) (autoRows o) (useGridSpanning o) (sizingMode o)
    (fixedWidth o) (fixedHeight o) (alignItems o) (justifyItems o) (columnGap o) (rowGap o)
    (flowDirection o) (flowReverse o) (lastRowAlign o) (honeycombOrientation o)
    (cornerOffset o) (excludeCorners o) (priorityDirection o) (overflowAlignment o)
    (equalDistribution o) (startCorner o) (direction o) (offset o) (globalRotation o)
    (perspectiveY o) (depthScale o) (enableZIndex o)
    (braidRows o) (blockWidth o) (blockHeight o).

Definition withFlowDirection (f : string) (o : LayoutOptions) : LayoutOptions :=
  mkOptions (spacing o) (columns o) (rows o) (autoRows o) (useGridSpanning o) (sizingMode o)
    (fixedWidth o) (fixedHeight o) (alignItems o) (justifyItems o) (columnGap o) (rowGap o)
    (Some f) (flowReverse o) (lastRowAlign o) (honeycombOrientation o)
    (cornerOffset o) (excludeCorners o) (priorityDirection o) (overflowAlignment o)
    (equalDistribution o) (startCorner o) (direction o) (offset o) (globalRotation o)
    (perspectiveY o) (depthScale o) (enableZIndex o)
    (braidRows o) (blockWidth o) (blockHeight o).

Definition withFixedSize (w h : option Q) (o : LayoutOptions) : LayoutOptions :=
  mkOptions (spacing o) (columns o) (rows o) (autoRows o) (useGridSpanning o) (Some "fixed"%string)
    w h (alignItems o) (justifyItems o) (columnGap o) (rowGap o)
    (flowDirection o) (flowReverse o) (lastRowAlign o) (honeycombOrientation o)
    (cornerOffset o) (excludeCorners o) (priorityDirection o) (overflowAlignment o)
    (equalDistribution o) (startCorner o) (direction o) (offset o) (globalRotation o)
    (perspectiveY o) (depthScale o) (enableZIndex o)
    (braidRows o) (blockWidth o) (blockHeight o).

(** [child.position.set(x, y)] *)
Definition setPosition (child : LayoutComponent) (x y : Q) : LayoutComponent :=
  mkComponent (mkVec2 x y) (scale child) (width child) (height child) (value child)
              (colSpan child) (rowSpan child) (visible child) (zIndex child) (group child).

(** A plain component of the given size, at the origin, with no optional field. *)
Definition box (w h : Q) : LayoutComponent :=
  mkComponent (mkVec2 0 0) None w h None None None None None None.

(** A component of the given size that exposes a visibility flag, set. *)
Definition visibleBox (w h : Q) : LayoutComponent :=
  mkComponent (mkVec2 0 0) None w h None None None (Some true) None None.

(** A component of the given size and spans. *)
Definition spanBox (w h : Q) (cSpan rSpan : option Z) : LayoutComponent :=
  mkComponent (mkVec2 0 0) None w h None cSpan rSpan None None None.

(** ** Cell metrics: [_calculateGridCellSize] *)

Record CellSize := mkCellSize {
  maxChildWidth : Q;
  maxChildHeight : Q;
  cellWidth : Q;
  cellHeight : Q;
  cellColumnGap : Q;
  cellRowGap : Q
}.

(** [options.sizingMode === "fixed"] *)
Definition useFixed (options : LayoutOptions) : bool :=
  match sizingMode options with Some m => JS.streq m "fixed" | None => false end.

(** The [for (const child of components)] loop that keeps the running maxima. *)
Fixpoint maxChildSize (components : list LayoutComponent) (mw mh : Q) : Q * Q :=
  match components with
  | [] => (mw, mh)
  | child :: rest =>
      let mw' := if JS.Qgtb (width child) mw then width child else mw in
      let mh' := if JS.Qgtb (height child) mh then height child else mh in
      maxChildSize rest mw' mh'
  end.

(** [options.sizingMode === "fixed" && options.fixedWidth && options.fixedHeight] *)
Definition fixedSizeGiven (options : LayoutOptions) : bool :=
  useFixed options && JS.truthyQ (fixedWidth options) && JS.truthyQ (fixedHeight options).

(** [options.columnGap ?? options.spacing ?? 0] and its row twin. *)
Definition gapOf (gap : option Q) (options : LayoutOptions) : Q :=
  JS.default (JS.default 0%Q (spacing options)) gap.

Definition _calculateGridCellSize (components : list LayoutComponent)
    (options : LayoutOptions) : CellSize :=
  let columnGap := gapOf (columnGap options) options in
  let rowGap := gapOf (rowGap options) options in
  if fixedSizeGiven options
  then
    let fw := JS.default 0%Q (fixedWidth options) in
    let fh := JS.default 0%Q (fixedHeight options) in
    mkCellSize fw fh (fw + columnGap)%Q (fh + rowGap)%Q columnGap rowGap
  else
    let '(mw, mh) := maxChildSize components 0%Q 0%Q in
    mkCellSize mw mh (mw + columnGap)%Q (mh + rowGap)%Q columnGap rowGap.

(** ** Bounding box of positioned components: [_calculateBoundsFromComponents] *)

Definition childBox (options : LayoutOptions) (child : LayoutComponent) : Bounds :=
  let childWidth := if useFixed options then JS.default 0%Q (fixedWidth options) else width child in
  let childHeight := if useFixed options then JS.default 0%Q (fixedHeight options) else height child in
  mkBounds (vx (position child) - childWidth / 2)%Q (vy (position child) - childHeight / 2)%Q
           (vx (position child) + childWidth / 2)%Q (vy (position child) + childHeight / 2)%Q.

Definition joinBounds (a b : Bounds) : Bounds :=
  mkBounds (JS.Qmin (minX a) (minX b)) (JS.Qmin (minY a) (minY b))
           (JS.Qmax (maxX a) (maxX b)) (JS.Qmax (maxY a) (maxY b)).

(** The loop starts from [Infinity] and [-Infinity]; after the first child the
    running box is that child's box. *)
Definition _calculateBoundsFromComponents (components : list LayoutComponent)
    (options : LayoutOptions) : Bounds :=
  match components with
  | [] => zeroBounds
  | child :: rest =>
      fold_left (fun b c => joinBounds b (childBox options c)) rest (childBox options child)
  end.

(** ** The simple grid: [_layoutSquareSimple] *)

(** [components.forEach((child, i) => ...)] *)
Fixpoint forEachIdx {A B : Type} (f : A -> Z -> B) (l : list A) (i : Z) : list B :=
  match l with
  | [] => []
  | a :: rest => f a i :: forEachIdx f rest (i + 1)
  end.

(** The [switch (justifyItems)] and [switch (alignItems)] blocks. *)
Definition alignInCell (mode : string) (cell maxChild child : Q) : Q :=
  if JS.streq mode "end" then (cell + maxChild - child / 2)%Q
  else if JS.streq mode "center" then (cell + maxChild / 2)%Q
  else (cell + child / 2)%Q.

Record SimpleFlow := mkSimpleFlow {
  isColumnFlow : bool;
  isSnakeFlow : bool;
  startFromBottom : bool;
  startFromRight : bool;
  isHoneycombFlow : bool
}.

Definition simpleFlow (flowDirection : string) : SimpleFlow :=
  mkSimpleFlow (JS.includes flowDirection "column") (JS.includes flowDirection "snake")
               (JS.includes flowDirection "bottom") (JS.includes flowDirection "right")
               (JS.streq flowDirection "honeycomb").

(** Lines 878-898: the grid cell [(finalRow, finalCol)] of the item of index [i]. *)
Definition simpleCell (fl : SimpleFlow) (flowReverse : bool) (columns totalRows i : Z) : Z * Z :=
  let '(baseRow, baseCol) :=
    if isColumnFlow fl then (JS.rem i totalRows, JS.floorDiv i totalRows)
    else (JS.floorDiv i columns, JS.rem i columns) in
  let '(baseRow, baseCol) :=
    if isSnakeFlow fl then
      if isColumnFlow fl
      then (if negb (JS.rem baseCol 2 =? 0) then totalRows - 1 - baseRow else baseRow, baseCol)
      else (baseRow, if negb (JS.rem baseRow 2 =? 0) then columns - 1 - baseCol else baseCol)
    else (baseRow, baseCol) in
  let finalRow := if startFromBottom fl then totalRows - 1 - baseRow else baseRow in
  let finalCol := if startFromRight fl then columns - 1 - baseCol else baseCol in
  let finalRow :=
    if flowReverse && negb (startFromBottom fl) && negb (startFromRight fl)
    then totalRows - 1 - baseRow else finalRow in
  (finalRow, finalCol).

(** Lines 841-856: the hexagon steps [(xStep, yStep)] of the honeycomb flow. *)
Definition honeycombSteps (pointyTop : bool) (cs : CellSize) : Q * Q :=
  if pointyTop then
    let requiredWidthFromHeight := (maxChildHeight cs * (2 / JS.sqrt3))%Q in
    let hexWidth := JS.Qmax (maxChildWidth cs) requiredWidthFromHeight in
    let hexHeight := (hexWidth * (JS.sqrt3 / 2))%Q in
    ((hexWidth * (3 # 4) + cellColumnGap cs)%Q, (hexHeight + cellRowGap cs)%Q)
  else
    let requiredHeightFromWidth := (maxChildWidth cs * (2 / JS.sqrt3))%Q in
    let hexHeight := JS.Qmax (maxChildHeight cs) requiredHeightFromWidth in
    let hexWidth := (hexHeight * (JS.sqrt3 / 2))%Q in
    ((hexWidth + cellColumnGap cs)%Q, (hexHeight * (3 # 4) + cellRowGap cs)%Q).

(** Lines 930-949: the nudge of the four corner cells. *)
Definition simpleCornerNudge (cornerOffset : Q) (columns totalRows finalRow finalCol : Z)
    (p : Q * Q) : Q * Q :=
  if Qeq_bool cornerOffset 0 then p else
  let isTop := finalRow =? 0 in
  let isBottom := finalRow =? totalRows - 1 in
  let isLeft := finalCol =? 0 in
  let isRight := finalCol =? columns - 1 in
  let '(x, y) := p in
  if isTop && isLeft then ((x - cornerOffset)%Q, (y - cornerOffset)%Q)
  else if isTop && isRight then ((x + cornerOffset)%Q, (y - cornerOffset)%Q)
  else if isBottom && isLeft then ((x - cornerOffset)%Q, (y + cornerOffset)%Q)
  else if isBottom && isRight then ((x + cornerOffset)%Q, (y + cornerOffset)%Q)
  else p.

Definition gridBounds (cornerOffset gridWidth totalHeight : Q) : Bounds :=
  if JS.Qgtb cornerOffset 0
  then mkBounds (- cornerOffset)%Q (- cornerOffset)%Q
                (gridWidth + cornerOffset)%Q (totalHeight + cornerOffset)%Q
  else mkBounds 0 0 gridWidth totalHeight.

(** The centre written to the item of index [i] by the [forEach] of lines 873-952. *)
Definition simpleCenter (options : LayoutOptions) (cs : CellSize) (columns totalRows : Z)
    (lastRowOffsetX : Q) (child : LayoutComponent) (i : Z) : Q * Q :=
  let flowDirection := JS.default "default"%string (flowDirection options) in
  let fl := simpleFlow flowDirection in
  let childWidth := if useFixed options then JS.default 0%Q (fixedWidth options) else width child in
  let childHeight := if useFixed options then JS.default 0%Q (fixedHeight options) else height child in
  let '(finalRow, finalCol) :=
    simpleCell fl (JS.default false (flowReverse options)) columns totalRows i in
  let '(cellX, cellY) :=
    if isHoneycombFlow fl then
      let pointyTop := JS.streq (JS.default "pointy-top"%string (honeycombOrientation options))
                                "pointy-top" in
      let '(xStep, yStep) := honeycombSteps pointyTop cs in
      if pointyTop
      then ((inject_Z finalCol * xStep)%Q,
            (inject_Z finalRow * yStep + (if JS.rem finalCol 2 =? 1 then yStep / 2 else 0))%Q)
      else ((inject_Z finalCol * xStep + (if JS.rem finalRow 2 =? 1 then xStep / 2 else 0))%Q,
            (inject_Z finalRow * yStep)%Q)
    else
      let isLastRow := finalRow =? totalRows - 1 in
      (((if isLastRow && JS.streq flowDirection "default" then lastRowOffsetX else 0)
        + inject_Z finalCol * cellWidth cs)%Q,
       (inject_Z finalRow * cellHeight cs)%Q) in
  let childCenterX := alignInCell (JS.default "start"%string (justifyItems options))
                                  cellX (maxChildWidth cs) childWidth in
  let childCenterY := alignInCell (JS.default "start"%string (alignItems options))
                                  cellY (maxChildHeight cs) childHeight in
  simpleCornerNudge (JS.default 0%Q (cornerOffset options)) columns totalRows finalRow finalCol
                    (childCenterX, childCenterY).

(** Lines 864-871. *)
Definition simpleLastRowOffsetX (options : LayoutOptions) (cs : CellSize)
    (columns : Z) (n : Z) : Q :=
  let fl := simpleFlow (JS.default "default"%string (flowDirection options)) in
  let lastRowAlign := JS.default "start"%string (lastRowAlign options) in
  let gridWidth := (inject_Z columns * cellWidth cs - cellColumnGap cs)%Q in
  let itemsOnLastRow := if JS.rem n columns =? 0 then columns else JS.rem n columns in
  if negb (JS.streq lastRowAlign "start") && negb (isColumnFlow fl) && negb (isSnakeFlow fl)
     && negb (startFromRight fl) && (0 <? itemsOnLastRow) && negb (isHoneycombFlow fl)
  then
    let lastRowContentWidth := (inject_Z itemsOnLastRow * cellWidth cs - cellColumnGap cs)%Q in
    let emptySpace := (gridWidth - lastRowContentWidth)%Q in
    if JS.streq lastRowAlign "center" then (emptySpace / 2)%Q
    else if JS.streq lastRowAlign "end" then emptySpace
    else 0%Q
  else 0%Q.

(** No result for [columns = 0] with a non-empty collection ([totalRows] is
    [Infinity] and the cells are [NaN]), nor for a column flow with
    [totalRows = 0] (a negative [columns] below [-length]), where the cells
    are divided by zero. *)
Definition _layoutSquareSimple (components : list LayoutComponent)
    (options : LayoutOptions) : option (list LayoutComponent * Bounds) :=
  let columns := JS.default 3 (columns options) in
  match components with
  | [] => Some ([], zeroBounds)
  | _ :: _ =>
      if columns =? 0 then None else
      let cs := _calculateGridCellSize components options in
      let n := Z.of_nat (List.length components) in
      let totalRows := JS.ceilDiv n columns in
      let fl := simpleFlow (JS.default "default"%string (flowDirection options)) in
      if isColumnFlow fl && (totalRows =? 0) then None else
      let gridWidth := (inject_Z columns * cellWidth cs - cellColumnGap cs)%Q in
      let lastRowOffsetX := simpleLastRowOffsetX options cs columns n in
      let placed :=
        forEachIdx (fun child i =>
                      let '(x, y) := simpleCenter options cs columns totalRows lastRowOffsetX child i in
                      setPosition child x y)
                   components 0 in
      if isHoneycombFlow fl
      then Some (placed, _calculateBoundsFromComponents placed options)
      else
        let totalHeight := (inject_Z totalRows * cellHeight cs - cellRowGap cs)%Q in
        Some (placed, gridBounds (JS.default 0%Q (cornerOffset options)) gridWidth totalHeight)
  end.

(** ** The perimeter grid: [_layoutPerimeterGrid] *)

Inductive Edge := Top | Right | Bottom | Left.

Definition Edge_eqb (a b : Edge) : bool :=
  match a, b with
  | Top, Top | Right, Right | Bottom, Bottom | Left, Left => true
  | _, _ => false
  end.

(** [budgets] and [caps]: a number for each of the four edge names. *)
Definition EdgeTable := Edge -> Z.

Definition setEdge (k : Edge) (v : Z) (t : EdgeTable) : EdgeTable :=
  fun e => if Edge_eqb e k then v else t e.

Definition noBudget : EdgeTable := fun _ => 0.

Record PerimeterFlags := mkPerimeterFlags {
  pfColumns : Z;
  pfRows : Z;
  pfAutoRows : bool;
  pfExcludeCorners : bool;
  pfPriorityRows : bool;      (* priorityDirection === 'rows' *)
  pfEqualDistribution : bool
}.

Definition perimeterFlags (options : LayoutOptions) : PerimeterFlags :=
  mkPerimeterFlags
    (JS.default 4 (columns options))
    (JS.default 3 (rows options))
    (JS.default false (autoRows options))
    (JS.default false (excludeCorners options))
    (JS.streq (JS.default "columns"%string (priorityDirection options)) "rows")
    (JS.default false (equalDistribution options)).

(** Step 1 (lines 1418-1424). *)
Definition effectiveRows (f : PerimeterFlags) (numComponents : Z) : Z :=
  let rows0 :=
    if pfAutoRows f then
      let hSlots := if pfExcludeCorners f then Z.max 0 (pfColumns f - 2) * 2
                    else pfColumns f * 2 in
      let remaining := Z.max 0 (numComponents - hSlots) in
      JS.ceilDiv remaining 2 + 2
    else pfRows f in
  Z.max (if pfExcludeCorners f then 2 else 1) rows0.

(** Lines 1433-1444: the capacity of each edge. *)
Definition perimeterCaps (f : PerimeterFlags) (numComponents : Z) : EdgeTable :=
  let rows := effectiveRows f numComponents in
  let caps :=
    if pfPriorityRows f
    then setEdge Bottom (Z.max 0 (pfColumns f - 2))
           (setEdge Top (Z.max 0 (pfColumns f - 2))
              (setEdge Right rows (setEdge Left rows noBudget)))
    else setEdge Right (Z.max 0 (rows - 2))
           (setEdge Left (Z.max 0 (rows - 2))
              (setEdge Bottom (pfColumns f) (setEdge Top (pfColumns f) noBudget))) in
  if pfExcludeCorners f then
    if pfPriorityRows f
    then setEdge Right (Z.max 0 (caps Right - 2)) (setEdge Left (Z.max 0 (caps Left - 2)) caps)
    else setEdge Bottom (Z.max 0 (caps Bottom - 2)) (setEdge Top (Z.max 0 (caps Top - 2)) caps)
  else caps.

(** [ks.forEach(k => { budgets[k] = caps[k]; remaining -= caps[k]; })] *)
Fixpoint fillToCap (ks : list Edge) (caps : EdgeTable) (st : EdgeTable * Z) : EdgeTable * Z :=
  match ks with
  | [] => st
  | k :: rest => fillToCap rest caps (setEdge k (caps k) (fst st), snd st - caps k)
  end.

(** [ks.forEach(k => { const take = Math.min(caps[k], remaining);
                       budgets[k] = take; remaining -= take; })] *)
Fixpoint takeInTurn (ks : list Edge) (caps : EdgeTable) (st : EdgeTable * Z) : EdgeTable * Z :=
  match ks with
  | [] => st
  | k :: rest =>
      let take := Z.min (caps k) (snd st) in
      takeInTurn rest caps (setEdge k take (fst st), snd st - take)
  end.

(** [ks.forEach(k => { budgets[k] = Math.min(caps[k], perEdge + (extra > 0 ? 1 : 0));
                       if (extra > 0) extra--; })] *)
Fixpoint shareEqually (ks : list Edge) (caps : EdgeTable) (perEdge extra : Z)
    (budgets : EdgeTable) : EdgeTable :=
  match ks with
  | [] => budgets
  | k :: rest =>
      let b := Z.min (caps k) (perEdge + (if 0 <? extra then 1 else 0)) in
      shareEqually rest caps perEdge (if 0 <? extra then extra - 1 else extra)
                   (setEdge k b budgets)
  end.

(** Step 2 (lines 1446-1469): how many items each edge receives. *)
Definition perimeterBudgets (f : PerimeterFlags) (numComponents : Z) : EdgeTable :=
  let caps := perimeterCaps f numComponents in
  let remaining := numComponents in
  let primary := if pfPriorityRows f then [Left; Right] else [Top; Bottom] in
  let secondary := if pfPriorityRows f then [Top; Bottom] else [Left; Right] in
  let totalPrimaryCap := fold_left (fun sum k => sum + caps k) primary 0 in
  if totalPrimaryCap <=? remaining then
    let '(budgets, remaining) := fillToCap primary caps (noBudget, remaining) in
    let pool := filter (fun k => 0 <? caps k) secondary in
    let poolLength := Z.of_nat (List.length pool) in
    if pfEqualDistribution f && (0 <? poolLength) then
      shareEqually pool caps (JS.floorDiv remaining poolLength) (JS.rem remaining poolLength)
                   budgets
    else fst (takeInTurn secondary caps (budgets, remaining))
  else
    if pfEqualDistribution f then
      let primaryLength := Z.of_nat (List.length primary) in
      shareEqually primary caps (JS.floorDiv remaining primaryLength)
                   (JS.rem remaining primaryLength) noBudget
    else fst (takeInTurn primary caps (noBudget, remaining)).

(** The sum of a table over the four edges. *)
Definition edgeTotal (t : EdgeTable) : Z := t Top + t Right + t Bottom + t Left.

(** The capacity of the whole perimeter: the four edge capacities together. *)
Definition totalPerimeterCapacity (f : PerimeterFlags) (numComponents : Z) : Z :=
  edgeTotal (perimeterCaps f numComponents).

(** Step 3 (lines 1472-1487): the clockwise loop of boundary slots. *)
Record PathSlot := mkSlot { r : Z; c : Z; edge : Edge; isCorner : bool }.

(** [lo, lo+1, ..., hi-1] *)
Definition range (lo hi : Z) : list Z :=
  map (fun k => lo + Z.of_nat k) (seq 0 (Z.to_nat (hi - lo))).

Definition ownEdge (priorityRows : bool) (maxC : Z) (s : PathSlot) : PathSlot :=
  if priorityRows then
    let e1 := if c s =? 0 then Left else edge s in
    let e2 := if c s =? maxC then Right else e1 in
    mkSlot (r s) (c s) e2 (isCorner s)
  else s.

Definition buildLoop (priorityRows : bool) (maxC maxR : Z) : list PathSlot :=
  let top := map (fun c => mkSlot 0 c Top ((c =? 0) || (c =? maxC))) (range 0 (maxC + 1)) in
  let right := map (fun r => mkSlot r maxC Right false) (range 1 maxR) in
  let bottom := map (fun c => mkSlot maxR c Bottom ((c =? 0) || (c =? maxC)))
                    (rev (range 0 (maxC + 1))) in
  let left := map (fun r => mkSlot r 0 Left false) (rev (range 1 maxR)) in
  map (ownEdge priorityRows maxC) (top ++ right ++ bottom ++ left).

(** Every slot of the loop is an object of its own; the [Set] of active slots
    holds references, so a slot is identified by its index in the loop. *)
Definition SlotRef := (nat * PathSlot)%type.

Definition indexed (loop : list PathSlot) : list SlotRef :=
  combine (seq 0 (List.length loop)) loop.

(** [slots[i]]: [None] stands for [undefined]. *)
Definition slotAt (slots : list SlotRef) (i : Z) : option nat :=
  if i <? 0 then None else option_map fst (nth_error slots (Z.to_nat i)).

(** [Math.round(a / b)] for integers [a >= 0] and [b > 0]. *)
Definition roundDiv (a b : Z) : Z := (2 * a + b) / (2 * b).

(** Step 4 for one edge (lines 1493-1516): the references added to [activeSlots]. *)
Definition activeOnEdge (excludeCorners : bool) (overflowAlignment : string)
    (loop : list SlotRef) (budgets : EdgeTable) (name : Edge) : list (option nat) :=
  let budget := budgets name in
  if budget <=? 0 then [] else
  let slots := filter (fun s => Edge_eqb (edge (snd s)) name) loop in
  let slots := if excludeCorners then filter (fun s => negb (isCorner (snd s))) slots
               else slots in
  let count := Z.of_nat (List.length slots) in
  if count =? 0 then [] else
  if JS.streq overflowAlignment "justify-corners" && (1 <? count) && (1 <? budget) then
    map (fun i => slotAt slots (roundDiv (i * (count - 1)) (budget - 1))) (range 0 budget)
  else if JS.streq overflowAlignment "center" then
    let start := JS.floorDiv (count - budget) 2 in
    map (slotAt slots) (range start (start + budget))
  else if JS.streq overflowAlignment "end" then
    map (slotAt slots) (range (count - budget) count)
  else
    map (slotAt slots) (range 0 budget).

Definition activeSlots (excludeCorners : bool) (overflowAlignment : string)
    (loop : list SlotRef) (budgets : EdgeTable) : list (option nat) :=
  flat_map (activeOnEdge excludeCorners overflowAlignment loop budgets)
           [Top; Right; Bottom; Left].

(** [activeSlots.has(s)] *)
Definition isActive (active : list (option nat)) (s : SlotRef) : bool :=
  existsb (fun a => match a with Some k => Nat.eqb k (fst s) | None => false end) active.

(** [loop.findIndex(...)] of step 5; [None] stands for [-1]. *)
Fixpoint findIndex {A : Type} (p : A -> bool) (l : list A) : option nat :=
  match l with
  | [] => None
  | a :: rest => if p a then Some O else option_map S (findIndex p rest)
  end.

Definition isStartCorner (startCorner : string) (maxC maxR : Z) (s : SlotRef) : bool :=
  if JS.streq startCorner "top-left" then (r (snd s) =? 0) && (c (snd s) =? 0)
  else if JS.streq startCorner "top-right" then (r (snd s) =? 0) && (c (snd s) =? maxC)
  else if JS.streq startCorner "bottom-right" then (r (snd s) =? maxR) && (c (snd s) =? maxC)
  else if JS.streq startCorner "bottom-left" then (r (snd s) =? maxR) && (c (snd s) =? 0)
  else false.

(** [[...loop.slice(startIdx), ...loop.slice(0, startIdx)]]; a start index of
    [-1] slices from the last element. *)
Definition rotateLoop {A : Type} (startIdx : option nat) (loop : list A) : list A :=
  let k := match startIdx with
           | Some k => k
           | None => (List.length loop - 1)%nat
           end in
  skipn k loop ++ firstn k loop.

(** [path.shift(); path.reverse(); path.unshift(first)] *)
Definition counterClockwise {A : Type} (path : list A) : list A :=
  match path with
  | [] => []
  | first :: rest => first :: rev rest
  end.

(** Step 5 (lines 1519-1535): the active slots in visiting order. *)
Definition perimeterFinalPath (options : LayoutOptions) (numComponents : Z) : list SlotRef :=
  let f := perimeterFlags options in
  let maxC := pfColumns f - 1 in
  let maxR := effectiveRows f numComponents - 1 in
  let budgets := perimeterBudgets f numComponents in
  let loop := indexed (buildLoop (pfPriorityRows f) maxC maxR) in
  let active := activeSlots (pfExcludeCorners f)
                            (JS.default "start"%string (overflowAlignment options))
                            loop budgets in
  let startIdx := findIndex (isStartCorner (JS.default "top-left"%string (startCorner options))
                                           maxC maxR) loop in
  let path := rotateLoop startIdx loop in
  let path := if JS.streq (JS.default "clockwise"%string (direction options)) "counter-clockwise"
              then counterClockwise path else path in
  filter (isActive active) path.

(** [scale.set(v)] and [scale.x = v] *)
Definition setScale (child : LayoutComponent) (s : option Vec2) : LayoutComponent :=
  mkComponent (position child) s (width child) (height child) (value child)
              (colSpan child) (rowSpan child) (visible child) (zIndex child) (group child).

Definition setScaleX (child : LayoutComponent) (x : Q) : LayoutComponent :=
  setScale child (option_map (fun s => mkVec2 x (vy s)) (scale child)).

Definition setVisible (child : LayoutComponent) (v : bool) : LayoutComponent :=
  mkComponent (position child) (scale child) (width child) (height child) (value child)
              (colSpan child) (rowSpan child)
              (match visible child with Some _ => Some v | None => None end) (zIndex child)
              (group child).

Definition setZIndex (child : LayoutComponent) (z : Z) : LayoutComponent :=
  mkComponent (position child) (scale child) (width child) (height child) (value child)
              (colSpan child) (rowSpan child) (visible child)
              (match zIndex child with Some _ => Some z | None => None end) (group child).

(** Step 6 for one placed item (lines 1544-1574), with [offset = 0] and
    [globalRotation = 0], where [Math.cos] is 1 and [Math.sin] is 0.
    [scale.set(s)] with one argument sets both coordinates, as the points of
    the rendering library do. *)
Definition placeOnPerimeter (options : LayoutOptions) (cs : CellSize) (maxC maxR : Z)
    (slot : PathSlot) (child : LayoutComponent) : LayoutComponent :=
  let cornerOffset := JS.default 0%Q (cornerOffset options) in
  let perspectiveY := JS.default 1%Q (perspectiveY options) in
  let depthScale := JS.default 0%Q (depthScale options) in
  let enableZIndex := JS.default false (enableZIndex options) in
  let gridWidth := (inject_Z maxC * cellWidth cs + maxChildWidth cs)%Q in
  let gridHeight := (inject_Z maxR * cellHeight cs + maxChildHeight cs)%Q in
  let x := (inject_Z (c slot) * cellWidth cs + maxChildWidth cs / 2)%Q in
  let y := (inject_Z (r slot) * cellHeight cs + maxChildHeight cs / 2)%Q in
  let '(x, y) :=
    if negb (Qeq_bool cornerOffset 0) && isCorner slot then
      if (r slot =? 0) && (c slot =? 0) then ((x - cornerOffset)%Q, (y - cornerOffset)%Q)
      else if (r slot =? 0) && (c slot =? maxC) then ((x + cornerOffset)%Q, (y - cornerOffset)%Q)
      else if (r slot =? maxR) && (c slot =? maxC) then ((x + cornerOffset)%Q, (y + cornerOffset)%Q)
      else if (r slot =? maxR) && (c slot =? 0) then ((x - cornerOffset)%Q, (y + cornerOffset)%Q)
      else (x, y)
    else (x, y) in
  let dx := (x - gridWidth / 2)%Q in
  let dy := (y - gridHeight / 2)%Q in
  let cosRot := 1%Q in
  let sinRot := 0%Q in
  let child := setPosition child (dx * cosRot - dy * sinRot)%Q
                           ((dx * sinRot + dy * cosRot) * perspectiveY)%Q in
  if enableZIndex || negb (Qeq_bool depthScale 0) then
    let half := (gridHeight / 2)%Q in
    let depthFactor := (vy (position child) / (if Qeq_bool half 0 then 1 else half))%Q in
    let child := if enableZIndex then setZIndex child (Qfloor (depthFactor * 1000)) else child in
    if negb (Qeq_bool depthScale 0) then
      let s := JS.Qmax (1 # 10) (1 + depthFactor * depthScale) in
      setScale child (option_map (fun _ => mkVec2 s s) (scale child))
    else child
  else child.

(** [components.forEach((child, i) => { if (i >= finalPath.length) return; ... })] *)
Fixpoint placeAlong {S : Type} (place : S -> LayoutComponent -> LayoutComponent)
    (finalPath : list S) (components : list LayoutComponent) : list LayoutComponent :=
  match components with
  | [] => []
  | child :: rest =>
      match finalPath with
      | [] => child :: rest
      | slot :: slots => place slot child :: placeAlong place slots rest
      end
  end.

(** The components after the [forEach] of step 6, for any way [place] of
    writing one item onto its slot. *)
Definition perimeterPlaced (place : PathSlot -> LayoutComponent -> LayoutComponent)
    (components : list LayoutComponent) (options : LayoutOptions) : list LayoutComponent :=
  let f := perimeterFlags options in
  let numComponents := Z.of_nat (List.length components) in
  if (numComponents =? 0) || (pfColumns f <=? 0) then components
  else placeAlong (fun s => place (snd s)) (perimeterFinalPath options numComponents)
                  components.

(** No result outside the rational fragment: a non-zero [offset] calls
    [Math.sqrt] and a non-zero [globalRotation] calls [Math.cos] and
    [Math.sin] on a non-zero angle. *)
Definition _layoutPerimeterGrid (components : list LayoutComponent)
    (options : LayoutOptions) : option (list LayoutComponent * Bounds) :=
  let f := perimeterFlags options in
  let numComponents := Z.of_nat (List.length components) in
  if (numComponents =? 0) || (pfColumns f <=? 0) then Some (components, zeroBounds) else
  if negb (Qeq_bool (JS.default 0%Q (offset options)) 0)
     || negb (Qeq_bool (JS.default 0%Q (globalRotation options)) 0) then None else
  let maxC := pfColumns f - 1 in
  let maxR := effectiveRows f numComponents - 1 in
  let cs := _calculateGridCellSize components options in
  let placed := perimeterPlaced (placeOnPerimeter options cs maxC maxR) components options in
  Some (placed, _calculateBoundsFromComponents placed options).

(** ** Strategies that place along a list of cells *)

Record Cell := mkCell { cellR : Z; cellC : Z }.

(** [child.position.set(pos.c * cellWidth + maxChildWidth / 2,
                        pos.r * cellHeight + maxChildHeight / 2)] *)
Definition placeInCell (cs : CellSize) (pos : Cell) (child : LayoutComponent) : LayoutComponent :=
  setPosition child (inject_Z (cellC pos) * cellWidth cs + maxChildWidth cs / 2)%Q
                    (inject_Z (cellR pos) * cellHeight cs + maxChildHeight cs / 2)%Q.

(** The bounds returned by the strategies that ignore [cornerOffset]. *)
Definition plainGridBounds (cs : CellSize) (columns totalRows : Z) : Bounds :=
  mkBounds 0 0 (inject_Z columns * cellWidth cs - cellColumnGap cs)%Q
               (inject_Z totalRows * cellHeight cs - cellRowGap cs)%Q.

(** ** Diamond fill: [_layoutSquareDiamondFill] *)

(** Lines 2807-2815 for one row [r]: [startCol] and [endCol], computed in
    doubles as the code does.  The quotient [verticalProgress] is rounded, so
    the ends of a row can lie one column inside those of the exact diamond.
    No columns when an end is not finite. *)
Definition diamondSpan (columns totalRows r : Z) : option (Z * Z) :=
  let centerX := Double.div (Double.sub (Double.ofZ columns) (Double.ofZ 1)) (Double.ofZ 2) in
  let centerY := Double.div (Double.sub (Double.ofZ totalRows) (Double.ofZ 1)) (Double.ofZ 2) in
  let verticalProgress :=
    if Double.gtb centerY (Double.ofZ 0)
    then Double.div (Double.abs (Double.sub (Double.ofZ r) centerY)) centerY
    else Double.ofZ 0 in
  let diamondWidth :=
    Double.max (Double.ofZ 1)
               (Double.mul (Double.ofZ columns)
                           (Double.sub (Double.ofZ 1) verticalProgress)) in
  match Double.ceil (Double.sub centerX (Double.div diamondWidth (Double.ofZ 2))),
        Double.floor (Double.add centerX (Double.div diamondWidth (Double.ofZ 2))) with
  | Some startCol, Some endCol => Some (startCol, endCol)
  | _, _ => None
  end.

(** Lines 2816-2821 for one row [r]: the cells of the row inside the diamond. *)
Definition diamondRow (columns totalRows r : Z) : list Cell :=
  match diamondSpan columns totalRows r with
  | Some (startCol, endCol) =>
      map (fun c => mkCell r c)
          (filter (fun c => (0 <=? c) && (c <? columns)) (range startCol (endCol + 1)))
  | None => []
  end.

Definition diamondValidPositions (columns totalRows : Z) : list Cell :=
  flat_map (diamondRow columns totalRows) (range 0 totalRows).

(** Lines 2824-2835: items beyond the valid cells are hidden. *)
Fixpoint placeOrHide (cs : CellSize) (validPositions : list Cell)
    (components : list LayoutComponent) : list LayoutComponent :=
  match components with
  | [] => []
  | child :: rest =>
      match validPositions with
      | [] => setVisible child false :: placeOrHide cs [] rest
      | pos :: more => placeInCell cs pos child :: placeOrHide cs more rest
      end
  end.

(** No result for [columns = 0] with a non-empty collection: [totalRows] is
    [Infinity] and the row loop does not end. *)
Definition _layoutSquareDiamondFill (components : list LayoutComponent)
    (options : LayoutOptions) : option (list LayoutComponent * Bounds) :=
  let columns := JS.default 5 (columns options) in
  match components with
  | [] => Some ([], zeroBounds)
  | _ :: _ =>
      if columns =? 0 then None else
      let cs := _calculateGridCellSize components options in
      let totalRows := JS.ceilDiv (Z.of_nat (List.length components)) columns in
      let validPositions := diamondValidPositions columns totalRows in
      Some (placeOrHide cs validPositions components, plainGridBounds cs columns totalRows)
  end.

(** ** Space-filling curves: [_layoutSquareHilbertCurve], [_layoutSquareZOrder] *)

(** [Math.pow(2, Math.ceil(Math.log2(m)))]: the smallest power of two that is
    at least [m] (the logarithm of a power of two is taken as exact).  For
    [m <= 0] the logarithm is [-Infinity] or [NaN] and no loop bounded by the
    result runs: 0 stands for both. *)
Definition gridSquareSide (m : Z) : Z :=
  if m <=? 0 then 0 else 2 ^ Z.log2_up m.

(** One round of the [for (s = 1; s < n; s *= 2)] loop of [d2xy].  [t] is
    the double [d / 4^k]; [&] and [^] truncate their operands, and the
    truncations of [t / 2] and [t] are the integer quotients used here. *)
Definition d2xyStep (s : Z) (st : Z * Z * Z) : Z * Z * Z :=
  let '(x, y, t) := st in
  let rx := Z.land 1 (t / 2) in
  let ry := Z.land 1 (Z.lxor t rx) in
  let '(x, y) :=
    if ry =? 0 then
      let '(x, y) := if rx =? 1 then (s - 1 - x, s - 1 - y) else (x, y) in
      (y, x)
    else (x, y) in
  (x + s * rx, y + s * ry, t / 4).

Fixpoint d2xyLoop (fuel : nat) (n s : Z) (st : Z * Z * Z) : option Cell :=
  if s <? n then
    match fuel with
    | O => None
    | S fuel' => d2xyLoop fuel' n (s * 2) (d2xyStep s st)
    end
  else let '(x, y, _) := st in Some (mkCell x y).

(** [d2xy(d)], which returns [{ r: x, c: y }]; [n] rounds are more than the
    loop can take. *)
Definition d2xy (n d : Z) : option Cell :=
  d2xyLoop (Z.to_nat n) n 1 (0, 0, d).

(** [for (let i = 0; i < n*n; i++) allPositionsOnCurve.push(d2xy(i))] *)
Fixpoint collect {A B : Type} (f : A -> option B) (l : list A) : option (list B) :=
  match l with
  | [] => Some []
  | a :: rest =>
      match f a, collect f rest with
      | Some b, Some bs => Some (b :: bs)
      | _, _ => None
      end
  end.

Definition allPositionsOnCurve (n : Z) : option (list Cell) :=
  collect (d2xy n) (range 0 (n * n)).

(** [pos.r < totalRows && pos.c < columns] *)
Definition inGrid (columns totalRows : Z) (pos : Cell) : bool :=
  (cellR pos <? totalRows) && (cellC pos <? columns).

(** Lines 795-809: walk the curve, give each in-grid cell to the next item,
    stop when the items run out. *)
Fixpoint assignAlongCurve (cs : CellSize) (columns totalRows : Z)
    (curve : list Cell) (components : list LayoutComponent) : list LayoutComponent :=
  match curve with
  | [] => components
  | pos :: rest =>
      match components with
      | [] => []
      | child :: more =>
          if inGrid columns totalRows pos
          then placeInCell cs pos child :: assignAlongCurve cs columns totalRows rest more
          else assignAlongCurve cs columns totalRows rest (child :: more)
      end
  end.

(** No result for [columns = 0] with a non-empty collection ([n] is
    [Infinity]). *)
Definition _layoutSquareHilbertCurve (components : list LayoutComponent)
    (options : LayoutOptions) : option (list LayoutComponent * Bounds) :=
  let columns := JS.default 4 (columns options) in
  match components with
  | [] => Some ([], zeroBounds)
  | _ :: _ =>
      if columns =? 0 then None else
      let cs := _calculateGridCellSize components options in
      let totalRows := JS.ceilDiv (Z.of_nat (List.length components)) columns in
      let n := gridSquareSide (Z.max columns totalRows) in
      match allPositionsOnCurve n with
      | None => None
      | Some curve =>
          Some (assignAlongCurve cs columns totalRows curve components,
                plainGridBounds cs columns totalRows)
      end
  end.

(** The recursive [generate(x, y, size)] of the Z-order layout; [positions]
    is the array it pushes to.  [None]: the recursion is deeper than [fuel]. *)
Fixpoint generate (fuel : nat) (numComponents columns totalRows : Z)
    (x y size : Z) (positions : list Cell) : option (list Cell) :=
  match fuel with
  | O => None
  | S fuel' =>
      if numComponents <=? Z.of_nat (List.length positions) then Some positions
      else if size =? 1 then
        Some (if (y <? totalRows) && (x <? columns)
              then positions ++ [mkCell y x] else positions)
      else
        let s := size / 2 in
        let go := generate fuel' numComponents columns totalRows in
        match go x y s positions with
        | None => None
        | Some p1 =>
            match go (x + s) y s p1 with
            | None => None
            | Some p2 =>
                match go x (y + s) s p2 with
                | None => None
                | Some p3 => go (x + s) (y + s) s p3
                end
            end
        end
  end.

(** No result for [columns = 0] ([Infinity]) nor for [columns < 0], where
    [gridDim] is 0 or [NaN] and [generate] recurses without end. *)
Definition _layoutSquareZOrder (components : list LayoutComponent)
    (options : LayoutOptions) : option (list LayoutComponent * Bounds) :=
  let columns := JS.default 4 (columns options) in
  match components with
  | [] => Some ([], zeroBounds)
  | _ :: _ =>
      if columns =? 0 then None else
      let cs := _calculateGridCellSize components options in
      let numComponents := Z.of_nat (List.length components) in
      let totalRows := JS.ceilDiv numComponents columns in
      let gridDim := gridSquareSide (Z.max columns totalRows) in
      match generate (S (Z.to_nat gridDim)) numComponents columns totalRows 0 0 gridDim [] with
      | None => None
      | Some positions =>
          Some (placeAlong (placeInCell cs) positions components,
                plainGridBounds cs columns totalRows)
      end
  end.

(** The cells of the [n] by [n] square, row by row. *)
Definition squareCells (n : Z) : list Cell :=
  flat_map (fun r => map (fun c => mkCell r c) (range 0 n)) (range 0 n).

(** The Z-order of the square of side [2^k] whose corner is column [x],
    row [y]: its four quadrants in turn, with no filter and no early stop. *)
Fixpoint mortonCells (k : nat) (x y : Z) : list Cell :=
  match k with
  | O => [mkCell y x]
  | S k' =>
      let s := 2 ^ Z.of_nat k' in
      mortonCells k' x y ++ mortonCells k' (x + s) y
      ++ mortonCells k' x (y + s) ++ mortonCells k' (x + s) (y + s)
  end.

(** [m] rounds of the loop of [d2xy], starting at side [s]. *)
Fixpoint d2xyRounds (m : nat) (s : Z) (st : Z * Z * Z) : Z * Z * Z :=
  match m with
  | O => st
  | S m' => d2xyRounds m' (s * 2) (d2xyStep s st)
  end.

Definition stateCell (st : Z * Z * Z) : Cell :=
  let '(x, y, _) := st in mkCell x y.

(** ** The occupancy-grid spanning placer: [_layoutSquareWithSpanning] *)

(** [occupancyGrid]: an array of rows, each row an array of booleans. *)
Definition Grid := list (list bool).

Module PlacedItem.
Record t := mk {
  component : LayoutComponent;
  row : Z;
  col : Z;
  rowSpan : Z;
  colSpan : Z;
  childWidth : Q;
  childHeight : Q
}.
End PlacedItem.

(** [Math.min(child.colSpan || 1, columns)] and [child.rowSpan || 1] *)
Definition effectiveColSpan (columns : Z) (child : LayoutComponent) : Z :=
  Z.min (if JS.truthyZ (colSpan child) then JS.default 1 (colSpan child) else 1) columns.

Definition effectiveRowSpan (child : LayoutComponent) : Z :=
  if JS.truthyZ (rowSpan child) then JS.default 1 (rowSpan child) else 1.

(** [occupancyGrid[r]?.[c]]: a missing row or cell is [undefined], falsy. *)
Definition occupied (grid : Grid) (r c : Z) : bool :=
  if (r <? 0) || (c <? 0) then false
  else nth (Z.to_nat c) (nth (Z.to_nat r) grid []) false.

(** [arr[n] = a]: writing past the end extends the array; the holes read as
    [undefined], here [d]. *)
Fixpoint setNth {A : Type} (d : A) (n : nat) (a : A) (l : list A) : list A :=
  match n, l with
  | O, [] => [a]
  | O, _ :: t => a :: t
  | S n', [] => d :: setNth d n' a []
  | S n', h :: t => h :: setNth d n' a t
  end.

(** [occupancyGrid[r][c] = true], for a row that was allocated. *)
Fixpoint markCell (grid : Grid) (r c : nat) : Grid :=
  match grid, r with
  | [], _ => []
  | rowArr :: rest, O => setNth false c true rowArr :: rest
  | rowArr :: rest, S r' => rowArr :: markCell rest r' c
  end.

(** [while (occupancyGrid.length <= last) occupancyGrid.push(Array(columns).fill(false))] *)
Definition ensureRows (columns : Z) (grid : Grid) (last : Z) : Grid :=
  grid ++ repeat (repeat false (Z.to_nat columns))
                 (Z.to_nat (last + 1 - Z.of_nat (List.length grid))).

(** Lines 1118-1127: is the block of [rowSpan] by [colSpan] cells at
    [(searchRow, c)] free? *)
Definition canFit (grid : Grid) (searchRow c rowSpan colSpan : Z) : bool :=
  forallb (fun r_offset =>
             forallb (fun c_offset => negb (occupied grid (searchRow + r_offset) (c + c_offset)))
                     (JS.upto colSpan))
          (JS.upto rowSpan).

(** Lines 1130-1134. *)
Definition markBlock (grid : Grid) (searchRow c rowSpan colSpan : Z) : Grid :=
  fold_left (fun g r_offset =>
               fold_left (fun g' c_offset =>
                            markCell g' (Z.to_nat (searchRow + r_offset))
                                     (Z.to_nat (c + c_offset)))
                         (JS.upto colSpan) g)
            (JS.upto rowSpan) grid.

(** The start columns visited by [for (let c = startCol; c !== endCol; c += step)]. *)
Definition candidateColumns (snake : bool) (columns colSpan searchRow : Z) : list Z :=
  let isSnakeRow := snake && negb (JS.rem searchRow 2 =? 0) in
  if isSnakeRow then rev (range 0 (columns - colSpan + 1)) else range 0 columns.

(** The [while (!foundPosition)] loop for one item.  [None]: no position
    within [fuel] rows. *)
Fixpoint findPosition (fuel : nat) (snake : bool) (columns rowSpan colSpan : Z)
    (grid : Grid) (searchRow : Z) : option (Grid * Z * Z) :=
  match fuel with
  | O => None
  | S fuel' =>
      let grid := ensureRows columns grid (searchRow + rowSpan - 1) in
      match find (fun c => canFit grid searchRow c rowSpan colSpan)
                 (candidateColumns snake columns colSpan searchRow) with
      | Some c => Some (markBlock grid searchRow c rowSpan colSpan, searchRow, c)
      | None => findPosition fuel' snake columns rowSpan colSpan grid (searchRow + 1)
      end
  end.

Record PlacerState := mkPlacerState {
  occupancyGrid : Grid;
  maxRowUsed : Z;
  placedItems : list PlacedItem.t
}.

(** The [for (const child of components)] loop of lines 1097-1155.  Rows past
    the end of the grid are all alike up to the parity of the snake, so the
    search of an item either succeeds within two rows past the end or never
    does: the fuel [length grid + 2] loses no result. *)
Fixpoint placeAll (options : LayoutOptions) (snake : bool) (columns : Z)
    (components : list LayoutComponent) (st : PlacerState) : option PlacerState :=
  match components with
  | [] => Some st
  | child :: rest =>
      let childWidth := if useFixed options then JS.default 0%Q (fixedWidth options)
                        else width child in
      let childHeight := if useFixed options then JS.default 0%Q (fixedHeight options)
                         else height child in
      let colSpan := effectiveColSpan columns child in
      let rowSpan := effectiveRowSpan child in
      match findPosition (List.length (occupancyGrid st) + 2) snake columns rowSpan colSpan
                         (occupancyGrid st) 0 with
      | None => None
      | Some (grid, searchRow, c) =>
          placeAll options snake columns rest
                   (mkPlacerState grid (Z.max (maxRowUsed st) (searchRow + rowSpan - 1))
                      (placedItems st
                       ++ [PlacedItem.mk child searchRow c rowSpan colSpan childWidth childHeight]))
      end
  end.

(** The [switch] blocks of lines 1167-1179 on the spanned block. *)
Definition alignInSpan (mode : string) (cell spanned child : Q) : Q :=
  if JS.streq mode "end" then (cell + spanned - child / 2)%Q
  else if JS.streq mode "center" then (cell + spanned / 2)%Q
  else (cell + child / 2)%Q.

(** Lines 1159-1206 for one placed item. *)
Definition projectPlaced (options : LayoutOptions) (cs : CellSize) (columns totalRows : Z)
    (item : PlacedItem.t) : LayoutComponent :=
  let cornerOffset := JS.default 0%Q (cornerOffset options) in
  let spannedWidth := (inject_Z (PlacedItem.colSpan item) * cellWidth cs - cellColumnGap cs)%Q in
  let spannedHeight := (inject_Z (PlacedItem.rowSpan item) * cellHeight cs - cellRowGap cs)%Q in
  let cellX := (inject_Z (PlacedItem.col item) * cellWidth cs)%Q in
  let cellY := (inject_Z (PlacedItem.row item) * cellHeight cs)%Q in
  let x := alignInSpan (JS.default "start"%string (justifyItems options))
                       cellX spannedWidth (PlacedItem.childWidth item) in
  let y := alignInSpan (JS.default "start"%string (alignItems options))
                       cellY spannedHeight (PlacedItem.childHeight item) in
  let '(x, y) :=
    if Qeq_bool cornerOffset 0 then (x, y) else
    let isTop := PlacedItem.row item =? 0 in
    let isBottom := PlacedItem.row item + PlacedItem.rowSpan item =? totalRows in
    let isLeft := PlacedItem.col item =? 0 in
    let isRight := PlacedItem.col item + PlacedItem.colSpan item =? columns in
    let '(x, y) := if isTop && isLeft then ((x - cornerOffset)%Q, (y - cornerOffset)%Q)
                   else (x, y) in
    let '(x, y) := if isTop && isRight then ((x + cornerOffset)%Q, (y - cornerOffset)%Q)
                   else (x, y) in
    let '(x, y) := if isBottom && isLeft then ((x - cornerOffset)%Q, (y + cornerOffset)%Q)
                   else (x, y) in
    if isBottom && isRight then ((x + cornerOffset)%Q, (y + cornerOffset)%Q) else (x, y) in
  setPosition (PlacedItem.component item) x y.

(** The placement alone: the final state of the occupancy grid and the
    placed items.  No result for [columns < 0], where [Array(columns)] throws
    a [RangeError] as soon as a row is allocated. *)
Definition spanningPlacement (components : list LayoutComponent)
    (options : LayoutOptions) : option PlacerState :=
  let columns := JS.default 3 (columns options) in
  let snake := JS.streq (JS.default "default"%string (flowDirection options)) "snake" in
  if columns <? 0 then None
  else placeAll options snake columns components (mkPlacerState [] 0 []).

Definition _layoutSquareWithSpanning (components : list LayoutComponent)
    (options : LayoutOptions) : option (list LayoutComponent * Bounds) :=
  let columns := JS.default 3 (columns options) in
  match components with
  | [] => Some ([], zeroBounds)
  | _ :: _ =>
      let cs := _calculateGridCellSize components options in
      match spanningPlacement components options with
      | None => None
      | Some st =>
          let totalRows := maxRowUsed st + 1 in
          let gridWidth := (inject_Z columns * cellWidth cs - cellColumnGap cs)%Q in
          let totalHeight := (inject_Z totalRows * cellHeight cs - cellRowGap cs)%Q in
          Some (map (projectPlaced options cs columns totalRows) (placedItems st),
                gridBounds (JS.default 0%Q (cornerOffset options)) gridWidth totalHeight)
      end
  end.

(** The cells of the block of a placed item. *)
Definition blockCells (item : PlacedItem.t) : list Cell :=
  flat_map (fun r_offset =>
              map (fun c_offset => mkCell (PlacedItem.row item + r_offset)
                                          (PlacedItem.col item + c_offset))
                  (JS.upto (PlacedItem.colSpan item)))
           (JS.upto (PlacedItem.rowSpan item)).

(** The spans that the data model allows: positive when present. *)
Definition validSpans (child : LayoutComponent) : Prop :=
  (forall k, colSpan child = Some k -> 0 < k) /\
  (forall k, rowSpan child = Some k -> 0 < k).

(** Every row from index [from] on is free (or missing). *)
Definition freshFrom (from : nat) (grid : Grid) : Prop :=
  forall r c, (from <= r)%nat -> nth c (nth r grid []) false = false.

(** ** Corner converge: [_layoutSquareCornerConverge] *)

(** Lines 2747-2764: the four legs of one shell, each without its last cell. *)
Definition shellPaths (minR maxR minC maxC : Z) : list (list Cell) :=
  let pathTL := map (fun i => mkCell minR (minC + i)) (range 0 (maxC - minC + 1)) in
  let pathBR := map (fun i => mkCell maxR (maxC - i)) (range 0 (maxC - minC + 1)) in
  let pathTR := map (fun i => mkCell (minR + i) maxC) (range 0 (maxR - minR + 1)) in
  let pathBL := map (fun i => mkCell (maxR - i) minC) (range 0 (maxR - minR + 1)) in
  [removelast pathTL; removelast pathTR; removelast pathBR; removelast pathBL].

(** Lines 2768-2775: the legs interleaved, one cell of each in turn. *)
Definition roundRobin (paths : list (list Cell)) : list Cell :=
  let maxPathLength := fold_right Nat.max 0%nat (map (@List.length Cell) paths) in
  flat_map (fun i =>
              flat_map (fun p => match nth_error p i with Some pos => [pos] | None => [] end)
                       paths)
           (seq 0 maxPathLength).

(** The [while] loop of lines 2746-2778. *)
Fixpoint convergeShells (fuel : nat) (numComponents minR maxR minC maxC : Z)
    (finalPositions : list Cell) : option (list Cell) :=
  if (Z.of_nat (List.length finalPositions) <? numComponents)
     && (minR <=? maxR) && (minC <=? maxC)
  then
    match fuel with
    | O => None
    | S fuel' =>
        convergeShells fuel' numComponents (minR + 1) (maxR - 1) (minC + 1) (maxC - 1)
                       (finalPositions ++ roundRobin (shellPaths minR maxR minC maxC))
    end
  else Some finalPositions.

(** The cells generated for [numComponents] items on [columns] columns; a
    shell per round, at most [totalRows] rounds. *)
Definition cornerConvergePositions (numComponents columns : Z) : option (list Cell) :=
  let totalRows := JS.ceilDiv numComponents columns in
  convergeShells (S (Z.to_nat totalRows)) numComponents 0 (totalRows - 1) 0 (columns - 1) [].

(** No result for [columns = 0] with a non-empty collection: [totalRows] and
    the bounds are not finite. *)
Definition _layoutSquareCornerConverge (components : list LayoutComponent)
    (options : LayoutOptions) : option (list LayoutComponent * Bounds) :=
  let columns := JS.default 5 (columns options) in
  match components with
  | [] => Some ([], zeroBounds)
  | _ :: _ =>
      if columns =? 0 then None else
      let cs := _calculateGridCellSize components options in
      let numComponents := Z.of_nat (List.length components) in
      let totalRows := JS.ceilDiv numComponents columns in
      match cornerConvergePositions numComponents columns with
      | None => None
      | Some finalPositions =>
          Some (placeAlong (placeInCell cs) finalPositions components,
                plainGridBounds cs columns totalRows)
      end
  end.

(** ** Boustrophedon: [_layoutSquareBoustrophedon] *)

Definition boustrophedonPlace (cs : CellSize) (columns : Z)
    (child : LayoutComponent) (i : Z) : LayoutComponent :=
  let row := JS.floorDiv i columns in
  let baseCol := JS.rem i columns in
  let isReversedRow := negb (JS.rem row 2 =? 0) in
  let col := if isReversedRow then columns - 1 - baseCol else baseCol in
  let child := placeInCell cs (mkCell row col) child in
  setScaleX child (if isReversedRow then (-1)%Q else 1%Q).

(** No result for [columns = 0] with a non-empty collection. *)
Definition _layoutSquareBoustrophedon (components : list LayoutComponent)
    (options : LayoutOptions) : option (list LayoutComponent * Bounds) :=
  let columns := JS.default 5 (columns options) in
  match components with
  | [] => Some ([], zeroBounds)
  | _ :: _ =>
      if columns =? 0 then None else
      let cs := _calculateGridCellSize components options in
      let totalRows := JS.ceilDiv (Z.of_nat (List.length components)) columns in
      Some (forEachIdx (boustrophedonPlace cs columns) components 0,
            plainGridBounds cs columns totalRows)
  end.

(** ** The entry point of the square grid: [_layoutSquare] *)

(** Lines 377-380: [scale.x = 1] for an item with a scale, [visible = true]
    for an item with a visibility flag. *)
Definition resetForLayout (child : LayoutComponent) : LayoutComponent :=
  setVisible (setScaleX child 1%Q) true.

(** [s.replace(pat, '')]: the first occurrence of [pat] is removed. *)
Definition removeFirst (pat s : string) : string :=
  match String.index 0 pat s with
  | Some i =>
      String.append (String.substring 0 i s)
                    (String.substring (i + String.length pat)
                                      (String.length s - (i + String.length pat)) s)
  | None => s
  end.

(** [[...components].sort((a, b) => (b.value || 0) - (a.value || 0))]: a
    stable sort by decreasing value. *)
Definition valueOf (child : LayoutComponent) : Q :=
  if JS.truthyQ (value child) then JS.default 0%Q (value child) else 0%Q.

Fixpoint insertByValue (child : LayoutComponent) (sorted : list LayoutComponent)
  : list LayoutComponent :=
  match sorted with
  | [] => [child]
  | other :: rest =>
      if JS.Qgtb (valueOf other) (valueOf child) then other :: insertByValue child rest
      else child :: other :: rest
  end.

Definition sortByValue (components : list LayoutComponent) : list LayoutComponent :=
  fold_right insertByValue [] components.

Inductive Strategy :=
| GravityFill | SymmetricOutward | ClusteredFill | Boustrophedon | BraidFlow
| Interlaced | RandomWalk | HilbertCurve | PerimeterFirst | ZOrder | Spiral
| DiagonalFill | BlockFill | CornerConverge | DiamondFill | WithSpanning | Simple.

(** Lines 374 and 382-390: the flow direction and the spanning flag after
    the honeycomb and value-weighted adjustments, and whether the items are
    sorted by value. *)
Definition resolveFlow (options : LayoutOptions) : string * bool * bool :=
  let useGridSpanning := JS.default false (useGridSpanning options) in
  let flowDirection := JS.default "default"%string (flowDirection options) in
  let useGridSpanning :=
    if JS.streq flowDirection "honeycomb" && useGridSpanning then false
    else useGridSpanning in
  if String.prefix "value-weighted" flowDirection then
    let stripped := removeFirst "value-weighted-" flowDirection in
    ((if JS.streq stripped "" then "default"%string else stripped), useGridSpanning, true)
  else (flowDirection, useGridSpanning, false).

(** Lines 392-442: the strategy that the call is handed to. *)
Definition selectStrategy (flowDirection : string) (useGridSpanning : bool) : Strategy :=
  if String.prefix "gravity-fill" flowDirection then GravityFill
  else if JS.streq flowDirection "symmetric-outward" then SymmetricOutward
  else if JS.streq flowDirection "clustered-fill" then ClusteredFill
  else if JS.streq flowDirection "boustrophedon" then Boustrophedon
  else if JS.streq flowDirection "braid-flow" then BraidFlow
  else if JS.streq flowDirection "interlaced-fill" then Interlaced
  else if JS.streq flowDirection "random-walk" then RandomWalk
  else if JS.streq flowDirection "hilbert-curve" then HilbertCurve
  else if JS.streq flowDirection "perimeter-first" then PerimeterFirst
  else if JS.streq flowDirection "z-order" then ZOrder
  else if JS.streq flowDirection "spiral-out" || JS.streq flowDirection "spiral-in" then Spiral
  else if JS.streq flowDirection "diagonal-fill" then DiagonalFill
  else if JS.streq flowDirection "block-fill" then BlockFill
  else if JS.streq flowDirection "corner-converge" then CornerConverge
  else if JS.streq flowDirection "diamond-fill" then DiamondFill
  else if useGridSpanning then WithSpanning
  else Simple.

(** The array handed to the strategy: the caller's items after the reset
    loop, sorted by value for a value-weighted flow.  The sorted copy holds
    the same objects, so the reset shows in it. *)
Definition componentsToLayout (components : list LayoutComponent)
    (options : LayoutOptions) : list LayoutComponent :=
  let reset := map resetForLayout components in
  let '(_, _, weighted) := resolveFlow options in
  if weighted then sortByValue reset else reset.

(** An item as the reset loop leaves it: not hidden and not mirrored. *)
Definition shownUnmirrored (child : LayoutComponent) : Prop :=
  visible child <> Some false /\
  match scale child with Some s => vx s = 1%Q | None => True end.

(** The strategy and the flow direction that a call resolves to. *)
Definition selectedStrategy (options : LayoutOptions) : Strategy :=
  let '(flowDirection, useGridSpanning, _) := resolveFlow options in
  selectStrategy flowDirection useGridSpanning.

Definition resolvedFlowDirection (options : LayoutOptions) : string :=
  let '(flowDirection, _, _) := resolveFlow options in flowDirection.

(** The options under which the simple grid runs its default flow: the flow
    direction, [flowReverse], [lastRowAlign] and [cornerOffset] absent or at
    their default values. *)
Definition defaultFlow (options : LayoutOptions) : Prop :=
  JS.default "default"%string (flowDirection options) = "default"%string /\
  JS.default false (flowReverse options) = false /\
  JS.default "start"%string (lastRowAlign options) = "start"%string /\
  (JS.default 0%Q (cornerOffset options) == 0)%Q.

(** The item's own layout size: the fixed size in fixed sizing mode. *)
Definition layoutWidth (options : LayoutOptions) (child : LayoutComponent) : Q :=
  if useFixed options then JS.default 0%Q (fixedWidth options) else width child.

Definition layoutHeight (options : LayoutOptions) (child : LayoutComponent) : Q :=
  if useFixed options then JS.default 0%Q (fixedHeight options) else height child.

(** The cell at row [r], column [c] of the grid is marked. *)
Definition marked (grid : Grid) (r c : nat) : bool := nth c (nth r grid []) false.

(** The state of the placer is consistent: the blocks of the placed items
    start at non-negative coordinates, all their cells are marked in the
    occupancy grid, and no cell belongs to two blocks. *)
Definition placerConsistent (st : PlacerState) : Prop :=
  (forall item, In item (placedItems st) ->
     0 <= PlacedItem.row item /\ 0 <= PlacedItem.col item /\
     forall pos, In pos (blockCells item) ->
       marked (occupancyGrid st) (Z.to_nat (cellR pos)) (Z.to_nat (cellC pos)) = true) /\
  NoDup (flat_map blockCells (placedItems st)).

(** The cells of the grid of [columns] columns and [totalRows] rows. *)
Definition gridCells (columns totalRows : Z) : list Cell :=
  flat_map (fun r => map (fun c => mkCell r c) (range 0 columns)) (range 0 totalRows).

(** A component of the given size and value. *)
Definition valuedBox (w h v : Q) : LayoutComponent :=
  mkComponent (mkVec2 0 0) None w h (Some v) None None None None None.

(** Lines 604-607 of [_layoutSquareBoustrophedon]: the cell of the item of
    index [i]. *)
Definition boustrophedonCell (columns i : Z) : Cell :=
  let row := JS.floorDiv i columns in
  let baseCol := JS.rem i columns in
  let isReversedRow := negb (JS.rem row 2 =? 0) in
  mkCell row (if isReversedRow then columns - 1 - baseCol else baseCol).

(** ** Strategies that hand out a sequence of cells *)

(** The shared frame of the strategies that first build [positions] and then
    run [components.forEach((child, i) => { if (i >= positions.length) return;
    ... })]: the empty-collection guard, the cell metrics, the row count, the
    placement along the sequence and the returned box.  No result for
    [columns = 0] with a non-empty collection ([totalRows] is [Infinity]). *)
Definition layoutOnPositions (defaultColumns : Z) (positions : Z -> Z -> list Cell)
    (components : list LayoutComponent) (options : LayoutOptions)
  : option (list LayoutComponent * Bounds) :=
  let columns := JS.default defaultColumns (columns options) in
  match components with
  | [] => Some ([], zeroBounds)
  | _ :: _ =>
      if columns =? 0 then None else
      let cs := _calculateGridCellSize components options in
      let totalRows := JS.ceilDiv (Z.of_nat (List.length components)) columns in
      Some (placeAlong (placeInCell cs) (positions columns totalRows) components,
            plainGridBounds cs columns totalRows)
  end.

(** [for (let c = 0; c < columns; c++) positions.push({ r, c })] *)
Definition rowCells (columns r : Z) : list Cell :=
  map (fun c => mkCell r c) (range 0 columns).

(** *** Symmetric outward: [_layoutSquareSymmetricOutward] *)

(** The rows in the order in which lines 506-524 push them. *)
Definition symmetricOutwardRows (totalRows : Z) : list Z :=
  let centerRow := JS.floorDiv totalRows 2 in
  (if centerRow <? totalRows then [centerRow] else []) ++
  flat_map (fun offset =>
              let rowBelow := centerRow + offset in
              let rowAbove := centerRow - offset in
              (if rowBelow <? totalRows then [rowBelow] else []) ++
              (if 0 <=? rowAbove then [rowAbove] else []))
           (range 1 (Z.max centerRow (totalRows - 1 - centerRow) + 1)).

Definition symmetricOutwardPositions (columns totalRows : Z) : list Cell :=
  flat_map (rowCells columns) (symmetricOutwardRows totalRows).

Definition _layoutSquareSymmetricOutward :=
  layoutOnPositions 5 symmetricOutwardPositions.

(** *** Interlaced: [_layoutSquareInterlaced] *)

Definition onEvenSquare (pos : Cell) : bool := JS.rem (cellR pos + cellC pos) 2 =? 0.

(** The cells to which the two double loops of lines 680-694 call
    [placeComponent], in order. *)
Definition interlacedPositions (columns totalRows : Z) : list Cell :=
  filter onEvenSquare (gridCells columns totalRows) ++
  filter (fun pos => negb (onEvenSquare pos)) (gridCells columns totalRows).

Definition _layoutSquareInterlaced := layoutOnPositions 5 interlacedPositions.

(** *** Diagonal fill: [_layoutSquareDiagonalFill] *)

(** The inner loop of lines 2857-2871 for one value of [sum]. *)
Definition diagonalCells (columns totalRows sum : Z) : list Cell :=
  map (fun r => mkCell r (sum - r))
      (filter (fun r => (0 <=? sum - r) && (sum - r <? columns)) (range 0 totalRows)).

Definition diagonalPositions (columns totalRows : Z) : list Cell :=
  let max_sum := totalRows + columns - 2 in
  flat_map (diagonalCells columns totalRows) (range 0 (max_sum + 1)).

Definition _layoutSquareDiagonalFill := layoutOnPositions 5 diagonalPositions.

(** *** Gravity fill: [_layoutSquareGravityFill] *)

(** [s.endsWith(suffix)] *)
Definition endsWith (s suffix : string) : bool :=
  let ls := String.length s in
  let lf := String.length suffix in
  (lf <=? ls)%nat && JS.streq (String.substring (ls - lf) lf s) suffix.

(** Lines 457-463. *)
Definition gravityPoint (flowDirection : string) (columns totalRows : Z) : Cell :=
  if endsWith flowDirection "-top-left" then mkCell 0 0
  else if endsWith flowDirection "-top-right" then mkCell 0 (columns - 1)
  else if endsWith flowDirection "-bottom-left" then mkCell (totalRows - 1) 0
  else if endsWith flowDirection "-bottom-right" then mkCell (totalRows - 1) (columns - 1)
  else if endsWith flowDirection "-top" then mkCell 0 (JS.floorDiv columns 2)
  else if endsWith flowDirection "-bottom" then mkCell (totalRows - 1) (JS.floorDiv columns 2)
  else mkCell (JS.floorDiv totalRows 2) (JS.floorDiv columns 2).

Definition gravityDistance (g pos : Cell) : Z :=
  Z.abs (cellR pos - cellR g) + Z.abs (cellC pos - cellC g).

(** The comparator of lines 472-477. *)
Definition gravityCompare (g a b : Cell) : Z :=
  let distA := gravityDistance g a in
  let distB := gravityDistance g b in
  if distA =? distB
  then (if cellR a =? cellR b then cellC a - cellC b else cellR a - cellR b)
  else distA - distB.

(** [positions.sort(compare)].  The comparator is a total order on cells and
    the cells of [positions] are pairwise distinct, so the sorted array is
    the same for every sorting algorithm; it is built by insertion here. *)
Fixpoint insertCell (compare : Cell -> Cell -> Z) (pos : Cell) (sorted : list Cell)
  : list Cell :=
  match sorted with
  | [] => [pos]
  | other :: rest =>
      if 0 <? compare pos other then other :: insertCell compare pos rest
      else pos :: other :: rest
  end.

Definition sortCells (compare : Cell -> Cell -> Z) (positions : list Cell) : list Cell :=
  fold_right (insertCell compare) [] positions.

Definition gravityPositions (flowDirection : string) (columns totalRows : Z) : list Cell :=
  sortCells (gravityCompare (gravityPoint flowDirection columns totalRows))
            (gridCells columns totalRows).

Definition _layoutSquareGravityFill (components : list LayoutComponent)
    (options : LayoutOptions) : option (list LayoutComponent * Bounds) :=
  let flowDirection := JS.default "gravity-fill-center"%string (flowDirection options) in
  layoutOnPositions 5 (gravityPositions flowDirection) components options.

(** *** Braid flow: [_layoutSquareBraidFlow] *)

(** Lines 640-645: the cell [(finalRow, finalCol)] of the item of index [i]. *)
Definition braidCell (columns braidRows i : Z) : Cell :=
  let itemsPerBraidBlock := braidRows * columns in
  let blockIndex := JS.floorDiv i itemsPerBraidBlock in
  let indexInBlock := JS.rem i itemsPerBraidBlock in
  let rowInBlock := JS.rem indexInBlock braidRows in
  let colInBlock := JS.floorDiv indexInBlock braidRows in
  mkCell (blockIndex * braidRows + rowInBlock) colInBlock.

Definition braidPlace (cs : CellSize) (columns braidRows totalRows : Z)
    (child : LayoutComponent) (i : Z) : LayoutComponent :=
  let pos := braidCell columns braidRows i in
  if cellR pos <? totalRows then placeInCell cs pos child else child.

(** [braidRows] is read from the options object outside its declared type
    ([options as any]); it is an argument here, which the router takes from
    the key [braidRows] of the options.  No result for [columns = 0]
    with a non-empty collection and a positive [braidRows]. *)
Definition _layoutSquareBraidFlow (braidRows : option Z)
    (components : list LayoutComponent) (options : LayoutOptions)
  : option (list LayoutComponent * Bounds) :=
  let columns := JS.default 6 (columns options) in
  let braidRows := JS.default 2 braidRows in
  match components with
  | [] => Some ([], zeroBounds)
  | _ :: _ =>
      if braidRows <=? 0 then Some (components, zeroBounds) else
      if columns =? 0 then None else
      let cs := _calculateGridCellSize components options in
      let totalRows := JS.ceilDiv (Z.of_nat (List.length components)) columns in
      Some (forEachIdx (braidPlace cs columns braidRows totalRows) components 0,
            plainGridBounds cs columns totalRows)
  end.

(** *** Block fill: [_layoutSquareBlockFill] *)

(** The two inner loops of lines 2700-2716 for the block [(br, bc)]: the
    cells of the block that lie in the grid. *)
Definition fillBlock (blockWidth blockHeight columns totalRows br bc : Z) : list Cell :=
  flat_map (fun rInBlock =>
    flat_map (fun cInBlock =>
      let finalRow := br * blockHeight + rInBlock in
      let finalCol := bc * blockWidth + cInBlock in
      if (finalRow <? totalRows) && (finalCol <? columns)
      then [mkCell finalRow finalCol] else [])
      (range 0 blockWidth))
    (range 0 blockHeight).

(** The cells in the order in which the four loops reach them; the [break]s
    end the loops once every item has a cell. *)
Definition blockFillPositions (blockWidth blockHeight columns totalRows : Z) : list Cell :=
  let numBlockRows := JS.ceilDiv totalRows blockHeight in
  let numBlockCols := JS.ceilDiv columns blockWidth in
  flat_map (fun br =>
    flat_map (fun bc => fillBlock blockWidth blockHeight columns totalRows br bc)
             (range 0 numBlockCols))
    (range 0 numBlockRows).

(** [blockWidth] and [blockHeight] are read from the options object outside
    its declared type; they are arguments here, which the router takes from
    the keys [blockWidth] and [blockHeight] of the options. *)
Definition _layoutSquareBlockFill (blockWidth blockHeight : option Z)
    (components : list LayoutComponent) (options : LayoutOptions)
  : option (list LayoutComponent * Bounds) :=
  let blockWidth := JS.default 2 blockWidth in
  let blockHeight := JS.default 2 blockHeight in
  match components with
  | [] => Some ([], zeroBounds)
  | _ :: _ =>
      if (blockWidth <=? 0) || (blockHeight <=? 0) then Some (components, zeroBounds)
      else layoutOnPositions 6 (blockFillPositions blockWidth blockHeight) components options
  end.

(** *** Perimeter first: [_layoutSquarePerimeterFirst] *)

(** [p.r === pos.r && p.c === pos.c] *)
Definition sameCell (pos p : Cell) : bool :=
  (cellR p =? cellR pos) && (cellC p =? cellC pos).

(** Lines 976-986: the four sides, clockwise from the top-left corner. *)
Definition perimeterPositions (columns totalRows : Z) : list Cell :=
  if (0 <? totalRows) && (0 <? columns) then
    map (fun c => mkCell 0 c) (range 0 columns) ++
    map (fun r => mkCell r (columns - 1)) (range 1 totalRows) ++
    (if 1 <? totalRows
     then map (fun c => mkCell (totalRows - 1) c) (rev (range 0 (columns - 1)))
     else []) ++
    (if 1 <? columns
     then map (fun r => mkCell r 0) (rev (range 1 (totalRows - 1)))
     else [])
  else [].

(** [self.filter((x, index) => keep(x, index))], from index [i] on. *)
Fixpoint filterWithIndex {A : Type} (keep : A -> nat -> bool) (l : list A) (i : nat)
  : list A :=
  match l with
  | [] => []
  | a :: rest =>
      if keep a i then a :: filterWithIndex keep rest (S i)
      else filterWithIndex keep rest (S i)
  end.

(** Lines 987-989: a cell is kept at the index of its first occurrence. *)
Definition uniquePerimeterPos (perimeterPositions : list Cell) : list Cell :=
  filterWithIndex
    (fun pos index =>
       match findIndex (sameCell pos) perimeterPositions with
       | Some first => Nat.eqb index first
       | None => false
       end)
    perimeterPositions 0.

(** Lines 1004-1007: the cell of the interior item of index [i]. *)
Definition interiorCell (interiorColumns i : Z) : Cell :=
  mkCell (JS.floorDiv i interiorColumns + 1) (JS.rem i interiorColumns + 1).

(** No result for [columns = 0] with a non-empty collection. *)
Definition _layoutSquarePerimeterFirst (components : list LayoutComponent)
    (options : LayoutOptions) : option (list LayoutComponent * Bounds) :=
  let columns := JS.default 5 (columns options) in
  match components with
  | [] => Some ([], zeroBounds)
  | _ :: _ =>
      if columns =? 0 then None else
      let cs := _calculateGridCellSize components options in
      let totalRows := JS.ceilDiv (Z.of_nat (List.length components)) columns in
      let uniquePerimeterPos := uniquePerimeterPos (perimeterPositions columns totalRows) in
      let perimeterCount := Nat.min (List.length uniquePerimeterPos) (List.length components) in
      let perimeterComponents := firstn perimeterCount components in
      let interiorComponents := skipn perimeterCount components in
      let placedPerimeter :=
        placeAlong (placeInCell cs) uniquePerimeterPos perimeterComponents in
      let placedInterior :=
        if (0 <? List.length interiorComponents)%nat && (2 <? columns) && (2 <? totalRows)
        then forEachIdx (fun child i => placeInCell cs (interiorCell (columns - 2) i) child)
                        interiorComponents 0
        else interiorComponents in
      Some (placedPerimeter ++ placedInterior, plainGridBounds cs columns totalRows)
  end.

(** The cells of the interior in the order in which the interior loop can
    reach them. *)
Definition interiorPositions (columns totalRows : Z) : list Cell :=
  if (2 <? columns) && (2 <? totalRows)
  then map (interiorCell (columns - 2)) (range 0 ((columns - 2) * (totalRows - 2)))
  else [].

Definition onBoundary (columns totalRows : Z) (pos : Cell) : Prop :=
  cellR pos = 0 \/ cellR pos = totalRows - 1 \/ cellC pos = 0 \/ cellC pos = columns - 1.

(** The grid cell of a slot of the perimeter loop. *)
Definition slotCell (s : PathSlot) : Cell := mkCell (r s) (c s).

(** The four corner cells of the grid whose last column is [maxC] and whose
    last row is [maxR]. *)
Definition atCorner (maxC maxR : Z) (pos : Cell) : Prop :=
  (cellR pos = 0 \/ cellR pos = maxR) /\ (cellC pos = 0 \/ cellC pos = maxC).

(** ** Flex wrap: the row breaking of [_layoutFlexWrap] *)






(** ** Masonry: [_layoutMasonry] *)

(** Lines 1654-1659: the first column of least height. *)
Definition shortestColumn (columnHeights : list Q) : nat :=
  fold_left (fun shortestColumnIndex i =>
               if JS.Qgtb (nth shortestColumnIndex columnHeights 0%Q) (nth i columnHeights 0%Q)
               then i else shortestColumnIndex)
            (seq 1 (List.length columnHeights - 1)) 0%nat.

(** One turn of the loop of lines 1653-1666; the state is [columnHeights] and
    the items placed so far. *)
Definition masonryStep (options : LayoutOptions) (cs : CellSize)
    (st : list Q * list LayoutComponent) (child : LayoutComponent)
  : list Q * list LayoutComponent :=
  let '(columnHeights, placed) := st in
  let shortestColumnIndex := shortestColumn columnHeights in
  let childHeight := layoutHeight options child in
  let x := (inject_Z (Z.of_nat shortestColumnIndex) * cellWidth cs + maxChildWidth cs / 2)%Q in
  let y := (nth shortestColumnIndex columnHeights 0 + childHeight / 2)%Q in
  (setNth 0%Q shortestColumnIndex
          (nth shortestColumnIndex columnHeights 0 + (childHeight + cellRowGap cs))%Q
          columnHeights,
   placed ++ [setPosition child x y]).

(** [Math.max(...columnHeights)] for a non-empty array. *)
Definition maxOf (heights : list Q) : Q :=
  match heights with
  | [] => 0%Q
  | h :: rest => fold_left JS.Qmax rest h
  end.

(** No result for [columns <= 0] with a non-empty collection: [Array(columns)]
    throws for a negative length and an empty array gives [NaN] heights. *)
Definition _layoutMasonry (components : list LayoutComponent) (options : LayoutOptions)
  : option (list LayoutComponent * Bounds) :=
  let columns := JS.default 3 (columns options) in
  match components with
  | [] => Some ([], zeroBounds)
  | _ :: _ =>
      if columns <=? 0 then None else
      let cs := _calculateGridCellSize components options in
      let '(columnHeights, placed) :=
        fold_left (masonryStep options cs) components
                  (repeat 0%Q (Z.to_nat columns), []) in
      let totalWidth := (inject_Z columns * cellWidth cs - cellColumnGap cs)%Q in
      let totalHeight := (maxOf columnHeights - cellRowGap cs)%Q in
      Some (placed, mkBounds 0 0 totalWidth totalHeight)
  end.

(** The top and the bottom edge of a placed item. *)
Definition topOf (options : LayoutOptions) (child : LayoutComponent) : Q :=
  (vy (position child) - layoutHeight options child / 2)%Q.

Definition bottomOf (options : LayoutOptions) (child : LayoutComponent) : Q :=
  (vy (position child) + layoutHeight options child / 2)%Q.

(** The state of the masonry loop after the items [processed]: [n] columns
    of non-negative height; the placed items are the processed ones at new
    positions, each in one of the columns, below the top edge and, with the
    row gap, above the height of its column; and an earlier item of the same
    column ends, with the row gap, above a later one. *)
Definition masonryInvariant (options : LayoutOptions) (cs : CellSize) (n : nat)
    (processed : list LayoutComponent) (st : list Q * list LayoutComponent) : Prop :=
  let '(columnHeights, placed) := st in
  List.length columnHeights = n /\
  Forall (fun h => (0 <= h)%Q) columnHeights /\
  Forall2 (fun child p => p = setPosition child (vx (position p)) (vy (position p)))
          processed placed /\
  Forall (fun p => exists k : nat,
            (k < n)%nat /\
            (vx (position p)
             == inject_Z (Z.of_nat k) * cellWidth cs + maxChildWidth cs / 2)%Q /\
            (0 <= topOf options p)%Q /\
            (bottomOf options p + cellRowGap cs <= nth k columnHeights 0)%Q) placed /\
  (~ (cellWidth cs == 0)%Q ->
   ForallOrdPairs (fun p q => (vx (position p) == vx (position q))%Q ->
                              (bottomOf options p + cellRowGap cs <= topOf options q)%Q)
                  placed).

Definition withAutoRows (o : LayoutOptions) : LayoutOptions :=
  mkOptions (spacing o) (columns o) (rows o) (Some true) (useGridSpanning o) (sizingMode o)
    (fixedWidth o) (fixedHeight o) (alignItems o) (justifyItems o) (columnGap o) (rowGap o)
    (flowDirection o) (flowReverse o) (lastRowAlign o) (honeycombOrientation o)
    (cornerOffset o) (excludeCorners o) (priorityDirection o) (overflowAlignment o)
    (equalDistribution o) (startCorner o) (direction o) (offset o) (globalRotation o)
    (perspectiveY o) (depthScale o) (enableZIndex o)
    (braidRows o) (blockWidth o) (blockHeight o).

(** The slots of one edge from which step 4 picks the active ones. *)
Definition edgeSlots (excludeCorners : bool) (loop : list SlotRef) (name : Edge)
  : list SlotRef :=
  let slots := filter (fun s => Edge_eqb (edge (snd s)) name) loop in
  if excludeCorners then filter (fun s => negb (isCorner (snd s))) slots else slots.

(** The cells of the rectangle from [(lo, lo)] to [(maxR, maxC)], both
    included: what is left of the grid after [lo] shells. *)
Definition insideShell (lo maxR maxC : Z) (pos : Cell) : Prop :=
  lo <= cellR pos <= maxR /\ lo <= cellC pos <= maxC.

(** The left and the right edge of a placed item. *)
Definition leftOf (options : LayoutOptions) (child : LayoutComponent) : Q :=
  (vx (position child) - layoutWidth options child / 2)%Q.

Definition rightOf (options : LayoutOptions) (child : LayoutComponent) : Q :=
  (vx (position child) + layoutWidth options child / 2)%Q.

(** The column reached [along] cells into row [row] by the search of lines
    1112-1116: rows of odd index are walked from the right in snake mode. *)
Definition unitColumn (snake : bool) (columns row along : Z) : Z :=
  if snake && negb (JS.rem row 2 =? 0) then columns - 1 - along else along.

(** The occupancy grid after [k] items of one cell each: the rows in use are
    allocated, and the first [k] cells of the walk are marked. *)
Definition unitFilled (snake : bool) (columns k : Z) (grid : Grid) : Prop :=
  List.length grid = Z.to_nat ((k + columns - 1) / columns) /\
  forall r c, marked grid r c = true <->
    Z.of_nat c < columns /\
    Z.of_nat r * columns + unitColumn snake columns (Z.of_nat r) (Z.of_nat c) < k.

(** *** Clustered fill: [_layoutSquareClusteredFill] *)

(** [(comp as any).group || '__default__'] *)
Definition groupName (comp : LayoutComponent) : string :=
  match group comp with
  | Some name => if JS.streq name "" then "__default__"%string else name
  | None => "__default__"%string
  end.

(** [if (!groups.has(groupName)) groups.set(groupName, []);
     groups.get(groupName).push(comp)]: a [Map] keeps its keys in the order
    of their first insertion.  The members of a group are held by their
    index in [components]. *)
Fixpoint addToGroup (name : string) (i : Z) (groups : list (string * list Z))
  : list (string * list Z) :=
  match groups with
  | [] => [(name, [i])]
  | (other, members) :: rest =>
      if JS.streq other name then (other, members ++ [i]) :: rest
      else (other, members) :: addToGroup name i rest
  end.

(** Lines 554-559, from the item of index [i] on. *)
Fixpoint groupsFrom (components : list LayoutComponent) (i : Z)
    (groups : list (string * list Z)) : list (string * list Z) :=
  match components with
  | [] => groups
  | comp :: rest => groupsFrom rest (i + 1) (addToGroup (groupName comp) i groups)
  end.

(** [entries.sort((a, b) => b[1].length - a[1].length)]: the larger group
    first; the sort is stable. *)
Fixpoint insertBySize (entry : string * list Z) (sorted : list (string * list Z))
  : list (string * list Z) :=
  match sorted with
  | [] => [entry]
  | other :: rest =>
      if (List.length (snd entry) <? List.length (snd other))%nat
      then other :: insertBySize entry rest
      else entry :: other :: rest
  end.

Definition sortBySize (groups : list (string * list Z)) : list (string * list Z) :=
  fold_right insertBySize [] groups.

(** [Math.max(1, Math.round(columns * percentage))] with
    [percentage = groupComponents.length / components.length], in doubles. *)
Definition zoneWidthInCells (columns members total : Z) : option Z :=
  let percentage := Double.div (Double.ofZ members) (Double.ofZ total) in
  option_map (Z.max 1) (Double.round (Double.mul (Double.ofZ columns) percentage)).

(** Lines 575-583 for one zone: the cell of each member that gets one, by the
    member's index in [components]. *)
Definition zoneCells (zoneX zoneWidth zoneHeight : Z) (members : list Z) : list (Z * Cell) :=
  List.concat
    (forEachIdx (fun (member : Z) i =>
                   if zoneWidth * zoneHeight <=? i then []
                   else [(member, mkCell (JS.floorDiv i zoneWidth)
                                         (zoneX + JS.rem i zoneWidth))])
                members 0).

(** The loop of lines 564-585 over the sorted groups, from [currentX] on. *)
Fixpoint clusterZones (columns totalRows total : Z) (sortedGroups : list (string * list Z))
    (currentX : Z) : option (list (Z * Cell)) :=
  match sortedGroups with
  | [] => Some []
  | (_, members) :: rest =>
      match zoneWidthInCells columns (Z.of_nat (List.length members)) total with
      | None => None
      | Some zoneWidthInCells =>
          let zoneWidth := Z.min zoneWidthInCells (columns - currentX) in
          option_map (app (zoneCells currentX zoneWidth totalRows members))
                     (clusterZones columns totalRows total rest (currentX + zoneWidth))
      end
  end.

Fixpoint assignedCell (i : Z) (assigned : list (Z * Cell)) : option Cell :=
  match assigned with
  | [] => None
  | (member, pos) :: rest => if member =? i then Some pos else assignedCell i rest
  end.

(** No result for [columns = 0] with a non-empty collection ([totalRows] is
    [Infinity]). *)
Definition _layoutSquareClusteredFill (components : list LayoutComponent)
    (options : LayoutOptions) : option (list LayoutComponent * Bounds) :=
  let columns := JS.default 10 (columns options) in
  match components with
  | [] => Some ([], zeroBounds)
  | _ :: _ =>
      if columns =? 0 then None else
      let cs := _calculateGridCellSize components options in
      let total := Z.of_nat (List.length components) in
      let totalRows := JS.ceilDiv total columns in
      let sortedGroups := sortBySize (groupsFrom components 0 []) in
      match clusterZones columns totalRows total sortedGroups 0 with
      | None => None
      | Some assigned =>
          Some (forEachIdx (fun child i =>
                              match assignedCell i assigned with
                              | Some pos => placeInCell cs pos child
                              | None => child
                              end)
                           components 0,
                plainGridBounds cs columns totalRows)
      end
  end.

(** *** Random walk: [_layoutSquareRandomWalk] *)

(** [Math.floor(Math.random() * n)], where [random k] is the result of the
    call of [Math.random()] of index [k], a double of [0, 1).  No index for
    a number outside that range. *)
Definition randomIndex (random : nat -> Double.t) (k n : nat) : option nat :=
  match Double.floor (Double.mul (random k) (Double.ofZ (Z.of_nat n))) with
  | Some i => if (0 <=? i) && (i <? Z.of_nat n) then Some (Z.to_nat i) else None
  | None => None
  end.

(** [arr.splice(i, 1)]: what is left of the array. *)
Definition removeAt {A : Type} (i : nat) (l : list A) : list A :=
  firstn i l ++ skipn (S i) l.

(** Lines 733-737: the neighbours of [pos] that lie in the grid and are free. *)
Definition freeNeighbors (columns totalRows : Z) (grid : Grid) (pos : Cell) : list Cell :=
  filter (fun n => (0 <=? cellR n) && (cellR n <? totalRows)
                   && (0 <=? cellC n) && (cellC n <? columns)
                   && negb (occupied grid (cellR n) (cellC n)))
         [mkCell (cellR pos - 1) (cellC pos); mkCell (cellR pos + 1) (cellC pos);
          mkCell (cellR pos) (cellC pos - 1); mkCell (cellR pos) (cellC pos + 1)].

(** Lines 741-750: the next position, what is left of [unoccupiedCells] and
    the number of random numbers drawn so far. *)
Definition nextWalkPosition (random : nat -> Double.t) (drawn : nat)
    (neighbors unoccupiedCells : list Cell) : option (option Cell * list Cell * nat) :=
  match neighbors with
  | _ :: _ =>
      match randomIndex random drawn (List.length neighbors) with
      | Some nextNeighborIndex =>
          match nth_error neighbors nextNeighborIndex with
          | Some next =>
              Some (Some next,
                    filter (fun cell => negb (sameCell next cell)) unoccupiedCells,
                    S drawn)
          | None => None
          end
      | None => None
      end
  | [] =>
      match unoccupiedCells with
      | _ :: _ =>
          match randomIndex random drawn (List.length unoccupiedCells) with
          | Some nextJumpIndex =>
              Some (nth_error unoccupiedCells nextJumpIndex,
                    removeAt nextJumpIndex unoccupiedCells, S drawn)
          | None => None
          end
      | [] => Some (None, [], drawn)
      end
  end.

(** The [for (const child of components)] loop of lines 724-751; once
    [currentPos] is [null] the remaining items are left as they are. *)
Fixpoint randomWalk (random : nat -> Double.t) (cs : CellSize) (columns totalRows : Z)
    (components : list LayoutComponent) (currentPos : option Cell) (grid : Grid)
    (unoccupiedCells : list Cell) (drawn : nat) : option (list LayoutComponent) :=
  match components with
  | [] => Some []
  | child :: rest =>
      match currentPos with
      | None => Some (child :: rest)
      | Some pos =>
          let grid := markCell grid (Z.to_nat (cellR pos)) (Z.to_nat (cellC pos)) in
          let neighbors := freeNeighbors columns totalRows grid pos in
          let unoccupiedCells := filter (fun cell => negb (sameCell pos cell)) unoccupiedCells in
          match nextWalkPosition random drawn neighbors unoccupiedCells with
          | None => None
          | Some (next, unoccupiedCells, drawn) =>
              option_map (cons (placeInCell cs pos child))
                         (randomWalk random cs columns totalRows rest next grid
                                     unoccupiedCells drawn)
          end
      end
  end.

(** No result for [columns = 0] ([Array(Infinity)] throws) and for a negative
    [totalRows] ([Array(totalRows)] throws). *)
Definition _layoutSquareRandomWalk (random : nat -> Double.t)
    (components : list LayoutComponent) (options : LayoutOptions)
  : option (list LayoutComponent * Bounds) :=
  let columns := JS.default 5 (columns options) in
  match components with
  | [] => Some ([], zeroBounds)
  | _ :: _ =>
      if columns =? 0 then None else
      let cs := _calculateGridCellSize components options in
      let totalRows := JS.ceilDiv (Z.of_nat (List.length components)) columns in
      if totalRows <? 0 then None else
      let occupancyGrid := repeat (repeat false (Z.to_nat columns)) (Z.to_nat totalRows) in
      let unoccupiedCells := gridCells columns totalRows in
      match unoccupiedCells with
      | [] => Some (components, zeroBounds)
      | _ :: _ =>
          match randomIndex random 0 (List.length unoccupiedCells) with
          | None => None
          | Some first =>
              match randomWalk random cs columns totalRows components
                               (nth_error unoccupiedCells first) occupancyGrid
                               (removeAt first unoccupiedCells) 1 with
              | None => None
              | Some placed => Some (placed, plainGridBounds cs columns totalRows)
              end
          end
      end
  end.

(** *** Spiral: [_layoutSquareSpiral] *)

(** The variables [r], [c], [dr], [dc], [segmentLength], [stepsInSegment] and
    [turnCounter] of lines 2625-2628. *)
Record Walker := mkWalker {
  walkerR : Z;
  walkerC : Z;
  walkerDr : Z;
  walkerDc : Z;
  segmentLength : Z;
  stepsInSegment : Z;
  turnCounter : Z
}.

(** Lines 2632-2641 (and 2647-2656): one step, with a quarter turn at the
    end of a segment; every second turn the segments get longer. *)
Definition advance (w : Walker) : Walker :=
  let r := walkerR w + walkerDr w in
  let c := walkerC w + walkerDc w in
  let steps := stepsInSegment w + 1 in
  if segmentLength w <=? steps then
    let turns := turnCounter w + 1 in
    mkWalker r c (- walkerDc w) (walkerDr w)
             (if JS.rem turns 2 =? 0 then segmentLength w + 1 else segmentLength w)
             0 turns
  else mkWalker r c (walkerDr w) (walkerDc w) (segmentLength w) steps (turnCounter w).

(** The [while] loop of line 2631: walk on until a free cell of the grid.
    [None]: none within [fuel] steps. *)
Fixpoint seekFreeCell (fuel : nat) (columns totalRows : Z) (grid : Grid) (w : Walker)
  : option Walker :=
  match fuel with
  | O => None
  | S fuel' =>
      if (walkerR w <? 0) || (totalRows <=? walkerR w)
         || (walkerC w <? 0) || (columns <=? walkerC w)
         || occupied grid (walkerR w) (walkerC w)
      then seekFreeCell fuel' columns totalRows grid (advance w)
      else Some w
  end.

(** The [for] loop of lines 2630-2657 for [count] items. *)
Fixpoint spiralPositions (fuel count : nat) (columns totalRows : Z) (grid : Grid)
    (w : Walker) : option (list Cell) :=
  match count with
  | O => Some []
  | S count' =>
      match seekFreeCell fuel columns totalRows grid w with
      | None => None
      | Some found =>
          option_map (cons (mkCell (walkerR found) (walkerC found)))
                     (spiralPositions fuel count' columns totalRows
                        (markCell grid (Z.to_nat (walkerR found)) (Z.to_nat (walkerC found)))
                        (advance found))
      end
  end.

(** No result for [columns <= 0] with a non-empty collection: [Array] throws
    for an infinite or negative [totalRows], and with no row the search for
    a free cell does not end.  With [columns > 0] the grid has a free cell
    for every item, and the walk covers the square of side
    [2 * (totalRows + columns) + 1] around its start, which holds the grid,
    within the steps given to a search. *)
Definition _layoutSquareSpiral (components : list LayoutComponent)
    (options : LayoutOptions) : option (list LayoutComponent * Bounds) :=
  let columns := JS.default 5 (columns options) in
  let flowDirection := JS.default "spiral-out"%string (flowDirection options) in
  match components with
  | [] => Some ([], zeroBounds)
  | _ :: _ =>
      if columns <=? 0 then None else
      let cs := _calculateGridCellSize components options in
      let totalRows := JS.ceilDiv (Z.of_nat (List.length components)) columns in
      let occupancyGrid := repeat (repeat false (Z.to_nat columns)) (Z.to_nat totalRows) in
      let start := mkWalker (JS.floorDiv totalRows 2) (JS.floorDiv columns 2) 0 1 1 0 0 in
      let side := 2 * (totalRows + columns) + 2 in
      match spiralPositions (Z.to_nat (side * side)) (List.length components)
                            columns totalRows occupancyGrid start with
      | None => None
      | Some positions =>
          let positions := if JS.streq flowDirection "spiral-in" then rev positions
                           else positions in
          Some (placeAlong (placeInCell cs) positions components,
                plainGridBounds cs columns totalRows)
      end
  end.

(** ** The router: [_layoutSquare] *)

(** Lines 392-442.  [braidRows], [blockWidth] and [blockHeight] are keys of
    the same options object; the spiral, the spanning and the simple grid
    receive [{ ...options, flowDirection }].  [random] stands for the
    results of [Math.random()]. *)
Definition runStrategy (random : nat -> Double.t) (s : Strategy) (flowDirection : string)
    (componentsToLayout : list LayoutComponent) (options : LayoutOptions)
  : option (list LayoutComponent * Bounds) :=
  match s with
  | GravityFill => _layoutSquareGravityFill componentsToLayout options
  | SymmetricOutward => _layoutSquareSymmetricOutward componentsToLayout options
  | ClusteredFill => _layoutSquareClusteredFill componentsToLayout options
  | Boustrophedon => _layoutSquareBoustrophedon componentsToLayout options
  | BraidFlow => _layoutSquareBraidFlow (braidRows options) componentsToLayout options
  | Interlaced => _layoutSquareInterlaced componentsToLayout options
  | RandomWalk => _layoutSquareRandomWalk random componentsToLayout options
  | HilbertCurve => _layoutSquareHilbertCurve componentsToLayout options
  | PerimeterFirst => _layoutSquarePerimeterFirst componentsToLayout options
  | ZOrder => _layoutSquareZOrder componentsToLayout options
  | Spiral => _layoutSquareSpiral componentsToLayout (withFlowDirection flowDirection options)
  | DiagonalFill => _layoutSquareDiagonalFill componentsToLayout options
  | BlockFill =>
      _layoutSquareBlockFill (blockWidth options) (blockHeight options)
                             componentsToLayout options
  | CornerConverge => _layoutSquareCornerConverge componentsToLayout options
  | DiamondFill => _layoutSquareDiamondFill componentsToLayout options
  | WithSpanning =>
      _layoutSquareWithSpanning componentsToLayout (withFlowDirection flowDirection options)
  | Simple => _layoutSquareSimple componentsToLayout (withFlowDirection flowDirection options)
  end.

Definition _layoutSquare (random : nat -> Double.t) (components : list LayoutComponent)
    (options : LayoutOptions) : option (list LayoutComponent * Bounds) :=
  let '(flowDirection, useGridSpanning, _) := resolveFlow options in
  runStrategy random (selectStrategy flowDirection useGridSpanning) flowDirection
              (componentsToLayout components options) options.

(** The strategies that write nothing but positions: all but the
    boustrophedon, which mirrors, and the diamond, which hides. *)
Definition positionsOnly (s : Strategy) : bool :=
  match s with
  | Boustrophedon | DiamondFill => false
  | _ => true
  end.

(** An item that is not hidden; an item that is not mirrored. *)
Definition notHidden (child : LayoutComponent) : Prop := visible child <> Some false.

Definition notMirrored (child : LayoutComponent) : Prop :=
  match scale child with Some s => vx s = 1%Q | None => True end.

(** ** Inputs on which the arithmetic of the code is exact

    The code computes sizes and coordinates in doubles, the model in
    rationals.  The two agree while every number met is a multiple of 1/2 of
    magnitude below 2^52: doubles hold these numbers, and add, subtract,
    multiply and halve them without rounding.  The grids below only add,
    subtract and halve sizes and gaps and multiply them by an index or a
    count, so they stay within these numbers when the sizes and the gaps
    are integers of magnitude at most 2^20 and the counts are at most 2^20.
    A size such as 0.1 is outside: in doubles [0.5 - 0.4] is not [0.1]. *)
Definition smallInteger (q : Q) : bool :=
  (Qden (Qred q) =? 1)%positive && (Z.abs (Qnum (Qred q)) <=? 2 ^ 20).

Definition smallCount (n : Z) : Prop := Z.abs n <= 2 ^ 20.

(** The item sizes and the gaps that the cell metrics hold. *)
Definition exactCell (cs : CellSize) : Prop :=
  smallInteger (maxChildWidth cs) = true /\ smallInteger (maxChildHeight cs) = true /\
  smallInteger (cellColumnGap cs) = true /\ smallInteger (cellRowGap cs) = true.

(** The size that the layout takes an item to have. *)
Definition exactItem (options : LayoutOptions) (child : LayoutComponent) : Prop :=
  smallInteger (layoutWidth options child) = true /\
  smallInteger (layoutHeight options child) = true.

(** * Properties *)

(** ** Cell metrics *)

Lemma Qgtb_false_le a b : JS.Qgtb a b = false -> (a <= b)%Q.
Proof.
  unfold JS.Qgtb. intros H. apply negb_false_iff in H. now apply Qle_bool_iff.
Qed.

Lemma Qgtb_true_lt a b : JS.Qgtb a b = true -> (b < a)%Q.
Proof.
  unfold JS.Qgtb. intros H. apply negb_true_iff in H.
  apply Qnot_le_lt. intro Hle. apply Qle_bool_iff in Hle. congruence.
Qed.

(** What the running-maximum loop establishes, from any starting pair. *)
Lemma maxChildSize_spec components : forall mw mh mw' mh',
  maxChildSize components mw mh = (mw', mh') ->
  ((mw <= mw')%Q /\ (mh <= mh')%Q) /\
  (Forall (fun c => (width c <= mw')%Q) components /\
   Forall (fun c => (height c <= mh')%Q) components) /\
  ((mw' = mw \/ In mw' (map width components)) /\
   (mh' = mh \/ In mh' (map height components))).
Proof.
  induction components as [|child rest IH]; simpl; intros mw mh mw' mh' H.
  - inversion H; subst. repeat split; auto using Qle_refl.
  - apply IH in H. destruct H as [[Hw Hh] [[Fw Fh] [Iw Ih]]].
    assert (Hcw : (mw <= mw')%Q /\ (width child <= mw')%Q).
    { destruct (JS.Qgtb (width child) mw) eqn:E.
      - apply Qgtb_true_lt in E. split; [|exact Hw].
        eapply Qle_trans; [apply Qlt_le_weak; exact E | exact Hw].
      - apply Qgtb_false_le in E. split; [exact Hw|].
        eapply Qle_trans; [exact E | exact Hw]. }
    assert (Hch : (mh <= mh')%Q /\ (height child <= mh')%Q).
    { destruct (JS.Qgtb (height child) mh) eqn:E.
      - apply Qgtb_true_lt in E. split; [|exact Hh].
        eapply Qle_trans; [apply Qlt_le_weak; exact E | exact Hh].
      - apply Qgtb_false_le in E. split; [exact Hh|].
        eapply Qle_trans; [exact E | exact Hh]. }
    repeat split; try tauto.
    + constructor; tauto.
    + constructor; tauto.
    + destruct Iw as [Iw|Iw]; [|now right; right].
      destruct (JS.Qgtb (width child) mw); [right; left; congruence | now left].
    + destruct Ih as [Ih|Ih]; [|now right; right].
      destruct (JS.Qgtb (height child) mh); [right; left; congruence | now left].
Qed.

(** C9, as stated, fails twice.  In fixed sizing mode with [fixedHeight]
    missing, the maximum item width is taken from the items (10), not from
    [fixedWidth] (50).  And an empty collection in fixed sizing mode (50 by
    40) yields the fixed values, not zero metrics. *)
Lemma cell_size_fixed_mode_counterexample :
  (let options := withFixedSize (Some 50%Q) None noOptions in
   useFixed options = true /\ fixedWidth options = Some 50%Q /\
   ~ (maxChildWidth (_calculateGridCellSize [box 10 20] options) == 50)%Q) /\
  (let options := withFixedSize (Some 50%Q) (Some 40%Q) noOptions in
   ~ (maxChildWidth (_calculateGridCellSize [] options) == 0)%Q /\
   ~ (cellHeight (_calculateGridCellSize [] options) == 0)%Q).
Proof.
  cbv zeta. split.
  - split; [reflexivity|]. split; [reflexivity|].
    vm_compute. intro H. discriminate H.
  - split; vm_compute; intro H; discriminate H.
Qed.

(** C9 (amended): [cellWidth = maxItemWidth + columnGap] and
    [cellHeight = maxItemHeight + rowGap] always; when the sizing mode is
    fixed and both fixed dimensions are given and non-zero, the maxima are the
    fixed values whatever the items are; in every other case they are the
    maxima of 0 and the items' widths and heights (not below 0, not below
    any item's size, and equal to 0 or to the size of one of the items), so
    0 for an empty collection (the cell is then the gap alone). *)
Theorem cell_size_metrics (components : list LayoutComponent) (options : LayoutOptions) :
  let cs := _calculateGridCellSize components options in
  cellWidth cs = (maxChildWidth cs + gapOf (columnGap options) options)%Q /\
  cellHeight cs = (maxChildHeight cs + gapOf (rowGap options) options)%Q /\
  if fixedSizeGiven options
  then fixedWidth options = Some (maxChildWidth cs) /\
       fixedHeight options = Some (maxChildHeight cs)
  else ((0 <= maxChildWidth cs)%Q /\ (0 <= maxChildHeight cs)%Q) /\
       (Forall (fun c => (width c <= maxChildWidth cs)%Q) components /\
        Forall (fun c => (height c <= maxChildHeight cs)%Q) components) /\
       ((maxChildWidth cs = 0%Q \/ In (maxChildWidth cs) (map width components)) /\
        (maxChildHeight cs = 0%Q \/ In (maxChildHeight cs) (map height components))) /\
       (match components with
        | [] => maxChildWidth cs = 0%Q /\ maxChildHeight cs = 0%Q
        | _ :: _ => True
        end).
Proof.
  unfold _calculateGridCellSize.
  destruct (fixedSizeGiven options) eqn:Hfix; cbn zeta.
  - cbn [cellWidth cellHeight maxChildWidth maxChildHeight].
    repeat split.
    + unfold fixedSizeGiven, JS.truthyQ in Hfix.
      destruct (fixedWidth options); [reflexivity|].
      rewrite andb_false_r in Hfix. discriminate.
    + unfold fixedSizeGiven, JS.truthyQ in Hfix.
      destruct (fixedHeight options); [reflexivity|].
      rewrite andb_false_r in Hfix. discriminate.
  - destruct (maxChildSize components 0%Q 0%Q) as [mw mh] eqn:E.
    cbn [cellWidth cellHeight maxChildWidth maxChildHeight].
    pose proof (maxChildSize_spec components _ _ _ _ E) as [[H0w H0h] [HF HI]].
    repeat split; try tauto.
    destruct components; [|exact I].
    simpl in E. inversion E; subst. split; reflexivity.
Qed.

(** ** The simple grid *)

Lemma forEachIdx_length {A B} (f : A -> Z -> B) l : forall k,
  List.length (forEachIdx f l k) = List.length l.
Proof. induction l; simpl; intros; [reflexivity | now rewrite IHl]. Qed.

Lemma forEachIdx_nth_error {A B} (f : A -> Z -> B) l : forall k i,
  nth_error (forEachIdx f l k) i =
  option_map (fun a => f a (k + Z.of_nat i)) (nth_error l i).
Proof.
  induction l as [|a l IH]; intros k i.
  - destruct i; reflexivity.
  - destruct i as [|i]; simpl.
    + now rewrite Z.add_0_r.
    + rewrite IH. destruct (nth_error l i); simpl; [|reflexivity].
      do 2 f_equal. lia.
Qed.

Lemma simpleCell_default C totalRows i :
  0 < C -> 0 <= i ->
  simpleCell (simpleFlow "default") false C totalRows i = (i / C, i mod C).
Proof.
  intros HC Hi. unfold simpleCell, simpleFlow. cbn.
  unfold JS.floorDiv, JS.rem. now rewrite Z.rem_mod_nonneg by lia.
Qed.

(** C2, as stated, fails: with two columns and items of sizes 10 and 20 the
    first item is centred at x = 5 (half its own width), not at
    [0 * cellWidth + maxItemWidth / 2 = 10]. *)
Lemma simple_center_counterexample :
  let components := [box 10 10; box 20 20] in
  let options := withColumns 2 noOptions in
  let cs := _calculateGridCellSize components options in
  exists placed b child,
    _layoutSquareSimple components options = Some (placed, b) /\
    nth_error placed 0 = Some child /\
    ~ (vx (position child) == 0 * cellWidth cs + maxChildWidth cs / 2)%Q.
Proof.
  cbv zeta. eexists _, _, _. split; [vm_compute; reflexivity|].
  split; [reflexivity|]. vm_compute. intro H. discriminate H.
Qed.

(** C2 (amended): for every item count and every column count C > 0, the
    simple grid under the default flow gives the item of index i the cell
    row = floor(i/C), col = i mod C and writes as its centre the point that
    the within-cell alignment selects from the cell origin
    (col*cellWidth, row*cellHeight): origin + own size / 2 under the default
    [start] alignment, origin + max item size / 2 under [center], and
    origin + max item size - own size / 2 under [end]. *)
Theorem simple_default_row_major (components : list LayoutComponent)
    (options : LayoutOptions) (C : Z) :
  columns options = Some C -> 0 < C -> defaultFlow options ->
  let cs := _calculateGridCellSize components options in
  let totalRows := JS.ceilDiv (Z.of_nat (List.length components)) C in
  exists placed b,
    _layoutSquareSimple components options = Some (placed, b) /\
    List.length placed = List.length components /\
    forall (i : nat) (child : LayoutComponent),
      nth_error components i = Some child ->
      let row := Z.of_nat i / C in
      let col := Z.of_nat i mod C in
      simpleCell (simpleFlow (JS.default "default"%string (flowDirection options)))
                 (JS.default false (flowReverse options)) C totalRows (Z.of_nat i)
        = (row, col) /\
      exists child',
        nth_error placed i = Some child' /\
        (vx (position child') ==
           alignInCell (JS.default "start"%string (justifyItems options))
                       (inject_Z col * cellWidth cs) (maxChildWidth cs)
                       (layoutWidth options child))%Q /\
        (vy (position child') ==
           alignInCell (JS.default "start"%string (alignItems options))
                       (inject_Z row * cellHeight cs) (maxChildHeight cs)
                       (layoutHeight options child))%Q.
Proof.
  intros HC Hpos [Hflow [Hrev [Hlast Hcorner]]] cs totalRows.
  unfold _layoutSquareSimple. rewrite HC. cbn [JS.default].
  destruct components as [|c0 rest].
  - eexists _, _. split; [reflexivity|]. split; [reflexivity|].
    intros i child H. destruct i; discriminate.
  - set (components := c0 :: rest) in *.
    assert (HC0 : (C =? 0) = false) by (apply Z.eqb_neq; lia).
    rewrite HC0. rewrite Hflow.
    change (isHoneycombFlow (simpleFlow "default")) with false. cbv iota.
    eexists _, _. split; [reflexivity|].
    split; [apply forEachIdx_length|].
    intros i child Hi.
    try rewrite Hflow; try rewrite Hrev.
    split; [apply simpleCell_default; lia|].
    rewrite forEachIdx_nth_error, Hi. cbn [option_map].
    unfold simpleCenter. rewrite Hflow, Hrev. rewrite Z.add_0_l.
    fold totalRows. rewrite simpleCell_default by lia.
    change (isHoneycombFlow (simpleFlow "default")) with false. cbv iota.
    unfold simpleCornerNudge.
    assert (Hc : Qeq_bool (JS.default 0%Q (cornerOffset options)) 0 = true)
      by (now apply Qeq_bool_iff).
    rewrite Hc.
    assert (Hoff : simpleLastRowOffsetX options cs C (Z.of_nat (List.length components)) = 0%Q).
    { unfold simpleLastRowOffsetX. rewrite Hlast. reflexivity. }
    fold cs. rewrite Hoff.
    eexists. split; [reflexivity|].
    cbn [position setPosition vx vy].
    fold (layoutWidth options child). fold (layoutHeight options child).
    split.
    + set (col := Z.of_nat i mod C).
      assert (E : forall b : bool,
                 ((if b then 0 else 0) + inject_Z col * cellWidth cs
                  == inject_Z col * cellWidth cs)%Q).
      { intros []; ring. }
      unfold alignInCell.
      destruct (JS.streq _ "end"); [|destruct (JS.streq _ "center")]; rewrite E; reflexivity.
    + reflexivity.
Qed.

Lemma simple_default_row_major_witness :
  let components := [box 10 10; box 20 20; box 5 5] in
  let options := withColumns 2 noOptions in
  columns options = Some 2 /\ 0 < 2 /\ defaultFlow options /\
  exists placed b,
    _layoutSquareSimple components options = Some (placed, b) /\
    List.length placed = 3%nat.
Proof.
  cbv zeta. split; [reflexivity|]. split; [reflexivity|].
  split; [repeat split; reflexivity|].
  destruct (simple_default_row_major [box 10 10; box 20 20; box 5 5]
              (withColumns 2 noOptions) 2) as (placed & b & H1 & H2 & _).
  - reflexivity.
  - reflexivity.
  - repeat split; reflexivity.
  - exists placed, b. split; [exact H1 | exact H2].
Defined.

(** ** Perimeter budgets *)

Ltac edge_cases :=
  repeat match goal with
         | |- context [if ?b then _ else _] =>
             let E := fresh "E" in
             destruct b eqn:E;
             try (apply Z.leb_le in E); try (apply Z.leb_gt in E);
             try (apply Z.ltb_lt in E); try (apply Z.ltb_ge in E)
         end.

Lemma edge_forall (P : Edge -> Prop) :
  P Top -> P Right -> P Bottom -> P Left -> forall e, P e.
Proof. intros ? ? ? ? []; assumption. Qed.

(** The budgets computed from any flags with a positive column count. *)
Lemma perimeterBudgets_spec (f : PerimeterFlags) (N : Z) :
  0 < pfColumns f -> 0 <= N ->
  (forall e, 0 <= perimeterBudgets f N e <= perimeterCaps f N e) /\
  edgeTotal (perimeterBudgets f N) = Z.min N (totalPerimeterCapacity f N).
Proof.
  intros Hcols HN.
  destruct f as [cols rws auto excl prio eq]. cbn [pfColumns] in Hcols.
  split.
  - apply edge_forall;
      destruct auto, excl, prio, eq;
      cbv [perimeterBudgets perimeterCaps totalPerimeterCapacity edgeTotal effectiveRows
           pfColumns pfRows pfAutoRows pfExcludeCorners pfPriorityRows pfEqualDistribution
           setEdge Edge_eqb noBudget fold_left fillToCap takeInTurn shareEqually filter
           fst snd andb List.length JS.floorDiv JS.rem JS.ceilDiv];
      edge_cases;
      cbv [setEdge Edge_eqb noBudget fold_left fillToCap takeInTurn shareEqually filter
           fst snd andb List.length Z.of_nat Pos.of_succ_nat Pos.succ] in *;
      edge_cases;
      try (Z.to_euclidean_division_equations; lia).
  - destruct auto, excl, prio, eq;
      cbv [perimeterBudgets perimeterCaps totalPerimeterCapacity edgeTotal effectiveRows
           pfColumns pfRows pfAutoRows pfExcludeCorners pfPriorityRows pfEqualDistribution
           setEdge Edge_eqb noBudget fold_left fillToCap takeInTurn shareEqually filter
           fst snd andb List.length JS.floorDiv JS.rem JS.ceilDiv];
      edge_cases;
      cbv [setEdge Edge_eqb noBudget fold_left fillToCap takeInTurn shareEqually filter
           fst snd andb List.length Z.of_nat Pos.of_succ_nat Pos.succ] in *;
      edge_cases;
      try (Z.to_euclidean_division_equations; lia).
Qed.

(** C3: whenever the perimeter grid gets past its guard (columns > 0), the
    four edge budgets are integers between 0 and the capacity of their edge,
    and they add up to min(N, total perimeter capacity), whatever
    [priorityDirection], [excludeCorners], [equalDistribution], [rows] and
    [autoRows] are. *)
Theorem perimeter_budgets_sum (components : list LayoutComponent) (options : LayoutOptions) :
  let f := perimeterFlags options in
  let N := Z.of_nat (List.length components) in
  0 < pfColumns f ->
  (forall e, 0 <= perimeterBudgets f N e <= perimeterCaps f N e) /\
  edgeTotal (perimeterBudgets f N) = Z.min N (totalPerimeterCapacity f N).
Proof.
  intros f N Hcols. apply perimeterBudgets_spec; [exact Hcols | unfold N; lia].
Qed.

Lemma perimeter_budgets_sum_witness :
  let components := repeat (box 10 10) 10 in
  let f := perimeterFlags (withColumns 4 (withRows 3 noOptions)) in
  0 < pfColumns f /\
  edgeTotal (perimeterBudgets f 10) = Z.min 10 (totalPerimeterCapacity f 10).
Proof.
  cbv zeta. split; [reflexivity|].
  exact (proj2 (perimeter_budgets_sum (repeat (box 10 10) 10)
                  (withColumns 4 (withRows 3 noOptions)) eq_refl)).
Defined.

(** ** Items beyond the capacity of a finite strategy *)

Lemma placeOrHide_beyond cs : forall valid components i child,
  nth_error components i = Some child ->
  (List.length valid <= i)%nat ->
  nth_error (placeOrHide cs valid components) i = Some (setVisible child false).
Proof.
  induction valid as [|pos more IH]; intros components i child Hi Hlen.
  - clear Hlen. revert i Hi.
    induction components as [|a rest IHc]; intros i Hi.
    + destruct i; discriminate.
    + destruct i as [|i]; simpl in *.
      * now inversion Hi.
      * now apply IHc.
  - destruct components as [|a rest]; [destruct i; discriminate|].
    destruct i as [|i]; simpl in *; [lia|].
    apply IH; [assumption | lia].
Qed.

Lemma placeOrHide_within cs : forall valid components i child pos,
  nth_error components i = Some child ->
  nth_error valid i = Some pos ->
  nth_error (placeOrHide cs valid components) i = Some (placeInCell cs pos child).
Proof.
  induction valid as [|p more IH]; intros components i child pos Hi Hp.
  - destruct i; discriminate.
  - destruct components as [|a rest]; [destruct i; discriminate|].
    destruct i as [|i]; simpl in *.
    + now inversion Hi; inversion Hp.
    + now apply IH.
Qed.

Lemma placeAlong_beyond {S} (place : S -> LayoutComponent -> LayoutComponent) :
  forall path components i child,
  nth_error components i = Some child ->
  (List.length path <= i)%nat ->
  nth_error (placeAlong place path components) i = Some child.
Proof.
  induction path as [|s more IH]; intros components i child Hi Hlen.
  - destruct components; exact Hi.
  - destruct components as [|a rest]; [destruct i; discriminate|].
    destruct i as [|i]; simpl in *; [lia|].
    apply IH; [assumption | lia].
Qed.

Lemma placeAlong_length {S} (place : S -> LayoutComponent -> LayoutComponent) :
  forall path components,
  List.length (placeAlong place path components) = List.length components.
Proof.
  induction path as [|s more IH]; intros [|a rest]; simpl; try reflexivity.
  now rewrite IH.
Qed.

Lemma range_length lo hi : List.length (range lo hi) = Z.to_nat (hi - lo).
Proof. unfold range. now rewrite length_map, length_seq. Qed.

(** An edge activates at most as many slots as its budget. *)
Lemma activeOnEdge_length excl align loop budgets name :
  Z.of_nat (List.length (activeOnEdge excl align loop budgets name))
  <= Z.max 0 (budgets name).
Proof.
  unfold activeOnEdge.
  destruct (budgets name <=? 0) eqn:Hb; [simpl; lia|].
  apply Z.leb_gt in Hb.
  match goal with |- context [if ?b then [] else _] => destruct b end; [simpl; lia|].
  repeat match goal with |- context [if ?b then _ else _] => destruct b end;
    rewrite length_map, range_length; lia.
Qed.

Lemma activeSlots_length excl align loop budgets :
  (forall e, 0 <= budgets e) ->
  Z.of_nat (List.length (activeSlots excl align loop budgets)) <= edgeTotal budgets.
Proof.
  intros Hpos. unfold activeSlots, edgeTotal. cbn [flat_map].
  rewrite !length_app. change (List.length (@nil (option nat))) with 0%nat.
  pose proof (activeOnEdge_length excl align loop budgets Top).
  pose proof (activeOnEdge_length excl align loop budgets Right).
  pose proof (activeOnEdge_length excl align loop budgets Bottom).
  pose proof (activeOnEdge_length excl align loop budgets Left).
  pose proof (Hpos Top). pose proof (Hpos Right).
  pose proof (Hpos Bottom). pose proof (Hpos Left). lia.
Qed.

Lemma indexed_NoDup (loop : list PathSlot) : NoDup (map fst (indexed loop)).
Proof.
  unfold indexed.
  assert (E : map fst (combine (seq 0 (List.length loop)) loop) = seq 0 (List.length loop)).
  { generalize 0%nat. induction loop as [|a l IH]; intros k; simpl; [reflexivity|].
    now rewrite IH. }
  rewrite E. apply seq_NoDup.
Qed.

Lemma rotateLoop_perm {A} k (l : list A) : Permutation l (rotateLoop k l).
Proof.
  unfold rotateLoop.
  set (n := match k with Some k0 => k0 | None => (List.length l - 1)%nat end).
  rewrite <- (firstn_skipn n l) at 1. apply Permutation_app_comm.
Qed.

Lemma counterClockwise_perm {A} (l : list A) : Permutation l (counterClockwise l).
Proof.
  destruct l as [|a rest]; simpl; [constructor|].
  constructor. apply Permutation_rev.
Qed.

Lemma NoDup_map_Some {A} (l : list A) : NoDup l -> NoDup (map Some l).
Proof.
  induction 1 as [|a l Hnin Hnd IH]; simpl; constructor; [|exact IH].
  intro Hin. apply in_map_iff in Hin. destruct Hin as [x [E Hx]].
  inversion E; subst. contradiction.
Qed.

(** Distinct references cannot outnumber the set that they belong to. *)
Lemma filter_active_length active (path : list SlotRef) :
  NoDup (map fst path) ->
  (List.length (filter (isActive active) path) <= List.length active)%nat.
Proof.
  intros Hnd.
  set (kept := filter (isActive active) path).
  assert (Hnd' : NoDup (map (fun s : SlotRef => Some (fst s)) kept)).
  { assert (Em : map (fun s : SlotRef => Some (fst s)) kept = map Some (map fst kept))
      by (now rewrite map_map).
    rewrite Em.
    apply NoDup_map_Some.
    unfold kept. clear -Hnd. induction path as [|s rest IH]; simpl; [constructor|].
    inversion Hnd; subst. destruct (isActive active s); simpl; [|now apply IH].
    constructor; [|now apply IH].
    intro Hin. apply H1. apply in_map_iff in Hin. destruct Hin as [x [Hx Hin]].
    apply filter_In in Hin. apply in_map_iff. exists x. tauto. }
  assert (Hincl : incl (map (fun s : SlotRef => Some (fst s)) kept) active).
  { intros a Ha. apply in_map_iff in Ha. destruct Ha as [s [Hs Hin]].
    apply filter_In in Hin. destruct Hin as [_ Hact].
    unfold isActive in Hact. apply existsb_exists in Hact.
    destruct Hact as [o [Ho Heq]]. destruct o as [k|]; [|discriminate].
    apply Nat.eqb_eq in Heq. subst. exact Ho. }
  pose proof (NoDup_incl_length Hnd' Hincl) as H.
  now rewrite length_map in H.
Qed.

(** The perimeter grid never has more active slots than budgeted items. *)
Lemma perimeterFinalPath_length options (numComponents : Z) :
  0 < pfColumns (perimeterFlags options) -> 0 <= numComponents ->
  Z.of_nat (List.length (perimeterFinalPath options numComponents))
  <= edgeTotal (perimeterBudgets (perimeterFlags options) numComponents).
Proof.
  intros Hcols HN. unfold perimeterFinalPath.
  set (f := perimeterFlags options) in *.
  set (loop := indexed _).
  set (active := activeSlots _ _ _ _).
  match goal with |- context [filter _ ?p] => set (path := p) end.
  assert (Hperm : Permutation loop path).
  { unfold path. destruct (JS.streq _ _).
    - eapply Permutation_trans; [apply rotateLoop_perm | apply counterClockwise_perm].
    - apply rotateLoop_perm. }
  assert (Hnd : NoDup (map fst path)).
  { eapply Permutation_NoDup; [apply Permutation_map; exact Hperm|].
    apply indexed_NoDup. }
  pose proof (filter_active_length active path Hnd) as Hlen.
  assert (Hbud : forall e, 0 <= perimeterBudgets f numComponents e).
  { intros e. pose proof (proj1 (perimeterBudgets_spec f numComponents Hcols HN) e). lia. }
  pose proof (activeSlots_length (pfExcludeCorners f)
                (JS.default "start"%string (overflowAlignment options))
                loop (perimeterBudgets f numComponents) Hbud) as Hact.
  fold active in Hact. lia.
Qed.

(** C7, as stated, fails for the perimeter grid: on a 2 by 2 grid the total
    budget is 4, and the fifth of five items that expose a visibility flag
    is left in place with the flag still set. *)
Lemma perimeter_overflow_stays_visible :
  let components := repeat (visibleBox 10 10) 5 in
  let options := withColumns 2 (withRows 2 noOptions) in
  edgeTotal (perimeterBudgets (perimeterFlags options) 5) = 4 /\
  exists placed b child,
    _layoutPerimeterGrid components options = Some (placed, b) /\
    nth_error placed 4 = Some child /\
    position child = position (visibleBox 10 10) /\
    visible child <> Some false.
Proof.
  cbv zeta. split; [reflexivity|].
  eexists _, _, _. split; [vm_compute; reflexivity|].
  split; [reflexivity|]. split; [reflexivity | discriminate].
Qed.

(** C7 (amended): an item whose index is at or beyond the capacity of a
    finite strategy keeps its prior position.  Diamond fill (capacity: the
    number of valid cells) also sets its visibility flag, if it exposes one,
    to not-visible; the perimeter grid (capacity: the total budget) leaves the
    item as it was, visibility flag included, however a placed item is
    projected onto its slot. *)
Theorem overflow_items_unplaced (components : list LayoutComponent) (options : LayoutOptions) :
  JS.default 5 (columns options) <> 0 ->
  let N := Z.of_nat (List.length components) in
  let cols := JS.default 5 (columns options) in
  let validPositions := diamondValidPositions cols (JS.ceilDiv N cols) in
  (exists placed b,
      _layoutSquareDiamondFill components options = Some (placed, b) /\
      forall (i : nat) (child : LayoutComponent),
        nth_error components i = Some child ->
        (List.length validPositions <= i)%nat ->
        exists child',
          nth_error placed i = Some child' /\
          position child' = position child /\
          visible child' = option_map (fun _ => false) (visible child)) /\
  (forall place (i : nat) (child : LayoutComponent),
      nth_error components i = Some child ->
      edgeTotal (perimeterBudgets (perimeterFlags options) N) <= Z.of_nat i ->
      nth_error (perimeterPlaced place components options) i = Some child) /\
  (forall placed b,
      _layoutPerimeterGrid components options = Some (placed, b) ->
      exists place, placed = perimeterPlaced place components options).
Proof.
  intros Hcols N cols validPositions. split; [|split].
  - unfold _layoutSquareDiamondFill.
    destruct components as [|c0 rest].
    + eexists _, _. split; [reflexivity|]. intros [|i] child H; discriminate.
    + set (components := c0 :: rest) in *.
      apply Z.eqb_neq in Hcols. rewrite Hcols.
      eexists _, _. split; [reflexivity|].
      intros i child Hi Hlen.
      exists (setVisible child false). split.
      * now apply placeOrHide_beyond.
      * split; [reflexivity|]. unfold setVisible. cbn [visible].
        destruct (visible child); reflexivity.
  - intros place i child Hi Hcap. unfold perimeterPlaced. fold N.
    destruct ((N =? 0) || (pfColumns (perimeterFlags options) <=? 0)) eqn:Hguard;
      [exact Hi|].
    apply orb_false_iff in Hguard. destruct Hguard as [_ Hc].
    apply Z.leb_gt in Hc.
    apply placeAlong_beyond; [exact Hi|].
    pose proof (perimeterFinalPath_length options N Hc ltac:(unfold N; lia)) as Hlen.
    apply Nat2Z.inj_le. eapply Z.le_trans; eassumption.
  - intros placed b Hrun. unfold _layoutPerimeterGrid in Hrun. fold N in Hrun.
    destruct ((N =? 0) || (pfColumns (perimeterFlags options) <=? 0)) eqn:Hguard.
    + inversion Hrun; subst. exists (fun _ child => child).
      unfold perimeterPlaced. fold N. now rewrite Hguard.
    + destruct (negb _ || negb _); [discriminate|].
      inversion Hrun; subst. eexists. reflexivity.
Qed.

Lemma overflow_items_unplaced_witness :
  let components := repeat (visibleBox 10 10) 5 in
  let options := withColumns 2 (withRows 2 noOptions) in
  JS.default 5 (columns options) <> 0 /\
  forall place, nth_error (perimeterPlaced place components options) 4
                = Some (visibleBox 10 10).
Proof.
  cbv zeta. split; [discriminate|].
  intros place.
  apply (proj1 (proj2 (overflow_items_unplaced
                         (repeat (visibleBox 10 10) 5)
                         (withColumns 2 (withRows 2 noOptions))
                         ltac:(discriminate))));
    [reflexivity | vm_compute; discriminate].
Defined.

(** ** The Hilbert curve *)

Lemma land_1_mod2 a : Z.land 1 a = a mod 2.
Proof.
  rewrite Z.land_comm. change 1 with (Z.ones 1).
  rewrite Z.land_ones by lia. now rewrite Z.pow_1_r.
Qed.

(** The two bits that a round reads off [t]. *)
Lemma d2xy_bits t :
  let rx := Z.land 1 (t / 2) in
  let ry := Z.land 1 (Z.lxor t rx) in
  rx = (t / 2) mod 2 /\ ry = (t + rx) mod 2.
Proof.
  cbv zeta. rewrite !land_1_mod2. split; [reflexivity|].
  set (rx := (t / 2) mod 2).
  assert (Hrx : rx = 0 \/ rx = 1) by (unfold rx; Z.to_euclidean_division_equations; lia).
  rewrite <- (Z.bit0_mod (Z.lxor t rx)), Z.lxor_spec, !Z.bit0_odd.
  destruct Hrx as [-> | ->]; cbn [Z.odd]; rewrite ?xorb_false_r, ?xorb_true_r.
  - rewrite Z.add_0_r, <- Z.bit0_odd. apply Z.bit0_mod.
  - rewrite Z.negb_odd. rewrite <- Z.odd_succ, <- Z.bit0_odd, Z.bit0_mod.
    reflexivity.
Qed.

Ltac step_bits t :=
  let rx := fresh "rx" in
  let ry := fresh "ry" in
  let Hx := fresh "Hrx" in
  let Hy := fresh "Hry" in
  destruct (d2xy_bits t) as [Hx Hy];
  set (rx := Z.land 1 (t / 2)) in *;
  set (ry := Z.land 1 (Z.lxor t rx)) in *;
  clearbody ry; clearbody rx.

Lemma d2xyStep_range s x y t :
  0 < s -> 0 <= x < s -> 0 <= y < s -> 0 <= t ->
  match d2xyStep s (x, y, t) with
  | (x', y', t') => 0 <= x' < s * 2 /\ 0 <= y' < s * 2 /\ t' = t / 4
  end.
Proof.
  intros Hs Hx Hy Ht. unfold d2xyStep.
  step_bits t.
  assert (Hrx' : rx = 0 \/ rx = 1) by (Z.to_euclidean_division_equations; lia).
  assert (Hry' : ry = 0 \/ ry = 1) by (Z.to_euclidean_division_equations; lia).
  destruct Hrx' as [-> | ->], Hry' as [-> | ->]; cbn; repeat split; lia.
Qed.

Lemma d2xyStep_inj s x1 y1 t1 x2 y2 t2 :
  0 < s -> 0 <= x1 < s -> 0 <= y1 < s -> 0 <= t1 ->
  0 <= x2 < s -> 0 <= y2 < s -> 0 <= t2 ->
  d2xyStep s (x1, y1, t1) = d2xyStep s (x2, y2, t2) ->
  (x1, y1, t1) = (x2, y2, t2).
Proof.
  intros Hs Hx1 Hy1 Ht1 Hx2 Hy2 Ht2. unfold d2xyStep.
  step_bits t1. step_bits t2.
  assert (Hrx' : rx = 0 \/ rx = 1) by (Z.to_euclidean_division_equations; lia).
  assert (Hry' : ry = 0 \/ ry = 1) by (Z.to_euclidean_division_equations; lia).
  assert (Hrx0' : rx0 = 0 \/ rx0 = 1) by (Z.to_euclidean_division_equations; lia).
  assert (Hry0' : ry0 = 0 \/ ry0 = 1) by (Z.to_euclidean_division_equations; lia).
  destruct Hrx' as [Ex | Ex], Hry' as [Ey | Ey], Hrx0' as [Ex0 | Ex0], Hry0' as [Ey0 | Ey0];
    rewrite Ex, Ey, Ex0, Ey0; cbn; intros E; inversion E;
    try lia;
    (assert (t1 = t2) by (Z.to_euclidean_division_equations; lia));
    f_equal; try lia; f_equal; lia.
Qed.

Lemma d2xyRounds_range : forall m s x y t,
  0 < s -> 0 <= x < s -> 0 <= y < s -> 0 <= t ->
  match d2xyRounds m s (x, y, t) with
  | (x', y', _) => 0 <= x' < s * 2 ^ Z.of_nat m /\ 0 <= y' < s * 2 ^ Z.of_nat m
  end.
Proof.
  induction m as [|m IH]; intros s x y t Hs Hx Hy Ht.
  - cbn [d2xyRounds]. change (2 ^ Z.of_nat 0) with 1. lia.
  - cbn [d2xyRounds].
    pose proof (d2xyStep_range s x y t Hs Hx Hy Ht) as Hstep.
    destruct (d2xyStep s (x, y, t)) as [[x' y'] t'].
    destruct Hstep as [Hx' [Hy' Ht']].
    specialize (IH (s * 2) x' y' t' ltac:(lia) Hx' Hy'
                   ltac:(subst t'; apply Z.div_pos; lia)).
    rewrite Nat2Z.inj_succ, Z.pow_succ_r by lia.
    destruct (d2xyRounds m (s * 2) (x', y', t')) as [[a b] u].
    replace (s * (2 * 2 ^ Z.of_nat m)) with (s * 2 * 2 ^ Z.of_nat m) by ring.
    exact IH.
Qed.

(** Rounds started from distinct states end in distinct cells. *)
Lemma d2xyRounds_inj : forall m s x1 y1 t1 x2 y2 t2,
  0 < s ->
  0 <= x1 < s -> 0 <= y1 < s -> 0 <= t1 < 4 ^ Z.of_nat m ->
  0 <= x2 < s -> 0 <= y2 < s -> 0 <= t2 < 4 ^ Z.of_nat m ->
  stateCell (d2xyRounds m s (x1, y1, t1)) = stateCell (d2xyRounds m s (x2, y2, t2)) ->
  (x1, y1, t1) = (x2, y2, t2).
Proof.
  induction m as [|m IH]; intros s x1 y1 t1 x2 y2 t2 Hs Hx1 Hy1 Ht1 Hx2 Hy2 Ht2 E.
  - change (4 ^ Z.of_nat 0) with 1 in *. cbn in E. inversion E.
    f_equal; lia.
  - cbn [d2xyRounds] in E.
    rewrite Nat2Z.inj_succ, Z.pow_succ_r in Ht1, Ht2 by lia.
    pose proof (d2xyStep_range s x1 y1 t1 Hs Hx1 Hy1 ltac:(lia)) as R1.
    pose proof (d2xyStep_range s x2 y2 t2 Hs Hx2 Hy2 ltac:(lia)) as R2.
    destruct (d2xyStep s (x1, y1, t1)) as [[a1 b1] u1] eqn:S1.
    destruct (d2xyStep s (x2, y2, t2)) as [[a2 b2] u2] eqn:S2.
    destruct R1 as [Ha1 [Hb1 Hu1]]. destruct R2 as [Ha2 [Hb2 Hu2]].
    assert (Hu1' : 0 <= u1 < 4 ^ Z.of_nat m)
      by (subst u1; Z.to_euclidean_division_equations; lia).
    assert (Hu2' : 0 <= u2 < 4 ^ Z.of_nat m)
      by (subst u2; Z.to_euclidean_division_equations; lia).
    pose proof (IH (s * 2) a1 b1 u1 a2 b2 u2 ltac:(lia) Ha1 Hb1 Hu1' Ha2 Hb2 Hu2' E) as Heq.
    apply (d2xyStep_inj s); try assumption; try lia.
    now rewrite S1, S2.
Qed.

(** The fuelled loop runs exactly the rounds between [s] and [n]. *)
Lemma d2xyLoop_rounds : forall m fuel s st,
  0 < s -> (m <= fuel)%nat ->
  d2xyLoop fuel (s * 2 ^ Z.of_nat m) s st = Some (stateCell (d2xyRounds m s st)).
Proof.
  induction m as [|m IH]; intros fuel s st Hs Hfuel.
  - change (2 ^ Z.of_nat 0) with 1. rewrite Z.mul_1_r.
    destruct fuel; cbn [d2xyLoop d2xyRounds]; rewrite Z.ltb_irrefl;
      destruct st as [[x y] t]; reflexivity.
  - destruct fuel as [|fuel]; [lia|].
    cbn [d2xyLoop d2xyRounds].
    assert (Hlt : (s <? s * 2 ^ Z.of_nat (S m)) = true).
    { apply Z.ltb_lt. rewrite Nat2Z.inj_succ, Z.pow_succ_r by lia.
      pose proof (Z.pow_pos_nonneg 2 (Z.of_nat m)). nia. }
    rewrite Hlt.
    replace (s * 2 ^ Z.of_nat (S m)) with (s * 2 * 2 ^ Z.of_nat m)
      by (rewrite Nat2Z.inj_succ, Z.pow_succ_r by lia; ring).
    apply IH; lia.
Qed.

Lemma pow2_gt_nat (k : nat) : (k <= Z.to_nat (2 ^ Z.of_nat k))%nat.
Proof.
  pose proof (Z.pow_gt_lin_r 2 (Z.of_nat k)). lia.
Qed.

Lemma d2xy_rounds (k : nat) (d : Z) :
  d2xy (2 ^ Z.of_nat k) d = Some (stateCell (d2xyRounds k 1 (0, 0, d))).
Proof.
  unfold d2xy.
  rewrite <- (Z.mul_1_l (2 ^ Z.of_nat k)) at 2.
  apply d2xyLoop_rounds; [lia | apply pow2_gt_nat].
Qed.

Lemma collect_map {A B} (f : A -> option B) (g : A -> B) (l : list A) :
  (forall a, In a l -> f a = Some (g a)) -> collect f l = Some (map g l).
Proof.
  induction l as [|a l IH]; intros H; [reflexivity|].
  cbn [collect map]. rewrite (H a) by now left.
  rewrite IH; [reflexivity|]. intros b Hb. apply H. now right.
Qed.

Lemma In_range lo hi z : In z (range lo hi) <-> lo <= z < hi.
Proof.
  unfold range. rewrite in_map_iff. split.
  - intros [k [<- Hk]]. apply in_seq in Hk. lia.
  - intros H. exists (Z.to_nat (z - lo)). split; [lia|]. apply in_seq. lia.
Qed.

Lemma range_NoDup lo hi : NoDup (range lo hi).
Proof.
  unfold range. generalize (Z.to_nat (hi - lo)) as n. intros n.
  assert (H : forall l, NoDup l -> NoDup (map (fun k : nat => lo + Z.of_nat k) l)).
  { induction 1 as [|a l Hnin Hnd IH]; simpl; constructor; [|exact IH].
    intro Hin. apply in_map_iff in Hin. destruct Hin as [b [E Hb]].
    assert (b = a) by lia. subst. contradiction. }
  apply H, seq_NoDup.
Qed.

Lemma NoDup_map_inj_in {A B} (f : A -> B) (l : list A) :
  (forall a b, In a l -> In b l -> f a = f b -> a = b) ->
  NoDup l -> NoDup (map f l).
Proof.
  intros Hinj Hnd. induction Hnd as [|a l Hnin Hnd IH]; simpl; constructor.
  - intro Hin. apply in_map_iff in Hin. destruct Hin as [b [E Hb]].
    assert (b = a) by (apply Hinj; [now right | now left | exact E]).
    subst. contradiction.
  - apply IH. intros x y Hx Hy. apply Hinj; now right.
Qed.

Lemma In_squareCells n pos :
  In pos (squareCells n) <-> (0 <= cellR pos < n /\ 0 <= cellC pos < n).
Proof.
  unfold squareCells. rewrite in_flat_map. split.
  - intros [r0 [Hr Hin]]. apply in_map_iff in Hin. destruct Hin as [c0 [<- Hc]].
    apply In_range in Hr. apply In_range in Hc. cbn. lia.
  - intros [Hr Hc]. exists (cellR pos). split; [now apply In_range|].
    apply in_map_iff. exists (cellC pos). split; [now destruct pos | now apply In_range].
Qed.

Lemma squareCells_length n : 0 <= n -> Z.of_nat (List.length (squareCells n)) = n * n.
Proof.
  intros Hn. unfold squareCells.
  assert (H : forall l : list Z,
             Z.of_nat (List.length
                         (flat_map (fun r => map (fun c => mkCell r c) (range 0 n)) l))
             = Z.of_nat (List.length l) * n).
  { induction l as [|a l IH]; [reflexivity|].
    cbn [flat_map]. rewrite length_app, length_map, range_length.
    cbn [List.length]. lia. }
  rewrite H, range_length. lia.
Qed.

(** The curve of a square of side [2^k] visits each of its cells once. *)
Lemma hilbert_curve_permutation (k : nat) :
  exists curve,
    allPositionsOnCurve (2 ^ Z.of_nat k) = Some curve /\
    Permutation curve (squareCells (2 ^ Z.of_nat k)).
Proof.
  set (n := 2 ^ Z.of_nat k).
  assert (Hn : 0 < n) by (apply Z.pow_pos_nonneg; lia).
  assert (Hnn : n * n = 4 ^ Z.of_nat k).
  { unfold n. rewrite <- Z.pow_mul_l. reflexivity. }
  exists (map (fun d => stateCell (d2xyRounds k 1 (0, 0, d))) (range 0 (n * n))).
  split.
  - unfold allPositionsOnCurve. apply collect_map. intros d _. apply d2xy_rounds.
  - apply NoDup_Permutation_bis.
    + apply NoDup_map_inj_in; [|apply range_NoDup].
      intros a b Ha Hb E. apply In_range in Ha. apply In_range in Hb.
      rewrite Hnn in Ha, Hb.
      assert (H : (0, 0, a) = (0, 0, b))
        by (apply (d2xyRounds_inj k 1); try lia; exact E).
      now inversion H.
    + apply Nat2Z.inj_le. rewrite squareCells_length by lia.
      rewrite length_map, range_length. lia.
    + intros pos Hin. apply in_map_iff in Hin. destruct Hin as [d [<- Hd]].
      apply In_range in Hd. apply In_squareCells.
      pose proof (d2xyRounds_range k 1 0 0 d ltac:(lia) ltac:(lia) ltac:(lia) ltac:(lia)) as R.
      destruct (d2xyRounds k 1 (0, 0, d)) as [[x y] u]. cbn. fold n in R. lia.
Qed.

(** ** The Z-order curve *)

Lemma firstn_app_split {A} (a : nat) (l1 l2 : list A) :
  firstn a (l1 ++ l2)
  = firstn a l1 ++ firstn (a - List.length (firstn a l1)) l2.
Proof.
  rewrite firstn_app, length_firstn.
  destruct (Nat.le_ge_cases a (List.length l1)) as [H|H].
  - rewrite Nat.min_l by exact H.
    replace (a - List.length l1)%nat with 0%nat by lia.
    now replace (a - a)%nat with 0%nat by lia.
  - now rewrite Nat.min_r by exact H.
Qed.

(** [generate] on a square of side [2^k] appends, to what was already
    pushed, the in-grid cells of the square's Z-order until [numComponents]
    positions are there. *)
Lemma generate_spec (N C R : Z) : forall k fuel x y positions,
  (k < fuel)%nat ->
  (List.length positions <= Z.to_nat N)%nat ->
  generate fuel N C R x y (2 ^ Z.of_nat k) positions
  = Some (positions ++ firstn (Z.to_nat N - List.length positions)
                              (filter (inGrid C R) (mortonCells k x y))).
Proof.
  induction k as [|k IH]; intros fuel x y positions Hfuel Hlen;
    (destruct fuel as [|fuel]; [lia|]); cbn [generate].
  - destruct (N <=? Z.of_nat (List.length positions)) eqn:Hfull.
    + apply Z.leb_le in Hfull.
      replace (Z.to_nat N - List.length positions)%nat with 0%nat by lia.
      now rewrite app_nil_r.
    + apply Z.leb_gt in Hfull. change (2 ^ Z.of_nat 0 =? 1) with true. cbv iota.
      cbn [mortonCells filter]. unfold inGrid. cbn [cellR cellC].
      destruct ((y <? R) && (x <? C)).
      * destruct (Z.to_nat N - List.length positions)%nat eqn:E; [lia|].
        cbn [firstn]. now rewrite firstn_nil.
      * now rewrite firstn_nil, app_nil_r.
  - destruct (N <=? Z.of_nat (List.length positions)) eqn:Hfull.
    + apply Z.leb_le in Hfull.
      replace (Z.to_nat N - List.length positions)%nat with 0%nat by lia.
      now rewrite app_nil_r.
    + apply Z.leb_gt in Hfull.
      assert (Hsize : (2 ^ Z.of_nat (S k) =? 1) = false).
      { apply Z.eqb_neq. rewrite Nat2Z.inj_succ, Z.pow_succ_r by lia.
        pose proof (Z.pow_pos_nonneg 2 (Z.of_nat k)). lia. }
      rewrite Hsize.
      assert (Hhalf : 2 ^ Z.of_nat (S k) / 2 = 2 ^ Z.of_nat k).
      { rewrite Nat2Z.inj_succ, Z.pow_succ_r by lia.
        rewrite Z.mul_comm. apply Z.div_mul. lia. }
      rewrite Hhalf.
      set (s := 2 ^ Z.of_nat k).
      set (a := (Z.to_nat N - List.length positions)%nat).
      set (L1 := filter (inGrid C R) (mortonCells k x y)).
      set (L2 := filter (inGrid C R) (mortonCells k (x + s) y)).
      set (L3 := filter (inGrid C R) (mortonCells k x (y + s))).
      set (L4 := filter (inGrid C R) (mortonCells k (x + s) (y + s))).
      fold s in IH.
      rewrite (IH fuel x y positions) by lia. fold L1 a.
      assert (H1 : (List.length (positions ++ firstn a L1) <= Z.to_nat N)%nat).
      { rewrite length_app, length_firstn. unfold a. lia. }
      rewrite (IH fuel (x + s) y _ ltac:(lia) H1). fold L2.
      set (p2 := (positions ++ firstn a L1) ++ _).
      assert (H2 : (List.length p2 <= Z.to_nat N)%nat).
      { unfold p2. rewrite length_app, length_firstn. lia. }
      rewrite (IH fuel x (y + s) _ ltac:(lia) H2). fold L3.
      set (p3 := p2 ++ _).
      assert (H3 : (List.length p3 <= Z.to_nat N)%nat).
      { unfold p3. rewrite length_app, length_firstn. lia. }
      rewrite (IH fuel (x + s) (y + s) _ ltac:(lia) H3). fold L4.
      f_equal. cbn [mortonCells]. fold s.
      rewrite !filter_app. fold L1 L2 L3 L4.
      unfold p3, p2. rewrite <- !app_assoc. f_equal.
      rewrite (firstn_app_split a L1), (firstn_app_split _ L2), (firstn_app_split _ L3).
      rewrite !length_app.
      rewrite !Nat.sub_add_distr. fold a. reflexivity.
Qed.

Lemma In_mortonCells : forall k x y pos,
  In pos (mortonCells k x y) <->
  (y <= cellR pos < y + 2 ^ Z.of_nat k /\ x <= cellC pos < x + 2 ^ Z.of_nat k).
Proof.
  induction k as [|k IH]; intros x y pos.
  - change (2 ^ Z.of_nat 0) with 1. cbn [mortonCells In]. split.
    + intros [<- | []]. cbn. lia.
    + intros H. left. destruct pos as [pr pc]. cbn in H. f_equal; lia.
  - cbn [mortonCells]. rewrite !in_app_iff, !IH.
    rewrite Nat2Z.inj_succ, Z.pow_succ_r by lia.
    pose proof (Z.pow_pos_nonneg 2 (Z.of_nat k)). lia.
Qed.

Lemma mortonCells_NoDup : forall k x y, NoDup (mortonCells k x y).
Proof.
  induction k as [|k IH]; intros x y.
  - cbn. constructor; [intros [] | constructor].
  - cbn [mortonCells].
    pose proof (Z.pow_pos_nonneg 2 (Z.of_nat k)).
    repeat (apply NoDup_app; [apply IH | | ]); try apply IH;
      intros pos Hin; rewrite ?in_app_iff, !In_mortonCells in *; lia.
Qed.

Lemma squareCells_NoDup n : NoDup (squareCells n).
Proof.
  unfold squareCells.
  assert (H : forall l, NoDup l ->
                NoDup (flat_map (fun r => map (fun c => mkCell r c) (range 0 n)) l)).
  { induction 1 as [|a l Hnin Hnd IH]; cbn [flat_map]; [constructor|].
    apply NoDup_app; [|exact IH|].
    - apply NoDup_map_inj_in; [|apply range_NoDup].
      intros u v _ _ E. now inversion E.
    - intros pos Hin Hin'. apply in_map_iff in Hin. destruct Hin as [c0 [<- _]].
      apply in_flat_map in Hin'. destruct Hin' as [r0 [Hr0 Hin']].
      apply in_map_iff in Hin'. destruct Hin' as [c1 [E _]].
      inversion E; subst. contradiction. }
  apply H, range_NoDup.
Qed.

Lemma morton_permutation (k : nat) :
  Permutation (mortonCells k 0 0) (squareCells (2 ^ Z.of_nat k)).
Proof.
  apply NoDup_Permutation; [apply mortonCells_NoDup | apply squareCells_NoDup|].
  intros pos. rewrite In_mortonCells, In_squareCells. lia.
Qed.

(** ** Both curves on the enclosing power-of-two square *)

Lemma assignAlongCurve_filter cs C R : forall curve components,
  assignAlongCurve cs C R curve components
  = placeAlong (placeInCell cs) (filter (inGrid C R) curve) components.
Proof.
  induction curve as [|pos rest IH]; intros components.
  - destruct components; reflexivity.
  - destruct components as [|child more]; cbn [assignAlongCurve filter].
    + destruct (inGrid C R pos); [reflexivity|].
      destruct (filter (inGrid C R) rest); reflexivity.
    + destruct (inGrid C R pos); cbn [placeAlong]; now rewrite IH.
Qed.

(** For [m >= 1] the side is the least power of two that is at least [m]. *)
Lemma gridSquareSide_spec m :
  1 <= m ->
  exists k : nat,
    gridSquareSide m = 2 ^ Z.of_nat k /\
    m <= gridSquareSide m /\
    forall j, 0 <= j -> m <= 2 ^ j -> gridSquareSide m <= 2 ^ j.
Proof.
  intros Hm. unfold gridSquareSide.
  assert (E : (m <=? 0) = false) by (apply Z.leb_gt; lia). rewrite E.
  pose proof (Z.log2_up_nonneg m) as Hnn.
  exists (Z.to_nat (Z.log2_up m)). rewrite Z2Nat.id by exact Hnn.
  split; [reflexivity|]. split.
  - destruct (Z.eq_dec m 1) as [-> | Hne]; [cbn; lia|].
    apply (Z.log2_up_spec m). lia.
  - intros j Hj Hle. apply Z.pow_le_mono_r; [lia|].
    apply Z.log2_up_le_pow2; lia.
Qed.

(** C4: on a grid of C > 0 columns, the Hilbert strategy generates the
    whole curve of the smallest power-of-two square that contains the grid,
    which visits each cell of the square once, and gives the cells of the
    curve that lie in the grid, in curve order, to the items in input order;
    the Z-order strategy gives the items the first in-grid cells of the
    Z-order of the same square, which its quadrant recursion also visits once
    each. *)
Theorem curves_permutation_then_truncation (components : list LayoutComponent)
    (options : LayoutOptions) (C : Z) :
  columns options = Some C -> 0 < C -> components <> [] ->
  let N := List.length components in
  let totalRows := JS.ceilDiv (Z.of_nat N) C in
  let cs := _calculateGridCellSize components options in
  let n := gridSquareSide (Z.max C totalRows) in
  exists k : nat,
    (n = 2 ^ Z.of_nat k /\ Z.max C totalRows <= n /\
     forall j, 0 <= j -> Z.max C totalRows <= 2 ^ j -> n <= 2 ^ j) /\
    (exists curve,
        allPositionsOnCurve n = Some curve /\
        Permutation curve (squareCells n) /\
        _layoutSquareHilbertCurve components options
        = Some (placeAlong (placeInCell cs) (filter (inGrid C totalRows) curve) components,
                plainGridBounds cs C totalRows)) /\
    Permutation (mortonCells k 0 0) (squareCells n) /\
    _layoutSquareZOrder components options
    = Some (placeAlong (placeInCell cs)
                       (firstn N (filter (inGrid C totalRows) (mortonCells k 0 0)))
                       components,
            plainGridBounds cs C totalRows).
Proof.
  intros HC Hpos Hne N totalRows cs n.
  destruct (gridSquareSide_spec (Z.max C totalRows) ltac:(lia)) as [k [Hk [Hle Hmin]]].
  fold n in Hk, Hle, Hmin.
  assert (HC0 : (C =? 0) = false) by (apply Z.eqb_neq; lia).
  exists k. split; [now repeat split|].
  destruct (hilbert_curve_permutation k) as [curve [Hcurve Hperm]].
  rewrite <- Hk in Hcurve, Hperm.
  split; [|split].
  - exists curve. split; [exact Hcurve|]. split; [exact Hperm|].
    unfold _layoutSquareHilbertCurve. rewrite HC. cbn [JS.default].
    destruct components as [|c0 rest]; [contradiction|].
    rewrite HC0. fold N totalRows n. rewrite Hcurve.
    now rewrite assignAlongCurve_filter.
  - rewrite Hk. apply morton_permutation.
  - unfold _layoutSquareZOrder. rewrite HC. cbn [JS.default].
    destruct components as [|c0 rest]; [contradiction|].
    rewrite HC0. fold N totalRows n. rewrite Hk.
    rewrite generate_spec.
    + cbn [List.length app]. now rewrite Nat.sub_0_r, Nat2Z.id.
    + pose proof (pow2_gt_nat k). lia.
    + cbn [List.length]. lia.
Qed.

Lemma curves_permutation_then_truncation_witness :
  let components := repeat (box 10 10) 5 in
  let options := withColumns 3 noOptions in
  columns options = Some 3 /\ 0 < 3 /\ components <> [] /\
  exists k : nat,
    gridSquareSide (Z.max 3 (JS.ceilDiv 5 3)) = 2 ^ Z.of_nat k /\
    Permutation (mortonCells k 0 0) (squareCells (gridSquareSide (Z.max 3 (JS.ceilDiv 5 3)))).
Proof.
  cbv zeta. split; [reflexivity|]. split; [reflexivity|]. split; [discriminate|].
  destruct (curves_permutation_then_truncation (repeat (box 10 10) 5)
              (withColumns 3 noOptions) 3) as [k [[Hk _] [_ [Hperm _]]]].
  - reflexivity.
  - reflexivity.
  - discriminate.
  - exists k. split; [exact Hk | exact Hperm].
Defined.

(** ** The spanning placer *)

Lemma nth_repeat_false (n c : nat) : nth c (repeat false n) false = false.
Proof.
  revert c. induction n as [|n IH]; intros [|c]; simpl; auto.
Qed.

Lemma freshFrom_length (grid : Grid) : freshFrom (List.length grid) grid.
Proof.
  intros r c Hr. rewrite (nth_overflow grid [] Hr). now destruct c.
Qed.

Lemma ensureRows_fresh columns grid last from :
  freshFrom from grid -> freshFrom from (ensureRows columns grid last).
Proof.
  intros Hfresh r c Hr. unfold ensureRows.
  destruct (Nat.lt_ge_cases r (List.length grid)) as [Hlt|Hge].
  - rewrite app_nth1 by exact Hlt. now apply Hfresh.
  - rewrite app_nth2 by exact Hge.
    set (k := (r - List.length grid)%nat).
    set (m := Z.to_nat (last + 1 - Z.of_nat (List.length grid))).
    destruct (Nat.lt_ge_cases k m) as [Hk|Hk].
    + rewrite (nth_indep _ [] (repeat false (Z.to_nat columns)))
        by (now rewrite repeat_length).
      rewrite nth_repeat_lt by exact Hk. apply nth_repeat_false.
    + rewrite (nth_overflow (repeat (repeat false (Z.to_nat columns)) m) []);
        [now destruct c | now rewrite repeat_length].
Qed.

Lemma In_upto n k : In k (JS.upto n) -> 0 <= k < n.
Proof.
  unfold JS.upto. intros H. apply in_map_iff in H. destruct H as [j [<- Hj]].
  apply in_seq in Hj. lia.
Qed.

(** A block that starts in the fresh rows fits. *)
Lemma canFit_fresh grid from searchRow c rowSpan colSpan :
  freshFrom from grid -> Z.of_nat from <= searchRow ->
  canFit grid searchRow c rowSpan colSpan = true.
Proof.
  intros Hfresh Hrow. unfold canFit.
  apply forallb_forall. intros ro Hro. apply In_upto in Hro.
  apply forallb_forall. intros co Hco.
  apply negb_true_iff. unfold occupied.
  destruct ((searchRow + ro <? 0) || (c + co <? 0)); [reflexivity|].
  apply Hfresh. lia.
Qed.

Lemma range_nonempty lo hi : lo < hi -> range lo hi <> [].
Proof.
  intros H E. assert (Hin : In lo (range lo hi)) by (apply In_range; lia).
  rewrite E in Hin. exact Hin.
Qed.

Lemma candidateColumns_nonempty snake columns colSpan searchRow :
  1 <= columns -> colSpan <= columns ->
  candidateColumns snake columns colSpan searchRow <> [].
Proof.
  intros Hc Hs. unfold candidateColumns.
  destruct (snake && negb (JS.rem searchRow 2 =? 0)).
  - intro E. apply (f_equal (@rev Z)) in E. rewrite rev_involutive in E.
    revert E. apply range_nonempty. lia.
  - apply range_nonempty. lia.
Qed.

(** The search of one item ends: past the last allocated row every block fits. *)
Lemma findPosition_total snake columns rowSpan colSpan :
  1 <= columns -> colSpan <= columns ->
  forall fuel grid searchRow from,
    freshFrom from grid -> 0 <= searchRow ->
    (from - Z.to_nat searchRow < fuel)%nat ->
    exists grid' r c,
      findPosition fuel snake columns rowSpan colSpan grid searchRow = Some (grid', r, c).
Proof.
  intros Hc Hs. induction fuel as [|fuel IH]; intros grid searchRow from Hfresh Hrow Hfuel.
  - lia.
  - cbn [findPosition].
    set (grid1 := ensureRows columns grid (searchRow + rowSpan - 1)).
    assert (Hfresh1 : freshFrom from grid1) by (now apply ensureRows_fresh).
    destruct (find _ _) as [c|] eqn:Hfind.
    + eexists _, _, _. reflexivity.
    + destruct (Z_lt_ge_dec searchRow (Z.of_nat from)) as [Hlt|Hge].
      * apply (IH grid1 (searchRow + 1) from Hfresh1); lia.
      * exfalso.
        pose proof (candidateColumns_nonempty snake columns colSpan searchRow Hc Hs) as Hne.
        destruct (candidateColumns snake columns colSpan searchRow) as [|c0 cands] eqn:Ec;
          [now apply Hne|].
        pose proof (find_none _ _ Hfind c0 (or_introl eq_refl)) as Hno.
        cbv beta in Hno.
        rewrite (canFit_fresh grid1 from) in Hno by (assumption || lia).
        discriminate.
Qed.

Lemma effectiveColSpan_le columns child : effectiveColSpan columns child <= columns.
Proof. unfold effectiveColSpan. lia. Qed.

(** The placer places every item, each with its effective spans. *)
Lemma placeAll_total options snake columns :
  1 <= columns ->
  forall components st,
  exists st' items,
    placeAll options snake columns components st = Some st' /\
    placedItems st' = placedItems st ++ items /\
    Forall2 (fun child item =>
               PlacedItem.component item = child /\
               PlacedItem.colSpan item = effectiveColSpan columns child /\
               PlacedItem.rowSpan item = effectiveRowSpan child)
            components items.
Proof.
  intros Hc. induction components as [|child rest IH]; intros st.
  - exists st, []. cbn. rewrite app_nil_r. repeat split. constructor.
  - cbn [placeAll].
    destruct (findPosition_total snake columns (effectiveRowSpan child)
                (effectiveColSpan columns child) Hc (effectiveColSpan_le columns child)
                (List.length (occupancyGrid st) + 2) (occupancyGrid st) 0
                (List.length (occupancyGrid st)) (freshFrom_length _)
                ltac:(lia) ltac:(lia)) as (grid' & r0 & c0 & Hfind).
    rewrite Hfind.
    match goal with
    | |- context [placeAll _ _ _ rest ?s] => destruct (IH s) as (st' & items & Hrun & Hitems & Hall)
    end.
    cbn [placedItems] in Hitems. rewrite <- app_assoc in Hitems.
    eexists st', _. split; [exact Hrun|]. split; [exact Hitems|].
    constructor; [|exact Hall]. cbn. repeat split.
Qed.

(** C8: in the spanning placer (columns >= 1) every item is placed with
    colSpan = min(item.colSpan, columns) when it has a colSpan and 1 when it
    has none, and with rowSpan = item.rowSpan when it has a rowSpan and 1
    when it has none. *)
Theorem spanning_effective_spans (components : list LayoutComponent)
    (options : LayoutOptions) (C : Z) :
  columns options = Some C -> 1 <= C -> Forall validSpans components ->
  exists st,
    spanningPlacement components options = Some st /\
    Forall2 (fun child item =>
               PlacedItem.component item = child /\
               PlacedItem.colSpan item
               = match colSpan child with Some k => Z.min k C | None => 1 end /\
               PlacedItem.rowSpan item
               = match rowSpan child with Some k => k | None => 1 end)
            components (placedItems st).
Proof.
  intros HC Hpos Hvalid. unfold spanningPlacement. rewrite HC. cbn [JS.default].
  assert (E : (C <? 0) = false) by (apply Z.ltb_ge; lia). rewrite E.
  destruct (placeAll_total options
              (JS.streq (JS.default "default"%string (flowDirection options)) "snake")
              C Hpos components (mkPlacerState [] 0 []))
    as (st & items & Hrun & Hitems & Hall).
  exists st. split; [exact Hrun|].
  cbn [placedItems app] in Hitems. rewrite Hitems.
  clear Hrun Hitems. induction Hall as [|child item comps its [Hcomp [Hcs Hrs]] Hall IH].
  - constructor.
  - inversion Hvalid as [|? ? [Hvc Hvr] Hvalid']; subst.
    constructor; [|now apply IH].
    split; [reflexivity|]. split.
    + rewrite Hcs. unfold effectiveColSpan, JS.truthyZ.
      destruct (colSpan (PlacedItem.component item)) as [k|]; cbn [JS.default]; [|lia].
      specialize (Hvc k eq_refl).
      assert (Ek : (k =? 0) = false) by (apply Z.eqb_neq; lia). now rewrite Ek.
    + rewrite Hrs. unfold effectiveRowSpan, JS.truthyZ.
      destruct (rowSpan (PlacedItem.component item)) as [k|]; cbn [JS.default]; [|reflexivity].
      specialize (Hvr k eq_refl).
      assert (Ek : (k =? 0) = false) by (apply Z.eqb_neq; lia). now rewrite Ek.
Qed.

Lemma spanning_effective_spans_witness :
  let components := [spanBox 10 10 (Some 5) None; box 10 10] in
  let options := withColumns 3 noOptions in
  columns options = Some 3 /\ 1 <= 3 /\ Forall validSpans components /\
  exists st,
    spanningPlacement components options = Some st /\
    map PlacedItem.colSpan (placedItems st) = [3; 1].
Proof.
  cbv zeta.
  assert (Hvalid : Forall validSpans [spanBox 10 10 (Some 5) None; box 10 10]).
  { repeat constructor; intros k E; inversion E; reflexivity. }
  split; [reflexivity|]. split; [discriminate|]. split; [exact Hvalid|].
  destruct (spanning_effective_spans [spanBox 10 10 (Some 5) None; box 10 10]
              (withColumns 3 noOptions) 3 eq_refl ltac:(discriminate) Hvalid)
    as (st & Hrun & Hall).
  exists st. split; [exact Hrun|].
  inversion Hall as [|c1 i1 l1 l1' [_ [H1 _]] Hall1 E1 E2]; subst.
  inversion Hall1 as [|c2 i2 l2 l2' [_ [H2 _]] Hall2 E3 E4]; subst.
  inversion Hall2; subst.
  cbn [map]. rewrite H1, H2. reflexivity.
Defined.

(** ** The spanning placer never puts two blocks on one cell *)

Lemma setNth_nth (c c' : nat) : forall l,
  nth c' (setNth false c true l) false = if Nat.eqb c' c then true else nth c' l false.
Proof.
  revert c'. induction c as [|c IH]; intros c' l.
  - destruct l, c'; cbn; try reflexivity. now destruct c'.
  - destruct l as [|h t], c' as [|c']; cbn; try reflexivity.
    + rewrite IH. destruct (Nat.eqb c' c); [reflexivity | now destruct c'].
    + apply IH.
Qed.

Lemma markCell_length : forall grid r c, List.length (markCell grid r c) = List.length grid.
Proof.
  induction grid as [|rowArr rest IH]; intros r c; [reflexivity|].
  destruct r; cbn; [reflexivity | now rewrite IH].
Qed.

Lemma markCell_marked : forall grid r c r' c',
  marked (markCell grid r c) r' c'
  = if Nat.eqb r' r && Nat.eqb c' c && Nat.ltb r (List.length grid) then true
    else marked grid r' c'.
Proof.
  unfold marked.
  induction grid as [|rowArr rest IH]; intros r c r' c'.
  - cbn. rewrite andb_false_r. reflexivity.
  - destruct r as [|r], r' as [|r']; cbn [markCell nth List.length].
    + rewrite setNth_nth. cbn. rewrite andb_true_r. reflexivity.
    + reflexivity.
    + reflexivity.
    + rewrite IH. reflexivity.
Qed.

Lemma markCell_keeps grid r c r' c' :
  marked grid r' c' = true -> marked (markCell grid r c) r' c' = true.
Proof.
  intros H. rewrite markCell_marked, H. now destruct (_ && _).
Qed.

Lemma fold_left_keeps {A B} (f : A -> B -> A) (P : A -> Prop) :
  (forall a x, P a -> P (f a x)) -> forall l a, P a -> P (fold_left f l a).
Proof.
  intros Hf. induction l as [|x l IH]; intros a Ha; cbn; [exact Ha|].
  apply IH, Hf, Ha.
Qed.

Lemma fold_left_reaches {A B} (f : A -> B -> A) (Inv P : A -> Prop) (b : B) :
  (forall a x, Inv a -> Inv (f a x)) ->
  (forall a, Inv a -> P (f a b)) ->
  (forall a x, Inv a -> P a -> P (f a x)) ->
  forall l a, In b l -> Inv a -> P (fold_left f l a).
Proof.
  intros Hinv Hset Hkeep. induction l as [|x l IH]; intros a Hin Ha; [contradiction|].
  cbn. destruct Hin as [-> | Hin].
  - assert (Hboth : Inv (f a b) /\ P (f a b)) by (split; [apply Hinv | apply Hset]; exact Ha).
    clear IH Ha. revert Hboth. generalize (f a b). clear a.
    induction l as [|y l IHl]; intros a [Ha Hp]; cbn; [exact Hp|].
    apply IHl. split; [now apply Hinv | now apply Hkeep].
  - now apply IH, Hinv.
Qed.

Lemma markBlock_length grid searchRow c rowSpan colSpan :
  List.length (markBlock grid searchRow c rowSpan colSpan) = List.length grid.
Proof.
  unfold markBlock.
  apply (fold_left_keeps _ (fun g => List.length g = List.length grid)); [|reflexivity].
  intros g ro Hg.
  apply (fold_left_keeps _ (fun g' => List.length g' = List.length grid)); [|exact Hg].
  intros g' co Hg'. now rewrite markCell_length.
Qed.

Lemma markBlock_keeps grid searchRow c rowSpan colSpan r' c' :
  marked grid r' c' = true ->
  marked (markBlock grid searchRow c rowSpan colSpan) r' c' = true.
Proof.
  intros H. unfold markBlock.
  apply (fold_left_keeps _ (fun g => marked g r' c' = true)); [|exact H].
  intros g ro Hg.
  apply (fold_left_keeps _ (fun g' => marked g' r' c' = true)); [|exact Hg].
  intros g' co Hg'. now apply markCell_keeps.
Qed.

(** Marking a block whose rows are allocated marks each of its cells. *)
Lemma markBlock_marks grid searchRow c rowSpan colSpan ro co :
  In ro (JS.upto rowSpan) -> In co (JS.upto colSpan) ->
  0 <= searchRow -> searchRow + rowSpan <= Z.of_nat (List.length grid) ->
  marked (markBlock grid searchRow c rowSpan colSpan)
         (Z.to_nat (searchRow + ro)) (Z.to_nat (c + co)) = true.
Proof.
  intros Hro Hco Hrow Hlen. unfold markBlock.
  set (n := List.length grid) in *.
  set (r' := Z.to_nat (searchRow + ro)). set (c' := Z.to_nat (c + co)).
  pose proof (In_upto _ _ Hro) as Hro'.
  apply (fold_left_reaches _ (fun g => List.length g = n) (fun g => marked g r' c' = true) ro);
    try assumption; try reflexivity.
  - intros g x Hg.
    apply (fold_left_keeps _ (fun g' => List.length g' = n)); [|exact Hg].
    intros g' y Hg'. now rewrite markCell_length.
  - intros g Hg.
    apply (fold_left_reaches _ (fun g' => List.length g' = n)
                             (fun g' => marked g' r' c' = true) co);
      try assumption.
    + intros g' y Hg'. now rewrite markCell_length.
    + intros g' Hg'. rewrite markCell_marked. fold r' c'.
      rewrite !Nat.eqb_refl, Hg'.
      assert (E : Nat.ltb r' n = true) by (apply Nat.ltb_lt; unfold r'; lia).
      now rewrite E.
    + intros g' y Hg' Hm. now apply markCell_keeps.
  - intros g x Hg Hm.
    apply (fold_left_keeps _ (fun g' => marked g' r' c' = true)); [|exact Hm].
    intros g' y Hg'. now apply markCell_keeps.
Qed.

Lemma ensureRows_keeps columns grid last r c :
  marked grid r c = true -> marked (ensureRows columns grid last) r c = true.
Proof.
  unfold marked, ensureRows. intros H.
  destruct (Nat.lt_ge_cases r (List.length grid)) as [Hlt|Hge].
  - now rewrite app_nth1.
  - rewrite (nth_overflow grid [] Hge) in H. destruct c; discriminate.
Qed.

Lemma ensureRows_length columns grid last :
  last + 1 <= Z.of_nat (List.length (ensureRows columns grid last)).
Proof.
  unfold ensureRows. rewrite length_app, repeat_length. lia.
Qed.

Lemma In_candidateColumns snake columns colSpan searchRow c :
  In c (candidateColumns snake columns colSpan searchRow) -> 0 <= c.
Proof.
  unfold candidateColumns. destruct (snake && _); intros H.
  - apply in_rev in H. apply In_range in H. lia.
  - apply In_range in H. lia.
Qed.

(** Where the search of one item ends: a block that was free in the grid as
    allocated so far, and is marked in the grid returned. *)
Lemma findPosition_result snake columns rowSpan colSpan :
  forall fuel grid searchRow grid' r0 c0,
  findPosition fuel snake columns rowSpan colSpan grid searchRow = Some (grid', r0, c0) ->
  0 <= searchRow ->
  exists gk,
    (forall r c, marked grid r c = true -> marked gk r c = true) /\
    canFit gk r0 c0 rowSpan colSpan = true /\
    grid' = markBlock gk r0 c0 rowSpan colSpan /\
    0 <= r0 /\ 0 <= c0 /\ r0 + rowSpan <= Z.of_nat (List.length gk).
Proof.
  induction fuel as [|fuel IH]; intros grid searchRow grid' r0 c0 Hrun Hrow;
    [discriminate|].
  cbn [findPosition] in Hrun.
  set (grid1 := ensureRows columns grid (searchRow + rowSpan - 1)) in *.
  destruct (find _ _) as [c|] eqn:Hfind.
  - inversion Hrun; subst. apply find_some in Hfind. destruct Hfind as [Hin Hfit].
    exists grid1. split; [intros r c; apply ensureRows_keeps|].
    split; [exact Hfit|]. split; [reflexivity|]. split; [exact Hrow|].
    split; [eapply In_candidateColumns; exact Hin|].
    pose proof (ensureRows_length columns grid (r0 + rowSpan - 1)). fold grid1 in H. lia.
  - destruct (IH _ _ _ _ _ Hrun ltac:(lia)) as (gk & Hmono & Hfit & Hgrid & Hr & Hc & Hlen).
    exists gk. split; [|repeat split; assumption || lia].
    intros r c H. apply Hmono. now apply ensureRows_keeps.
Qed.

Lemma canFit_free grid searchRow c rowSpan colSpan ro co :
  canFit grid searchRow c rowSpan colSpan = true ->
  In ro (JS.upto rowSpan) -> In co (JS.upto colSpan) ->
  occupied grid (searchRow + ro) (c + co) = false.
Proof.
  unfold canFit. intros H Hro Hco.
  rewrite forallb_forall in H. specialize (H ro Hro).
  rewrite forallb_forall in H. specialize (H co Hco).
  now apply negb_true_iff in H.
Qed.

Lemma upto_NoDup n : NoDup (JS.upto n).
Proof.
  unfold JS.upto. apply NoDup_map_inj_in; [|apply seq_NoDup].
  intros a b _ _ H. lia.
Qed.

Lemma blockCells_NoDup item : NoDup (blockCells item).
Proof.
  unfold blockCells.
  assert (H : forall l, NoDup l ->
             NoDup (flat_map
                      (fun r_offset =>
                         map (fun c_offset => mkCell (PlacedItem.row item + r_offset)
                                                     (PlacedItem.col item + c_offset))
                             (JS.upto (PlacedItem.colSpan item))) l)).
  { induction 1 as [|a l Hnin Hnd IH]; cbn [flat_map]; [constructor|].
    apply NoDup_app; [|exact IH|].
    - apply NoDup_map_inj_in; [|apply upto_NoDup].
      intros u v _ _ E. inversion E. lia.
    - intros pos Hin Hin'. apply in_map_iff in Hin. destruct Hin as [c1 [<- _]].
      apply in_flat_map in Hin'. destruct Hin' as [r1 [Hr1 Hin']].
      apply in_map_iff in Hin'. destruct Hin' as [c2 [E _]].
      inversion E. assert (r1 = a) by lia. subst. contradiction. }
  apply H, upto_NoDup.
Qed.

Lemma In_blockCells item pos :
  In pos (blockCells item) ->
  exists ro co,
    In ro (JS.upto (PlacedItem.rowSpan item)) /\ In co (JS.upto (PlacedItem.colSpan item)) /\
    pos = mkCell (PlacedItem.row item + ro) (PlacedItem.col item + co).
Proof.
  unfold blockCells. intros H. apply in_flat_map in H. destruct H as [ro [Hro H]].
  apply in_map_iff in H. destruct H as [co [<- Hco]]. now exists ro, co.
Qed.

(** Placing the items keeps the state of the placer consistent. *)
Lemma placeAll_consistent options snake columns :
  forall components st st',
  placeAll options snake columns components st = Some st' ->
  placerConsistent st -> placerConsistent st'.
Proof.
  induction components as [|child rest IH]; intros st st' Hrun Hst.
  - cbn in Hrun. inversion Hrun; subst. exact Hst.
  - cbn [placeAll] in Hrun.
    destruct (findPosition _ _ _ _ _ _ _) as [[[grid' r0] c0]|] eqn:Hfind; [|discriminate].
    apply (IH _ _ Hrun). clear IH Hrun.
    destruct (findPosition_result _ _ _ _ _ _ _ _ _ _ Hfind ltac:(lia))
      as (gk & Hmono & Hfit & Hgrid & Hr & Hc & Hlen).
    destruct Hst as [Hmarked Hnd].
    set (rs := effectiveRowSpan child) in *.
    set (cspan := effectiveColSpan columns child) in *.
    set (item := PlacedItem.mk child r0 c0 rs cspan _ _).
    split; cbn [placedItems occupancyGrid].
    + intros it Hin. apply in_app_iff in Hin. destruct Hin as [Hin | [<- | []]].
      * destruct (Hmarked it Hin) as [H1 [H2 H3]]. repeat split; try assumption.
        intros pos Hpos. rewrite Hgrid. apply markBlock_keeps, Hmono. now apply H3.
      * cbn [PlacedItem.row PlacedItem.col]. repeat split; try assumption.
        intros pos Hpos. apply In_blockCells in Hpos.
        destruct Hpos as (ro & co & Hro & Hco & ->). cbn [cellR cellC item
          PlacedItem.row PlacedItem.col PlacedItem.rowSpan PlacedItem.colSpan] in *.
        rewrite Hgrid. now apply markBlock_marks.
    + rewrite flat_map_app. cbn [flat_map]. rewrite app_nil_r.
      apply NoDup_app; [exact Hnd | apply blockCells_NoDup|].
      intros pos Hold Hnew.
      apply in_flat_map in Hold. destruct Hold as [it [Hit Hpos]].
      destruct (Hmarked it Hit) as [_ [_ Hm]]. specialize (Hm pos Hpos).
      apply Hmono in Hm.
      apply In_blockCells in Hnew. destruct Hnew as (ro & co & Hro & Hco & ->).
      cbn [cellR cellC item PlacedItem.row PlacedItem.col
           PlacedItem.rowSpan PlacedItem.colSpan] in *.
      pose proof (canFit_free gk r0 c0 rs cspan ro co Hfit Hro Hco) as Hfree.
      apply In_upto in Hro. apply In_upto in Hco.
      unfold occupied in Hfree.
      assert (E : (r0 + ro <? 0) || (c0 + co <? 0) = false).
      { apply orb_false_iff. split; apply Z.ltb_ge; lia. }
      rewrite E in Hfree. unfold marked in Hm. congruence.
Qed.

(** X1: what the occupancy grid does guarantee: for every collection and
    every column count of at least 1 the placer ends with every item placed;
    every block starts at non-negative coordinates, every cell of every
    block is marked in the final occupancy grid, and no cell lies in the
    blocks of two placed items (nor twice in one block). *)
Lemma spanning_blocks_do_not_overlap (components : list LayoutComponent)
    (options : LayoutOptions) :
  1 <= JS.default 3 (columns options) ->
  exists st,
    spanningPlacement components options = Some st /\
    List.length (placedItems st) = List.length components /\
    (forall item, In item (placedItems st) ->
       0 <= PlacedItem.row item /\ 0 <= PlacedItem.col item /\
       forall pos, In pos (blockCells item) ->
         0 <= cellR pos /\ 0 <= cellC pos /\
         occupied (occupancyGrid st) (cellR pos) (cellC pos) = true) /\
    NoDup (flat_map blockCells (placedItems st)).
Proof.
  intros Hc. unfold spanningPlacement.
  assert (E : (JS.default 3 (columns options) <? 0) = false) by (apply Z.ltb_ge; lia).
  rewrite E.
  destruct (placeAll_total options
              (JS.streq (JS.default "default"%string (flowDirection options)) "snake")
              _ Hc components (mkPlacerState [] 0 []))
    as (st & items & Hrun & Hitems & Hall).
  assert (Hcons : placerConsistent st).
  { apply (placeAll_consistent _ _ _ _ _ _ Hrun).
    split; cbn; [intros item [] | constructor]. }
  destruct Hcons as [Hmarked Hnd].
  exists st. split; [exact Hrun|]. split; [|split; [|exact Hnd]].
  - cbn in Hitems. rewrite Hitems. symmetry. eapply Forall2_length; exact Hall.
  - intros item Hitem. destruct (Hmarked item Hitem) as (Hr & Hc0 & Hm).
    split; [exact Hr|]. split; [exact Hc0|]. intros pos Hpos.
    specialize (Hm pos Hpos).
    apply In_blockCells in Hpos. destruct Hpos as (ro & co & Hro & Hco & ->).
    apply In_upto in Hro. apply In_upto in Hco. cbn [cellR cellC] in *.
    assert (Hrow : 0 <= PlacedItem.row item + ro) by lia.
    assert (Hcol : 0 <= PlacedItem.col item + co) by lia.
    split; [exact Hrow|]. split; [exact Hcol|].
    unfold occupied.
    assert (E' : (PlacedItem.row item + ro <? 0) || (PlacedItem.col item + co <? 0) = false).
    { apply orb_false_iff. split; apply Z.ltb_ge; lia. }
    rewrite E'. exact Hm.
Qed.

(** C1 at the failing input: with two columns, a unit item followed by an
    item of colSpan 2.  Row 0 is scanned up to its last column; at column 1
    the cell past the end of the row reads as free, so the second block is
    placed on columns 1 and 2, outside the two columns of the grid.  On a
    snake row the scan starts at [columns - colSpan] and cannot do so. *)
Theorem spanning_block_leaves_grid :
  let components := [box 10 10; spanBox 10 10 (Some 2) None] in
  let options := withColumns 2 noOptions in
  exists st item,
    spanningPlacement components options = Some st /\
    nth_error (placedItems st) 1 = Some item /\
    PlacedItem.row item = 0 /\ PlacedItem.col item = 1 /\ PlacedItem.colSpan item = 2 /\
    In (mkCell 0 2) (blockCells item) /\
    ~ (PlacedItem.col item + PlacedItem.colSpan item <= JS.default 3 (columns options)).
Proof.
  cbv zeta. eexists _, _. split; [vm_compute; reflexivity|].
  split; [reflexivity|].
  split; [reflexivity|]. split; [reflexivity|]. split; [reflexivity|].
  split; [vm_compute; auto | vm_compute; intro H; apply H; reflexivity].
Qed.

(** ** Corner converge *)

(** C5 at the failing inputs.  On the 3 by 3 grid of nine items the second
    shell is the single centre cell: each of its four legs loses its only
    cell to [pop], so the cell (1,1) is never generated and the ninth item
    keeps its prior position.  On the 1 by 4 grid of four items the top and
    the bottom leg run over the same row and the cells (0,1) and (0,2) are
    generated twice. *)
Theorem corner_converge_misses_and_repeats :
  (exists finalPositions placed b,
      cornerConvergePositions 9 3 = Some finalPositions /\
      List.length finalPositions = 8%nat /\
      ~ In (mkCell 1 1) finalPositions /\
      _layoutSquareCornerConverge (repeat (box 10 10) 9) (withColumns 3 noOptions)
      = Some (placed, b) /\
      nth_error placed 8 = Some (box 10 10)) /\
  (exists finalPositions,
      cornerConvergePositions 4 4 = Some finalPositions /\
      ~ NoDup finalPositions).
Proof.
  split.
  - eexists _, _, _. split; [vm_compute; reflexivity|].
    split; [reflexivity|]. split.
    + cbn. intros H. repeat (destruct H as [H|H]; [discriminate H|]). exact H.
    + split; [vm_compute; reflexivity | reflexivity].
  - eexists. split; [vm_compute; reflexivity|].
    intros Hnd.
    inversion Hnd as [|? ? _ H1]; subst. inversion H1 as [|? ? _ H2]; subst.
    inversion H2 as [|? ? Hnin _]; subst.
    apply Hnin. cbn. auto.
Qed.

(** ** Empty collections and non-positive column counts *)

Lemma empty_collection_is_noop (options : LayoutOptions) :
  _layoutSquareSimple [] options = Some ([], zeroBounds) /\
  _layoutSquareWithSpanning [] options = Some ([], zeroBounds) /\
  _layoutSquareHilbertCurve [] options = Some ([], zeroBounds) /\
  _layoutSquareZOrder [] options = Some ([], zeroBounds) /\
  _layoutSquareCornerConverge [] options = Some ([], zeroBounds) /\
  _layoutSquareDiamondFill [] options = Some ([], zeroBounds) /\
  _layoutSquareBoustrophedon [] options = Some ([], zeroBounds) /\
  _layoutPerimeterGrid [] options = Some ([], zeroBounds).
Proof. repeat split; reflexivity. Qed.

Lemma perimeter_nonpositive_columns_noop components options :
  JS.default 4 (columns options) <= 0 ->
  _layoutPerimeterGrid components options = Some (components, zeroBounds).
Proof.
  intros H. unfold _layoutPerimeterGrid.
  assert (E : (pfColumns (perimeterFlags options) <=? 0) = true)
    by (apply Z.leb_le; exact H).
  rewrite E, orb_true_r. reflexivity.
Qed.

(** C6 at the failing input: the simple grid has no guard on [columns]; with
    [columns = -1] and one item of size 10 it writes the position (5, 5) and
    returns the box (0, 0, -10, -10), not the zero box. *)
Theorem simple_negative_columns_not_noop :
  let components := [box 10 10] in
  let options := withColumns (-1) noOptions in
  exists placed b child,
    _layoutSquareSimple components options = Some (placed, b) /\
    nth_error placed 0 = Some child /\
    (vx (position child) == 5)%Q /\ (vy (position child) == 5)%Q /\
    ~ (vx (position child) == vx (position (box 10 10)))%Q /\
    b <> zeroBounds /\ (maxX b == -10)%Q /\ (maxY b == -10)%Q.
Proof.
  cbv zeta. eexists _, _, _. split; [vm_compute; reflexivity|].
  split; [reflexivity|].
  repeat split; try reflexivity; cbn; try discriminate.
Qed.

(** ** The reset of visibility and mirroring at the entry point *)

Lemma resetForLayout_shown child : shownUnmirrored (resetForLayout child).
Proof.
  unfold shownUnmirrored, resetForLayout, setVisible, setScaleX, setScale.
  cbn [visible scale]. split.
  - destruct (visible child); discriminate.
  - destruct (scale child); cbn; [reflexivity | exact I].
Qed.

Lemma resetForLayout_fields child :
  visible (resetForLayout child) = option_map (fun _ => true) (visible child) /\
  scale (resetForLayout child) = option_map (fun s => mkVec2 1 (vy s)) (scale child) /\
  position (resetForLayout child) = position child.
Proof.
  unfold resetForLayout, setVisible, setScaleX, setScale. cbn.
  destruct (visible child); repeat split.
Qed.

Lemma insertByValue_perm child sorted :
  Permutation (insertByValue child sorted) (child :: sorted).
Proof.
  induction sorted as [|other rest IH]; cbn [insertByValue]; [reflexivity|].
  destruct (JS.Qgtb (valueOf other) (valueOf child)); [|reflexivity].
  eapply Permutation_trans; [apply perm_skip, IH | apply perm_swap].
Qed.

Lemma sortByValue_perm components : Permutation (sortByValue components) components.
Proof.
  induction components as [|child rest IH]; cbn; [constructor|].
  eapply Permutation_trans; [apply insertByValue_perm | now apply perm_skip].
Qed.

(** ** What a strategy leaves of the items *)

Lemma Forall2_same {A} (R : A -> A -> Prop) :
  (forall a, R a a) -> forall l, Forall2 R l l.
Proof. intros Hrefl. induction l; constructor; auto. Qed.

Lemma placeAlong_Forall2 {S} (R : LayoutComponent -> LayoutComponent -> Prop)
    (place : S -> LayoutComponent -> LayoutComponent) :
  (forall child, R child child) ->
  (forall s child, R child (place s child)) ->
  forall path components, Forall2 R components (placeAlong place path components).
Proof.
  intros Hrefl Hplace. induction path as [|s more IH]; intros components.
  - destruct components; cbn; [constructor | now apply Forall2_same].
  - destruct components as [|child rest]; cbn; [constructor|].
    constructor; [apply Hplace | apply IH].
Qed.

Lemma forEachIdx_Forall2 {A B} (R : A -> B -> Prop) (f : A -> Z -> B) :
  (forall a i, R a (f a i)) -> forall l k, Forall2 R l (forEachIdx f l k).
Proof.
  intros Hf. induction l as [|a l IH]; intros k; cbn; constructor; auto.
Qed.

Lemma placeAll_items options snake columns :
  forall components st st',
  placeAll options snake columns components st = Some st' ->
  exists items,
    placedItems st' = placedItems st ++ items /\
    Forall2 (fun child item => PlacedItem.component item = child) components items.
Proof.
  induction components as [|child rest IH]; intros st st' Hrun.
  - cbn in Hrun. inversion Hrun; subst. exists []. split; [now rewrite app_nil_r | constructor].
  - cbn [placeAll] in Hrun.
    destruct (findPosition _ _ _ _ _ _ _) as [[[grid r0] c0]|]; [|discriminate].
    apply IH in Hrun. destruct Hrun as (items & Hitems & Hall).
    cbn [placedItems] in Hitems. rewrite <- app_assoc in Hitems.
    eexists. split; [exact Hitems|]. constructor; [reflexivity | exact Hall].
Qed.

Lemma projectPlaced_position options cs columns totalRows item :
  exists x y,
    projectPlaced options cs columns totalRows item
    = setPosition (PlacedItem.component item) x y.
Proof.
  unfold projectPlaced. cbv zeta.
  match goal with |- context [let '(x, y) := ?e in _] => destruct e as [x y] end.
  now exists x, y.
Qed.

Lemma some_injective {A} (x y : A) : Some x = Some y -> x = y.
Proof. intros H. now injection H. Qed.

(** The list of items in a result [Some (placed, b)]. *)
Ltac returned H :=
  apply (f_equal (option_map fst)) in H; cbn [option_map fst] in H;
  apply some_injective in H; rewrite <- H; clear H.

Section Related.

(** A relation between an item as handed over and as returned that holds of
    an item left alone and of an item whose position was written. *)
Variable R : LayoutComponent -> LayoutComponent -> Prop.
Hypothesis R_same : forall child, R child child.
Hypothesis R_position : forall child x y, R child (setPosition child x y).

Lemma placeInCell_related cs pos child : R child (placeInCell cs pos child).
Proof. unfold placeInCell. apply R_position. Qed.

Lemma layoutOnPositions_related defaultColumns positions components options placed b :
  layoutOnPositions defaultColumns positions components options = Some (placed, b) ->
  Forall2 R components placed.
Proof.
  unfold layoutOnPositions. intros Hrun.
  destruct components as [|c0 rest]; [returned Hrun; constructor|].
  destruct (_ =? 0); [discriminate|]. returned Hrun.
  apply placeAlong_Forall2; [exact R_same | intros; apply placeInCell_related].
Qed.

Lemma randomWalk_related random cs columns totalRows :
  forall components currentPos grid unoccupiedCells drawn placed,
  randomWalk random cs columns totalRows components currentPos grid unoccupiedCells drawn
  = Some placed ->
  Forall2 R components placed.
Proof.
  induction components as [|child rest IH];
    intros currentPos grid unoccupiedCells drawn placed Hrun.
  - cbn in Hrun. apply some_injective in Hrun. rewrite <- Hrun. constructor.
  - cbn [randomWalk] in Hrun. destruct currentPos as [pos|].
    + destruct (nextWalkPosition _ _ _ _) as [[[next left] drawn']|]; [|discriminate].
      destruct (randomWalk random cs columns totalRows rest next _ left drawn')
        as [more|] eqn:Hrest; [|discriminate].
      cbn [option_map] in Hrun. apply some_injective in Hrun. rewrite <- Hrun.
      constructor; [apply placeInCell_related | eapply IH; exact Hrest].
    + apply some_injective in Hrun. rewrite <- Hrun. now apply Forall2_same.
Qed.

Lemma projectPlaced_related options cs columns totalRows components items :
  Forall2 (fun child item => PlacedItem.component item = child) components items ->
  Forall2 R components (map (projectPlaced options cs columns totalRows) items).
Proof.
  induction 1 as [|child item l l' Hc _ IH]; cbn [map]; constructor; [|exact IH].
  destruct (projectPlaced_position options cs columns totalRows item) as (x & y & E).
  rewrite E, Hc. apply R_position.
Qed.

(** What each strategy does to the items it is handed: it leaves an item
    alone or writes its position; only the boustrophedon also writes the
    scale, and only the diamond the visibility flag. *)
Lemma runStrategy_related random s flow components options placed b :
  (s = Boustrophedon ->
   forall child x y v, R child (setScaleX (setPosition child x y) v)) ->
  (s = DiamondFill -> forall child, R child (setVisible child false)) ->
  runStrategy random s flow components options = Some (placed, b) ->
  Forall2 R components placed.
Proof.
  intros Hmirror Hhide Hrun.
  destruct s; cbn [runStrategy] in Hrun.
  - (* gravity fill *)
    unfold _layoutSquareGravityFill in Hrun. eapply layoutOnPositions_related; exact Hrun.
  - (* symmetric outward *)
    eapply layoutOnPositions_related; exact Hrun.
  - (* clustered fill *)
    unfold _layoutSquareClusteredFill in Hrun.
    destruct components as [|c0 rest]; [returned Hrun; constructor|].
    destruct (_ =? 0); [discriminate|].
    destruct (clusterZones _ _ _ _ _) as [assigned|]; [|discriminate].
    returned Hrun. apply forEachIdx_Forall2.
    intros child i. destruct (assignedCell i assigned);
      [apply placeInCell_related | apply R_same].
  - (* boustrophedon *)
    unfold _layoutSquareBoustrophedon in Hrun.
    destruct components as [|c0 rest]; [returned Hrun; constructor|].
    destruct (_ =? 0); [discriminate|]. returned Hrun.
    apply forEachIdx_Forall2. intros child i. unfold boustrophedonPlace, placeInCell.
    cbv zeta. now apply Hmirror.
  - (* braid flow *)
    unfold _layoutSquareBraidFlow in Hrun.
    destruct components as [|c0 rest]; [returned Hrun; constructor|].
    destruct (_ <=? 0); [returned Hrun; now apply Forall2_same|].
    destruct (_ =? 0); [discriminate|]. returned Hrun.
    apply forEachIdx_Forall2. intros child i. unfold braidPlace. cbv zeta.
    destruct (_ <? _); [apply placeInCell_related | apply R_same].
  - (* interlaced *)
    eapply layoutOnPositions_related; exact Hrun.
  - (* random walk *)
    unfold _layoutSquareRandomWalk in Hrun.
    destruct components as [|c0 rest]; [returned Hrun; constructor|].
    destruct (_ =? 0); [discriminate|].
    destruct (_ <? 0); [discriminate|].
    destruct (gridCells _ _) as [|cell0 cells];
      [returned Hrun; now apply Forall2_same|].
    destruct (randomIndex _ _ _) as [first|]; [|discriminate].
    destruct (randomWalk _ _ _ _ _ _ _ _ _) as [walked|] eqn:Hwalk; [|discriminate].
    returned Hrun. eapply randomWalk_related; exact Hwalk.
  - (* Hilbert curve *)
    unfold _layoutSquareHilbertCurve in Hrun.
    destruct components as [|c0 rest]; [returned Hrun; constructor|].
    destruct (_ =? 0); [discriminate|].
    destruct (allPositionsOnCurve _); [|discriminate].
    returned Hrun. rewrite assignAlongCurve_filter.
    apply placeAlong_Forall2; [exact R_same | intros; apply placeInCell_related].
  - (* perimeter first *)
    unfold _layoutSquarePerimeterFirst in Hrun.
    destruct components as [|c0 rest]; [returned Hrun; constructor|].
    destruct (_ =? 0); [discriminate|]. returned Hrun.
    match goal with
    | |- Forall2 R ?l (placeAlong _ _ (firstn ?n _) ++ _) =>
        rewrite <- (firstn_skipn n l) at 1
    end.
    apply Forall2_app.
    + apply placeAlong_Forall2; [exact R_same | intros; apply placeInCell_related].
    + match goal with |- Forall2 R _ (if ?cond then _ else _) => destruct cond end.
      * apply forEachIdx_Forall2. intros child i. apply placeInCell_related.
      * now apply Forall2_same.
  - (* Z-order *)
    unfold _layoutSquareZOrder in Hrun.
    destruct components as [|c0 rest]; [returned Hrun; constructor|].
    destruct (_ =? 0); [discriminate|].
    destruct (generate _ _ _ _ _ _ _ _); [|discriminate].
    returned Hrun.
    apply placeAlong_Forall2; [exact R_same | intros; apply placeInCell_related].
  - (* spiral *)
    unfold _layoutSquareSpiral in Hrun.
    destruct components as [|c0 rest]; [returned Hrun; constructor|].
    destruct (_ <=? 0); [discriminate|].
    destruct (spiralPositions _ _ _ _ _ _) as [positions|]; [|discriminate].
    returned Hrun.
    apply placeAlong_Forall2; [exact R_same | intros; apply placeInCell_related].
  - (* diagonal fill *)
    eapply layoutOnPositions_related; exact Hrun.
  - (* block fill *)
    unfold _layoutSquareBlockFill in Hrun.
    destruct components as [|c0 rest]; [returned Hrun; constructor|].
    destruct (_ || _); [returned Hrun; now apply Forall2_same|].
    eapply layoutOnPositions_related; exact Hrun.
  - (* corner converge *)
    unfold _layoutSquareCornerConverge in Hrun.
    destruct components as [|c0 rest]; [returned Hrun; constructor|].
    destruct (_ =? 0); [discriminate|].
    destruct (cornerConvergePositions _ _); [|discriminate].
    returned Hrun.
    apply placeAlong_Forall2; [exact R_same | intros; apply placeInCell_related].
  - (* diamond fill *)
    unfold _layoutSquareDiamondFill in Hrun.
    destruct components as [|c0 rest]; [returned Hrun; constructor|].
    destruct (_ =? 0); [discriminate|]. returned Hrun.
    generalize (diamondValidPositions
                  (JS.default 5 (columns options))
                  (JS.ceilDiv (Z.of_nat (List.length (c0 :: rest)))
                              (JS.default 5 (columns options)))).
    generalize (_calculateGridCellSize (c0 :: rest) options).
    generalize (c0 :: rest). clear - R_position Hhide.
    intros l cs valid. revert valid.
    induction l as [|child more IH]; intros valid; cbn [placeOrHide]; [constructor|].
    destruct valid as [|pos cells].
    + constructor; [now apply Hhide | apply IH].
    + constructor; [apply placeInCell_related | apply IH].
  - (* spanning *)
    unfold _layoutSquareWithSpanning in Hrun.
    destruct components as [|c0 rest]; [returned Hrun; constructor|].
    destruct (spanningPlacement _ _) as [st|] eqn:Hplace; [|discriminate].
    returned Hrun.
    unfold spanningPlacement in Hplace.
    destruct (_ <? 0); [discriminate|].
    apply placeAll_items in Hplace. destruct Hplace as (items & Hitems & Hall).
    cbn [placedItems app] in Hitems. rewrite Hitems.
    now apply projectPlaced_related.
  - (* simple *)
    unfold _layoutSquareSimple in Hrun.
    destruct components as [|c0 rest]; [returned Hrun; constructor|].
    destruct (_ =? 0); [discriminate|].
    assert (Hplaced : forall f : LayoutComponent -> Z -> Q * Q,
               Forall2 R (c0 :: rest)
                 (forEachIdx (fun child i => let '(x, y) := f child i in setPosition child x y)
                             (c0 :: rest) 0)).
    { intros f. apply forEachIdx_Forall2. intros a i. destruct (f a i). apply R_position. }
    destruct (isColumnFlow _ && _); [discriminate|].
    destruct (isHoneycombFlow _); returned Hrun; apply Hplaced.
Qed.

End Related.

Lemma Forall2_Forall_r {A B} (R : A -> B -> Prop) (P : A -> Prop) (Q : B -> Prop) :
  (forall a b, R a b -> P a -> Q b) ->
  forall l l', Forall2 R l l' -> Forall P l -> Forall Q l'.
Proof.
  intros H. induction 1 as [|a b l l' Hab _ IH]; intros Hall; constructor;
    inversion Hall; subst; eauto.
Qed.

(** C10: on every call of [_layoutSquare] the items handed to the selected
    strategy are the caller's items after the reset (sorted by value for a
    value-weighted flow): an item with a visibility flag has it set, an item
    with a scale has scale.x = 1, positions are untouched.  Every strategy
    of the router returns the items in the order it was handed them, with
    the visibility flag as handed over unless the strategy is diamond fill
    and the scale as handed over unless it is the boustrophedon: so,
    whatever the flags were before the call, no item comes back hidden
    except from diamond fill, none mirrored except from the boustrophedon,
    and a strategy that writes nothing but positions (all the others)
    returns every item shown and unmirrored. *)
Theorem layout_square_resets_flags (random : nat -> Double.t)
    (components : list LayoutComponent) (options : LayoutOptions) :
  (forall child,
      visible (resetForLayout child) = option_map (fun _ => true) (visible child) /\
      scale (resetForLayout child) = option_map (fun s => mkVec2 1 (vy s)) (scale child) /\
      position (resetForLayout child) = position child) /\
  Permutation (componentsToLayout components options) (map resetForLayout components) /\
  Forall shownUnmirrored (componentsToLayout components options) /\
  _layoutSquare random components options
  = runStrategy random (selectedStrategy options) (resolvedFlowDirection options)
                (componentsToLayout components options) options /\
  (forall placed b,
      _layoutSquare random components options = Some (placed, b) ->
      Forall2 (fun child p =>
                 (selectedStrategy options <> DiamondFill -> visible p = visible child) /\
                 (selectedStrategy options <> Boustrophedon -> scale p = scale child))
              (componentsToLayout components options) placed /\
      (selectedStrategy options <> DiamondFill -> Forall notHidden placed) /\
      (selectedStrategy options <> Boustrophedon -> Forall notMirrored placed)) /\
  (forall placed b,
      positionsOnly (selectedStrategy options) = true ->
      _layoutSquare random components options = Some (placed, b) ->
      Forall shownUnmirrored placed).
Proof.
  assert (Hperm : Permutation (componentsToLayout components options)
                              (map resetForLayout components)).
  { unfold componentsToLayout. destruct (resolveFlow options) as [[f u] w].
    destruct w; [apply sortByValue_perm | reflexivity]. }
  assert (Hshown : Forall shownUnmirrored (componentsToLayout components options)).
  { eapply Permutation_Forall; [apply Permutation_sym; exact Hperm|].
    apply Forall_map. apply Forall_forall. intros c _. apply resetForLayout_shown. }
  assert (Hrun : _layoutSquare random components options
                 = runStrategy random (selectedStrategy options)
                               (resolvedFlowDirection options)
                               (componentsToLayout components options) options).
  { unfold _layoutSquare, selectedStrategy, resolvedFlowDirection.
    destruct (resolveFlow options) as [[f u] w]. reflexivity. }
  assert (Hflags : forall placed b,
             _layoutSquare random components options = Some (placed, b) ->
             Forall2 (fun child p =>
                        (selectedStrategy options <> DiamondFill ->
                         visible p = visible child) /\
                        (selectedStrategy options <> Boustrophedon ->
                         scale p = scale child))
                     (componentsToLayout components options) placed).
  { intros placed b Hres. rewrite Hrun in Hres.
    eapply runStrategy_related; [| | | |exact Hres]; cbv beta.
    - intros child. split; reflexivity.
    - intros child x y. split; reflexivity.
    - intros Hs child x y v. split; [reflexivity | intros Hne; contradiction].
    - intros Hs child. split; [intros Hne; contradiction | reflexivity]. }
  split; [apply resetForLayout_fields|].
  split; [exact Hperm|]. split; [exact Hshown|]. split; [exact Hrun|].
  split.
  - intros placed b Hres. specialize (Hflags placed b Hres).
    split; [exact Hflags|]. split; intros Hne.
    + eapply Forall2_Forall_r; [|exact Hflags|exact Hshown]. cbv beta.
      intros child p [Hv _] [Hvis _]. unfold notHidden. rewrite (Hv Hne). exact Hvis.
    + eapply Forall2_Forall_r; [|exact Hflags|exact Hshown]. cbv beta.
      intros child p [_ Hs] [_ Hsc]. unfold notMirrored. rewrite (Hs Hne). exact Hsc.
  - intros placed b Hs Hres. specialize (Hflags placed b Hres).
    eapply Forall2_Forall_r; [|exact Hflags|exact Hshown]. cbv beta.
    intros child p [Hv Hsc] [Hvis Hmir].
    assert (Hd : selectedStrategy options <> DiamondFill)
      by (intros E; rewrite E in Hs; discriminate).
    assert (Hb : selectedStrategy options <> Boustrophedon)
      by (intros E; rewrite E in Hs; discriminate).
    unfold shownUnmirrored. rewrite (Hv Hd), (Hsc Hb). split; assumption.
Qed.

Lemma layout_square_resets_flags_witness :
  let hidden := [setVisible (visibleBox 10 10) false; visibleBox 10 10] in
  let options := withColumns 3 noOptions in
  let random := fun _ : nat => Double.ofZ 0 in
  positionsOnly (selectedStrategy options) = true /\
  exists placed b,
    _layoutSquare random hidden options = Some (placed, b) /\
    Forall shownUnmirrored placed.
Proof.
  cbv zeta. split; [reflexivity|].
  eexists _, _. split; [vm_compute; reflexivity|].
  apply (proj2 (proj2 (proj2 (proj2 (proj2
           (layout_square_resets_flags
              (fun _ : nat => Double.ofZ 0)
              [setVisible (visibleBox 10 10) false; visibleBox 10 10]
              (withColumns 3 noOptions))))))
           _ (mkBounds 0 0 (30 # 1) (10 # 1)));
    [reflexivity | vm_compute; reflexivity].
Defined.

(** ** Every item gets a cell of the curve *)

Lemma In_gridCells C R pos :
  In pos (gridCells C R) <-> (0 <= cellR pos < R /\ 0 <= cellC pos < C).
Proof.
  unfold gridCells. rewrite in_flat_map. split.
  - intros [r0 [Hr Hin]]. apply in_map_iff in Hin. destruct Hin as [c0 [<- Hc]].
    apply In_range in Hr. apply In_range in Hc. cbn. lia.
  - intros [Hr Hc]. exists (cellR pos). split; [now apply In_range|].
    apply in_map_iff. exists (cellC pos). split; [now destruct pos | now apply In_range].
Qed.

Lemma gridCells_NoDup C R : NoDup (gridCells C R).
Proof.
  unfold gridCells.
  assert (H : forall l, NoDup l ->
                NoDup (flat_map (fun r => map (fun c => mkCell r c) (range 0 C)) l)).
  { induction 1 as [|a l Hnin Hnd IH]; cbn [flat_map]; [constructor|].
    apply NoDup_app; [|exact IH|].
    - apply NoDup_map_inj_in; [|apply range_NoDup].
      intros u v _ _ E. now inversion E.
    - intros pos Hin Hin'. apply in_map_iff in Hin. destruct Hin as [c0 [<- _]].
      apply in_flat_map in Hin'. destruct Hin' as [r0 [Hr0 Hin']].
      apply in_map_iff in Hin'. destruct Hin' as [c1 [E _]].
      inversion E; subst. contradiction. }
  apply H, range_NoDup.
Qed.

Lemma gridCells_length C R :
  0 <= C -> 0 <= R -> Z.of_nat (List.length (gridCells C R)) = R * C.
Proof.
  intros HC HR. unfold gridCells.
  assert (H : forall l : list Z,
             Z.of_nat (List.length
                         (flat_map (fun r => map (fun c => mkCell r c) (range 0 C)) l))
             = Z.of_nat (List.length l) * C).
  { induction l as [|a l IH]; [reflexivity|].
    cbn [flat_map]. rewrite length_app, length_map, range_length.
    cbn [List.length]. lia. }
  rewrite H, range_length. lia.
Qed.

Lemma ceilDiv_covers N C : 0 < C -> N <= JS.ceilDiv N C * C.
Proof.
  intros HC. unfold JS.ceilDiv. Z.to_euclidean_division_equations. nia.
Qed.

(** A sequence that visits every cell of a square containing the grid has at
    least as many in-grid cells as there are items. *)
Lemma curve_covers_items (curve : list Cell) (N C n : Z) :
  0 < C -> 0 <= N ->
  let R := JS.ceilDiv N C in
  C <= n -> R <= n ->
  Permutation curve (squareCells n) ->
  N <= Z.of_nat (List.length (filter (inGrid C R) curve)).
Proof.
  intros HC HN R HCn HRn Hperm.
  assert (HR : 0 <= R).
  { unfold R, JS.ceilDiv. Z.to_euclidean_division_equations. nia. }
  assert (Hincl : incl (gridCells C R) (filter (inGrid C R) curve)).
  { intros pos Hin. apply In_gridCells in Hin. apply filter_In. split.
    - eapply Permutation_in; [apply Permutation_sym; exact Hperm|].
      apply In_squareCells. lia.
    - unfold inGrid. apply andb_true_iff. split; apply Z.ltb_lt; lia. }
  pose proof (NoDup_incl_length (gridCells_NoDup C R) Hincl) as Hlen.
  apply Nat2Z.inj_le in Hlen. rewrite gridCells_length in Hlen by lia.
  pose proof (ceilDiv_covers N C HC). fold R in H. lia.
Qed.

Lemma placeAlong_within {S} (place : S -> LayoutComponent -> LayoutComponent) :
  forall path components i child slot,
  nth_error components i = Some child ->
  nth_error path i = Some slot ->
  nth_error (placeAlong place path components) i = Some (place slot child).
Proof.
  induction path as [|s more IH]; intros components i child slot Hi Hs.
  - destruct i; discriminate.
  - destruct components as [|a rest]; [destruct i; discriminate|].
    destruct i as [|i]; cbn in *.
    + now inversion Hi; inversion Hs.
    + now apply IH.
Qed.

(** With C > 0 columns the Hilbert strategy places every item: the item of
    index i on the i-th in-grid cell of the curve. *)
Lemma hilbert_places_every_item (components : list LayoutComponent)
    (options : LayoutOptions) (C : Z) :
  columns options = Some C -> 0 < C ->
  let N := List.length components in
  let totalRows := JS.ceilDiv (Z.of_nat N) C in
  let cs := _calculateGridCellSize components options in
  exists placed b,
    _layoutSquareHilbertCurve components options = Some (placed, b) /\
    forall i child, nth_error components i = Some child ->
      exists pos,
        inGrid C totalRows pos = true /\
        nth_error placed i = Some (placeInCell cs pos child).
Proof.
  intros HC Hpos N totalRows cs.
  destruct components as [|c0 rest].
  - eexists _, _. split; [reflexivity|]. intros [|i] child H; discriminate.
  - assert (HC0 : (C =? 0) = false) by (apply Z.eqb_neq; lia).
    destruct (gridSquareSide_spec (Z.max C totalRows) ltac:(lia)) as [k [Hk [Hle _]]].
    destruct (hilbert_curve_permutation k) as [curve [Hcurve Hperm]].
    rewrite <- Hk in Hcurve, Hperm.
    eexists _, _. split.
    + unfold _layoutSquareHilbertCurve. rewrite HC. cbn [JS.default].
      rewrite HC0. fold N totalRows. rewrite Hcurve.
      rewrite assignAlongCurve_filter. reflexivity.
    + intros i child Hi.
      assert (H1 : C <= gridSquareSide (Z.max C totalRows)) by lia.
      assert (H2 : totalRows <= gridSquareSide (Z.max C totalRows)) by lia.
      pose proof (curve_covers_items curve (Z.of_nat N) C _ Hpos (Nat2Z.is_nonneg N)
                    H1 H2 Hperm) as Hcov.
      fold totalRows in Hcov.
      assert (Hlt : (i < List.length (filter (inGrid C totalRows) curve))%nat).
      { assert (Hi' : (i < N)%nat) by (apply nth_error_Some; congruence). lia. }
      destruct (nth_error (filter (inGrid C totalRows) curve) i) as [pos|] eqn:Hp;
        [|apply nth_error_None in Hp; lia].
      exists pos. split.
      * apply nth_error_In in Hp. apply filter_In in Hp. tauto.
      * fold cs. now apply placeAlong_within.
Qed.

(** ** The examples of the specification *)

(** Nine equal items on three columns, default flow: row-major centres. *)
Example example_row_major_3x3 :
  option_map (fun res => map (fun child => (Qred (vx (position child)),
                                            Qred (vy (position child)))) (fst res))
             (_layoutSquareSimple (repeat (box 10 10) 9) (withColumns 3 noOptions))
  = Some [(5, 5); (15, 5); (25, 5); (5, 15); (15, 15); (25, 15);
          (5, 25); (15, 25); (25, 25)]%Q.
Proof. vm_compute. reflexivity. Qed.

(** One item of colSpan 2 followed by five unit items on three columns. *)
Example example_spanning_first_fit :
  option_map (fun st => map (fun item => (PlacedItem.row item, PlacedItem.col item))
                            (placedItems st))
             (spanningPlacement (spanBox 10 10 (Some 2) (Some 1) :: repeat (box 10 10) 5)
                                (withColumns 3 noOptions))
  = Some [(0, 0); (0, 2); (1, 0); (1, 1); (1, 2); (2, 0)].
Proof. vm_compute. reflexivity. Qed.

(** Flow names as the strategies read them. *)
Example example_flow_flags :
  simpleFlow "default" = mkSimpleFlow false false false false false /\
  simpleFlow "column-snake" = mkSimpleFlow true true false false false /\
  simpleFlow "bottom-right" = mkSimpleFlow false false true true false /\
  simpleFlow "honeycomb" = mkSimpleFlow false false false false true.
Proof. repeat split; reflexivity. Qed.

Example example_resolve_flow :
  resolveFlow (withFlowDirection "value-weighted-snake" noOptions)
  = ("snake"%string, false, true) /\
  resolveFlow (withFlowDirection "value-weighted-" noOptions)
  = ("default"%string, false, true) /\
  selectedStrategy (withFlowDirection "diamond-fill" noOptions) = DiamondFill /\
  selectedStrategy (withFlowDirection "gravity-fill-center" noOptions) = GravityFill /\
  selectedStrategy noOptions = Simple.
Proof. repeat split; reflexivity. Qed.

(** The diamond of a 5 by 5 grid of 25 items has 13 valid cells; the
    remaining 12 items are hidden. *)
Example example_diamond_capacity :
  List.length (diamondValidPositions 5 5) = 13%nat /\
  option_map (fun res => List.length (filter (fun child =>
                                                match visible child with
                                                | Some false => true
                                                | _ => false
                                                end) (fst res)))
             (_layoutSquareDiamondFill (repeat (visibleBox 10 10) 25)
                                       (withColumns 5 noOptions))
  = Some 12%nat.
Proof. split; vm_compute; reflexivity. Qed.

(** The rounding of the doubles shows in a grid of 12 columns and 25 rows
    (289 items): the quotient [|7 - 12| / 12] is rounded, the width of row 7
    comes out just below 7 and the row starts at column 3, where the diamond
    computed without rounding starts at column 2; the same on row 17.  The
    diamond has 158 cells. *)
Example example_diamond_rounding :
  diamondSpan 12 25 7 = Some (3, 9) /\ diamondSpan 12 25 17 = Some (3, 9) /\
  List.length (diamondValidPositions 12 25) = 158%nat.
Proof. repeat split; vm_compute; reflexivity. Qed.

(** The spiral on 3 columns and 2 rows: from the middle to the right, up,
    left along the top row and down. *)
Example example_spiral_cells :
  spiralPositions 100 6 3 2 (repeat (repeat false 3) 2) (mkWalker 1 1 0 1 1 0 0)
  = Some [mkCell 1 1; mkCell 1 2; mkCell 0 2; mkCell 0 1; mkCell 0 0; mkCell 1 0].
Proof. vm_compute. reflexivity. Qed.

(** Clustered fill on 4 columns: six items in the groups b (3 items),
    default (2) and a (1) get zones of 2, 1 and 1 columns, the largest group
    first. *)
Example example_cluster_zones :
  clusterZones 4 2 6 [("b", [2; 3; 5]); ("__default__", [1; 4]); ("a", [0])]%string 0
  = Some [(2, mkCell 0 0); (3, mkCell 0 1); (5, mkCell 1 0);
          (1, mkCell 0 2); (4, mkCell 1 2); (0, mkCell 0 3)].
Proof. vm_compute. reflexivity. Qed.

(** * Further properties of the layouts *)

Lemma spanning_blocks_do_not_overlap_witness :
  let components := [spanBox 10 10 (Some 2) (Some 2); box 10 10; spanBox 10 10 (Some 3) None] in
  let options := withColumns 3 noOptions in
  1 <= JS.default 3 (columns options) /\
  exists st,
    spanningPlacement components options = Some st /\
    NoDup (flat_map blockCells (placedItems st)).
Proof.
  cbv zeta. split; [discriminate|].
  destruct (spanning_blocks_do_not_overlap
              [spanBox 10 10 (Some 2) (Some 2); box 10 10; spanBox 10 10 (Some 3) None]
              (withColumns 3 noOptions) ltac:(discriminate)) as (st & Hrun & _ & _ & Hnd).
  exists st. split; [exact Hrun | exact Hnd].
Defined.

(** ** Where the spanning placer puts its blocks *)

Lemma findPosition_candidate snake columns rowSpan colSpan :
  forall fuel grid searchRow grid' r0 c0,
  findPosition fuel snake columns rowSpan colSpan grid searchRow = Some (grid', r0, c0) ->
  searchRow <= r0 /\ In c0 (candidateColumns snake columns colSpan r0).
Proof.
  induction fuel as [|fuel IH]; intros grid searchRow grid' r0 c0 Hrun; [discriminate|].
  cbn [findPosition] in Hrun.
  destruct (find _ _) as [c|] eqn:Hfind.
  - inversion Hrun; subst. apply find_some in Hfind. split; [lia | tauto].
  - apply IH in Hrun. split; [lia | tauto].
Qed.

Lemma placeAll_rows options snake columns :
  forall components st st',
  placeAll options snake columns components st = Some st' ->
  Forall (fun item =>
            0 <= PlacedItem.row item /\
            PlacedItem.row item + PlacedItem.rowSpan item - 1 <= maxRowUsed st /\
            In (PlacedItem.col item)
               (candidateColumns snake columns (PlacedItem.colSpan item) (PlacedItem.row item)))
         (placedItems st) ->
  Forall (fun item =>
            0 <= PlacedItem.row item /\
            PlacedItem.row item + PlacedItem.rowSpan item - 1 <= maxRowUsed st' /\
            In (PlacedItem.col item)
               (candidateColumns snake columns (PlacedItem.colSpan item) (PlacedItem.row item)))
         (placedItems st').
Proof.
  induction components as [|child rest IH]; intros st st' Hrun Hst.
  - cbn in Hrun. inversion Hrun; subst. exact Hst.
  - cbn [placeAll] in Hrun.
    destruct (findPosition _ _ _ _ _ _ _) as [[[grid' r0] c0]|] eqn:Hfind; [|discriminate].
    apply (IH _ _ Hrun). clear IH Hrun.
    apply findPosition_candidate in Hfind. destruct Hfind as [Hr Hc].
    cbn [placedItems maxRowUsed]. apply Forall_app. split.
    + eapply Forall_impl; [|exact Hst]. cbv beta. intros item [H1 [H2 H3]].
      repeat split; try assumption. lia.
    + constructor; [|constructor]. cbn. repeat split; try assumption; lia.
Qed.

(** X2: with at least one column the spanning placer puts every block on
    rows 0 to totalRows - 1 (totalRows = maxRowUsed + 1) and starts it at a
    column of the grid; on a reversed row of the snake flow the whole block
    lies within the columns. *)
Theorem spanning_blocks_within_rows (components : list LayoutComponent)
    (options : LayoutOptions) (C : Z) :
  columns options = Some C -> 1 <= C ->
  let snake := JS.streq (JS.default "default"%string (flowDirection options)) "snake" in
  exists st,
    spanningPlacement components options = Some st /\
    Forall (fun item =>
              0 <= PlacedItem.row item /\
              PlacedItem.row item + PlacedItem.rowSpan item <= maxRowUsed st + 1 /\
              0 <= PlacedItem.col item /\
              if snake && negb (JS.rem (PlacedItem.row item) 2 =? 0)
              then PlacedItem.col item + PlacedItem.colSpan item <= C
              else PlacedItem.col item < C)
           (placedItems st).
Proof.
  intros HC Hpos snake. unfold spanningPlacement. rewrite HC. cbn [JS.default].
  assert (E : (C <? 0) = false) by (apply Z.ltb_ge; lia). rewrite E.
  fold snake.
  destruct (placeAll_total options snake C Hpos components (mkPlacerState [] 0 []))
    as (st & items & Hrun & _ & _).
  exists st. split; [exact Hrun|].
  pose proof (placeAll_rows options snake C components _ _ Hrun (Forall_nil _)) as Hall.
  eapply Forall_impl; [|exact Hall]. cbv beta.
  intros item [H1 [H2 H3]]. split; [exact H1|]. split; [lia|].
  unfold candidateColumns in H3.
  destruct (snake && negb (JS.rem (PlacedItem.row item) 2 =? 0)).
  - apply in_rev in H3. apply In_range in H3. lia.
  - apply In_range in H3. lia.
Qed.

Lemma spanning_blocks_within_rows_witness :
  let components := [box 10 10; spanBox 10 10 (Some 2) None; box 10 10] in
  let options := withFlowDirection "snake" (withColumns 2 noOptions) in
  columns options = Some 2 /\ 1 <= 2 /\
  exists st,
    spanningPlacement components options = Some st /\
    Forall (fun item => 0 <= PlacedItem.col item) (placedItems st).
Proof.
  cbv zeta. split; [reflexivity|]. split; [discriminate|].
  destruct (spanning_blocks_within_rows
              [box 10 10; spanBox 10 10 (Some 2) None; box 10 10]
              (withFlowDirection "snake" (withColumns 2 noOptions)) 2
              eq_refl ltac:(discriminate)) as (st & Hrun & Hall).
  exists st. split; [exact Hrun|].
  eapply Forall_impl; [|exact Hall]. cbv beta. intros item H. tauto.
Defined.

(** ** The curves give every item a cell of its own *)

Lemma placeAlong_combine {S} (place : S -> LayoutComponent -> LayoutComponent) :
  forall path components,
  (List.length components <= List.length path)%nat ->
  placeAlong place path components
  = map (fun pc => place (fst pc) (snd pc)) (combine path components).
Proof.
  induction path as [|s more IH]; intros components Hlen.
  - destruct components; [reflexivity | cbn in Hlen; lia].
  - destruct components as [|child rest]; [reflexivity|].
    cbn in *. f_equal. apply IH. lia.
Qed.

Lemma combine_firstn_length {A B} (l : list A) (l' : list B) :
  combine (firstn (List.length l') l) l' = combine l l'.
Proof.
  revert l'. induction l as [|a l IH]; intros [|b l']; cbn; try reflexivity.
  now rewrite IH.
Qed.

Lemma In_firstn {A} (n : nat) (l : list A) (x : A) : In x (firstn n l) -> In x l.
Proof.
  revert n. induction l as [|a l IH]; intros [|n]; cbn; try tauto.
  intros [H|H]; [now left | right; eapply IH; exact H].
Qed.

Lemma NoDup_firstn {A} (n : nat) (l : list A) : NoDup l -> NoDup (firstn n l).
Proof.
  intros H. revert n. induction H as [|a l Hnin Hnd IH]; intros [|n]; cbn; try constructor.
  - intro Hin. apply Hnin. eapply In_firstn. exact Hin.
  - apply IH.
Qed.

(** What a sequence that visits each cell of a square containing the grid
    gives to [N] items: [N] distinct cells of the grid. *)
Lemma curve_cells (curve : list Cell) (N : nat) (C n : Z) :
  0 < C ->
  let R := JS.ceilDiv (Z.of_nat N) C in
  C <= n -> R <= n ->
  Permutation curve (squareCells n) ->
  let cells := firstn N (filter (inGrid C R) curve) in
  List.length cells = N /\ NoDup cells /\
  Forall (fun pos => 0 <= cellR pos < R /\ 0 <= cellC pos < C) cells.
Proof.
  intros HC R HCn HRn Hperm cells.
  pose proof (curve_covers_items curve (Z.of_nat N) C n HC (Nat2Z.is_nonneg N)
                HCn HRn Hperm) as Hcov. fold R in Hcov.
  assert (Hnd : NoDup curve).
  { eapply Permutation_NoDup; [apply Permutation_sym; exact Hperm|].
    apply squareCells_NoDup. }
  split; [|split].
  - unfold cells. rewrite length_firstn. lia.
  - apply NoDup_firstn, NoDup_filter, Hnd.
  - apply Forall_forall. intros pos Hin. unfold cells in Hin.
    apply In_firstn in Hin. apply filter_In in Hin.
    destruct Hin as [Hin Hgrid].
    apply (Permutation_in _ Hperm) in Hin. apply In_squareCells in Hin.
    unfold inGrid in Hgrid. apply andb_true_iff in Hgrid.
    destruct Hgrid as [Hr Hc]. apply Z.ltb_lt in Hr. apply Z.ltb_lt in Hc. lia.
Qed.

(** X3: with C > 0 columns the Hilbert strategy places every item, each on a
    cell of the grid (rows 0 to totalRows - 1, columns 0 to C - 1), and no
    two items on the same cell. *)
Theorem hilbert_items_on_distinct_cells (components : list LayoutComponent)
    (options : LayoutOptions) (C : Z) :
  columns options = Some C -> 0 < C ->
  let N := List.length components in
  let totalRows := JS.ceilDiv (Z.of_nat N) C in
  let cs := _calculateGridCellSize components options in
  exists (cells : list Cell) placed b,
    _layoutSquareHilbertCurve components options = Some (placed, b) /\
    List.length cells = N /\ NoDup cells /\
    Forall (fun pos => 0 <= cellR pos < totalRows /\ 0 <= cellC pos < C) cells /\
    placed = map (fun pc => placeInCell cs (fst pc) (snd pc)) (combine cells components).
Proof.
  intros HC Hpos N totalRows cs.
  destruct components as [|c0 rest].
  - exists [], [], zeroBounds. repeat split; constructor.
  - assert (HC0 : (C =? 0) = false) by (apply Z.eqb_neq; lia).
    destruct (gridSquareSide_spec (Z.max C totalRows) ltac:(lia)) as [k [Hk [Hle _]]].
    destruct (hilbert_curve_permutation k) as [curve [Hcurve Hperm]].
    rewrite <- Hk in Hcurve, Hperm.
    assert (H1 : C <= gridSquareSide (Z.max C totalRows)) by lia.
    assert (H2 : totalRows <= gridSquareSide (Z.max C totalRows)) by lia.
    destruct (curve_cells curve N C _ Hpos H1 H2 Hperm) as [Hlen [Hnd Hin]].
    eexists _, _, _. split; [|split; [exact Hlen | split; [exact Hnd | split; [exact Hin|]]]].
    + unfold _layoutSquareHilbertCurve. rewrite HC. cbn [JS.default].
      rewrite HC0. fold N totalRows. rewrite Hcurve. reflexivity.
    + rewrite assignAlongCurve_filter. fold totalRows.
      rewrite placeAlong_combine.
      * unfold N. now rewrite combine_firstn_length.
      * rewrite length_firstn in Hlen. fold N totalRows in Hlen |- *. lia.
Qed.

Lemma hilbert_items_on_distinct_cells_witness :
  let components := repeat (box 10 10) 7 in
  let options := withColumns 3 noOptions in
  columns options = Some 3 /\ 0 < 3 /\
  exists (cells : list Cell) placed b,
    _layoutSquareHilbertCurve components options = Some (placed, b) /\
    List.length cells = 7%nat /\ NoDup cells.
Proof.
  cbv zeta. split; [reflexivity|]. split; [reflexivity|].
  destruct (hilbert_items_on_distinct_cells (repeat (box 10 10) 7)
              (withColumns 3 noOptions) 3 eq_refl eq_refl)
    as (cells & placed & b & Hrun & Hlen & Hnd & _).
  exists cells, placed, b. repeat split; assumption.
Defined.

(** X4: with C > 0 columns the Z-order strategy places every item, each on
    a cell of the grid, and no two items on the same cell. *)
Theorem zorder_items_on_distinct_cells (components : list LayoutComponent)
    (options : LayoutOptions) (C : Z) :
  columns options = Some C -> 0 < C ->
  let N := List.length components in
  let totalRows := JS.ceilDiv (Z.of_nat N) C in
  let cs := _calculateGridCellSize components options in
  exists (cells : list Cell) placed b,
    _layoutSquareZOrder components options = Some (placed, b) /\
    List.length cells = N /\ NoDup cells /\
    Forall (fun pos => 0 <= cellR pos < totalRows /\ 0 <= cellC pos < C) cells /\
    placed = map (fun pc => placeInCell cs (fst pc) (snd pc)) (combine cells components).
Proof.
  intros HC Hpos N totalRows cs.
  destruct components as [|c0 rest].
  - exists [], [], zeroBounds. repeat split; constructor.
  - assert (HC0 : (C =? 0) = false) by (apply Z.eqb_neq; lia).
    destruct (gridSquareSide_spec (Z.max C totalRows) ltac:(lia)) as [k [Hk [Hle _]]].
    pose proof (morton_permutation k) as Hperm. rewrite <- Hk in Hperm.
    assert (H1 : C <= gridSquareSide (Z.max C totalRows)) by lia.
    assert (H2 : totalRows <= gridSquareSide (Z.max C totalRows)) by lia.
    destruct (curve_cells (mortonCells k 0 0) N C _ Hpos H1 H2 Hperm) as [Hlen [Hnd Hin]].
    eexists _, _, _. split; [|split; [exact Hlen | split; [exact Hnd | split; [exact Hin|]]]].
    + unfold _layoutSquareZOrder. rewrite HC. cbn [JS.default].
      rewrite HC0. fold N totalRows. rewrite Hk.
      rewrite generate_spec;
        [| pose proof (pow2_gt_nat k); lia | cbn [List.length]; lia].
      cbn [List.length app]. rewrite Nat.sub_0_r, Nat2Z.id. reflexivity.
    + fold totalRows. rewrite placeAlong_combine; [reflexivity|].
      fold N. fold totalRows in Hlen. rewrite Hlen. lia.
Qed.

Lemma zorder_items_on_distinct_cells_witness :
  let components := repeat (box 10 10) 7 in
  let options := withColumns 3 noOptions in
  columns options = Some 3 /\ 0 < 3 /\
  exists (cells : list Cell) placed b,
    _layoutSquareZOrder components options = Some (placed, b) /\
    List.length cells = 7%nat /\ NoDup cells.
Proof.
  cbv zeta. split; [reflexivity|]. split; [reflexivity|].
  destruct (zorder_items_on_distinct_cells (repeat (box 10 10) 7)
              (withColumns 3 noOptions) 3 eq_refl eq_refl)
    as (cells & placed & b & Hrun & Hlen & Hnd & _).
  exists cells, placed, b. repeat split; assumption.
Defined.

(** ** The bounding box of positioned components *)

Lemma Qmin_le_l a b : (JS.Qmin a b <= a)%Q.
Proof.
  unfold JS.Qmin. destruct (Qle_bool a b) eqn:E; [apply Qle_refl|].
  apply Qlt_le_weak, Qnot_le_lt. intro H. apply Qle_bool_iff in H. congruence.
Qed.

Lemma Qmin_le_r a b : (JS.Qmin a b <= b)%Q.
Proof.
  unfold JS.Qmin. destruct (Qle_bool a b) eqn:E; [now apply Qle_bool_iff | apply Qle_refl].
Qed.

Lemma Qmax_ge_l a b : (a <= JS.Qmax a b)%Q.
Proof.
  unfold JS.Qmax. destruct (Qle_bool a b) eqn:E; [now apply Qle_bool_iff | apply Qle_refl].
Qed.

Lemma Qmax_ge_r a b : (b <= JS.Qmax a b)%Q.
Proof.
  unfold JS.Qmax. destruct (Qle_bool a b) eqn:E; [apply Qle_refl|].
  apply Qlt_le_weak, Qnot_le_lt. intro H. apply Qle_bool_iff in H. congruence.
Qed.

(** The box [inner] lies inside the box [outer]. *)
Lemma joinBounds_grows a b :
  let j := joinBounds a b in
  ((minX j <= minX a /\ minY j <= minY a /\ maxX a <= maxX j /\ maxY a <= maxY j) /\
   (minX j <= minX b /\ minY j <= minY b /\ maxX b <= maxX j /\ maxY b <= maxY j))%Q.
Proof.
  cbn. repeat split;
    first [apply Qmin_le_l | apply Qmin_le_r | apply Qmax_ge_l | apply Qmax_ge_r].
Qed.

Lemma fold_joinBounds_encloses options : forall rest start,
  let b := fold_left (fun b c => joinBounds b (childBox options c)) rest start in
  ((minX b <= minX start /\ minY b <= minY start /\
    maxX start <= maxX b /\ maxY start <= maxY b) /\
   Forall (fun child =>
     minX b <= minX (childBox options child) /\
     minY b <= minY (childBox options child) /\
     maxX (childBox options child) <= maxX b /\
     maxY (childBox options child) <= maxY b) rest)%Q.
Proof.
  induction rest as [|c rest IH]; intros start; cbn [fold_left].
  - cbv zeta. repeat split; try apply Qle_refl. constructor.
  - cbv zeta. specialize (IH (joinBounds start (childBox options c))). cbv zeta in IH.
    destruct IH as [(H1 & H2 & H3 & H4) Hall].
    destruct (joinBounds_grows start (childBox options c))
      as [(A1 & A2 & A3 & A4) (B1 & B2 & B3 & B4)].
    split; [|constructor; [|exact Hall]];
      repeat split; eapply Qle_trans; eassumption.
Qed.

Lemma fold_joinBounds_attained options (side : Bounds -> Q) :
  (forall a b, side (joinBounds a b) = side a \/ side (joinBounds a b) = side b) ->
  forall rest start,
  let b := fold_left (fun b c => joinBounds b (childBox options c)) rest start in
  side b = side start \/ exists child, In child rest /\ side b = side (childBox options child).
Proof.
  intros Hside. induction rest as [|c rest IH]; intros start; cbn [fold_left]; cbv zeta.
  - now left.
  - destruct (IH (joinBounds start (childBox options c))) as [H | [child [Hin H]]].
    + destruct (Hside start (childBox options c)) as [E | E]; rewrite E in H.
      * now left.
      * right. exists c. split; [now left | exact H].
    + right. exists child. split; [now right | exact H].
Qed.

(** X5: the box returned by [_calculateBoundsFromComponents] for a non-empty
    collection contains the box of every item (its position plus and minus
    half its layout size), and each of its four sides is the side of some
    item's box: it is the smallest box around the items. *)
Theorem bounds_enclose_components (components : list LayoutComponent)
    (options : LayoutOptions) :
  components <> [] ->
  let b := _calculateBoundsFromComponents components options in
  let left child := (vx (position child) - layoutWidth options child / 2)%Q in
  let right child := (vx (position child) + layoutWidth options child / 2)%Q in
  let top child := (vy (position child) - layoutHeight options child / 2)%Q in
  let bottom child := (vy (position child) + layoutHeight options child / 2)%Q in
  Forall (fun child =>
    (minX b <= left child /\ right child <= maxX b /\
     minY b <= top child /\ bottom child <= maxY b)%Q) components /\
  (exists child, In child components /\ minX b = left child) /\
  (exists child, In child components /\ maxX b = right child) /\
  (exists child, In child components /\ minY b = top child) /\
  (exists child, In child components /\ maxY b = bottom child).
Proof.
  intros Hne b left right top bottom.
  destruct components as [|c0 rest]; [congruence|].
  unfold b, _calculateBoundsFromComponents.
  pose proof (fold_joinBounds_encloses options rest (childBox options c0)) as H.
  cbv zeta in H. destruct H as [(H1 & H2 & H3 & H4) Hall].
  split.
  - constructor.
    + repeat split; assumption.
    + eapply Forall_impl; [|exact Hall]. cbv beta. intros child (A1 & A2 & A3 & A4).
      repeat split; assumption.
  - assert (Hatt : forall side : Bounds -> Q,
      (forall a b, side (joinBounds a b) = side a \/ side (joinBounds a b) = side b) ->
      exists child, In child (c0 :: rest) /\
        side (fold_left (fun b c => joinBounds b (childBox options c)) rest
                        (childBox options c0)) = side (childBox options child)).
    { intros side Hside.
      destruct (fold_joinBounds_attained options side Hside rest (childBox options c0))
        as [E | [child [Hin E]]].
      - exists c0. split; [now left | exact E].
      - exists child. split; [now right | exact E]. }
    repeat split.
    + apply (Hatt minX). intros a b0. cbn. unfold JS.Qmin. destruct (Qle_bool _ _); tauto.
    + apply (Hatt maxX). intros a b0. cbn. unfold JS.Qmax. destruct (Qle_bool _ _); tauto.
    + apply (Hatt minY). intros a b0. cbn. unfold JS.Qmin. destruct (Qle_bool _ _); tauto.
    + apply (Hatt maxY). intros a b0. cbn. unfold JS.Qmax. destruct (Qle_bool _ _); tauto.
Qed.

Lemma bounds_enclose_components_witness :
  let components :=
    [setPosition (box 10 20) 5 10; setPosition (box 30 10) 40 5] in
  let b := _calculateBoundsFromComponents components noOptions in
  components <> [] /\
  Forall (fun child =>
    (minX b <= vx (position child) - layoutWidth noOptions child / 2 /\
     vx (position child) + layoutWidth noOptions child / 2 <= maxX b /\
     minY b <= vy (position child) - layoutHeight noOptions child / 2 /\
     vy (position child) + layoutHeight noOptions child / 2 <= maxY b)%Q) components.
Proof.
  cbv zeta. split; [discriminate|].
  apply (bounds_enclose_components
           [setPosition (box 10 20) 5 10; setPosition (box 30 10) 40 5] noOptions).
  discriminate.
Defined.

(** ** The value-weighted order *)

Lemma insertByValue_sorted child : forall sorted,
  StronglySorted (fun a b => (valueOf b <= valueOf a)%Q) sorted ->
  StronglySorted (fun a b => (valueOf b <= valueOf a)%Q) (insertByValue child sorted).
Proof.
  induction sorted as [|other rest IH]; intros Hs; cbn [insertByValue].
  - constructor; constructor.
  - inversion Hs as [|? ? Hrest Hall]; subst.
    destruct (JS.Qgtb (valueOf other) (valueOf child)) eqn:E.
    + constructor; [now apply IH|].
      apply Qgtb_true_lt in E.
      eapply Permutation_Forall; [apply Permutation_sym, insertByValue_perm|].
      constructor; [now apply Qlt_le_weak | exact Hall].
    + apply Qgtb_false_le in E. constructor; [exact Hs|].
      constructor; [exact E|].
      eapply Forall_impl; [|exact Hall]. cbv beta. intros a Ha.
      eapply Qle_trans; eassumption.
Qed.

Lemma insertByValue_stable (v : Q) child : forall sorted,
  filter (fun c => Qeq_bool (valueOf c) v) (insertByValue child sorted)
  = filter (fun c => Qeq_bool (valueOf c) v) (child :: sorted).
Proof.
  induction sorted as [|other rest IH]; cbn [insertByValue]; [reflexivity|].
  destruct (JS.Qgtb (valueOf other) (valueOf child)) eqn:E; [|reflexivity].
  cbn [filter] in *. rewrite IH.
  destruct (Qeq_bool (valueOf other) v) eqn:Eo;
    destruct (Qeq_bool (valueOf child) v) eqn:Ec; try reflexivity.
  apply Qeq_bool_iff in Eo. apply Qeq_bool_iff in Ec.
  apply Qgtb_true_lt in E. rewrite Eo, Ec in E. now apply Qlt_irrefl in E.
Qed.

(** X6: for a value-weighted flow the items handed to the strategy are the
    reset items in order of decreasing value (an item without a value counts
    as 0), and items of equal value keep their input order. *)
Theorem value_weighted_order (components : list LayoutComponent)
    (options : LayoutOptions) :
  String.prefix "value-weighted"
    (JS.default "default"%string (flowDirection options)) = true ->
  let handed := componentsToLayout components options in
  StronglySorted (fun a b => (valueOf b <= valueOf a)%Q) handed /\
  forall v : Q,
    filter (fun c => Qeq_bool (valueOf c) v) handed
    = filter (fun c => Qeq_bool (valueOf c) v) (map resetForLayout components).
Proof.
  intros Hflow. unfold componentsToLayout, resolveFlow. rewrite Hflow. cbv zeta.
  generalize (map resetForLayout components). intros l. split.
  - induction l as [|child rest IH]; cbn; [constructor|].
    now apply insertByValue_sorted.
  - intros v. induction l as [|child rest IH]; cbn [sortByValue fold_right]; [reflexivity|].
    rewrite insertByValue_stable. cbn [filter]. unfold sortByValue in IH. now rewrite IH.
Qed.

Lemma value_weighted_order_witness :
  let options := withFlowDirection "value-weighted-snake" noOptions in
  let components := [valuedBox 10 10 1; valuedBox 20 20 3; box 5 5; valuedBox 10 10 3] in
  StronglySorted (fun a b => (valueOf b <= valueOf a)%Q)
    (componentsToLayout components options).
Proof.
  cbv zeta.
  apply (value_weighted_order [valuedBox 10 10 1; valuedBox 20 20 3; box 5 5; valuedBox 10 10 3]
           (withFlowDirection "value-weighted-snake" noOptions)).
  reflexivity.
Defined.

(** ** The cells of the simple grid under every flow *)

Lemma simple_base_cell (column : bool) (C N i : Z) :
  0 < C -> 0 <= i < N ->
  let R := JS.ceilDiv N C in
  let p := if column then (JS.rem i R, JS.floorDiv i R)
           else (JS.floorDiv i C, JS.rem i C) in
  0 <= fst p < R /\ 0 <= snd p < C /\
  i = if column then snd p * R + fst p else fst p * C + snd p.
Proof.
  intros HC Hi R p.
  assert (HR : N <= R * C /\ 0 < R).
  { unfold R, JS.ceilDiv. Z.to_euclidean_division_equations. nia. }
  destruct HR as [HN HR].
  unfold p, JS.rem, JS.floorDiv. destruct column; cbn [fst snd].
  - rewrite Z.rem_mod_nonneg by lia.
    pose proof (Z.mod_pos_bound i R HR). pose proof (Z.div_mod i R ltac:(lia)).
    assert (0 <= i / R) by (apply Z.div_pos; lia).
    assert (i / R < C) by (apply Z.div_lt_upper_bound; nia).
    repeat split; lia.
  - rewrite Z.rem_mod_nonneg by lia.
    pose proof (Z.mod_pos_bound i C HC). pose proof (Z.div_mod i C ltac:(lia)).
    assert (0 <= i / C) by (apply Z.div_pos; lia).
    assert (i / C < R) by (apply Z.div_lt_upper_bound; nia).
    repeat split; lia.
Qed.

Lemma simpleCell_in_grid (fl : SimpleFlow) (flowReverse : bool) (C N i : Z) :
  0 < C -> 0 <= i < N ->
  let R := JS.ceilDiv N C in
  0 <= fst (simpleCell fl flowReverse C R i) < R /\
  0 <= snd (simpleCell fl flowReverse C R i) < C.
Proof.
  intros HC Hi R. destruct fl as [column snake bottom right honey].
  unfold simpleCell. cbn [isColumnFlow isSnakeFlow startFromBottom startFromRight].
  pose proof (simple_base_cell column C N i HC Hi) as H. cbv zeta in H. fold R in H.
  destruct column; cbn [fst snd] in H;
    [set (br := JS.rem i R) in *; set (bc := JS.floorDiv i R) in *
    |set (br := JS.floorDiv i C) in *; set (bc := JS.rem i C) in *];
    clearbody br bc; destruct H as (Hr & Hc & _);
    destruct snake, bottom, right, flowReverse; cbn [negb andb fst snd];
    repeat match goal with |- context [if ?b then _ else _] => destruct b end;
    cbn [fst snd]; lia.
Qed.

(** X7: with C > 0 columns and N items the simple grid gives every item,
    under every flow direction (row or column order, snake, from the bottom,
    from the right, reversed), a cell of the grid of ceil(N / C) rows and C
    columns, and no two items the same cell. *)
Theorem simple_cells_in_grid_distinct (fl : SimpleFlow) (flowReverse : bool) (C N : Z) :
  0 < C ->
  let R := JS.ceilDiv N C in
  (forall i, 0 <= i < N ->
     0 <= fst (simpleCell fl flowReverse C R i) < R /\
     0 <= snd (simpleCell fl flowReverse C R i) < C) /\
  (forall i j, 0 <= i < N -> 0 <= j < N ->
     simpleCell fl flowReverse C R i = simpleCell fl flowReverse C R j -> i = j).
Proof.
  intros HC R.
  destruct fl as [column snake bottom right honey].
  split.
  - intros i Hi.
    exact (simpleCell_in_grid (mkSimpleFlow column snake bottom right honey)
             flowReverse C N i HC Hi).
  - intros i j Hi Hj. unfold simpleCell.
    cbn [isColumnFlow isSnakeFlow startFromBottom startFromRight].
    pose proof (simple_base_cell column C N i HC Hi) as H. cbv zeta in H. fold R in H.
    pose proof (simple_base_cell column C N j HC Hj) as H'. cbv zeta in H'. fold R in H'.
    destruct column; cbn [fst snd] in H, H';
      [set (br := JS.rem i R) in *; set (bc := JS.floorDiv i R) in *;
       set (br' := JS.rem j R) in *; set (bc' := JS.floorDiv j R) in *
      |set (br := JS.floorDiv i C) in *; set (bc := JS.rem i C) in *;
       set (br' := JS.floorDiv j C) in *; set (bc' := JS.rem j C) in *];
      clearbody br bc br' bc';
      destruct H as (Hr & Hc & Ei); destruct H' as (Hr' & Hc' & Ej);
      destruct snake, bottom, right, flowReverse; cbn [negb andb fst snd];
      intros E.
    all: try (apply pair_equal_spec in E; destruct E as [E1 E2]; nia).
    all: first
      [ assert (Eq : bc = bc')
          by (repeat match type of E with context [if ?b then _ else _] => destruct b end;
              apply pair_equal_spec in E; destruct E as [E1 E2]; lia)
      | assert (Eq : br = br')
          by (repeat match type of E with context [if ?b then _ else _] => destruct b end;
              apply pair_equal_spec in E; destruct E as [E1 E2]; lia) ].
    all: subst;
      repeat match type of E with context [if ?b then _ else _] => destruct b end;
      apply pair_equal_spec in E; destruct E as [E1 E2]; nia.
Qed.

Lemma simple_cells_in_grid_distinct_witness :
  0 < 3 /\
  forall i j, 0 <= i < 7 -> 0 <= j < 7 ->
    simpleCell (simpleFlow "column-snake-bottom") true 3 (JS.ceilDiv 7 3) i
    = simpleCell (simpleFlow "column-snake-bottom") true 3 (JS.ceilDiv 7 3) j -> i = j.
Proof.
  split; [reflexivity|].
  apply (simple_cells_in_grid_distinct (simpleFlow "column-snake-bottom") true 3 7).
  reflexivity.
Defined.

(** ** The boustrophedon path *)

Lemma boustrophedonCell_spec (C i : Z) :
  0 < C -> 0 <= i ->
  let q := i / C in
  let m := i mod C in
  boustrophedonCell C i
  = mkCell q (if negb (q mod 2 =? 0) then C - 1 - m else m) /\
  i = C * q + m /\ 0 <= m < C /\ 0 <= q.
Proof.
  intros HC Hi q m. unfold boustrophedonCell, JS.floorDiv, JS.rem.
  assert (Hq : 0 <= i / C) by (apply Z.div_pos; lia).
  rewrite (Z.rem_mod_nonneg i C) by lia.
  rewrite (Z.rem_mod_nonneg (i / C) 2) by lia.
  repeat split; try (apply Z.mod_pos_bound; lia); [apply Z.div_mod; lia | exact Hq].
Qed.

(** X8: with C > 0 columns the boustrophedon layout puts the item of index i
    on row floor(i / C), at column i mod C on even rows and mirrored on odd
    rows, where it also sets scale.x to -1 (1 on even rows) when the item
    has a scale.  The cell lies in the grid, no other item has it, and the
    next item sits on a neighbouring cell: the path never jumps. *)
Theorem boustrophedon_path (components : list LayoutComponent)
    (options : LayoutOptions) (C : Z) :
  columns options = Some C -> 0 < C ->
  let N := Z.of_nat (List.length components) in
  let totalRows := JS.ceilDiv N C in
  let cs := _calculateGridCellSize components options in
  exists placed b,
    _layoutSquareBoustrophedon components options = Some (placed, b) /\
    forall i child, nth_error components i = Some child ->
      let pos := boustrophedonCell C (Z.of_nat i) in
      let next := boustrophedonCell C (Z.of_nat i + 1) in
      let reversed := negb (JS.rem (cellR pos) 2 =? 0) in
      nth_error placed i
        = Some (setScaleX (placeInCell cs pos child) (if reversed then (-1)%Q else 1%Q)) /\
      cellR pos = Z.of_nat i / C /\
      0 <= cellR pos < totalRows /\ 0 <= cellC pos < C /\
      (forall j, 0 <= j -> boustrophedonCell C j = pos -> j = Z.of_nat i) /\
      Z.abs (cellR next - cellR pos) + Z.abs (cellC next - cellC pos) = 1.
Proof.
  intros HC Hpos N totalRows cs.
  destruct components as [|c0 rest].
  - eexists _, _. split; [reflexivity|]. intros [|i] child H; discriminate.
  - set (components := c0 :: rest) in *.
  assert (HC0 : (C =? 0) = false) by (apply Z.eqb_neq; lia).
  eexists _, _. split.
  + unfold _layoutSquareBoustrophedon. rewrite HC. cbn [JS.default]. rewrite HC0.
    reflexivity.
  + intros i child Hi. cbv zeta.
    assert (HiN : Z.of_nat i < N).
    { unfold N. apply Nat2Z.inj_lt. apply nth_error_Some. congruence. }
    assert (HR : N <= totalRows * C).
    { unfold totalRows, JS.ceilDiv. Z.to_euclidean_division_equations. nia. }
    destruct (boustrophedonCell_spec C (Z.of_nat i) Hpos (Nat2Z.is_nonneg i))
      as (Ecell & Ediv & Hm & Hq).
    destruct (boustrophedonCell_spec C (Z.of_nat i + 1) Hpos ltac:(lia))
      as (Ecell' & Ediv' & Hm' & Hq').
    split; [|split; [|split; [|split; [|split]]]].
    * rewrite forEachIdx_nth_error, Hi. cbn [option_map]. rewrite Z.add_0_l. reflexivity.
    * rewrite Ecell. reflexivity.
    * rewrite Ecell. cbn [cellR]. split; [exact Hq|]. nia.
    * rewrite Ecell. cbn [cellC]. destruct (negb _); lia.
    * intros j Hj E.
      destruct (boustrophedonCell_spec C j Hpos Hj) as (Ej & Edj & Hmj & Hqj).
      rewrite Ej, Ecell in E. injection E as E1 E2. rewrite E1 in E2, Edj.
      destruct (negb _); nia.
    * rewrite Ecell, Ecell'. cbn [cellR cellC].
      set (q := Z.of_nat i / C) in *. set (m := Z.of_nat i mod C) in *.
      set (q' := (Z.of_nat i + 1) / C) in *. set (m' := (Z.of_nat i + 1) mod C) in *.
      clearbody q m q' m'.
      assert (Hup : q' - q < 2) by nia.
      assert (Hlo : -1 < q' - q) by nia.
      assert (Hcase : (q' = q /\ m' = m + 1) \/ (q' = q + 1 /\ m' = 0 /\ m = C - 1)).
      { assert (Hd : q' = q \/ q' = q + 1) by lia.
        destruct Hd as [-> | ->]; [left | right]; nia. }
      destruct Hcase as [[-> ->] | (-> & -> & ->)].
      -- destruct (negb _); lia.
      -- assert (Hpar : (q + 1) mod 2 = 1 - q mod 2)
           by (Z.to_euclidean_division_equations; lia).
         pose proof (Z.mod_pos_bound q 2 ltac:(lia)) as Hb.
         rewrite Hpar.
         destruct (q mod 2 =? 0) eqn:E0; [apply Z.eqb_eq in E0 | apply Z.eqb_neq in E0].
         ++ rewrite E0. cbn [negb Z.sub Z.eqb Z.opp Z.add Z.pos_sub]. lia.
         ++ assert (E1 : q mod 2 = 1) by lia. rewrite E1. cbn. lia.
Qed.

Lemma boustrophedon_path_witness :
  let components := repeat (box 10 10) 7 in
  let options := withColumns 3 noOptions in
  columns options = Some 3 /\ 0 < 3 /\
  exists placed b,
    _layoutSquareBoustrophedon components options = Some (placed, b) /\
    List.length placed = 7%nat.
Proof.
  cbv zeta. split; [reflexivity|]. split; [reflexivity|].
  destruct (boustrophedon_path (repeat (box 10 10) 7) (withColumns 3 noOptions) 3
              eq_refl eq_refl) as (placed & b & Hrun & _).
  exists placed, b. split; [exact Hrun|].
  vm_compute in Hrun. injection Hrun as <- _. reflexivity.
Defined.

(** ** The cells of the diamond *)

Lemma NoDup_flat_map_rows (f : Z -> list Z) : forall rows,
  NoDup rows -> (forall r, NoDup (f r)) ->
  NoDup (flat_map (fun r => map (fun c => mkCell r c) (f r)) rows).
Proof.
  intros rows Hnd Hf. induction Hnd as [|r rows Hnin Hnd IH]; cbn; [constructor|].
  apply NoDup_app; [| exact IH |].
  - apply NoDup_map_inj_in; [|apply Hf]. intros a b _ _ E. now injection E.
  - intros pos Hin Hin'. apply in_map_iff in Hin. destruct Hin as [c0 [<- _]].
    apply in_flat_map in Hin'. destruct Hin' as [r' [Hr' Hin']].
    apply in_map_iff in Hin'. destruct Hin' as [c1 [E _]].
    injection E as -> _. contradiction.
Qed.

(** X9: the cells that diamond fill hands out are cells of the grid and
    pairwise distinct, and the item of index i, when there is an i-th cell,
    is placed on it: the items that diamond fill places never share a cell. *)
Theorem diamond_cells_distinct_in_grid (components : list LayoutComponent)
    (options : LayoutOptions) (C : Z) :
  columns options = Some C -> C <> 0 ->
  let totalRows := JS.ceilDiv (Z.of_nat (List.length components)) C in
  let cs := _calculateGridCellSize components options in
  let cells := diamondValidPositions C totalRows in
  NoDup cells /\
  Forall (fun pos => 0 <= cellR pos < totalRows /\ 0 <= cellC pos < C) cells /\
  exists placed b,
    _layoutSquareDiamondFill components options = Some (placed, b) /\
    forall i child pos,
      nth_error components i = Some child -> nth_error cells i = Some pos ->
      nth_error placed i = Some (placeInCell cs pos child).
Proof.
  intros HC HC0 totalRows cs cells. split; [|split].
  - unfold cells, diamondValidPositions.
    set (columnsOf := fun r =>
           match diamondSpan C totalRows r with
           | Some (startCol, endCol) =>
               filter (fun c => (0 <=? c) && (c <? C)) (range startCol (endCol + 1))
           | None => []
           end).
    rewrite (flat_map_ext (diamondRow C totalRows)
                          (fun r => map (fun c => mkCell r c) (columnsOf r))).
    + apply (NoDup_flat_map_rows columnsOf); [apply range_NoDup|].
      intros r. unfold columnsOf. destruct (diamondSpan C totalRows r) as [[s e]|].
      * apply NoDup_filter, range_NoDup.
      * constructor.
    + intros r. unfold diamondRow, columnsOf.
      destruct (diamondSpan C totalRows r) as [[s e]|]; reflexivity.
  - apply Forall_forall. intros pos Hin. unfold cells, diamondValidPositions in Hin.
    apply in_flat_map in Hin. destruct Hin as [r [Hr Hin]].
    apply In_range in Hr. unfold diamondRow in Hin.
    destruct (diamondSpan C totalRows r) as [[s e]|]; [|destruct Hin].
    apply in_map_iff in Hin. destruct Hin as [c [<- Hc]].
    apply filter_In in Hc. destruct Hc as [_ Hc]. cbn [cellR cellC]. lia.
  - apply Z.eqb_neq in HC0.
    destruct components as [|c0 rest].
    + eexists _, _. split; [reflexivity|]. intros [|i] child pos H; discriminate.
    + set (components := c0 :: rest) in *. eexists _, _. split.
      * unfold _layoutSquareDiamondFill. rewrite HC. cbn [JS.default]. rewrite HC0.
        reflexivity.
      * intros i child pos Hi Hp. now apply placeOrHide_within.
Qed.

Lemma diamond_cells_distinct_in_grid_witness :
  let components := repeat (visibleBox 10 10) 9 in
  let options := withColumns 3 noOptions in
  columns options = Some 3 /\ 3 <> 0 /\
  NoDup (diamondValidPositions 3 (JS.ceilDiv (Z.of_nat (List.length components)) 3)).
Proof.
  cbv zeta. split; [reflexivity|]. split; [discriminate|].
  apply (diamond_cells_distinct_in_grid (repeat (visibleBox 10 10) 9)
           (withColumns 3 noOptions) 3 eq_refl).
  discriminate.
Defined.

(** ** Strategies that hand out a sequence of cells *)

Lemma NoDup_flat_map_disjoint {A B} (f : A -> list B) : forall l,
  NoDup l -> (forall a, In a l -> NoDup (f a)) ->
  (forall a b x, In a l -> In b l -> In x (f a) -> In x (f b) -> a = b) ->
  NoDup (flat_map f l).
Proof.
  intros l Hnd. induction Hnd as [|a l Hnin Hnd IH]; intros Hf Hdis; cbn; [constructor|].
  apply NoDup_app.
  - apply Hf. now left.
  - apply IH.
    + intros b Hb. apply Hf. now right.
    + intros b b' x Hb Hb'. apply Hdis; now right.
  - intros x Hx Hx'. apply in_flat_map in Hx'. destruct Hx' as [b [Hb Hxb]].
    assert (a = b) by (apply (Hdis a b x); [now left | now right | assumption..]).
    subst. contradiction.
Qed.

Lemma StronglySorted_app {A} (R : A -> A -> Prop) (l1 l2 : list A) :
  StronglySorted R l1 -> StronglySorted R l2 ->
  (forall x y, In x l1 -> In y l2 -> R x y) ->
  StronglySorted R (l1 ++ l2).
Proof.
  induction 1 as [|a l1 Hs IH Hall]; intros H2 Hcross; cbn; [exact H2|].
  constructor.
  - apply IH; [exact H2|]. intros x y Hx Hy. apply Hcross; [now right | exact Hy].
  - apply Forall_app. split; [exact Hall|].
    apply Forall_forall. intros y Hy. apply Hcross; [now left | exact Hy].
Qed.

Lemma StronglySorted_flat_map {A B} (RA : A -> A -> Prop) (R : B -> B -> Prop)
    (f : A -> list B) (l : list A) :
  StronglySorted RA l ->
  (forall a, In a l -> StronglySorted R (f a)) ->
  (forall a b x y, RA a b -> In x (f a) -> In y (f b) -> R x y) ->
  StronglySorted R (flat_map f l).
Proof.
  induction 1 as [|a l Hs IH Hall]; intros Hf Hcross; cbn; [constructor|].
  apply StronglySorted_app.
  - apply Hf. now left.
  - apply IH; [|exact Hcross]. intros b Hb. apply Hf. now right.
  - intros x y Hx Hy. apply in_flat_map in Hy. destruct Hy as [b [Hb Hy]].
    rewrite Forall_forall in Hall. eapply Hcross; [apply Hall; exact Hb | exact Hx | exact Hy].
Qed.

Lemma StronglySorted_map {A B} (R : B -> B -> Prop) (f : A -> B) (l : list A) :
  StronglySorted (fun a b => R (f a) (f b)) l -> StronglySorted R (map f l).
Proof.
  induction 1 as [|a l Hs IH Hall]; cbn; constructor; [exact IH|].
  apply Forall_map. exact Hall.
Qed.

Lemma StronglySorted_filter {A} (R : A -> A -> Prop) (p : A -> bool) (l : list A) :
  StronglySorted R l -> StronglySorted R (filter p l).
Proof.
  induction 1 as [|a l Hs IH Hall]; cbn; [constructor|].
  destruct (p a); [|exact IH]. constructor; [exact IH|].
  apply Forall_forall. intros x Hx. apply filter_In in Hx.
  rewrite Forall_forall in Hall. apply Hall. tauto.
Qed.

Lemma StronglySorted_firstn {A} (R : A -> A -> Prop) (n : nat) (l : list A) :
  StronglySorted R l -> StronglySorted R (firstn n l).
Proof.
  intros H. revert n. induction H as [|a l Hs IH Hall]; intros [|n]; cbn; try constructor.
  - apply IH.
  - apply Forall_forall. intros x Hx. apply In_firstn in Hx.
    rewrite Forall_forall in Hall. now apply Hall.
Qed.

Lemma range_sorted lo hi : StronglySorted Z.lt (range lo hi).
Proof.
  unfold range. generalize (Z.to_nat (hi - lo)) as n. intros n.
  assert (H : forall k, StronglySorted Z.lt (map (fun i => lo + Z.of_nat i) (seq k n))).
  { induction n as [|n IH]; intros k; cbn; constructor; [apply IH|].
    apply Forall_forall. intros x Hx. apply in_map_iff in Hx.
    destruct Hx as [i [<- Hi]]. apply in_seq in Hi. lia. }
  apply H.
Qed.

Lemma ceilDiv_rows (N C : Z) :
  0 < C -> 0 <= N ->
  0 <= JS.ceilDiv N C /\ N <= JS.ceilDiv N C * C /\ (0 < N -> 0 < JS.ceilDiv N C).
Proof.
  intros HC HN. unfold JS.ceilDiv. split; [|split].
  - Z.to_euclidean_division_equations. nia.
  - Z.to_euclidean_division_equations. nia.
  - intros HN0. assert (- N / C < 0) by (apply Z.div_lt_upper_bound; lia). lia.
Qed.

(** What a sequence that visits each cell of the grid once gives to [N]
    items: [N] distinct cells of the grid. *)
Lemma grid_order_cells (positions : list Cell) (N : nat) (C : Z) :
  0 < C ->
  let R := JS.ceilDiv (Z.of_nat N) C in
  Permutation positions (gridCells C R) ->
  let cells := firstn N positions in
  List.length cells = N /\ NoDup cells /\
  Forall (fun pos => 0 <= cellR pos < R /\ 0 <= cellC pos < C) cells.
Proof.
  intros HC R Hperm cells.
  destruct (ceilDiv_rows (Z.of_nat N) C HC (Nat2Z.is_nonneg N)) as (HR & HN & _).
  fold R in HR, HN.
  assert (Hlen : Z.of_nat (List.length positions) = R * C).
  { rewrite (Permutation_length Hperm). apply gridCells_length; lia. }
  split; [|split].
  - unfold cells. rewrite length_firstn. lia.
  - apply NoDup_firstn. eapply Permutation_NoDup; [apply Permutation_sym; exact Hperm|].
    apply gridCells_NoDup.
  - apply Forall_forall. intros pos Hin. apply In_firstn in Hin.
    apply (Permutation_in _ Hperm) in Hin. now apply In_gridCells in Hin.
Qed.

(** The frame [layoutOnPositions] on a sequence that visits each cell of the
    grid once: every item gets a cell of its own, in the order of the
    sequence. *)
Lemma layoutOnPositions_cells (defaultColumns : Z) (positions : Z -> Z -> list Cell)
    (components : list LayoutComponent) (options : LayoutOptions) :
  let C := JS.default defaultColumns (columns options) in
  0 < C ->
  let N := List.length components in
  let totalRows := JS.ceilDiv (Z.of_nat N) C in
  let cs := _calculateGridCellSize components options in
  Permutation (positions C totalRows) (gridCells C totalRows) ->
  let cells := firstn N (positions C totalRows) in
  exists placed b,
    layoutOnPositions defaultColumns positions components options = Some (placed, b) /\
    List.length cells = N /\ NoDup cells /\
    Forall (fun pos => 0 <= cellR pos < totalRows /\ 0 <= cellC pos < C) cells /\
    placed = map (fun pc => placeInCell cs (fst pc) (snd pc)) (combine cells components).
Proof.
  intros C HC N totalRows cs Hperm cells.
  destruct (grid_order_cells _ N C HC Hperm) as (Hlen & Hnd & Hin).
  destruct components as [|c0 rest].
  - exists [], zeroBounds. repeat split; constructor.
  - set (components := c0 :: rest) in *.
    assert (HC0 : (C =? 0) = false) by (apply Z.eqb_neq; lia).
    eexists _, _. split; [|split; [exact Hlen | split; [exact Hnd | split; [exact Hin|]]]].
    + unfold layoutOnPositions. fold C. rewrite HC0. reflexivity.
    + fold C N totalRows cs. rewrite placeAlong_combine.
      * unfold cells, N. now rewrite combine_firstn_length.
      * fold N. fold cells in Hlen. unfold cells in Hlen.
        rewrite length_firstn in Hlen. lia.
Qed.

Lemma In_rowCells C r pos : In pos (rowCells C r) <-> cellR pos = r /\ 0 <= cellC pos < C.
Proof.
  unfold rowCells. rewrite in_map_iff. split.
  - intros [c [<- Hc]]. apply In_range in Hc. cbn. lia.
  - intros [<- Hc]. exists (cellC pos). split; [now destruct pos | apply In_range; lia].
Qed.

Lemma rowCells_NoDup C r : NoDup (rowCells C r).
Proof.
  apply NoDup_map_inj_in; [|apply range_NoDup]. intros a b _ _ E. now injection E.
Qed.

Lemma rows_permutation (C R : Z) (rows : list Z) :
  NoDup rows -> (forall r, In r rows <-> 0 <= r < R) ->
  Permutation (flat_map (rowCells C) rows) (gridCells C R).
Proof.
  intros Hnd Hin. apply NoDup_Permutation.
  - apply NoDup_flat_map_disjoint; [exact Hnd | intros; apply rowCells_NoDup |].
    intros a b x _ _ Ha Hb. apply In_rowCells in Ha. apply In_rowCells in Hb. lia.
  - apply gridCells_NoDup.
  - intros pos. rewrite In_gridCells, in_flat_map. split.
    + intros [r [Hr Hp]]. apply In_rowCells in Hp. apply Hin in Hr. lia.
    + intros [Hr Hc]. exists (cellR pos). split; [now apply Hin | apply In_rowCells; lia].
Qed.

Lemma In_symmetricOutwardRows (R r : Z) :
  0 <= R -> (In r (symmetricOutwardRows R) <-> 0 <= r < R).
Proof.
  intros HR. unfold symmetricOutwardRows, JS.floorDiv.
  set (center := R / 2).
  assert (Hc : 2 * center <= R < 2 * center + 2)
    by (unfold center; Z.to_euclidean_division_equations; lia).
  rewrite in_app_iff, in_flat_map. split.
  - intros [H | [offset [Ho H]]].
    + destruct (center <? R) eqn:E; [|contradiction]. apply Z.ltb_lt in E.
      destruct H as [<- | []]. lia.
    + apply In_range in Ho. apply in_app_iff in H. destruct H as [H | H].
      * destruct (center + offset <? R) eqn:E; [|contradiction]. apply Z.ltb_lt in E.
        destruct H as [<- | []]. lia.
      * destruct (0 <=? center - offset) eqn:E; [|contradiction]. apply Z.leb_le in E.
        destruct H as [<- | []]. lia.
  - intros Hr. destruct (Z.eq_dec r center) as [-> | Hne].
    + left. destruct (center <? R) eqn:E; [now left | apply Z.ltb_ge in E; lia].
    + right. destruct (Z_lt_le_dec center r) as [Hlt | Hle].
      * exists (r - center). split; [apply In_range; lia|]. apply in_app_iff. left.
        replace (center + (r - center)) with r by lia.
        destruct (r <? R) eqn:E; [now left | apply Z.ltb_ge in E; lia].
      * exists (center - r). split; [apply In_range; lia|]. apply in_app_iff. right.
        replace (center - (center - r)) with r by lia.
        destruct (0 <=? r) eqn:E; [now left | apply Z.leb_gt in E; lia].
Qed.

Lemma symmetricOutwardRows_NoDup (R : Z) : NoDup (symmetricOutwardRows R).
Proof.
  unfold symmetricOutwardRows, JS.floorDiv. set (center := R / 2).
  assert (Hoff : forall offset x,
    In x ((if center + offset <? R then [center + offset] else []) ++
          (if 0 <=? center - offset then [center - offset] else [])) ->
    Z.abs (x - center) = Z.abs offset).
  { intros offset x Hx. apply in_app_iff in Hx. destruct Hx as [Hx | Hx];
      [destruct (center + offset <? R) | destruct (0 <=? center - offset)];
      try contradiction; destruct Hx as [<- | []]; lia. }
  apply NoDup_app.
  - destruct (center <? R); repeat constructor; intros [].
  - apply NoDup_flat_map_disjoint; [apply range_NoDup | |].
    + intros offset Ho. apply In_range in Ho.
      destruct (center + offset <? R), (0 <=? center - offset); cbn;
        repeat constructor; cbn; try tauto. intros [H | []]. lia.
    + intros a b x Ha Hb Hxa Hxb. apply In_range in Ha. apply In_range in Hb.
      apply Hoff in Hxa. apply Hoff in Hxb. lia.
  - intros x Hx Hx'. apply in_flat_map in Hx'. destruct Hx' as [offset [Ho Hx']].
    apply In_range in Ho. apply Hoff in Hx'.
    destruct (center <? R); [|contradiction]. destruct Hx as [<- | []]. lia.
Qed.

(** The order of the rows: by distance to the centre row, the row below
    before the row above. *)
Lemma symmetricOutwardRows_sorted (R : Z) :
  StronglySorted
    (fun a b => Z.abs (a - R / 2) < Z.abs (b - R / 2) \/
                (Z.abs (a - R / 2) = Z.abs (b - R / 2) /\ b < a))
    (symmetricOutwardRows R).
Proof.
  unfold symmetricOutwardRows, JS.floorDiv. set (center := R / 2).
  assert (Hoff : forall offset x,
    In x ((if center + offset <? R then [center + offset] else []) ++
          (if 0 <=? center - offset then [center - offset] else [])) ->
    Z.abs (x - center) = Z.abs offset).
  { intros offset x Hx. apply in_app_iff in Hx. destruct Hx as [Hx | Hx];
      [destruct (center + offset <? R) | destruct (0 <=? center - offset)];
      try contradiction; destruct Hx as [<- | []]; lia. }
  apply StronglySorted_app.
  - destruct (center <? R); repeat constructor.
  - apply (StronglySorted_flat_map
             (fun a b => 1 <= a < b)); [ | |].
    + assert (H := range_sorted 1 (Z.max center (R - 1 - center) + 1)).
      assert (Hin : Forall (fun a => 1 <= a) (range 1 (Z.max center (R - 1 - center) + 1))).
      { apply Forall_forall. intros a Ha. apply In_range in Ha. lia. }
      induction H as [|a l Hs IH Hall]; [constructor|].
      inversion Hin; subst. constructor; [now apply IH|].
      rewrite Forall_forall in *. intros b Hb. specialize (Hall b Hb). lia.
    + intros offset Ho. apply In_range in Ho.
      destruct (center + offset <? R), (0 <=? center - offset); cbn;
        repeat first [apply SSorted_nil | apply SSorted_cons
                     | apply Forall_nil | apply Forall_cons].
      right. lia.
    + intros a b x y Hab Hx Hy. apply Hoff in Hx. apply Hoff in Hy. left. lia.
  - intros x y Hx Hy. destruct (center <? R); [|contradiction]. destruct Hx as [<- | []].
    apply in_flat_map in Hy. destruct Hy as [offset [Ho Hy]].
    apply In_range in Ho. apply Hoff in Hy. left. lia.
Qed.

(** X10: with C > 0 columns the symmetric-outward layout gives every item a
    cell of the grid of its own; the cells are handed out row by row, the
    rows in order of their distance to the centre row floor(totalRows / 2),
    the row below before the row above, and each row from left to right. *)
Theorem symmetric_outward_order (components : list LayoutComponent)
    (options : LayoutOptions) :
  let C := JS.default 5 (columns options) in
  0 < C ->
  let N := List.length components in
  let totalRows := JS.ceilDiv (Z.of_nat N) C in
  let cs := _calculateGridCellSize components options in
  let away pos := Z.abs (cellR pos - totalRows / 2) in
  exists cells placed b,
    _layoutSquareSymmetricOutward components options = Some (placed, b) /\
    List.length cells = N /\ NoDup cells /\
    Forall (fun pos => 0 <= cellR pos < totalRows /\ 0 <= cellC pos < C) cells /\
    StronglySorted
      (fun p q => away p < away q \/
                  (away p = away q /\ cellR q < cellR p) \/
                  (cellR p = cellR q /\ cellC p < cellC q)) cells /\
    placed = map (fun pc => placeInCell cs (fst pc) (snd pc)) (combine cells components).
Proof.
  intros C HC N totalRows cs away.
  destruct (ceilDiv_rows (Z.of_nat N) C HC (Nat2Z.is_nonneg N)) as (HR & _ & _).
  fold totalRows in HR.
  assert (Hperm : Permutation (symmetricOutwardPositions C totalRows) (gridCells C totalRows)).
  { apply rows_permutation; [apply symmetricOutwardRows_NoDup|].
    intros r. now apply In_symmetricOutwardRows. }
  destruct (layoutOnPositions_cells 5 symmetricOutwardPositions components options HC Hperm)
    as (placed & b & Hrun & Hlen & Hnd & Hin & Hplaced).
  exists (firstn N (symmetricOutwardPositions C totalRows)), placed, b.
  repeat split; try assumption.
  apply StronglySorted_firstn. unfold symmetricOutwardPositions.
  eapply StronglySorted_flat_map; [apply symmetricOutwardRows_sorted | |].
  - intros r _. unfold rowCells. apply StronglySorted_map.
    assert (H := range_sorted 0 C).
    induction H as [|a l Hs IH Hall]; constructor; [exact IH|].
    eapply Forall_impl; [|exact Hall]. cbv beta. intros c Hc. right. right. cbn. lia.
  - intros a b0 x y Hab Hx Hy. apply In_rowCells in Hx. apply In_rowCells in Hy.
    unfold away. destruct Hx as [-> _]. destruct Hy as [-> _].
    destruct Hab as [H | H]; [left | right; left]; exact H.
Qed.

Lemma symmetric_outward_order_witness :
  let components := repeat (box 10 10) 11 in
  let options := withColumns 3 noOptions in
  0 < JS.default 5 (columns options) /\
  exists (cells : list Cell) placed b,
    _layoutSquareSymmetricOutward components options = Some (placed, b) /\
    List.length cells = 11%nat /\ NoDup cells.
Proof.
  cbv zeta. split; [reflexivity|].
  destruct (symmetric_outward_order (repeat (box 10 10) 11) (withColumns 3 noOptions)
              eq_refl) as (cells & placed & b & Hrun & Hlen & Hnd & _).
  exists cells, placed, b. repeat split; assumption.
Defined.

(** *** Interlaced *)

Lemma filter_split_permutation {A} (p : A -> bool) (l : list A) :
  Permutation (filter p l ++ filter (fun a => negb (p a)) l) l.
Proof.
  induction l as [|a l IH]; cbn; [constructor|].
  destruct (p a); cbn.
  - now apply perm_skip.
  - apply Permutation_sym. apply Permutation_cons_app. now apply Permutation_sym.
Qed.

Lemma gridCells_sorted (C R : Z) :
  StronglySorted
    (fun p q => cellR p < cellR q \/ (cellR p = cellR q /\ cellC p < cellC q))
    (gridCells C R).
Proof.
  unfold gridCells. eapply StronglySorted_flat_map; [apply (range_sorted 0 R) | |].
  - intros r _. apply StronglySorted_map.
    assert (H := range_sorted 0 C).
    induction H as [|a l Hs IH Hall]; constructor; [exact IH|].
    eapply Forall_impl; [|exact Hall]. cbv beta. intros c Hc. right. cbn. lia.
  - intros a b x y Hab Hx Hy. apply in_map_iff in Hx. apply in_map_iff in Hy.
    destruct Hx as [c1 [<- _]]. destruct Hy as [c2 [<- _]]. left. exact Hab.
Qed.

(** X11: with C > 0 columns the interlaced layout gives every item a cell of
    the grid of its own; the cells with r + c even are handed out first, then
    those with r + c odd, each kind row by row from left to right. *)
Theorem interlaced_order (components : list LayoutComponent)
    (options : LayoutOptions) :
  let C := JS.default 5 (columns options) in
  0 < C ->
  let N := List.length components in
  let totalRows := JS.ceilDiv (Z.of_nat N) C in
  let cs := _calculateGridCellSize components options in
  exists cells placed b,
    _layoutSquareInterlaced components options = Some (placed, b) /\
    List.length cells = N /\ NoDup cells /\
    Forall (fun pos => 0 <= cellR pos < totalRows /\ 0 <= cellC pos < C) cells /\
    StronglySorted
      (fun p q => (onEvenSquare p = true /\ onEvenSquare q = false) \/
                  (onEvenSquare p = onEvenSquare q /\
                   (cellR p < cellR q \/ (cellR p = cellR q /\ cellC p < cellC q))))
      cells /\
    placed = map (fun pc => placeInCell cs (fst pc) (snd pc)) (combine cells components).
Proof.
  intros C HC N totalRows cs.
  assert (Hperm : Permutation (interlacedPositions C totalRows) (gridCells C totalRows))
    by apply filter_split_permutation.
  destruct (layoutOnPositions_cells 5 interlacedPositions components options HC Hperm)
    as (placed & b & Hrun & Hlen & Hnd & Hin & Hplaced).
  exists (firstn N (interlacedPositions C totalRows)), placed, b.
  repeat split; try assumption.
  apply StronglySorted_firstn. unfold interlacedPositions.
  assert (Hkind : forall (p : Cell -> bool) (v : bool),
    (forall pos, p pos = true -> onEvenSquare pos = v) ->
    StronglySorted
      (fun p q => (onEvenSquare p = true /\ onEvenSquare q = false) \/
                  (onEvenSquare p = onEvenSquare q /\
                   (cellR p < cellR q \/ (cellR p = cellR q /\ cellC p < cellC q))))
      (filter p (gridCells C totalRows))).
  { intros p v Hp.
    assert (Hall : Forall (fun pos => onEvenSquare pos = v) (filter p (gridCells C totalRows))).
    { apply Forall_forall. intros pos Hpos. apply filter_In in Hpos. now apply Hp. }
    assert (Hs := StronglySorted_filter _ p _ (gridCells_sorted C totalRows)).
    induction Hs as [|a l Hs IH Ha]; [constructor|].
    apply Forall_cons_iff in Hall. destruct Hall as [Hva Hvl].
    constructor; [now apply IH|].
    rewrite Forall_forall in *. intros q Hq. right. split; [|now apply Ha].
    rewrite Hva. symmetry. now apply Hvl. }
  apply StronglySorted_app.
  - apply (Hkind _ true). tauto.
  - apply (Hkind _ false). intros pos H. now apply negb_true_iff in H.
  - intros x y Hx Hy. apply filter_In in Hx. apply filter_In in Hy.
    left. split; [tauto|]. apply negb_true_iff. tauto.
Qed.

Lemma interlaced_order_witness :
  let components := repeat (box 10 10) 11 in
  let options := withColumns 3 noOptions in
  0 < JS.default 5 (columns options) /\
  exists (cells : list Cell) placed b,
    _layoutSquareInterlaced components options = Some (placed, b) /\
    List.length cells = 11%nat /\ NoDup cells.
Proof.
  cbv zeta. split; [reflexivity|].
  destruct (interlaced_order (repeat (box 10 10) 11) (withColumns 3 noOptions)
              eq_refl) as (cells & placed & b & Hrun & Hlen & Hnd & _).
  exists cells, placed, b. repeat split; assumption.
Defined.

(** *** Diagonal fill *)

Lemma In_diagonalCells C R s pos :
  In pos (diagonalCells C R s) <->
  0 <= cellR pos < R /\ 0 <= cellC pos < C /\ cellR pos + cellC pos = s.
Proof.
  unfold diagonalCells. rewrite in_map_iff. split.
  - intros [r [<- Hr]]. apply filter_In in Hr. destruct Hr as [Hr Hc].
    apply In_range in Hr. cbn. lia.
  - intros (Hr & Hc & <-). exists (cellR pos). split.
    + destruct pos as [r c]. cbn. f_equal. lia.
    + apply filter_In. split; [apply In_range; lia|].
      replace (cellR pos + cellC pos - cellR pos) with (cellC pos) by lia. lia.
Qed.

Lemma diagonalCells_sorted C R s :
  StronglySorted (fun p q => cellR p < cellR q) (diagonalCells C R s).
Proof.
  unfold diagonalCells. apply StronglySorted_map. cbn.
  apply StronglySorted_filter, range_sorted.
Qed.

Lemma StronglySorted_irrefl_NoDup {A} (R : A -> A -> Prop) (l : list A) :
  (forall a, ~ R a a) -> StronglySorted R l -> NoDup l.
Proof.
  intros Hirr. induction 1 as [|a l Hs IH Hall]; constructor; [|exact IH].
  intro Hin. rewrite Forall_forall in Hall. exact (Hirr a (Hall a Hin)).
Qed.

(** X12: with C > 0 columns the diagonal fill gives every item a cell of the
    grid of its own; the cells are handed out anti-diagonal by anti-diagonal
    (r + c = 0, 1, 2, ...), each from its top cell downwards. *)
Theorem diagonal_fill_order (components : list LayoutComponent)
    (options : LayoutOptions) :
  let C := JS.default 5 (columns options) in
  0 < C ->
  let N := List.length components in
  let totalRows := JS.ceilDiv (Z.of_nat N) C in
  let cs := _calculateGridCellSize components options in
  exists cells placed b,
    _layoutSquareDiagonalFill components options = Some (placed, b) /\
    List.length cells = N /\ NoDup cells /\
    Forall (fun pos => 0 <= cellR pos < totalRows /\ 0 <= cellC pos < C) cells /\
    StronglySorted
      (fun p q => cellR p + cellC p < cellR q + cellC q \/
                  (cellR p + cellC p = cellR q + cellC q /\ cellR p < cellR q)) cells /\
    placed = map (fun pc => placeInCell cs (fst pc) (snd pc)) (combine cells components).
Proof.
  intros C HC N totalRows cs.
  assert (Hsorted : StronglySorted
      (fun p q => cellR p + cellC p < cellR q + cellC q \/
                  (cellR p + cellC p = cellR q + cellC q /\ cellR p < cellR q))
      (diagonalPositions C totalRows)).
  { unfold diagonalPositions.
    eapply StronglySorted_flat_map; [apply range_sorted | |].
    - intros s _.
      assert (Hin : Forall (fun pos => cellR pos + cellC pos = s) (diagonalCells C totalRows s)).
      { apply Forall_forall. intros pos Hpos. now apply In_diagonalCells in Hpos. }
      assert (Hs := diagonalCells_sorted C totalRows s).
      induction Hs as [|a l Hs IH Hall]; [constructor|].
      apply Forall_cons_iff in Hin. destruct Hin as [Hsa Hsl].
      constructor; [now apply IH|].
      rewrite Forall_forall in *. intros q Hq. right. split; [|now apply Hall].
      rewrite Hsa. symmetry. now apply Hsl.
    - intros a b0 x y Hab Hx Hy. apply In_diagonalCells in Hx. apply In_diagonalCells in Hy.
      left. lia. }
  assert (Hperm : Permutation (diagonalPositions C totalRows) (gridCells C totalRows)).
  { apply NoDup_Permutation.
    - eapply StronglySorted_irrefl_NoDup; [|exact Hsorted]. cbv beta. intros a. lia.
    - apply gridCells_NoDup.
    - intros pos. rewrite In_gridCells. unfold diagonalPositions. rewrite in_flat_map. split.
      + intros [s [_ Hpos]]. apply In_diagonalCells in Hpos. lia.
      + intros [Hr Hc]. exists (cellR pos + cellC pos). split.
        * apply In_range. lia.
        * apply In_diagonalCells. lia. }
  destruct (layoutOnPositions_cells 5 diagonalPositions components options HC Hperm)
    as (placed & b & Hrun & Hlen & Hnd & Hin & Hplaced).
  exists (firstn N (diagonalPositions C totalRows)), placed, b.
  repeat split; try assumption.
  now apply StronglySorted_firstn.
Qed.

Lemma diagonal_fill_order_witness :
  let components := repeat (box 10 10) 11 in
  let options := withColumns 3 noOptions in
  0 < JS.default 5 (columns options) /\
  exists (cells : list Cell) placed b,
    _layoutSquareDiagonalFill components options = Some (placed, b) /\
    List.length cells = 11%nat /\ NoDup cells.
Proof.
  cbv zeta. split; [reflexivity|].
  destruct (diagonal_fill_order (repeat (box 10 10) 11) (withColumns 3 noOptions)
              eq_refl) as (cells & placed & b & Hrun & Hlen & Hnd & _).
  exists cells, placed, b. repeat split; assumption.
Defined.

(** *** Gravity fill *)

Lemma insertCell_perm compare pos sorted :
  Permutation (insertCell compare pos sorted) (pos :: sorted).
Proof.
  induction sorted as [|other rest IH]; cbn [insertCell]; [reflexivity|].
  destruct (0 <? compare pos other); [|reflexivity].
  eapply Permutation_trans; [apply perm_skip, IH | apply perm_swap].
Qed.

Lemma sortCells_perm compare positions :
  Permutation (sortCells compare positions) positions.
Proof.
  induction positions as [|pos rest IH]; cbn; [constructor|].
  eapply Permutation_trans; [apply insertCell_perm | now apply perm_skip].
Qed.

Lemma gravityCompare_le (g a b : Cell) :
  gravityCompare g a b <= 0 <->
  gravityDistance g a < gravityDistance g b \/
  (gravityDistance g a = gravityDistance g b /\
   (cellR a < cellR b \/ (cellR a = cellR b /\ cellC a <= cellC b))).
Proof.
  unfold gravityCompare.
  destruct (gravityDistance g a =? gravityDistance g b) eqn:Ed;
    [apply Z.eqb_eq in Ed | apply Z.eqb_neq in Ed];
    [destruct (cellR a =? cellR b) eqn:Er;
       [apply Z.eqb_eq in Er | apply Z.eqb_neq in Er] |]; lia.
Qed.

Lemma sortCells_sorted (g : Cell) (positions : list Cell) :
  StronglySorted (fun a b => gravityCompare g a b <= 0)
                 (sortCells (gravityCompare g) positions).
Proof.
  induction positions as [|pos rest IH]; cbn [sortCells fold_right]; [constructor|].
  fold (sortCells (gravityCompare g) rest).
  induction IH as [|other sorted Hs IHs Hall]; cbn [insertCell].
  - repeat constructor.
  - destruct (0 <? gravityCompare g pos other) eqn:E;
      [apply Z.ltb_lt in E | apply Z.ltb_ge in E].
    + constructor; [exact IHs|].
      eapply Permutation_Forall; [apply Permutation_sym, insertCell_perm|].
      constructor; [|exact Hall].
      apply gravityCompare_le.
      assert (H : ~ gravityCompare g pos other <= 0) by lia.
      rewrite gravityCompare_le in H. lia.
    + constructor; [constructor; assumption|].
      constructor; [exact E|].
      eapply Forall_impl; [|exact Hall]. cbv beta. intros q Hq.
      rewrite gravityCompare_le in *. lia.
Qed.

Lemma gravity_sorted_strict (g : Cell) (l : list Cell) :
  NoDup l ->
  StronglySorted (fun a b => gravityCompare g a b <= 0) l ->
  StronglySorted
    (fun p q => gravityDistance g p < gravityDistance g q \/
                (gravityDistance g p = gravityDistance g q /\
                 (cellR p < cellR q \/ (cellR p = cellR q /\ cellC p < cellC q)))) l.
Proof.
  intros Hnd Hsorted.
  induction Hsorted as [|a l Hs IH Hall]; [constructor|].
  inversion Hnd as [|? ? Hnin Hndl]; subst. constructor; [now apply IH|].
  rewrite Forall_forall in *. intros q Hq. specialize (Hall q Hq).
  apply gravityCompare_le in Hall.
  assert (Hne : a <> q) by (intros ->; contradiction).
  destruct a as [ra ca], q as [rq cq]. cbn [cellR cellC] in *.
  assert (ra <> rq \/ ca <> cq) by (destruct (Z.eq_dec ra rq); [right; congruence | now left]).
  lia.
Qed.

Lemma gravityPoint_in_grid (flowDirection : string) (C R : Z) :
  0 < C -> 0 < R ->
  let g := gravityPoint flowDirection C R in
  0 <= cellR g < R /\ 0 <= cellC g < C.
Proof.
  intros HC HR. cbv zeta. unfold gravityPoint, JS.floorDiv.
  assert (0 <= C / 2 < C) by (Z.to_euclidean_division_equations; lia).
  assert (0 <= R / 2 < R) by (Z.to_euclidean_division_equations; lia).
  repeat match goal with |- context [if ?b then _ else _] => destruct b end;
    cbn [cellR cellC]; lia.
Qed.

(** X13: with C > 0 columns the gravity fill gives every item a cell of the
    grid of its own; the cells are handed out in order of their Manhattan
    distance to the gravity point, cells at the same distance from the top
    row down and from left to right, and the first item sits on the gravity
    point itself. *)
Theorem gravity_fill_order (components : list LayoutComponent)
    (options : LayoutOptions) :
  let C := JS.default 5 (columns options) in
  0 < C ->
  let N := List.length components in
  let totalRows := JS.ceilDiv (Z.of_nat N) C in
  let cs := _calculateGridCellSize components options in
  let g := gravityPoint (JS.default "gravity-fill-center"%string (flowDirection options))
                        C totalRows in
  exists cells placed b,
    _layoutSquareGravityFill components options = Some (placed, b) /\
    List.length cells = N /\ NoDup cells /\
    Forall (fun pos => 0 <= cellR pos < totalRows /\ 0 <= cellC pos < C) cells /\
    StronglySorted
      (fun p q => gravityDistance g p < gravityDistance g q \/
                  (gravityDistance g p = gravityDistance g q /\
                   (cellR p < cellR q \/ (cellR p = cellR q /\ cellC p < cellC q))))
      cells /\
    (components <> [] -> hd_error cells = Some g) /\
    placed = map (fun pc => placeInCell cs (fst pc) (snd pc)) (combine cells components).
Proof.
  intros C HC N totalRows cs g.
  set (flow := JS.default "gravity-fill-center"%string (flowDirection options)) in *.
  assert (Hperm : Permutation (gravityPositions flow C totalRows) (gridCells C totalRows))
    by apply sortCells_perm.
  destruct (layoutOnPositions_cells 5 (gravityPositions flow) components options HC Hperm)
    as (placed & b & Hrun & Hlen & Hnd & Hin & Hplaced).
  assert (Hnd' : NoDup (gravityPositions flow C totalRows)).
  { eapply Permutation_NoDup; [apply Permutation_sym; exact Hperm | apply gridCells_NoDup]. }
  assert (Hsorted : StronglySorted (fun a b => gravityCompare g a b <= 0)
                                   (gravityPositions flow C totalRows))
    by apply sortCells_sorted.
  exists (firstn N (gravityPositions flow C totalRows)), placed, b.
  split; [exact Hrun|]. split; [exact Hlen|]. split; [exact Hnd|]. split; [exact Hin|].
  split; [|split; [|exact Hplaced]].
  - apply StronglySorted_firstn. now apply gravity_sorted_strict.
  - intros Hne.
    assert (HN : 0 < Z.of_nat N) by (unfold N; destruct components; [congruence | cbn; lia]).
    destruct (ceilDiv_rows (Z.of_nat N) C HC (Nat2Z.is_nonneg N)) as (_ & _ & HR).
    specialize (HR HN). fold totalRows in HR.
    pose proof (gravityPoint_in_grid flow C totalRows HC HR) as Hg. cbv zeta in Hg.
    fold g in Hg.
    assert (Hing : In g (gravityPositions flow C totalRows)).
    { eapply Permutation_in; [apply Permutation_sym; exact Hperm|]. now apply In_gridCells. }
    clear Hrun Hplaced.
    set (l := gravityPositions flow C totalRows) in *. clearbody l.
    destruct l as [|x rest]; [contradiction|].
    destruct N as [|n]; [lia|]. cbn [firstn hd_error]. f_equal.
    destruct Hing as [E | Hrest]; [exact E|].
    inversion Hsorted as [|? ? Hs' Hall]; subst. rewrite Forall_forall in Hall.
    specialize (Hall g Hrest). apply gravityCompare_le in Hall.
    assert (H0 : gravityDistance g g = 0) by (unfold gravityDistance; lia).
    rewrite H0 in Hall. unfold gravityDistance in Hall.
    destruct x as [rx cx], g as [rg cg]. cbn [cellR cellC] in *. f_equal; lia.
Qed.

Lemma gravity_fill_order_witness :
  let components := repeat (box 10 10) 11 in
  let options := withFlowDirection "gravity-fill-bottom-right" (withColumns 3 noOptions) in
  0 < JS.default 5 (columns options) /\
  exists (cells : list Cell) placed b,
    _layoutSquareGravityFill components options = Some (placed, b) /\
    List.length cells = 11%nat /\ NoDup cells /\
    hd_error cells = Some (mkCell 3 2).
Proof.
  cbv zeta. split; [reflexivity|].
  destruct (gravity_fill_order (repeat (box 10 10) 11)
              (withFlowDirection "gravity-fill-bottom-right" (withColumns 3 noOptions))
              eq_refl) as (cells & placed & b & Hrun & Hlen & Hnd & _ & _ & Hhd & _).
  exists cells, placed, b. repeat split; try assumption.
  apply Hhd. discriminate.
Defined.

(** *** Braid flow *)

Lemma braidCell_spec (C B i : Z) :
  0 < C -> 0 < B -> 0 <= i ->
  exists q col rowIn,
    braidCell C B i = mkCell (q * B + rowIn) col /\
    i = (B * C) * q + (B * col + rowIn) /\
    0 <= q /\ 0 <= col < C /\ 0 <= rowIn < B.
Proof.
  intros HC HB Hi. unfold braidCell, JS.floorDiv, JS.rem.
  assert (HBC : 0 < B * C) by nia.
  rewrite (Z.rem_mod_nonneg i (B * C)) by lia.
  pose proof (Z.mod_pos_bound i (B * C) HBC) as Hm.
  rewrite (Z.rem_mod_nonneg (i mod (B * C)) B) by lia.
  exists (i / (B * C)), (i mod (B * C) / B), ((i mod (B * C)) mod B).
  split; [reflexivity|].
  pose proof (Z.div_mod i (B * C) ltac:(lia)) as E1.
  pose proof (Z.div_mod (i mod (B * C)) B ltac:(lia)) as E2.
  pose proof (Z.mod_pos_bound (i mod (B * C)) B HB) as Hm2.
  assert (0 <= i / (B * C)) by (apply Z.div_pos; lia).
  assert (0 <= i mod (B * C) / B) by (apply Z.div_pos; lia).
  assert (i mod (B * C) / B < C) by (apply Z.div_lt_upper_bound; lia).
  repeat split; lia.
Qed.

(** X14: with C > 0 columns and B > 0 braid rows the braid flow computes for
    every item a cell in a non-negative row and in the columns of the grid,
    a different one for each item; it places the item there when the row is
    below totalRows and leaves it untouched otherwise; and when B divides
    totalRows no item is left out. *)
Theorem braid_flow_cells (braidRows : option Z) (components : list LayoutComponent)
    (options : LayoutOptions) :
  let C := JS.default 6 (columns options) in
  let B := JS.default 2 braidRows in
  0 < C -> 0 < B ->
  let N := Z.of_nat (List.length components) in
  let totalRows := JS.ceilDiv N C in
  let cs := _calculateGridCellSize components options in
  exists placed b,
    _layoutSquareBraidFlow braidRows components options = Some (placed, b) /\
    forall i child, nth_error components i = Some child ->
      let pos := braidCell C B (Z.of_nat i) in
      0 <= cellR pos /\ 0 <= cellC pos < C /\
      (forall j, 0 <= j -> braidCell C B j = pos -> j = Z.of_nat i) /\
      nth_error placed i
        = Some (if cellR pos <? totalRows then placeInCell cs pos child else child) /\
      (JS.rem totalRows B = 0 -> cellR pos < totalRows).
Proof.
  intros C B HC HB N totalRows cs.
  destruct components as [|c0 rest].
  - eexists _, _. split; [reflexivity|]. intros [|i] child H; discriminate.
  - set (components := c0 :: rest) in *.
    assert (HC0 : (C =? 0) = false) by (apply Z.eqb_neq; lia).
    assert (HB0 : (B <=? 0) = false) by (apply Z.leb_gt; lia).
    eexists _, _. split.
    + unfold _layoutSquareBraidFlow. fold C B. rewrite HB0, HC0. reflexivity.
    + intros i child Hi. cbv zeta.
      assert (HiN : Z.of_nat i < N).
      { unfold N. apply Nat2Z.inj_lt. apply nth_error_Some. congruence. }
      destruct (ceilDiv_rows N C HC ltac:(unfold N; lia)) as (HR & HNR & _).
      fold totalRows in HR, HNR.
      destruct (braidCell_spec C B (Z.of_nat i) HC HB (Nat2Z.is_nonneg i))
        as (q & col & rowIn & Ecell & Ei & Hq & Hcol & Hrow).
      rewrite Ecell. cbn [cellR cellC].
      split; [nia|]. split; [lia|]. split; [|split].
      * intros j Hj E.
        destruct (braidCell_spec C B j HC HB Hj)
          as (q' & col' & rowIn' & Ecell' & Ej & Hq' & Hcol' & Hrow').
        rewrite Ecell' in E. injection E as E1 E2. subst col'.
        assert (q' = q) by nia. subst q'. assert (rowIn' = rowIn) by nia. subst rowIn'.
        lia.
      * rewrite forEachIdx_nth_error, Hi. cbn [option_map]. rewrite Z.add_0_l.
        unfold braidPlace. fold C B. rewrite Ecell. reflexivity.
      * unfold JS.rem. intros Hdiv. rewrite Z.rem_mod_nonneg in Hdiv by lia.
        apply Z.mod_divide in Hdiv; [|lia]. destruct Hdiv as [k Hk].
        assert (HRC : totalRows * C = B * C * k) by (rewrite Hk; ring).
        assert (Hlow : B * C * q <= Z.of_nat i) by nia.
        assert (Hqk : q < k).
        { apply (Z.mul_lt_mono_pos_l (B * C)); [nia | lia]. }
        rewrite Hk. nia.
Qed.

Lemma braid_flow_cells_witness :
  let components := repeat (box 10 10) 14 in
  let options := noOptions in
  0 < JS.default 6 (columns options) /\ 0 < JS.default 2 (Some 3) /\
  exists placed b,
    _layoutSquareBraidFlow (Some 3) components options = Some (placed, b) /\
    List.length placed = 14%nat.
Proof.
  cbv zeta. split; [reflexivity|]. split; [reflexivity|].
  destruct (braid_flow_cells (Some 3) (repeat (box 10 10) 14) noOptions eq_refl eq_refl)
    as (placed & b & Hrun & _).
  exists placed, b. split; [exact Hrun|].
  vm_compute in Hrun. injection Hrun as <- _. reflexivity.
Defined.

Lemma braid_flow_run (braidRows : option Z) (components : list LayoutComponent)
    (options : LayoutOptions) :
  let C := JS.default 6 (columns options) in
  let B := JS.default 2 braidRows in
  let totalRows := JS.ceilDiv (Z.of_nat (List.length components)) C in
  let cs := _calculateGridCellSize components options in
  0 < C -> 0 < B -> components <> [] ->
  _layoutSquareBraidFlow braidRows components options
  = Some (forEachIdx (braidPlace cs C B totalRows) components 0,
          plainGridBounds cs C totalRows).
Proof.
  intros C B totalRows cs HC HB Hne.
  destruct components as [|c0 rest]; [congruence|].
  assert (HC0 : (C =? 0) = false) by (apply Z.eqb_neq; lia).
  assert (HB0 : (B <=? 0) = false) by (apply Z.leb_gt; lia).
  unfold _layoutSquareBraidFlow. fold C B. now rewrite HB0, HC0.
Qed.

(** X15: the braid flow can leave items of a full grid unplaced.  With
    C >= 2 columns, B > 0 braid rows that do not divide totalRows, and a
    number of items that fills the grid (a multiple of C), some item is
    returned exactly as it was passed: its computed row is totalRows, one
    past the last row. *)
Theorem braid_flow_leaves_items_out (braidRows : option Z)
    (components : list LayoutComponent) (options : LayoutOptions) :
  let C := JS.default 6 (columns options) in
  let B := JS.default 2 braidRows in
  2 <= C -> 0 < B ->
  let N := Z.of_nat (List.length components) in
  let totalRows := JS.ceilDiv N C in
  JS.rem N C = 0 -> JS.rem totalRows B <> 0 ->
  exists placed b i child,
    _layoutSquareBraidFlow braidRows components options = Some (placed, b) /\
    nth_error components i = Some child /\
    cellR (braidCell C B (Z.of_nat i)) = totalRows /\
    nth_error placed i = Some child.
Proof.
  intros C B HC HB N totalRows HNC HRB.
  assert (HN : 0 <= N) by (unfold N; lia).
  destruct (ceilDiv_rows N C ltac:(lia) HN) as (HR & HNR & _). fold totalRows in HR, HNR.
  assert (HNfull : N = totalRows * C).
  { unfold JS.rem in HNC. rewrite Z.rem_mod_nonneg in HNC by lia.
    assert (E : N = C * (N / C)) by (apply Z.div_exact; lia).
    assert (E' : totalRows = N / C).
    { unfold totalRows, JS.ceilDiv. rewrite Z.div_opp_l_z by lia. lia. }
    rewrite E'. lia. }
  unfold JS.rem in HRB. rewrite Z.rem_mod_nonneg in HRB by lia.
  pose proof (Z.mod_pos_bound totalRows B HB) as Hm.
  pose proof (Z.div_mod totalRows B ltac:(lia)) as HRdiv.
  set (q := totalRows / B) in *. set (m := totalRows mod B) in *.
  assert (Hq : 0 <= q) by (apply Z.div_pos; lia).
  set (iz := B * C * q + m).
  assert (Hiz : 0 <= iz < N) by (unfold iz; nia).
  destruct (nth_error components (Z.to_nat iz)) as [child|] eqn:Hchild;
    [|apply nth_error_None in Hchild; unfold N in Hiz; lia].
  assert (Ecell : cellR (braidCell C B iz) = totalRows).
  { destruct (braidCell_spec C B iz ltac:(lia) HB ltac:(lia))
      as (q' & col & rowIn & Ecell & Ei & Hq' & Hcol & Hrow).
    rewrite Ecell. cbn [cellR]. unfold iz in Ei.
    assert (Hinner : 0 <= B * col + rowIn < B * C) by nia.
    assert (HmBC : m < B * C) by nia.
    assert (HBC : 0 < B * C) by nia.
    set (BC := B * C) in *. set (inner := B * col + rowIn) in *.
    assert (q' = q) by nia. subst q'.
    assert (Ein : inner = m) by lia. unfold inner in Ein.
    assert (col = 0) by nia. subst col. lia. }
  assert (Hne : components <> []) by (intros ->; destruct (Z.to_nat iz); discriminate).
  eexists _, _, (Z.to_nat iz), child.
  split; [apply (braid_flow_run braidRows components options ltac:(fold C; lia) HB Hne)|].
  split; [exact Hchild|].
  rewrite Z2Nat.id by lia. split; [exact Ecell|].
  rewrite forEachIdx_nth_error, Hchild. cbn [option_map].
  rewrite Z.add_0_l, Z2Nat.id by lia.
  unfold braidPlace. fold C B N totalRows. rewrite Ecell.
  now rewrite Z.ltb_irrefl.
Qed.

Lemma braid_flow_leaves_items_out_witness :
  let components := repeat (box 10 10) 18 in
  let options := noOptions in
  2 <= JS.default 6 (columns options) /\ 0 < JS.default 2 None /\
  exists placed b i child,
    _layoutSquareBraidFlow None components options = Some (placed, b) /\
    nth_error components i = Some child /\
    nth_error placed i = Some child.
Proof.
  cbv zeta. split; [discriminate|]. split; [reflexivity|].
  destruct (braid_flow_leaves_items_out None (repeat (box 10 10) 18) noOptions
              ltac:(discriminate) eq_refl eq_refl ltac:(discriminate))
    as (placed & b & i & child & Hrun & Hchild & _ & Hplaced).
  exists placed, b, i, child. repeat split; assumption.
Defined.

(** *** Block fill *)

Lemma In_fillBlock (bw bh C R br bc : Z) (pos : Cell) :
  In pos (fillBlock bw bh C R br bc) <->
  exists rIn cIn, 0 <= rIn < bh /\ 0 <= cIn < bw /\
    pos = mkCell (br * bh + rIn) (bc * bw + cIn) /\
    br * bh + rIn < R /\ bc * bw + cIn < C.
Proof.
  unfold fillBlock. rewrite in_flat_map. split.
  - intros [rIn [Hr H]]. apply in_flat_map in H. destruct H as [cIn [Hc H]].
    apply In_range in Hr. apply In_range in Hc.
    destruct ((br * bh + rIn <? R) && (bc * bw + cIn <? C)) eqn:E; [|contradiction].
    destruct H as [<- | []]. apply andb_true_iff in E. destruct E as [E1 E2].
    apply Z.ltb_lt in E1. apply Z.ltb_lt in E2.
    exists rIn, cIn. repeat split; lia.
  - intros (rIn & cIn & Hr & Hc & -> & H1 & H2).
    exists rIn. split; [apply In_range; lia|]. apply in_flat_map.
    exists cIn. split; [apply In_range; lia|].
    apply Z.ltb_lt in H1. apply Z.ltb_lt in H2. rewrite H1, H2. now left.
Qed.

Lemma block_coordinates (b block inBlock : Z) :
  0 < b -> 0 <= inBlock < b ->
  (block * b + inBlock) / b = block.
Proof.
  intros Hb Hin. symmetry. apply (Z.div_unique _ _ _ inBlock); [lia | ring].
Qed.

Lemma fillBlock_sorted (bw bh C R br bc : Z) :
  StronglySorted
    (fun p q => cellR p < cellR q \/ (cellR p = cellR q /\ cellC p < cellC q))
    (fillBlock bw bh C R br bc).
Proof.
  unfold fillBlock.
  eapply StronglySorted_flat_map; [apply (range_sorted 0 bh) | |].
  - intros rIn _.
    eapply StronglySorted_flat_map; [apply (range_sorted 0 bw) | |].
    + intros cIn _. destruct (_ && _); repeat constructor.
    + intros a b x y Hab Hx Hy.
      destruct ((br * bh + rIn <? R) && (bc * bw + a <? C)); [|contradiction].
      destruct ((br * bh + rIn <? R) && (bc * bw + b <? C)); [|contradiction].
      destruct Hx as [<- | []]. destruct Hy as [<- | []]. right. cbn. lia.
  - intros a b x y Hab Hx Hy.
    apply in_flat_map in Hx. destruct Hx as [ca [_ Hx]].
    apply in_flat_map in Hy. destruct Hy as [cb [_ Hy]].
    destruct ((br * bh + a <? R) && (bc * bw + ca <? C)); [|contradiction].
    destruct ((br * bh + b <? R) && (bc * bw + cb <? C)); [|contradiction].
    destruct Hx as [<- | []]. destruct Hy as [<- | []]. left. cbn. lia.
Qed.

(** The order of the block fill: by block row, then block column, then row
    and column inside the block. *)
Lemma blockFillPositions_sorted (bw bh C R : Z) :
  0 < bw -> 0 < bh ->
  StronglySorted
    (fun p q =>
       cellR p / bh < cellR q / bh \/
       (cellR p / bh = cellR q / bh /\
        (cellC p / bw < cellC q / bw \/
         (cellC p / bw = cellC q / bw /\
          (cellR p < cellR q \/ (cellR p = cellR q /\ cellC p < cellC q))))))
    (blockFillPositions bw bh C R).
Proof.
  intros Hbw Hbh. unfold blockFillPositions.
  assert (Hblock : forall br bc pos, In pos (fillBlock bw bh C R br bc) ->
            cellR pos / bh = br /\ cellC pos / bw = bc).
  { intros br bc pos Hin. apply In_fillBlock in Hin.
    destruct Hin as (rIn & cIn & Hr & Hc & -> & _). cbn [cellR cellC].
    split; now apply block_coordinates. }
  eapply StronglySorted_flat_map; [apply range_sorted | |].
  - intros br _.
    eapply StronglySorted_flat_map; [apply range_sorted | |].
    + intros bc _.
      assert (Hall : Forall (fun pos => cellR pos / bh = br /\ cellC pos / bw = bc)
                            (fillBlock bw bh C R br bc)).
      { apply Forall_forall. intros pos Hin. now apply (Hblock br bc). }
      assert (Hs := fillBlock_sorted bw bh C R br bc).
      induction Hs as [|a l Hs IH Ha]; [constructor|].
      apply Forall_cons_iff in Hall. destruct Hall as [[Ea1 Ea2] Hl].
      constructor; [now apply IH|].
      rewrite Forall_forall in *. intros q Hq. destruct (Hl q Hq) as [Eq1 Eq2].
      right. split; [congruence|]. right. split; [congruence|]. now apply Ha.
    + intros a b x y Hab Hx Hy.
      apply Hblock in Hx. apply Hblock in Hy. right. split; [lia|]. left. lia.
  - intros a b x y Hab Hx Hy.
    apply in_flat_map in Hx. destruct Hx as [ca [_ Hx]].
    apply in_flat_map in Hy. destruct Hy as [cb [_ Hy]].
    apply Hblock in Hx. apply Hblock in Hy. left. lia.
Qed.

Lemma blockFillPositions_permutation (bw bh C R : Z) :
  0 < bw -> 0 < bh ->
  Permutation (blockFillPositions bw bh C R) (gridCells C R).
Proof.
  intros Hbw Hbh. apply NoDup_Permutation.
  - eapply StronglySorted_irrefl_NoDup; [|apply blockFillPositions_sorted; assumption].
    cbv beta. intros a. lia.
  - apply gridCells_NoDup.
  - intros pos. rewrite In_gridCells. unfold blockFillPositions. rewrite in_flat_map. split.
    + intros [br [Hbr H]]. apply in_flat_map in H. destruct H as [bc [Hbc H]].
      apply In_range in Hbr. apply In_range in Hbc. apply In_fillBlock in H.
      destruct H as (rIn & cIn & Hr & Hc & -> & H1 & H2). cbn [cellR cellC]. nia.
    + intros [Hr Hc].
      pose proof (Z.div_mod (cellR pos) bh ltac:(lia)) as Er.
      pose proof (Z.div_mod (cellC pos) bw ltac:(lia)) as Ec.
      pose proof (Z.mod_pos_bound (cellR pos) bh Hbh) as Hmr.
      pose proof (Z.mod_pos_bound (cellC pos) bw Hbw) as Hmc.
      exists (cellR pos / bh). split.
      * apply In_range. split; [apply Z.div_pos; lia|].
        unfold JS.ceilDiv. Z.to_euclidean_division_equations. nia.
      * apply in_flat_map. exists (cellC pos / bw). split.
        -- apply In_range. split; [apply Z.div_pos; lia|].
           unfold JS.ceilDiv. Z.to_euclidean_division_equations. nia.
        -- apply In_fillBlock. exists (cellR pos mod bh), (cellC pos mod bw).
           split; [lia|]. split; [lia|]. split; [|lia].
           destruct pos as [r0 c0]. cbn [cellR cellC] in *. f_equal; lia.
Qed.

(** X16: with C > 0 columns and positive block sizes the block fill gives
    every item a cell of the grid of its own, also when the grid is not a
    whole number of blocks; the cells are handed out block by block (block
    rows from the top, blocks from the left) and row by row inside a block. *)
Theorem block_fill_order (blockWidth blockHeight : option Z)
    (components : list LayoutComponent) (options : LayoutOptions) :
  let C := JS.default 6 (columns options) in
  let bw := JS.default 2 blockWidth in
  let bh := JS.default 2 blockHeight in
  0 < C -> 0 < bw -> 0 < bh ->
  let N := List.length components in
  let totalRows := JS.ceilDiv (Z.of_nat N) C in
  let cs := _calculateGridCellSize components options in
  exists cells placed b,
    _layoutSquareBlockFill blockWidth blockHeight components options = Some (placed, b) /\
    List.length cells = N /\ NoDup cells /\
    Forall (fun pos => 0 <= cellR pos < totalRows /\ 0 <= cellC pos < C) cells /\
    StronglySorted
      (fun p q =>
         cellR p / bh < cellR q / bh \/
         (cellR p / bh = cellR q / bh /\
          (cellC p / bw < cellC q / bw \/
           (cellC p / bw = cellC q / bw /\
            (cellR p < cellR q \/ (cellR p = cellR q /\ cellC p < cellC q))))))
      cells /\
    placed = map (fun pc => placeInCell cs (fst pc) (snd pc)) (combine cells components).
Proof.
  intros C bw bh HC Hbw Hbh N totalRows cs.
  pose proof (blockFillPositions_permutation bw bh C totalRows Hbw Hbh) as Hperm.
  destruct (layoutOnPositions_cells 6 (blockFillPositions bw bh) components options HC Hperm)
    as (placed & b & Hrun & Hlen & Hnd & Hin & Hplaced).
  exists (firstn N (blockFillPositions bw bh C totalRows)), placed, b.
  split; [|split; [exact Hlen | split; [exact Hnd | split; [exact Hin | split;
    [|exact Hplaced]]]]].
  - unfold _layoutSquareBlockFill. fold bw bh.
    assert (E : (bw <=? 0) || (bh <=? 0) = false).
    { apply orb_false_iff. split; apply Z.leb_gt; lia. }
    rewrite E. destruct components; [|exact Hrun].
    cbn in Hrun |- *. exact Hrun.
  - apply StronglySorted_firstn. now apply blockFillPositions_sorted.
Qed.

Lemma block_fill_order_witness :
  let components := repeat (box 10 10) 13 in
  let options := withColumns 5 noOptions in
  0 < JS.default 6 (columns options) /\
  exists (cells : list Cell) placed b,
    _layoutSquareBlockFill (Some 2) (Some 3) components options = Some (placed, b) /\
    List.length cells = 13%nat /\ NoDup cells.
Proof.
  cbv zeta. split; [reflexivity|].
  destruct (block_fill_order (Some 2) (Some 3) (repeat (box 10 10) 13)
              (withColumns 5 noOptions) eq_refl eq_refl eq_refl)
    as (cells & placed & b & Hrun & Hlen & Hnd & _).
  exists cells, placed, b. repeat split; assumption.
Defined.

(** *** Perimeter first *)

Lemma sameCell_eq (pos p : Cell) : sameCell pos p = true <-> p = pos.
Proof.
  unfold sameCell. rewrite andb_true_iff, !Z.eqb_eq.
  destruct pos, p; cbn. split; [intros [-> ->]; reflexivity | intros E; injection E; auto].
Qed.

Lemma Cell_eq_dec (a b : Cell) : {a = b} + {a <> b}.
Proof. decide equality; apply Z.eq_dec. Qed.

Lemma findIndex_first (x : Cell) : forall pre rest,
  (~ In x pre -> findIndex (sameCell x) (pre ++ x :: rest) = Some (List.length pre)) /\
  (In x pre -> exists k, findIndex (sameCell x) (pre ++ x :: rest) = Some k /\
                         (k < List.length pre)%nat).
Proof.
  induction pre as [|a pre IH]; intros rest; cbn [app findIndex List.length].
  - split; [|intros []]. intros _.
    assert (E : sameCell x x = true) by now apply sameCell_eq. now rewrite E.
  - destruct (sameCell x a) eqn:E.
    + apply sameCell_eq in E. subst a. split.
      * intros H. exfalso. apply H. now left.
      * intros _. exists 0%nat. split; [reflexivity | lia].
    + assert (Hne : a <> x) by (intros ->; rewrite (proj2 (sameCell_eq x x) eq_refl) in E;
                                discriminate).
      destruct (IH rest) as [IH1 IH2]. split.
      * intros H. rewrite IH1; [reflexivity|]. intro Hin. apply H. now right.
      * intros [H | H]; [contradiction|].
        destruct (IH2 H) as [k [Ek Hk]]. exists (S k). rewrite Ek. split; [reflexivity | lia].
Qed.

Lemma filterWithIndex_unique : forall rest pre,
  let u := filterWithIndex
             (fun pos index =>
                match findIndex (sameCell pos) (pre ++ rest) with
                | Some first => Nat.eqb index first
                | None => false
                end) rest (List.length pre) in
  NoDup u /\ forall x, In x u <-> (In x rest /\ ~ In x pre).
Proof.
  induction rest as [|a rest IH]; intros pre; cbn [filterWithIndex]; cbv zeta.
  - split; [constructor|]. intros x. cbn. tauto.
  - specialize (IH (pre ++ [a])). cbv zeta in IH.
    rewrite <- app_assoc in IH. cbn [app] in IH.
    rewrite length_app in IH. cbn [List.length] in IH.
    replace (List.length pre + 1)%nat with (S (List.length pre)) in IH by lia.
    destruct IH as [Hnd Hin].
    destruct (findIndex_first a pre rest) as [H1 H2].
    destruct (in_dec Cell_eq_dec a pre) as [Hpre | Hpre].
    + destruct (H2 Hpre) as [k [Ek Hk]]. rewrite Ek.
      assert (E : Nat.eqb (List.length pre) k = false) by (apply Nat.eqb_neq; lia).
      rewrite E. split; [exact Hnd|].
      intros x. rewrite Hin, in_app_iff. cbn [In]. split.
      * intros [Hx Hn]. split; [now right|]. tauto.
      * intros [[-> | Hx] Hn]; [contradiction|]. split; [exact Hx|].
        intros [H | [-> | []]]; contradiction.
    + rewrite (H1 Hpre), Nat.eqb_refl. split.
      * constructor; [|exact Hnd]. rewrite Hin, in_app_iff. cbn [In]. tauto.
      * intros x. cbn [In]. rewrite Hin, in_app_iff. cbn [In]. split.
        -- intros [-> | [Hx Hn]]; [tauto|]. tauto.
        -- intros [[-> | Hx] Hn]; [now left|].
           destruct (Cell_eq_dec a x) as [-> | Hne]; [now left|].
           right. split; [exact Hx|]. intros [H | [H | []]]; contradiction.
Qed.

Lemma uniquePerimeterPos_spec (positions : list Cell) :
  NoDup (uniquePerimeterPos positions) /\
  forall x, In x (uniquePerimeterPos positions) <-> In x positions.
Proof.
  destruct (filterWithIndex_unique positions []) as [Hnd Hin]. cbn [app List.length] in *.
  split; [exact Hnd|]. intros x. unfold uniquePerimeterPos. rewrite Hin. cbn. tauto.
Qed.

Lemma In_perimeterPositions (C R : Z) (pos : Cell) :
  0 < C -> 0 < R ->
  (In pos (perimeterPositions C R) <->
   (0 <= cellR pos < R /\ 0 <= cellC pos < C) /\ onBoundary C R pos).
Proof.
  intros HC HR. unfold perimeterPositions, onBoundary.
  assert (E1 : (0 <? R) && (0 <? C) = true)
    by (apply andb_true_iff; split; apply Z.ltb_lt; lia).
  rewrite E1, !in_app_iff. split.
  - intros [H | [H | [H | H]]].
    + apply in_map_iff in H. destruct H as [c [<- Hc]]. apply In_range in Hc. cbn. lia.
    + apply in_map_iff in H. destruct H as [r [<- Hr]]. apply In_range in Hr. cbn. lia.
    + destruct (1 <? R) eqn:E; [|contradiction]. apply Z.ltb_lt in E.
      apply in_map_iff in H. destruct H as [c [<- Hc]].
      apply in_rev in Hc. apply In_range in Hc. cbn. lia.
    + destruct (1 <? C) eqn:E; [|contradiction]. apply Z.ltb_lt in E.
      apply in_map_iff in H. destruct H as [r [<- Hr]].
      apply in_rev in Hr. apply In_range in Hr. cbn. lia.
  - destruct pos as [r c]. cbn [cellR cellC]. intros [[Hr Hc] Hb].
    destruct (Z.eq_dec r 0) as [-> | Hr0].
    { left. apply in_map_iff. exists c. split; [reflexivity | apply In_range; lia]. }
    destruct (Z.eq_dec c (C - 1)) as [-> | Hc1].
    { right. left. apply in_map_iff. exists r. split; [reflexivity | apply In_range; lia]. }
    destruct (Z.eq_dec r (R - 1)) as [-> | Hr1].
    { right. right. left.
      destruct (1 <? R) eqn:E; [|apply Z.ltb_ge in E; lia].
      apply in_map_iff. exists c. split; [reflexivity|].
      apply in_rev. rewrite rev_involutive. apply In_range. lia. }
    right. right. right.
    assert (c = 0) by lia. subst c.
    destruct (1 <? C) eqn:E; [|apply Z.ltb_ge in E; lia].
    apply in_map_iff. exists r. split; [reflexivity|].
    apply in_rev. rewrite rev_involutive. apply In_range. lia.
Qed.

Lemma interiorCell_spec (IC i : Z) :
  0 < IC -> 0 <= i ->
  interiorCell IC i = mkCell (i / IC + 1) (i mod IC + 1).
Proof.
  intros HIC Hi. unfold interiorCell, JS.floorDiv, JS.rem.
  now rewrite Z.rem_mod_nonneg by lia.
Qed.

Lemma In_interiorPositions (C R : Z) (pos : Cell) :
  In pos (interiorPositions C R) <->
  (1 <= cellR pos <= R - 2 /\ 1 <= cellC pos <= C - 2).
Proof.
  unfold interiorPositions.
  destruct ((2 <? C) && (2 <? R)) eqn:E.
  - apply andb_true_iff in E. destruct E as [E1 E2].
    apply Z.ltb_lt in E1. apply Z.ltb_lt in E2.
    rewrite in_map_iff. split.
    + intros [i [<- Hi]]. apply In_range in Hi.
      rewrite interiorCell_spec by lia. cbn [cellR cellC].
      pose proof (Z.mod_pos_bound i (C - 2) ltac:(lia)).
      assert (0 <= i / (C - 2)) by (apply Z.div_pos; lia).
      assert (i / (C - 2) < R - 2) by (apply Z.div_lt_upper_bound; lia).
      lia.
    + intros [Hr Hc]. exists ((cellR pos - 1) * (C - 2) + (cellC pos - 1)).
      assert (Hi : 0 <= (cellR pos - 1) * (C - 2) + (cellC pos - 1) < (C - 2) * (R - 2))
        by nia.
      split; [|apply In_range; lia].
      rewrite interiorCell_spec by lia.
      set (X := (cellR pos - 1) * (C - 2) + (cellC pos - 1)) in *.
      assert (Hq : X / (C - 2) = cellR pos - 1)
        by (symmetry; apply (Z.div_unique _ _ _ (cellC pos - 1)); unfold X; lia).
      assert (Hm : X mod (C - 2) = cellC pos - 1)
        by (symmetry; apply (Z.mod_unique _ _ (cellR pos - 1)); unfold X; lia).
      rewrite Hq, Hm. destruct pos as [r c]. cbn [cellR cellC]. f_equal; lia.
  - split; [intros []|]. intros [Hr Hc].
    apply andb_false_iff in E. destruct E as [E | E]; apply Z.ltb_ge in E; lia.
Qed.

Lemma interiorPositions_NoDup (C R : Z) : NoDup (interiorPositions C R).
Proof.
  unfold interiorPositions. destruct ((2 <? C) && (2 <? R)) eqn:E; [|constructor].
  apply andb_true_iff in E. destruct E as [E1 E2].
  apply Z.ltb_lt in E1. apply Z.ltb_lt in E2.
  apply NoDup_map_inj_in; [|apply range_NoDup].
  intros a b Ha Hb. apply In_range in Ha. apply In_range in Hb.
  rewrite !interiorCell_spec by lia. intros E. injection E as Eq Em.
  rewrite (Z.div_mod a (C - 2)), (Z.div_mod b (C - 2)) by lia.
  replace (a / (C - 2)) with (b / (C - 2)) by lia.
  replace (a mod (C - 2)) with (b mod (C - 2)) by lia. reflexivity.
Qed.

(** The boundary cells followed by the interior cells visit each cell of the
    grid once. *)
Lemma perimeter_then_interior_permutation (C R : Z) :
  0 < C -> 0 <= R ->
  Permutation (uniquePerimeterPos (perimeterPositions C R) ++ interiorPositions C R)
              (gridCells C R).
Proof.
  intros HC HR.
  destruct (uniquePerimeterPos_spec (perimeterPositions C R)) as [Hnd Hin].
  destruct (Z.eq_dec R 0) as [-> | HR0].
  { unfold perimeterPositions, interiorPositions, gridCells. cbn.
    rewrite andb_false_r. constructor. }
  assert (HRpos : 0 < R) by lia.
  apply NoDup_Permutation.
  - apply NoDup_app; [exact Hnd | apply interiorPositions_NoDup |].
    intros x Hx Hx'. apply Hin in Hx. apply In_perimeterPositions in Hx; [|lia..].
    apply In_interiorPositions in Hx'. unfold onBoundary in Hx. lia.
  - apply gridCells_NoDup.
  - intros pos. rewrite in_app_iff, Hin, In_interiorPositions, In_gridCells.
    rewrite In_perimeterPositions by lia. unfold onBoundary. lia.
Qed.

Lemma placeAlong_app {S} (place : S -> LayoutComponent -> LayoutComponent) :
  forall (l1 l2 : list S) components,
  placeAlong place (l1 ++ l2) components
  = placeAlong place l1 (firstn (List.length l1) components)
    ++ placeAlong place l2 (skipn (List.length l1) components).
Proof.
  induction l1 as [|s l1 IH]; intros l2 components.
  - cbn. destruct components; reflexivity.
  - destruct components as [|child rest]; [cbn; now destruct l2|].
    cbn. f_equal. apply IH.
Qed.

Lemma forEachIdx_placeAlong (place : Cell -> LayoutComponent -> LayoutComponent)
    (g : Z -> Cell) : forall components k hi,
  k + Z.of_nat (List.length components) <= hi ->
  forEachIdx (fun child i => place (g i) child) components k
  = placeAlong place (map g (range k hi)) components.
Proof.
  induction components as [|child rest IH]; intros k hi Hlen;
    [cbn; now destruct (map g (range k hi))|].
  cbn [List.length] in Hlen. unfold range.
  replace (Z.to_nat (hi - k)) with (S (Z.to_nat (hi - (k + 1)))) by lia.
  cbn [seq map forEachIdx placeAlong]. rewrite Z.add_0_r. f_equal.
  rewrite (IH (k + 1) hi) by lia. unfold range. f_equal.
  rewrite <- seq_shift, !map_map. apply map_ext. intros a. f_equal. lia.
Qed.

(** X17: with C > 0 columns the perimeter-first layout gives every item a
    cell of the grid of its own.  The first items go on the boundary of the
    grid, clockwise from the top-left corner; an item goes to the interior
    only when every boundary cell is taken, and the interior is filled row
    by row. *)
Theorem perimeter_first_cells (components : list LayoutComponent)
    (options : LayoutOptions) :
  let C := JS.default 5 (columns options) in
  0 < C ->
  let N := List.length components in
  let totalRows := JS.ceilDiv (Z.of_nat N) C in
  let cs := _calculateGridCellSize components options in
  exists cells placed b k,
    _layoutSquarePerimeterFirst components options = Some (placed, b) /\
    List.length cells = N /\ NoDup cells /\
    Forall (fun pos => 0 <= cellR pos < totalRows /\ 0 <= cellC pos < C) cells /\
    placed = map (fun pc => placeInCell cs (fst pc) (snd pc)) (combine cells components) /\
    Forall (onBoundary C totalRows) (firstn k cells) /\
    Forall (fun pos => ~ onBoundary C totalRows pos) (skipn k cells) /\
    ((k < N)%nat ->
     forall pos, 0 <= cellR pos < totalRows -> 0 <= cellC pos < C ->
                 onBoundary C totalRows pos -> In pos (firstn k cells)).
Proof.
  intros C HC N totalRows cs.
  destruct (ceilDiv_rows (Z.of_nat N) C HC (Nat2Z.is_nonneg N)) as (HR & HNR & HRpos).
  fold totalRows in HR, HNR, HRpos.
  pose proof (perimeter_then_interior_permutation C totalRows HC HR) as Hperm.
  set (U := uniquePerimeterPos (perimeterPositions C totalRows)) in *.
  set (I := interiorPositions C totalRows) in *.
  destruct (grid_order_cells (U ++ I) N C HC Hperm) as (Hlen & Hnd & Hin).
  fold totalRows in Hin.
  assert (Htotal : Z.of_nat (List.length (U ++ I)) = totalRows * C).
  { rewrite (Permutation_length Hperm). apply gridCells_length; lia. }
  rewrite length_app in Htotal.
  assert (HU : forall x, In x U <->
             (0 <= cellR x < totalRows /\ 0 <= cellC x < C) /\ onBoundary C totalRows x).
  { intros x. unfold U. rewrite (proj2 (uniquePerimeterPos_spec _)).
    destruct (Z.eq_dec totalRows 0) as [E | E].
    - rewrite E. unfold perimeterPositions. cbn. split; [intros [] | lia].
    - apply In_perimeterPositions; lia. }
  assert (Hplaced : exists b,
    _layoutSquarePerimeterFirst components options
    = Some (placeAlong (placeInCell cs) (U ++ I) components, b)).
  { destruct components as [|c0 rest];
      [exists zeroBounds; unfold _layoutSquarePerimeterFirst; now destruct (U ++ I)|].
    assert (HC0 : (C =? 0) = false) by (apply Z.eqb_neq; lia).
    eexists. unfold _layoutSquarePerimeterFirst. fold C. rewrite HC0.
    cbv beta iota zeta. fold N totalRows cs U.
    set (components := c0 :: rest) in *. f_equal. f_equal.
    rewrite placeAlong_app.
    destruct (le_lt_dec N (List.length U)) as [Hle | Hlt].
    - rewrite (Nat.min_r _ _ Hle).
      rewrite !firstn_all2, !skipn_all2 by (fold N; lia).
      cbn [List.length Nat.ltb Nat.leb andb]. now destruct I.
    - rewrite Nat.min_l by lia. f_equal.
      assert (HI : (0 < List.length I)%nat) by lia.
      assert (Hlen_in : List.length (skipn (List.length U) components)
                        = (N - List.length U)%nat) by (rewrite length_skipn; reflexivity).
      unfold I, interiorPositions in HI |- *.
      destruct ((2 <? C) && (2 <? totalRows)) eqn:Econd; [|cbn in HI; lia].
      assert (E0 : (0 <? List.length (skipn (List.length U) components))%nat = true)
        by (apply Nat.ltb_lt; lia).
      rewrite E0. cbn [andb]. rewrite Econd.
      apply (forEachIdx_placeAlong (placeInCell cs) (interiorCell (C - 2))).
      rewrite Hlen_in. unfold I, interiorPositions in Htotal. rewrite Econd in Htotal.
      rewrite length_map, range_length in Htotal.
      apply andb_true_iff in Econd. destruct Econd as [E1 E2].
      apply Z.ltb_lt in E1. apply Z.ltb_lt in E2.
      rewrite Z.sub_0_r in Htotal. lia. }
  destruct Hplaced as [b Hrun].
  exists (firstn N (U ++ I)), (placeAlong (placeInCell cs) (U ++ I) components), b,
         (Nat.min (List.length U) N).
  split; [exact Hrun|]. split; [exact Hlen|]. split; [exact Hnd|]. split; [exact Hin|].
  split; [|split; [|split]].
  - rewrite placeAlong_combine by (fold N; rewrite length_app; lia).
    unfold N. now rewrite combine_firstn_length.
  - rewrite firstn_firstn, firstn_app.
    replace (Nat.min (Nat.min (List.length U) N) N) with (Nat.min (List.length U) N) by lia.
    replace (Nat.min (List.length U) N - List.length U)%nat with 0%nat by lia.
    cbn [firstn]. rewrite app_nil_r. apply Forall_forall. intros x Hx.
    apply In_firstn in Hx. now apply HU in Hx.
  - apply Forall_forall. intros x Hx.
    assert (Hx' : In x (firstn (N - List.length U) I)).
    { rewrite firstn_app in Hx.
      destruct (le_lt_dec N (List.length U)) as [Hle | Hlt].
      - rewrite (Nat.min_r _ _ Hle) in Hx.
        replace (N - List.length U)%nat with 0%nat in Hx by lia.
        cbn [firstn] in Hx. rewrite app_nil_r in Hx.
        rewrite skipn_all2 in Hx; [destruct Hx | rewrite length_firstn; lia].
      - rewrite Nat.min_l in Hx by lia.
        rewrite (firstn_all2 U) in Hx by lia.
        rewrite skipn_app, skipn_all, Nat.sub_diag in Hx. exact Hx. }
    apply In_firstn in Hx'. apply In_interiorPositions in Hx'.
    unfold onBoundary. lia.
  - intros Hk pos Hr Hc Hb.
    assert (HkU : Nat.min (List.length U) N = List.length U) by lia.
    rewrite HkU, firstn_firstn, Nat.min_l by lia.
    rewrite firstn_app, Nat.sub_diag, firstn_all. cbn [firstn]. rewrite app_nil_r.
    apply HU. tauto.
Qed.

Lemma perimeter_first_cells_witness :
  let components := repeat (box 10 10) 14 in
  let options := withColumns 4 noOptions in
  0 < JS.default 5 (columns options) /\
  exists (cells : list Cell) placed b,
    _layoutSquarePerimeterFirst components options = Some (placed, b) /\
    List.length cells = 14%nat /\ NoDup cells.
Proof.
  cbv zeta. split; [reflexivity|].
  destruct (perimeter_first_cells (repeat (box 10 10) 14) (withColumns 4 noOptions)
              eq_refl) as (cells & placed & b & k & Hrun & Hlen & Hnd & _).
  exists cells, placed, b. repeat split; assumption.
Defined.

(** ** The slots of the perimeter grid *)

Lemma map_snd_indexed (loop : list PathSlot) : map snd (indexed loop) = loop.
Proof.
  unfold indexed. generalize 0%nat.
  induction loop as [|a l IH]; intros k; cbn; [reflexivity|]. now rewrite IH.
Qed.

Lemma NoDup_map_eq {A B} (f : A -> B) (l : list A) (a b : A) :
  NoDup (map f l) -> In a l -> In b l -> f a = f b -> a = b.
Proof.
  induction l as [|x l IH]; intros Hnd Ha Hb E; [destruct Ha|].
  cbn in Hnd. inversion Hnd as [|? ? Hnin Hnd']; subst.
  destruct Ha as [-> | Ha], Hb as [-> | Hb]; try reflexivity.
  - exfalso. apply Hnin. rewrite E. now apply in_map.
  - exfalso. apply Hnin. rewrite <- E. now apply in_map.
  - now apply IH.
Qed.

Lemma NoDup_map_filter {S T} (cellOf : S -> T) (keep : S -> bool) :
  forall path : list S,
  NoDup (map cellOf path) -> NoDup (map cellOf (filter keep path)).
Proof.
  intros path. induction path as [|s rest IH]; cbn; intros Hnd; [constructor|].
  inversion Hnd as [|? ? Hnin Hnd']; subst.
  destruct (keep s); cbn; [|now apply IH]. constructor; [|now apply IH].
  intro Hin. apply Hnin. apply in_map_iff in Hin. destruct Hin as [x [E Hx]].
  apply filter_In in Hx. rewrite <- E. apply in_map. tauto.
Qed.

(** The slots of the loop, whatever edge they are given to. *)
Lemma In_buildLoop (prio : bool) (maxC maxR : Z) (s : PathSlot) :
  0 <= maxC -> 0 <= maxR ->
  In s (buildLoop prio maxC maxR) ->
  0 <= r s <= maxR /\ 0 <= c s <= maxC /\
  (r s = 0 \/ r s = maxR \/ c s = 0 \/ c s = maxC) /\
  (atCorner maxC maxR (slotCell s) -> isCorner s = true).
Proof.
  intros HC HR. unfold buildLoop. rewrite in_map_iff. intros [s0 [<- Hin]].
  assert (Hsame : r (ownEdge prio maxC s0) = r s0 /\ c (ownEdge prio maxC s0) = c s0 /\
                  isCorner (ownEdge prio maxC s0) = isCorner s0).
  { unfold ownEdge. destruct prio; cbn; auto. }
  destruct Hsame as (Er & Ec & Ek). unfold atCorner, slotCell. cbn [cellR cellC].
  rewrite Er, Ec, Ek. clear Er Ec Ek.
  rewrite !in_app_iff in Hin. destruct Hin as [H | [H | [H | H]]];
    apply in_map_iff in H; destruct H as [x [<- Hx]];
    try rewrite <- in_rev in Hx; apply In_range in Hx; cbn [r c isCorner].
  all: repeat split; lia.
Qed.

Lemma buildLoop_cells_NoDup (prio : bool) (maxC maxR : Z) :
  1 <= maxC -> 1 <= maxR ->
  NoDup (map slotCell (buildLoop prio maxC maxR)).
Proof.
  intros HC HR. unfold buildLoop. rewrite map_map.
  assert (E : forall l, map (fun x => slotCell (ownEdge prio maxC x)) l = map slotCell l).
  { intros l. apply map_ext. intros a. unfold ownEdge, slotCell. destruct prio; reflexivity. }
  rewrite E, !map_app, !map_map. unfold slotCell. cbn [r c].
  assert (Hrow : forall row l, NoDup l -> NoDup (map (fun x => mkCell row x) l)).
  { intros row l Hl. apply NoDup_map_inj_in; [|exact Hl]. intros a b _ _ E'. now injection E'. }
  assert (Hcol : forall col l, NoDup l -> NoDup (map (fun x => mkCell x col) l)).
  { intros col l Hl. apply NoDup_map_inj_in; [|exact Hl]. intros a b _ _ E'. now injection E'. }
  assert (Hrev : forall lo hi, NoDup (rev (range lo hi))).
  { intros lo hi. apply NoDup_rev, range_NoDup. }
  repeat apply NoDup_app;
    try (apply Hrow; first [apply range_NoDup | apply Hrev]);
    try (apply Hcol; first [apply range_NoDup | apply Hrev]).
  all: intros pos H1 H2;
    repeat (apply in_app_iff in H2; destruct H2 as [H2 | H2]);
    apply in_map_iff in H1; destruct H1 as [x1 [<- H1]];
    apply in_map_iff in H2; destruct H2 as [x2 [E2 H2]];
    try rewrite <- in_rev in H1; try rewrite <- in_rev in H2;
    apply In_range in H1; apply In_range in H2;
    injection E2 as E2a E2b; lia.
Qed.

Lemma slotAt_In (slots : list SlotRef) (i : Z) (k : nat) :
  slotAt slots i = Some k -> exists s, In s slots /\ fst s = k.
Proof.
  unfold slotAt. destruct (i <? 0); [discriminate|].
  destruct (nth_error slots (Z.to_nat i)) as [s|] eqn:Hs; cbn; [|discriminate].
  intros E. injection E as E. exists s. split; [|exact E].
  eapply nth_error_In. exact Hs.
Qed.

Lemma In_activeOnEdge excl align loop budgets name k :
  In (Some k) (activeOnEdge excl align loop budgets name) ->
  exists s, In s loop /\ fst s = k /\ edge (snd s) = name /\
            (excl = true -> isCorner (snd s) = false).
Proof.
  unfold activeOnEdge. cbv zeta.
  destruct (budgets name <=? 0); [intros []|].
  match goal with |- context [List.length ?x] => set (slots := x) end.
  assert (Hslots : forall s, In s slots ->
            In s loop /\ edge (snd s) = name /\
            (excl = true -> isCorner (snd s) = false)).
  { intros s Hs. unfold slots in Hs.
    assert (Hedge : forall s0,
              In s0 (filter (fun s : nat * PathSlot => Edge_eqb (edge (snd s)) name) loop) ->
              In s0 loop /\ edge (snd s0) = name).
    { intros s0 H0. apply filter_In in H0. destruct H0 as [H0 E]. split; [exact H0|].
      destruct (edge (snd s0)), name; cbn in E; congruence. }
    destruct excl.
    - apply filter_In in Hs. destruct Hs as [Hs Hc]. apply Hedge in Hs.
      repeat split; try tauto. intros _. now apply negb_true_iff in Hc.
    - apply Hedge in Hs. repeat split; try tauto. discriminate. }
  destruct (Z.of_nat (List.length slots) =? 0); [intros []|].
  repeat match goal with |- context [if ?b then _ else _] => destruct b end;
    intros Hin; apply in_map_iff in Hin; destruct Hin as [i [Hi _]];
    apply slotAt_In in Hi; destruct Hi as [s [Hs E]]; exists s;
    destruct (Hslots s Hs) as (H1 & H2 & H3); repeat split; assumption.
Qed.

Lemma In_perimeterFinalPath options (N : Z) (s : SlotRef) :
  let f := perimeterFlags options in
  let maxC := pfColumns f - 1 in
  let maxR := effectiveRows f N - 1 in
  In s (perimeterFinalPath options N) ->
  In (snd s) (buildLoop (pfPriorityRows f) maxC maxR) /\
  (pfExcludeCorners f = true -> isCorner (snd s) = false).
Proof.
  intros f maxC maxR Hin. unfold perimeterFinalPath in Hin. fold f maxC maxR in Hin.
  set (loop := indexed (buildLoop (pfPriorityRows f) maxC maxR)) in *.
  apply filter_In in Hin. destruct Hin as [Hpath Hact].
  assert (Hloop : In s loop).
  { match type of Hpath with In _ (if ?b then _ else _) => destruct b end.
    - apply (Permutation_in _ (Permutation_sym (counterClockwise_perm _))) in Hpath.
      eapply Permutation_in; [apply Permutation_sym, rotateLoop_perm | exact Hpath].
    - eapply Permutation_in; [apply Permutation_sym, rotateLoop_perm | exact Hpath]. }
  split.
  - rewrite <- (map_snd_indexed (buildLoop (pfPriorityRows f) maxC maxR)).
    apply in_map. exact Hloop.
  - intros Hexcl. unfold isActive in Hact. apply existsb_exists in Hact.
    destruct Hact as [[k|] [Hk E]]; [|discriminate]. apply Nat.eqb_eq in E. subst k.
    unfold activeSlots in Hk. apply in_flat_map in Hk. destruct Hk as [name [_ Hk]].
    apply In_activeOnEdge in Hk. destruct Hk as [s' [Hs' [Efst [_ Hcorner]]]].
    assert (s' = s).
    { apply (NoDup_map_eq fst loop); [apply indexed_NoDup | assumption..]. }
    subst s'. now apply Hcorner.
Qed.

(** X18: on a perimeter grid of at least two columns and two rows the slots
    that receive items are cells of the boundary of the grid, no two of them
    the same cell; with [excludeCorners] none of them is a corner cell; and
    the item of index i is written onto the i-th of these slots. *)
Theorem perimeter_slots_distinct (components : list LayoutComponent)
    (options : LayoutOptions) :
  let f := perimeterFlags options in
  let N := Z.of_nat (List.length components) in
  let maxC := pfColumns f - 1 in
  let maxR := effectiveRows f N - 1 in
  let path := map snd (perimeterFinalPath options N) in
  1 <= maxC -> 1 <= maxR ->
  NoDup (map slotCell path) /\
  Forall (fun s => 0 <= r s <= maxR /\ 0 <= c s <= maxC /\
                   (r s = 0 \/ r s = maxR \/ c s = 0 \/ c s = maxC)) path /\
  (pfExcludeCorners f = true ->
   Forall (fun s => ~ atCorner maxC maxR (slotCell s)) path) /\
  (components <> [] ->
   forall place i child s,
     nth_error components i = Some child -> nth_error path i = Some s ->
     nth_error (perimeterPlaced place components options) i = Some (place s child)).
Proof.
  intros f N maxC maxR path HC HR.
  split; [|split; [|split]].
  - unfold path, perimeterFinalPath. fold f N maxC maxR.
    set (loop := indexed (buildLoop (pfPriorityRows f) maxC maxR)).
    rewrite map_map.
    match goal with |- context [filter _ ?p] => set (full := p) end.
    apply NoDup_map_filter.
    assert (Hperm : Permutation loop full).
    { unfold full. destruct (JS.streq _ _).
      - eapply Permutation_trans; [apply rotateLoop_perm | apply counterClockwise_perm].
      - apply rotateLoop_perm. }
    eapply Permutation_NoDup; [apply Permutation_map; exact Hperm|].
    rewrite <- map_map. unfold loop. rewrite map_snd_indexed.
    now apply buildLoop_cells_NoDup.
  - apply Forall_forall. intros s Hs. unfold path in Hs.
    apply in_map_iff in Hs. destruct Hs as [ref [<- Href]].
    apply In_perimeterFinalPath in Href. destruct Href as [Hloop _].
    apply (In_buildLoop _ maxC maxR) in Hloop; [|lia..]. fold f maxC maxR in Hloop. lia.
  - intros Hexcl. apply Forall_forall. intros s Hs. unfold path in Hs.
    apply in_map_iff in Hs. destruct Hs as [ref [<- Href]].
    apply In_perimeterFinalPath in Href. destruct Href as [Hloop Hflag].
    apply (In_buildLoop _ maxC maxR) in Hloop; [|lia..]. fold f maxC maxR in Hloop.
    destruct Hloop as (_ & _ & _ & Hcorner). intros Hat.
    specialize (Hcorner Hat). specialize (Hflag Hexcl). congruence.
  - intros Hne place i child s Hi Hs. unfold perimeterPlaced. fold f N.
    assert (E : (N =? 0) || (pfColumns f <=? 0) = false).
    { apply orb_false_iff. split; [apply Z.eqb_neq | apply Z.leb_gt; lia].
      unfold N. destruct components; [congruence | cbn; lia]. }
    rewrite E. unfold path in Hs. rewrite nth_error_map in Hs. revert Hs.
    match goal with |- context [option_map snd ?x] =>
      destruct x as [ref|] eqn:Href end; cbn; [|discriminate].
    intros Hs. injection Hs as <-.
    now apply (placeAlong_within (fun s0 => place (snd s0))).
Qed.

Lemma perimeter_slots_distinct_witness :
  let components := repeat (box 10 10) 10 in
  let options := withColumns 4 (withRows 3 noOptions) in
  let f := perimeterFlags options in
  1 <= pfColumns f - 1 /\ 1 <= effectiveRows f 10 - 1 /\
  NoDup (map slotCell (map snd (perimeterFinalPath options 10))).
Proof.
  cbv zeta. split; [discriminate|]. split; [discriminate|].
  apply (perimeter_slots_distinct (repeat (box 10 10) 10)
           (withColumns 4 (withRows 3 noOptions))); discriminate.
Defined.

(** ** Flex wrap *)







(** ** Masonry *)

Lemma setNth_length {A} (d a : A) : forall (k : nat) (l : list A),
  (k < List.length l)%nat -> List.length (setNth d k a l) = List.length l.
Proof.
  induction k as [|k IH]; intros [|h t] Hk; cbn in *; try lia.
  rewrite IH; lia.
Qed.

Lemma nth_setNth {A} (d a : A) : forall (k i : nat) (l : list A),
  (k < List.length l)%nat ->
  nth i (setNth d k a l) d = if Nat.eqb i k then a else nth i l d.
Proof.
  induction k as [|k IH]; intros i [|h t] Hk; cbn in Hk; try lia.
  - destruct i; reflexivity.
  - destruct i as [|i]; cbn; [reflexivity|]. apply IH. lia.
Qed.

Lemma seq_sorted : forall (n lo : nat), StronglySorted lt (seq lo n).
Proof.
  induction n as [|n IH]; intros lo; cbn; [constructor|].
  constructor; [apply IH|].
  apply Forall_forall. intros x Hx. apply in_seq in Hx. lia.
Qed.

Lemma shortestColumn_fold (heights : list Q) : forall (candidates : list nat) (start : nat),
  StronglySorted lt (start :: candidates) ->
  let k := fold_left (fun best i =>
                        if JS.Qgtb (nth best heights 0%Q) (nth i heights 0%Q)
                        then i else best) candidates start in
  In k (start :: candidates) /\
  Forall (fun i => (nth k heights 0 <= nth i heights 0)%Q) (start :: candidates) /\
  Forall (fun i => (i < k)%nat -> (nth k heights 0 < nth i heights 0)%Q)
         (start :: candidates).
Proof.
  induction candidates as [|i more IH]; intros start Hsorted; cbn [fold_left]; cbv zeta.
  - split; [now left|]. split; constructor; try constructor; [apply Qle_refl | lia].
  - inversion Hsorted as [|? ? Hmore Hstart]; subst.
    inversion Hstart as [|? ? Hsi Hsmore]; subst.
    destruct (JS.Qgtb (nth start heights 0%Q) (nth i heights 0%Q)) eqn:E.
    + apply Qgtb_true_lt in E. destruct (IH i Hmore) as (Hin & Hle & Hfirst).
      split; [now right|].
      assert (Hki : (nth (fold_left
                (fun best i0 => if JS.Qgtb (nth best heights 0%Q) (nth i0 heights 0%Q)
                                then i0 else best) more i) heights 0
                     <= nth i heights 0)%Q)
        by (inversion Hle; assumption).
      split; constructor; try assumption.
      * apply Qlt_le_weak. eapply Qle_lt_trans; eassumption.
      * intros _. eapply Qle_lt_trans; eassumption.
    + apply Qgtb_false_le in E.
      assert (Hsorted' : StronglySorted lt (start :: more))
        by (constructor; [now inversion Hmore | exact Hsmore]).
      destruct (IH start Hsorted') as (Hin & Hle & Hfirst).
      split; [destruct Hin as [<- | Hin]; [now left | right; now right]|].
      inversion Hle as [|? ? Hks Hkmore]; subst.
      inversion Hfirst as [|? ? Hfs Hfmore]; subst.
      split; constructor; try assumption.
      * constructor; [eapply Qle_trans; eassumption | exact Hkmore].
      * constructor; [|exact Hfmore]. intros Hik.
        eapply Qlt_le_trans; [apply Hfs; lia | exact E].
Qed.

(** X20: the column that the masonry layout picks for the next item is the
    first column of least height: no column is lower, and every column
    before it is strictly higher. *)
Theorem shortest_column_is_lowest (columnHeights : list Q) :
  columnHeights <> [] ->
  let k := shortestColumn columnHeights in
  (k < List.length columnHeights)%nat /\
  (forall i, (i < List.length columnHeights)%nat ->
             (nth k columnHeights 0 <= nth i columnHeights 0)%Q) /\
  (forall i, (i < k)%nat -> (nth k columnHeights 0 < nth i columnHeights 0)%Q).
Proof.
  intros Hne k.
  assert (Hlen : (0 < List.length columnHeights)%nat)
    by (destruct columnHeights; [congruence | cbn; lia]).
  assert (Hsorted : StronglySorted lt (0%nat :: seq 1 (List.length columnHeights - 1))).
  { apply (seq_sorted (S (List.length columnHeights - 1)) 0). }
  destruct (shortestColumn_fold columnHeights _ _ Hsorted) as (Hin & Hle & Hfirst).
  fold (shortestColumn columnHeights) in Hin, Hle, Hfirst. fold k in Hin, Hle, Hfirst.
  assert (Hmem : forall i, (i < List.length columnHeights)%nat ->
                           In i (0%nat :: seq 1 (List.length columnHeights - 1))).
  { intros [|i] Hi; [now left | right; apply in_seq; lia]. }
  assert (Hk : (k < List.length columnHeights)%nat).
  { destruct Hin as [<- | Hin]; [exact Hlen | apply in_seq in Hin; lia]. }
  rewrite Forall_forall in Hle, Hfirst.
  split; [exact Hk|]. split.
  - intros i Hi. apply Hle. now apply Hmem.
  - intros i Hi. apply Hfirst; [apply Hmem; lia | exact Hi].
Qed.

Lemma shortest_column_is_lowest_witness :
  let heights := [3; 1; 2; 1]%Q in
  heights <> [] /\ (shortestColumn heights < List.length heights)%nat.
Proof.
  cbv zeta. split; [discriminate|].
  apply (shortest_column_is_lowest [3; 1; 2; 1]%Q). discriminate.
Defined.

Lemma setNth_Forall {A} (P : A -> Prop) (d a : A) : forall (k : nat) (l : list A),
  (k < List.length l)%nat -> P a -> Forall P l -> Forall P (setNth d k a l).
Proof.
  induction k as [|k IH]; intros [|h t] Hk Ha Hl; cbn in Hk |- *; try lia;
    inversion Hl; subst; constructor; try assumption.
  apply IH; [lia | assumption..].
Qed.

Lemma ForallOrdPairs_snoc {A} (R : A -> A -> Prop) (a : A) : forall l,
  ForallOrdPairs R l -> Forall (fun x => R x a) l -> ForallOrdPairs R (l ++ [a]).
Proof.
  induction 1 as [|x l Hx Hl IH]; intros Hall; cbn.
  - repeat constructor.
  - inversion Hall; subst. constructor; [|now apply IH].
    apply Forall_app. split; [exact Hx | now constructor].
Qed.

Lemma fold_Qmax_ge (l : list Q) : forall a,
  (a <= fold_left JS.Qmax l a)%Q /\
  Forall (fun h => (h <= fold_left JS.Qmax l a)%Q) l.
Proof.
  induction l as [|h t IH]; intros a; cbn [fold_left].
  - split; [apply Qle_refl | constructor].
  - destruct (IH (JS.Qmax a h)) as [Hle Hall]. split.
    + eapply Qle_trans; [apply Qmax_ge_l | exact Hle].
    + constructor; [|exact Hall]. eapply Qle_trans; [apply Qmax_ge_r | exact Hle].
Qed.

Lemma nth_le_maxOf (heights : list Q) (i : nat) :
  (i < List.length heights)%nat -> (nth i heights 0 <= maxOf heights)%Q.
Proof.
  destruct heights as [|h t]; cbn [List.length maxOf]; [lia|]. intros Hi.
  destruct (fold_Qmax_ge t h) as [Hle Hall].
  destruct i as [|i]; cbn [nth]; [exact Hle|].
  rewrite Forall_forall in Hall. apply Hall. apply nth_In. lia.
Qed.

Lemma half_sum (h : Q) : (h / 2 + h / 2 == h)%Q.
Proof. field. Qed.

Lemma masonryStep_invariant options cs (n : nat) processed st child :
  (0 <= layoutHeight options child + cellRowGap cs)%Q ->
  (0 < n)%nat ->
  masonryInvariant options cs n processed st ->
  masonryInvariant options cs n (processed ++ [child]) (masonryStep options cs st child).
Proof.
  destruct st as [heights placed]. unfold masonryInvariant, masonryStep.
  intros Hgrow Hn (Hlen & Hpos & Hsame & Hcols & Hpairs).
  assert (Hne : heights <> []) by (destruct heights; [cbn in Hlen; lia | discriminate]).
  destruct (shortestColumn_fold heights (seq 1 (List.length heights - 1)) 0%nat
              (seq_sorted (S (List.length heights - 1)) 0)) as (Hin & _ & _).
  fold (shortestColumn heights) in Hin.
  set (k := shortestColumn heights) in *.
  assert (Hk : (k < List.length heights)%nat).
  { destruct Hin as [<- | Hin]; [lia | apply in_seq in Hin; lia]. }
  set (h := layoutHeight options child) in *.
  set (top := nth k heights 0%Q).
  assert (Htop : (0 <= top)%Q).
  { rewrite Forall_forall in Hpos. apply Hpos. apply nth_In. exact Hk. }
  set (p := setPosition child
              (inject_Z (Z.of_nat k) * cellWidth cs + maxChildWidth cs / 2)
              (top + h / 2)).
  assert (Hp_top : (topOf options p == top)%Q).
  { unfold topOf, p, setPosition, layoutHeight. cbn. fold (layoutHeight options child). fold h.
    set (x := (h / 2)%Q). lra. }
  assert (Hp_bottom : (bottomOf options p + cellRowGap cs == top + (h + cellRowGap cs))%Q).
  { unfold bottomOf, p, setPosition, layoutHeight. cbn. fold (layoutHeight options child). fold h.
    pose proof (half_sum h). set (x := (h / 2)%Q) in *. lra. }
  assert (Hgrown : forall i, (nth i heights 0
                              <= nth i (setNth 0%Q k (top + (h + cellRowGap cs)) heights) 0)%Q).
  { intros i. rewrite nth_setNth by exact Hk.
    destruct (Nat.eqb i k) eqn:E; [|apply Qle_refl].
    apply Nat.eqb_eq in E. subst i. fold top. lra. }
  split; [|split; [|split; [|split]]].
  - rewrite setNth_length; assumption.
  - apply setNth_Forall; [exact Hk | lra | exact Hpos].
  - apply Forall2_app; [exact Hsame|]. constructor; [reflexivity | constructor].
  - apply Forall_app. split.
    + eapply Forall_impl; [|exact Hcols]. cbv beta.
      intros q (kq & Hkq & Hx & Hq_top & Hq_bottom).
      exists kq. repeat split; try assumption.
      eapply Qle_trans; [exact Hq_bottom | apply Hgrown].
    + constructor; [|constructor]. exists k. split; [lia|]. split; [reflexivity|].
      split; [rewrite Hp_top; exact Htop|].
      rewrite nth_setNth by exact Hk. rewrite Nat.eqb_refl. rewrite Hp_bottom. apply Qle_refl.
  - intros Hcw. apply ForallOrdPairs_snoc; [now apply Hpairs|].
    eapply Forall_impl; [|exact Hcols]. cbv beta.
    intros q (kq & Hkq & Hx & Hq_top & Hq_bottom) Hsamex.
    assert (Ek : kq = k).
    { rewrite Hx in Hsamex. unfold p, setPosition in Hsamex. cbn in Hsamex.
      set (m := (maxChildWidth cs / 2)%Q) in *.
      assert (E' : ((inject_Z (Z.of_nat kq) - inject_Z (Z.of_nat k)) * cellWidth cs == 0)%Q)
        by nra.
      apply Qmult_integral in E'. destruct E' as [E' | E']; [|contradiction].
      assert (E2 : (inject_Z (Z.of_nat kq) == inject_Z (Z.of_nat k))%Q) by lra.
      unfold Qeq in E2. cbn in E2. lia. }
    subst kq. rewrite Hp_top. exact Hq_bottom.
Qed.

Lemma masonryFold_invariant options cs (n : nat) : forall components processed st,
  Forall (fun child => (0 <= layoutHeight options child + cellRowGap cs)%Q) components ->
  (0 < n)%nat ->
  masonryInvariant options cs n processed st ->
  masonryInvariant options cs n (processed ++ components)
                   (fold_left (masonryStep options cs) components st).
Proof.
  induction components as [|child rest IH]; intros processed st Hall Hn Hinv; cbn [fold_left].
  - now rewrite app_nil_r.
  - inversion Hall; subst.
    replace (processed ++ child :: rest) with ((processed ++ [child]) ++ rest)
      by (rewrite <- app_assoc; reflexivity).
    apply IH; [assumption | exact Hn|]. now apply masonryStep_invariant.
Qed.

(** X21: with C > 0 columns and items that, with the row gap, have a
    non-negative height, on inputs on which the arithmetic of the code is
    exact (sizes and gaps that are integers of magnitude at most 2^20, at
    most 2^20 items and columns), the masonry layout returns the items at
    new positions (nothing else of an item changes), every item lies between
    the top and the bottom of the returned box, and, when the cell width is
    not zero, two items with the same x (the same column) never overlap: the
    earlier one ends at least the row gap above the later one. *)
Theorem masonry_columns (components : list LayoutComponent) (options : LayoutOptions) :
  let C := JS.default 3 (columns options) in
  let cs := _calculateGridCellSize components options in
  0 < C ->
  smallCount C -> smallCount (Z.of_nat (List.length components)) ->
  exactCell cs -> Forall (exactItem options) components ->
  Forall (fun child => (0 <= layoutHeight options child + cellRowGap cs)%Q) components ->
  exists placed b,
    _layoutMasonry components options = Some (placed, b) /\
    Forall2 (fun child p => p = setPosition child (vx (position p)) (vy (position p)))
            components placed /\
    Forall (fun p => (minY b <= topOf options p)%Q /\
                     (bottomOf options p <= maxY b)%Q) placed /\
    (~ (cellWidth cs == 0)%Q ->
     ForallOrdPairs (fun p q => (vx (position p) == vx (position q))%Q ->
                                (bottomOf options p + cellRowGap cs <= topOf options q)%Q)
                    placed).
Proof.
  intros C cs HC _ _ _ _ Hall.
  destruct components as [|c0 rest].
  - exists [], zeroBounds. repeat split; constructor.
  - set (components := c0 :: rest) in *.
    assert (HC0 : (C <=? 0) = false) by (apply Z.leb_gt; lia).
    assert (Hinit : masonryInvariant options cs (Z.to_nat C) []
                      (repeat 0%Q (Z.to_nat C), [])).
    { unfold masonryInvariant. split; [apply repeat_length|].
      split; [apply Forall_forall; intros x Hx; apply repeat_spec in Hx; subst; lra|].
      repeat split; constructor. }
    pose proof (masonryFold_invariant options cs (Z.to_nat C) components [] _ Hall
                  ltac:(lia) Hinit) as Hinv.
    cbn [app] in Hinv.
    unfold _layoutMasonry. fold C. rewrite HC0. fold components cs.
    destruct (fold_left (masonryStep options cs) components (repeat 0%Q (Z.to_nat C), []))
      as [heights placed].
    unfold masonryInvariant in Hinv. destruct Hinv as (Hlen & Hpos & Hsame & Hcols & Hpairs).
    eexists _, _. split; [reflexivity|]. split; [exact Hsame|]. split; [|exact Hpairs].
    eapply Forall_impl; [|exact Hcols]. cbv beta.
    intros q (kq & Hkq & Hx & Hq_top & Hq_bottom). cbn [minY maxY].
    split; [exact Hq_top|].
    pose proof (nth_le_maxOf heights kq ltac:(lia)) as Hmax. lra.
Qed.

Lemma masonry_columns_witness :
  let components := [box 10 30; box 10 10; box 10 20; box 10 10; box 10 5] in
  let options := withColumns 2 noOptions in
  0 < JS.default 3 (columns options) /\
  exists placed b, _layoutMasonry components options = Some (placed, b).
Proof.
  cbv zeta. split; [reflexivity|].
  destruct (masonry_columns [box 10 30; box 10 10; box 10 20; box 10 10; box 10 5]
              (withColumns 2 noOptions) eq_refl) as (placed & b & Hrun & _).
  - unfold smallCount. cbn. lia.
  - unfold smallCount. cbn. lia.
  - repeat split; reflexivity.
  - repeat constructor; reflexivity.
  - repeat constructor; discriminate.
  - exists placed, b. exact Hrun.
Defined.

(** ** The capacity of the perimeter grid *)

Lemma perimeter_auto_rows_capacity_aux (f : PerimeterFlags) (N : Z) :
  0 < pfColumns f -> 0 <= N -> pfAutoRows f = true ->
  N <= totalPerimeterCapacity f N.
Proof.
  intros Hcols HN Hauto. destruct f as [cols rws auto excl prio eq].
  cbn [pfColumns pfAutoRows] in Hcols, Hauto. subst auto.
  destruct excl, prio;
    cbv [totalPerimeterCapacity perimeterCaps edgeTotal effectiveRows
         pfColumns pfRows pfAutoRows pfExcludeCorners pfPriorityRows
         setEdge Edge_eqb noBudget JS.ceilDiv];
    Z.to_euclidean_division_equations; lia.
Qed.

(** X22: with [autoRows] the perimeter grid is made high enough for every
    item: whenever the call gets past its guard (columns > 0), the total
    capacity of the four edges is at least the number of items, so the edge
    budgets add up to the number of items, whatever [excludeCorners],
    [priorityDirection], [equalDistribution] and [rows] are. *)
Theorem perimeter_auto_rows_capacity (components : list LayoutComponent)
    (options : LayoutOptions) :
  let f := perimeterFlags options in
  let N := Z.of_nat (List.length components) in
  0 < pfColumns f -> pfAutoRows f = true ->
  N <= totalPerimeterCapacity f N /\
  edgeTotal (perimeterBudgets f N) = N.
Proof.
  intros f N Hcols Hauto.
  assert (HN : 0 <= N) by (unfold N; lia).
  pose proof (perimeter_auto_rows_capacity_aux f N Hcols HN Hauto) as Hcap.
  split; [exact Hcap|].
  destruct (perimeterBudgets_spec f N Hcols HN) as [_ Hsum]. lia.
Qed.

Lemma perimeter_auto_rows_capacity_witness :
  let components := repeat (box 10 10) 23 in
  let options := withAutoRows (withColumns 4 noOptions) in
  let f := perimeterFlags options in
  0 < pfColumns f /\ pfAutoRows f = true /\
  edgeTotal (perimeterBudgets f 23) = 23.
Proof.
  cbv zeta. split; [reflexivity|]. split; [reflexivity|].
  apply (perimeter_auto_rows_capacity (repeat (box 10 10) 23)
           (withAutoRows (withColumns 4 noOptions))); reflexivity.
Defined.

(** ** How many items the perimeter grid places *)

Lemma filter_indexed_length (q : PathSlot -> bool) (loop : list PathSlot) :
  List.length (filter (fun s : SlotRef => q (snd s)) (indexed loop))
  = List.length (filter q loop).
Proof.
  unfold indexed. generalize 0%nat.
  induction loop as [|a l IH]; intros k; cbn; [reflexivity|].
  destruct (q a); cbn; now rewrite IH.
Qed.

Lemma filter_map_length {A B} (q : B -> bool) (g : A -> B) (l : list A) :
  List.length (filter q (map g l)) = List.length (filter (fun x => q (g x)) l).
Proof.
  induction l as [|a l IH]; cbn; [reflexivity|]. destruct (q (g a)); cbn; now rewrite IH.
Qed.

Lemma filter_rev_length {A} (q : A -> bool) (l : list A) :
  List.length (filter q (rev l)) = List.length (filter q l).
Proof.
  induction l as [|a l IH]; cbn; [reflexivity|].
  rewrite filter_app, length_app, IH. cbn. destruct (q a); cbn; lia.
Qed.

Lemma filter_const_length {A} (q : A -> bool) (b : bool) (l : list A) :
  (forall x, In x l -> q x = b) ->
  List.length (filter q l) = if b then List.length l else 0%nat.
Proof.
  induction l as [|a l IH]; intros Hq; cbn; [now destruct b|].
  rewrite (Hq a) by now left.
  assert (IH' := IH (fun x Hx => Hq x (or_intror Hx))).
  destruct b; cbn; now rewrite IH'.
Qed.

Lemma range_ends (hi : Z) :
  1 <= hi -> range 0 (hi + 1) = 0 :: range 1 hi ++ [hi].
Proof.
  intros Hhi. unfold range.
  replace (Z.to_nat (hi + 1 - 0)) with (S (Z.to_nat (hi - 1) + 1)) by lia.
  cbn [seq map]. f_equal. rewrite seq_app, map_app. cbn [seq map].
  rewrite <- seq_shift, map_map. f_equal; [apply map_ext; intros a; lia|].
  f_equal. lia.
Qed.

Lemma edgeSlots_filter (excl : bool) (loop : list SlotRef) (name : Edge) :
  edgeSlots excl loop name
  = filter (fun s : SlotRef =>
              Edge_eqb (edge (snd s)) name && (if excl then negb (isCorner (snd s)) else true))
           loop.
Proof.
  unfold edgeSlots. destruct excl.
  - induction loop as [|a l IH]; cbn; [reflexivity|].
    destruct (Edge_eqb (edge (snd a)) name); cbn; [|exact IH].
    destruct (negb (isCorner (snd a))); cbn; now rewrite IH.
  - apply filter_ext. intros a. now rewrite andb_true_r.
Qed.
Lemma count_row (p : Z -> bool) (b0 bm b1 : bool) (hi : Z) :
  1 <= hi -> p 0 = b0 -> p hi = b1 -> (forall x, 1 <= x < hi -> p x = bm) ->
  Z.of_nat (List.length (filter p (range 0 (hi + 1))))
  = (if b0 then 1 else 0) + (if bm then hi - 1 else 0) + (if b1 then 1 else 0).
Proof.
  intros Hhi H0 H1 Hm. rewrite (range_ends hi Hhi). cbn [filter].
  rewrite filter_app. cbn [filter]. rewrite H0, H1.
  assert (Hmid : List.length (filter p (range 1 hi))
                 = if bm then List.length (range 1 hi) else 0%nat).
  { apply filter_const_length. intros x Hx. apply In_range in Hx. now apply Hm. }
  rewrite range_length in Hmid.
  destruct b0, bm, b1; cbn [List.length]; rewrite ?length_app, Hmid; cbn [List.length]; lia.
Qed.

Lemma count_side (p : Z -> bool) (b : bool) (lo hi : Z) :
  (forall x, lo <= x < hi -> p x = b) ->
  Z.of_nat (List.length (filter p (range lo hi))) = if b then Z.max 0 (hi - lo) else 0.
Proof.
  intros Hp.
  rewrite (filter_const_length p b) by (intros x Hx; apply In_range in Hx; now apply Hp).
  rewrite range_length. destruct b; lia.
Qed.

Lemma edgeSlots_count (f : PerimeterFlags) (N : Z) (e : Edge) :
  let maxC := pfColumns f - 1 in
  let maxR := effectiveRows f N - 1 in
  1 <= maxC -> 1 <= maxR ->
  Z.of_nat (List.length (edgeSlots (pfExcludeCorners f)
                           (indexed (buildLoop (pfPriorityRows f) maxC maxR)) e))
  = perimeterCaps f N e.
Proof.
  intros maxC maxR HC HR.
  rewrite edgeSlots_filter.
  rewrite (filter_indexed_length
             (fun s => Edge_eqb (edge s) e &&
                       (if pfExcludeCorners f then negb (isCorner s) else true))).
  unfold buildLoop. rewrite filter_map_length, !filter_app, !length_app.
  rewrite !filter_map_length, !filter_rev_length, !Nat2Z.inj_add.
  assert (E0 : (maxC =? 0) = false) by (apply Z.eqb_neq; lia).
  assert (E1 : (0 =? maxC) = false) by (apply Z.eqb_neq; lia).
  assert (Emid : forall x, 1 <= x < maxC -> (x =? 0) = false /\ (x =? maxC) = false)
    by (intros x Hx; split; apply Z.eqb_neq; lia).
  assert (Hcaps : perimeterCaps f N e
                  = perimeterCaps f N e) by reflexivity.
  unfold perimeterCaps at 2 in Hcaps. fold maxR in Hcaps.
  replace (effectiveRows f N) with (maxR + 1) in Hcaps by (unfold maxR; lia).
  replace (pfColumns f) with (maxC + 1) in Hcaps by (unfold maxC; lia).
  rewrite Hcaps. clear Hcaps. clearbody maxC maxR.
  destruct (pfPriorityRows f), (pfExcludeCorners f), e;
    (erewrite (count_row _ _ _ _ maxC HC);
     [ | cbn; rewrite ?Z.eqb_refl, ?E0, ?E1; reflexivity
       | cbn; rewrite ?Z.eqb_refl, ?E0, ?E1; reflexivity
       | intros x Hx; destruct (Emid x Hx) as [Ea Eb]; cbn; rewrite ?Ea, ?Eb; reflexivity ]);
    (erewrite (count_side _ _ 1 maxR);
     [ | intros x Hx; cbn; rewrite ?Z.eqb_refl, ?E0, ?E1; reflexivity ]);
    (erewrite (count_row _ _ _ _ maxC HC);
     [ | cbn; rewrite ?Z.eqb_refl, ?E0, ?E1; reflexivity
       | cbn; rewrite ?Z.eqb_refl, ?E0, ?E1; reflexivity
       | intros x Hx; destruct (Emid x Hx) as [Ea Eb]; cbn; rewrite ?Ea, ?Eb; reflexivity ]);
    (erewrite (count_side _ _ 1 maxR);
     [ | intros x Hx; cbn; rewrite ?Z.eqb_refl, ?E0, ?E1; reflexivity ]);
    cbv [setEdge Edge_eqb noBudget];
    (destruct maxC as [|pc|pc]; [lia | | lia]);
    cbv beta iota delta [andb orb negb]; lia.
Qed.
Lemma slotAt_nth (slots : list SlotRef) (d : SlotRef) (j : Z) :
  0 <= j < Z.of_nat (List.length slots) ->
  slotAt slots j = Some (fst (nth (Z.to_nat j) slots d)).
Proof.
  intros Hj. unfold slotAt.
  assert (E : (j <? 0) = false) by (apply Z.ltb_ge; lia). rewrite E.
  rewrite (nth_error_nth' slots d) by lia. reflexivity.
Qed.

(** Indices that grow along a range pick that many different slots. *)
Lemma pick_slots (slots : list SlotRef) (g : Z -> Z) (lo hi : Z) :
  NoDup slots ->
  (forall i, lo <= i < hi -> 0 <= g i < Z.of_nat (List.length slots)) ->
  (forall i j, lo <= i -> i < j -> j < hi -> g i < g j) ->
  exists picked,
    map (fun i => slotAt slots (g i)) (range lo hi)
    = map (fun s : SlotRef => Some (fst s)) picked /\
    NoDup picked /\ incl picked slots /\
    List.length picked = Z.to_nat (hi - lo).
Proof.
  intros Hnd Hin Hmono.
  set (d := (0%nat, mkSlot 0 0 Top false) : SlotRef).
  exists (map (fun i => nth (Z.to_nat (g i)) slots d) (range lo hi)).
  split; [|split; [|split]].
  - rewrite map_map. apply map_ext_in. intros i Hi. apply In_range in Hi.
    apply slotAt_nth. now apply Hin.
  - apply NoDup_map_inj_in; [|apply range_NoDup].
    intros i j Hi Hj E. apply In_range in Hi. apply In_range in Hj.
    pose proof (Hin i Hi). pose proof (Hin j Hj).
    apply (proj1 (NoDup_nth slots d) Hnd) in E; [|lia..].
    destruct (Z.lt_trichotomy i j) as [Hlt | [Heq | Hgt]]; [|exact Heq|].
    + specialize (Hmono i j ltac:(lia) Hlt ltac:(lia)). lia.
    + specialize (Hmono j i ltac:(lia) Hgt ltac:(lia)). lia.
  - intros s Hs. apply in_map_iff in Hs. destruct Hs as [i [<- Hi]].
    apply In_range in Hi. pose proof (Hin i Hi). apply nth_In. lia.
  - now rewrite length_map, range_length.
Qed.

Lemma roundDiv_steps (count budget i j : Z) :
  1 < budget -> budget <= count -> 0 <= i -> i < j -> j < budget ->
  0 <= roundDiv (i * (count - 1)) (budget - 1) /\
  roundDiv (i * (count - 1)) (budget - 1) < roundDiv (j * (count - 1)) (budget - 1) /\
  roundDiv (j * (count - 1)) (budget - 1) < count.
Proof.
  intros Hb Hc Hi Hij Hj. unfold roundDiv.
  set (b := budget - 1). set (n := count - 1).
  assert (Hbpos : 0 < b) by (unfold b; lia).
  assert (Hbn : b <= n) by (unfold b, n; lia).
  assert (Hstep : 2 * (i * n) + b + 2 * b <= 2 * (j * n) + b) by nia.
  assert (Hlast : 2 * (j * n) + b < 2 * b * (n + 1)) by nia.
  split; [apply Z.div_pos; nia|]. split.
  - apply Z.lt_le_trans with ((2 * (i * n) + b + 2 * b) / (2 * b)).
    + replace (2 * (i * n) + b + 2 * b) with (2 * (i * n) + b + 1 * (2 * b)) by ring.
      rewrite Z.div_add by lia. lia.
    + apply Z.div_le_mono; lia.
  - replace count with (n + 1) by (unfold n; lia).
    apply Z.div_lt_upper_bound; lia.
Qed.

(** An edge whose budget does not exceed the number of its slots activates
    as many different slots as its budget. *)
Lemma activeOnEdge_picks (excl : bool) (align : string) (loop : list SlotRef)
    (budgets : EdgeTable) (name : Edge) :
  NoDup (map fst loop) ->
  0 <= budgets name <= Z.of_nat (List.length (edgeSlots excl loop name)) ->
  exists picked,
    activeOnEdge excl align loop budgets name
    = map (fun s : SlotRef => Some (fst s)) picked /\
    NoDup picked /\ incl picked (edgeSlots excl loop name) /\
    Z.of_nat (List.length picked) = budgets name.
Proof.
  intros Hnd Hb.
  assert (Hslots : NoDup (edgeSlots excl loop name)).
  { apply (NoDup_map_inv fst). rewrite edgeSlots_filter. now apply NoDup_map_filter. }
  change (activeOnEdge excl align loop budgets name) with
    (let budget := budgets name in
     if budget <=? 0 then [] else
     let slots := edgeSlots excl loop name in
     let count := Z.of_nat (List.length slots) in
     if count =? 0 then [] else
     if JS.streq align "justify-corners" && (1 <? count) && (1 <? budget) then
       map (fun i => slotAt slots (roundDiv (i * (count - 1)) (budget - 1))) (range 0 budget)
     else if JS.streq align "center" then
       let start := JS.floorDiv (count - budget) 2 in
       map (slotAt slots) (range start (start + budget))
     else if JS.streq align "end" then
       map (slotAt slots) (range (count - budget) count)
     else
       map (slotAt slots) (range 0 budget)).
  cbv zeta.
  set (slots := edgeSlots excl loop name) in *.
  set (count := Z.of_nat (List.length slots)) in *.
  set (budget := budgets name) in *.
  destruct (budget <=? 0) eqn:Eb; [apply Z.leb_le in Eb | apply Z.leb_gt in Eb].
  { exists []. repeat split; [constructor | intros s [] | cbn; lia]. }
  destruct (count =? 0) eqn:Ec; [apply Z.eqb_eq in Ec; lia | apply Z.eqb_neq in Ec].
  assert (Hfinish : forall (g : Z -> Z) lo hi,
    hi - lo = budget ->
    (forall i, lo <= i < hi -> 0 <= g i < count) ->
    (forall i j, lo <= i -> i < j -> j < hi -> g i < g j) ->
    exists picked,
      map (fun i => slotAt slots (g i)) (range lo hi)
      = map (fun s : SlotRef => Some (fst s)) picked /\
      NoDup picked /\ incl picked slots /\ Z.of_nat (List.length picked) = budget).
  { intros g lo hi Hlen Hin Hmono.
    destruct (pick_slots slots g lo hi Hslots Hin Hmono) as (picked & E & H1 & H2 & H3).
    exists picked. repeat split; try assumption. lia. }
  destruct (JS.streq align "justify-corners" && (1 <? count) && (1 <? budget)) eqn:Ej.
  - apply andb_true_iff in Ej. destruct Ej as [Ej Eb1]. apply Z.ltb_lt in Eb1.
    apply (Hfinish (fun i => roundDiv (i * (count - 1)) (budget - 1)) 0 budget); [lia | |].
    + intros i Hi. destruct (Z_lt_le_dec (i + 1) budget) as [Hlt | Hge].
      * destruct (roundDiv_steps count budget i (i + 1)) as (H1 & H2 & H3); lia.
      * destruct (roundDiv_steps count budget (i - 1) i) as (H1 & H2 & H3); lia.
    + intros i j Hi Hij Hj.
      destruct (roundDiv_steps count budget i j) as (H1 & H2 & H3); lia.
  - destruct (JS.streq align "center").
    + set (start := JS.floorDiv (count - budget) 2).
      assert (Hstart : 0 <= start /\ start + budget <= count).
      { unfold start, JS.floorDiv. Z.to_euclidean_division_equations. lia. }
      apply (Hfinish (fun i => i) start (start + budget)); [lia | intros; lia | intros; lia].
    + destruct (JS.streq align "end").
      * apply (Hfinish (fun i => i) (count - budget) count); [lia | intros; lia | intros; lia].
      * apply (Hfinish (fun i => i) 0 budget); [lia | intros; lia | intros; lia].
Qed.
Lemma In_edgeSlots (excl : bool) (loop : list SlotRef) (name : Edge) (s : SlotRef) :
  In s (edgeSlots excl loop name) -> In s loop /\ edge (snd s) = name.
Proof.
  rewrite edgeSlots_filter. intros H. apply filter_In in H. destruct H as [H E].
  split; [exact H|]. apply andb_true_iff in E. destruct E as [E _].
  destruct (edge (snd s)), name; cbn in E; congruence.
Qed.

Lemma isActive_picked (picked : list SlotRef) (s : SlotRef) :
  isActive (map (fun p : SlotRef => Some (fst p)) picked) s = true <->
  exists p, In p picked /\ fst p = fst s.
Proof.
  unfold isActive. rewrite existsb_exists. split.
  - intros [a [Ha E]]. apply in_map_iff in Ha. destruct Ha as [p [<- Hp]].
    apply Nat.eqb_eq in E. now exists p.
  - intros [p [Hp E]]. exists (Some (fst p)). split.
    + apply in_map_iff. now exists p.
    + now apply Nat.eqb_eq.
Qed.

(** The slots kept by the final filter are the picked ones. *)
Lemma filter_active_picked (loop path picked : list SlotRef) :
  NoDup (map fst loop) -> Permutation loop path ->
  NoDup picked -> incl picked loop ->
  Permutation (filter (isActive (map (fun p : SlotRef => Some (fst p)) picked)) path)
              picked.
Proof.
  intros Hnd Hperm Hpicked Hincl.
  assert (Hpath : NoDup path).
  { eapply Permutation_NoDup; [exact Hperm|]. now apply (NoDup_map_inv fst). }
  apply NoDup_Permutation; [now apply NoDup_filter | exact Hpicked|].
  intros s. rewrite filter_In, isActive_picked. split.
  - intros [Hs [p [Hp E]]].
    assert (p = s).
    { apply (NoDup_map_eq fst loop); [exact Hnd | now apply Hincl | | exact E].
      eapply Permutation_in; [apply Permutation_sym; exact Hperm | exact Hs]. }
    now subst.
  - intros Hs. split.
    + eapply Permutation_in; [exact Hperm | now apply Hincl].
    + now exists s.
Qed.

(** X23: a perimeter grid of at least two columns and two rows places
    exactly as many items as its edges are budgeted, min(N, capacity): the
    final path has that many slots (different boundary cells, by X18), each
    of the first min(N, capacity) items is written onto its slot, and with
    [autoRows] every item is placed. *)
Theorem perimeter_places_budgeted_items (components : list LayoutComponent)
    (options : LayoutOptions) :
  let f := perimeterFlags options in
  let N := Z.of_nat (List.length components) in
  let maxC := pfColumns f - 1 in
  let maxR := effectiveRows f N - 1 in
  let path := map snd (perimeterFinalPath options N) in
  1 <= maxC -> 1 <= maxR ->
  Z.of_nat (List.length path) = Z.min N (totalPerimeterCapacity f N) /\
  (pfAutoRows f = true -> List.length path = List.length components) /\
  (forall place i child,
     nth_error components i = Some child ->
     Z.of_nat i < totalPerimeterCapacity f N ->
     exists s, nth_error path i = Some s /\
               nth_error (perimeterPlaced place components options) i
               = Some (place s child)).
Proof.
  intros f N maxC maxR path HC HR.
  assert (HN : 0 <= N) by (unfold N; lia).
  assert (Hcols : 0 < pfColumns f) by (unfold maxC in HC; lia).
  destruct (perimeterBudgets_spec f N Hcols HN) as [Hbounds Hsum].
  set (budgets := perimeterBudgets f N) in *.
  set (excl := pfExcludeCorners f).
  set (align := JS.default "start"%string (overflowAlignment options)).
  set (loop := indexed (buildLoop (pfPriorityRows f) maxC maxR)).
  assert (Hnd : NoDup (map fst loop)) by apply indexed_NoDup.
  assert (Hpick : forall e, exists picked,
            activeOnEdge excl align loop budgets e
            = map (fun s : SlotRef => Some (fst s)) picked /\
            NoDup picked /\ incl picked (edgeSlots excl loop e) /\
            Z.of_nat (List.length picked) = budgets e).
  { intros e. apply activeOnEdge_picks; [exact Hnd|].
    assert (Hcount : Z.of_nat (List.length (edgeSlots excl loop e)) = perimeterCaps f N e)
      by exact (edgeSlots_count f N e HC HR).
    rewrite Hcount. apply Hbounds. }
  destruct (Hpick Top) as (pT & ET & NT & IT & LT).
  destruct (Hpick Right) as (pR & ER & NR & IR & LR).
  destruct (Hpick Bottom) as (pB & EB & NB & IB & LB).
  destruct (Hpick Left) as (pL & EL & NL & IL & LL).
  set (picked := pT ++ pR ++ pB ++ pL).
  assert (Hactive : activeSlots excl align loop budgets
                    = map (fun s : SlotRef => Some (fst s)) picked).
  { unfold activeSlots, picked. cbn [flat_map]. rewrite ET, ER, EB, EL, app_nil_r.
    now rewrite !map_app. }
  assert (Hedge : forall e p s, incl p (edgeSlots excl loop e) -> In s p ->
                                In s loop /\ edge (snd s) = e).
  { intros e p s Hp Hs. apply (In_edgeSlots excl loop e). now apply Hp. }
  assert (Hpicked : NoDup picked).
  { unfold picked. repeat apply NoDup_app; try assumption;
      intros s H1 H2; repeat (apply in_app_iff in H2; destruct H2 as [H2 | H2]);
      match goal with
      | Ha : incl ?p (edgeSlots excl loop ?e), Hb : incl ?q (edgeSlots excl loop ?e'),
        H1 : In s ?p, H2 : In s ?q |- _ =>
          destruct (Hedge e p s Ha H1) as [_ Ea];
          destruct (Hedge e' q s Hb H2) as [_ Eb]; congruence
      end. }
  assert (Hincl : incl picked loop).
  { unfold picked. intros s Hs.
    repeat (apply in_app_iff in Hs; destruct Hs as [Hs | Hs]);
      match goal with
      | Ha : incl ?p (edgeSlots excl loop ?e), H1 : In s ?p |- _ =>
          exact (proj1 (Hedge e p s Ha H1))
      end. }
  assert (Hlen : Z.of_nat (List.length (perimeterFinalPath options N)) = edgeTotal budgets).
  { unfold perimeterFinalPath. fold f maxC maxR budgets loop excl align.
    rewrite Hactive.
    match goal with |- context [filter _ ?p] => set (full := p) end.
    assert (Hperm : Permutation loop full).
    { unfold full. destruct (JS.streq _ _).
      - eapply Permutation_trans; [apply rotateLoop_perm | apply counterClockwise_perm].
      - apply rotateLoop_perm. }
    rewrite (Permutation_length (filter_active_picked loop full picked Hnd Hperm Hpicked Hincl)).
    unfold picked, edgeTotal. rewrite !length_app. lia. }
  assert (Hpath : Z.of_nat (List.length path) = Z.min N (totalPerimeterCapacity f N)).
  { unfold path. rewrite length_map. exact (eq_trans Hlen Hsum). }
  split; [exact Hpath|]. split.
  - intros Hauto.
    pose proof (perimeter_auto_rows_capacity_aux f N Hcols HN Hauto) as Hcap.
    apply Nat2Z.inj. fold N. lia.
  - intros place i child Hi Hcap.
    assert (HiN : Z.of_nat i < N).
    { unfold N. apply Nat2Z.inj_lt. apply nth_error_Some. congruence. }
    destruct (nth_error (perimeterFinalPath options N) i) as [ref|] eqn:Href.
    + exists (snd ref). split.
      * unfold path. rewrite nth_error_map. exact (f_equal (option_map snd) Href).
      * unfold perimeterPlaced. fold f N.
        assert (E : (N =? 0) || (pfColumns f <=? 0) = false).
        { apply orb_false_iff. split; [apply Z.eqb_neq | apply Z.leb_gt]; lia. }
        rewrite E. now apply (placeAlong_within (fun s0 => place (snd s0))).
    + apply nth_error_None in Href. unfold path in Hpath. rewrite length_map in Hpath. lia.
Qed.

Lemma perimeter_places_budgeted_items_witness :
  let components := repeat (box 10 10) 12 in
  let options := withColumns 4 (withRows 3 noOptions) in
  let f := perimeterFlags options in
  1 <= pfColumns f - 1 /\ 1 <= effectiveRows f 12 - 1 /\
  Z.of_nat (List.length (map snd (perimeterFinalPath options 12)))
  = Z.min 12 (totalPerimeterCapacity f 12).
Proof.
  cbv zeta. split; [discriminate|]. split; [discriminate|].
  apply (perimeter_places_budgeted_items (repeat (box 10 10) 12)
           (withColumns 4 (withRows 3 noOptions))); discriminate.
Defined.

(** ** Corner converge on grids without a degenerate shell *)

Lemma flat_map_shift {A B C} (f : B -> list C) (g : A -> B) (l : list A) :
  flat_map f (map g l) = flat_map (fun x => f (g x)) l.
Proof. induction l as [|a l IH]; cbn; [reflexivity | now rewrite IH]. Qed.

Lemma nth_row_tail (i : nat) : forall paths : list (list Cell),
  flat_map (fun p => match nth_error p (S i) with Some pos => [pos] | None => [] end) paths
  = flat_map (fun p => match nth_error p i with Some pos => [pos] | None => [] end)
             (map (@tl Cell) paths).
Proof.
  induction paths as [|p ps IH]; [reflexivity|].
  cbn [flat_map map]. rewrite IH.
  destruct p as [|x t]; cbn [tl nth_error]; [now rewrite nth_error_nil | reflexivity].
Qed.

Lemma roundRobin_rows_perm (n : nat) : forall paths : list (list Cell),
  Forall (fun p => (List.length p <= n)%nat) paths ->
  Permutation
    (flat_map (fun i =>
                 flat_map (fun p => match nth_error p i with
                                    | Some pos => [pos]
                                    | None => []
                                    end) paths)
              (seq 0 n))
    (List.concat paths).
Proof.
  induction n as [|n IH]; intros paths Hlen.
  - cbn. induction Hlen as [|p ps Hp Hps IHps]; cbn; [constructor|].
    destruct p; [exact IHps | cbn in Hp; lia].
  - cbn [seq flat_map]. rewrite <- seq_shift, flat_map_shift.
    rewrite (flat_map_ext _ _ (fun i => nth_row_tail i paths)).
    assert (Hlen' : Forall (fun p => (List.length p <= n)%nat) (map (@tl Cell) paths)).
    { apply Forall_map. eapply Forall_impl; [|exact Hlen]. cbv beta.
      intros [|x t] H; cbn in *; lia. }
    eapply Permutation_trans; [apply Permutation_app_head, IH, Hlen'|].
    clear. induction paths as [|p ps IHps]; cbn; [constructor|].
    destruct p as [|x t]; cbn; [exact IHps|].
    constructor. eapply Permutation_trans; [|apply Permutation_app_head, IHps].
    rewrite !app_assoc. apply Permutation_app_tail, Permutation_app_comm.
Qed.

Lemma roundRobin_perm (paths : list (list Cell)) :
  Permutation (roundRobin paths) (List.concat paths).
Proof.
  unfold roundRobin. apply roundRobin_rows_perm.
  induction paths as [|p ps IH]; cbn; constructor; [lia|].
  eapply Forall_impl; [|exact IH]. cbv beta. intros q Hq. lia.
Qed.

Lemma range_snoc (n : Z) : 0 <= n -> range 0 (n + 1) = range 0 n ++ [n].
Proof.
  intros Hn. unfold range.
  replace (Z.to_nat (n + 1 - 0)) with (S (Z.to_nat (n - 0))) by lia.
  rewrite seq_S, map_app. cbn. f_equal. f_equal. lia.
Qed.

Lemma removelast_leg (f : Z -> Cell) (n : Z) :
  0 <= n -> removelast (map f (range 0 (n + 1))) = map f (range 0 n).
Proof.
  intros Hn. rewrite (range_snoc n Hn), map_app. cbn [map]. apply removelast_last.
Qed.

(** The four legs of a shell of at least two rows and two columns are the
    cells of its ring, each once. *)
Lemma shell_ring (lo maxR maxC : Z) :
  lo < maxR -> lo < maxC ->
  let ring := roundRobin (shellPaths lo maxR lo maxC) in
  NoDup ring /\
  forall pos, In pos ring <->
    (insideShell lo maxR maxC pos /\ ~ insideShell (lo + 1) (maxR - 1) (maxC - 1) pos).
Proof.
  intros HR HC ring.
  assert (Hperm : Permutation ring (List.concat (shellPaths lo maxR lo maxC)))
    by apply roundRobin_perm.
  unfold shellPaths in Hperm.
  replace (maxC - lo + 1) with ((maxC - lo) + 1) in Hperm by lia.
  replace (maxR - lo + 1) with ((maxR - lo) + 1) in Hperm by lia.
  rewrite !removelast_leg in Hperm by lia. cbn [List.concat] in Hperm.
  rewrite app_nil_r in Hperm.
  set (legs := _ ++ _) in Hperm.
  assert (Hin : forall pos, In pos legs <->
            (insideShell lo maxR maxC pos /\
             ~ insideShell (lo + 1) (maxR - 1) (maxC - 1) pos)).
  { intros pos. unfold legs, insideShell. rewrite !in_app_iff, !in_map_iff. split.
    - intros [H | [H | [H | H]]]; destruct H as [i [<- Hi]]; apply In_range in Hi;
        cbn [cellR cellC]; lia.
    - destruct pos as [r0 c0]. cbn [cellR cellC]. intros [[Hr Hc] Hout].
      destruct (Z.eq_dec r0 lo) as [-> | Hr0].
      + destruct (Z.eq_dec c0 maxC) as [-> | Hc1].
        * right. left. exists 0. split; [f_equal; lia | apply In_range; lia].
        * left. exists (c0 - lo). split; [f_equal; lia | apply In_range; lia].
      + destruct (Z.eq_dec c0 maxC) as [-> | Hc1].
        * destruct (Z.eq_dec r0 maxR) as [-> | Hr1].
          -- right. right. left. exists 0. split; [f_equal; lia | apply In_range; lia].
          -- right. left. exists (r0 - lo). split; [f_equal; lia | apply In_range; lia].
        * destruct (Z.eq_dec r0 maxR) as [-> | Hr1].
          -- destruct (Z.eq_dec c0 lo) as [-> | Hc0].
             ++ right. right. right. exists 0. split; [f_equal; lia | apply In_range; lia].
             ++ right. right. left. exists (maxC - c0).
                split; [f_equal; lia | apply In_range; lia].
          -- right. right. right. exists (maxR - r0).
             split; [f_equal; lia | apply In_range; lia]. }
  assert (Hnd : NoDup legs).
  { unfold legs.
    assert (Hleg : forall (f : Z -> Cell) n,
              (forall a b, f a = f b -> a = b) -> NoDup (map f (range 0 n))).
    { intros f n Hf. apply NoDup_map_inj_in; [|apply range_NoDup]. intros a b _ _. apply Hf. }
    repeat apply NoDup_app;
      try (apply Hleg; intros a b E; injection E; lia).
    all: intros pos H1 H2;
      repeat (apply in_app_iff in H2; destruct H2 as [H2 | H2]);
      apply in_map_iff in H1; destruct H1 as [i1 [<- H1]];
      apply in_map_iff in H2; destruct H2 as [i2 [E2 H2]];
      apply In_range in H1; apply In_range in H2;
      injection E2 as E2a E2b; lia. }
  split.
  - eapply Permutation_NoDup; [apply Permutation_sym; exact Hperm | exact Hnd].
  - intros pos. rewrite <- Hin. split; apply Permutation_in;
      [exact Hperm | apply Permutation_sym; exact Hperm].
Qed.

(** The shell loop on a grid whose shorter side is even: no shell
    degenerates, the loop ends, and the cells it has generated are different
    cells of the grid, enough for every item. *)
Lemma convergeShells_even (N R C : Z) :
  0 < C -> 0 <= R -> N <= R * C ->
  forall (fuel : nat) (k m : Z) (final : list Cell),
  0 <= k -> 0 <= m -> Z.min R C - 2 * k = 2 * m -> m < Z.of_nat fuel ->
  NoDup final ->
  (forall pos, In pos final <->
     ((0 <= cellR pos < R /\ 0 <= cellC pos < C) /\
      ~ insideShell k (R - 1 - k) (C - 1 - k) pos)) ->
  exists positions,
    convergeShells fuel N k (R - 1 - k) k (C - 1 - k) final = Some positions /\
    NoDup positions /\
    Forall (fun pos => 0 <= cellR pos < R /\ 0 <= cellC pos < C) positions /\
    N <= Z.of_nat (List.length positions).
Proof.
  intros HC HR HN. induction fuel as [|fuel IH]; intros k m final Hk Hm Heven Hfuel Hnd Hin.
  - lia.
  - assert (Hgrid : Forall (fun pos => 0 <= cellR pos < R /\ 0 <= cellC pos < C) final).
    { apply Forall_forall. intros pos Hpos. now apply Hin in Hpos. }
    cbn [convergeShells].
    destruct ((Z.of_nat (List.length final) <? N)
              && (k <=? R - 1 - k) && (k <=? C - 1 - k)) eqn:Hloop.
    + apply andb_true_iff in Hloop. destruct Hloop as [Hloop H3].
      apply andb_true_iff in Hloop. destruct Hloop as [H1 H2].
      apply Z.ltb_lt in H1. apply Z.leb_le in H2. apply Z.leb_le in H3.
      assert (Hm1 : 1 <= m) by lia.
      destruct (shell_ring k (R - 1 - k) (C - 1 - k) ltac:(lia) ltac:(lia)) as [Hring_nd Hring].
      replace (R - 1 - k - 1) with (R - 1 - (k + 1)) in * by lia.
      replace (C - 1 - k - 1) with (C - 1 - (k + 1)) in * by lia.
      apply (IH (k + 1) (m - 1)); try lia.
      * apply NoDup_app; [exact Hnd | exact Hring_nd|].
        intros pos Hp Hq. apply Hin in Hp. apply Hring in Hq. tauto.
      * intros pos. rewrite in_app_iff, Hin, Hring. unfold insideShell. lia.
    + exists final. split; [reflexivity|]. split; [exact Hnd|]. split; [exact Hgrid|].
      apply andb_false_iff in Hloop. destruct Hloop as [Hloop | H3].
      * apply andb_false_iff in Hloop. destruct Hloop as [H1 | H2].
        -- apply Z.ltb_ge in H1. exact H1.
        -- apply Z.leb_gt in H2.
           assert (Hall : incl (gridCells C R) final).
           { intros pos Hpos. apply In_gridCells in Hpos. apply Hin.
             unfold insideShell. lia. }
           pose proof (NoDup_incl_length (gridCells_NoDup C R) Hall) as Hlen.
           pose proof (gridCells_length C R ltac:(lia) HR). lia.
      * apply Z.leb_gt in H3.
        assert (Hall : incl (gridCells C R) final).
        { intros pos Hpos. apply In_gridCells in Hpos. apply Hin.
          unfold insideShell. lia. }
        pose proof (NoDup_incl_length (gridCells_NoDup C R) Hall) as Hlen.
        pose proof (gridCells_length C R ltac:(lia) HR). lia.
Qed.

(** X24: on a grid whose shorter side is even the corner-converge layout
    has no degenerate shell: with C > 0 columns and min(totalRows, C) even,
    the shell loop ends and every item gets a cell of the grid of its own. *)
Theorem corner_converge_even_grids (components : list LayoutComponent)
    (options : LayoutOptions) :
  let C := JS.default 5 (columns options) in
  let N := List.length components in
  let totalRows := JS.ceilDiv (Z.of_nat N) C in
  let cs := _calculateGridCellSize components options in
  0 < C -> Z.even (Z.min totalRows C) = true ->
  exists cells placed b,
    _layoutSquareCornerConverge components options = Some (placed, b) /\
    List.length cells = N /\ NoDup cells /\
    Forall (fun pos => 0 <= cellR pos < totalRows /\ 0 <= cellC pos < C) cells /\
    placed = map (fun pc => placeInCell cs (fst pc) (snd pc)) (combine cells components).
Proof.
  intros C N totalRows cs HC Heven.
  destruct (ceilDiv_rows (Z.of_nat N) C HC (Nat2Z.is_nonneg N)) as (HR & HNR & _).
  fold totalRows in HR, HNR.
  apply Z.even_spec in Heven. destruct Heven as [m Hm].
  destruct (convergeShells_even (Z.of_nat N) totalRows C HC HR HNR
              (S (Z.to_nat totalRows)) 0 m []) as (positions & Hrun & Hnd & Hin & Hlen);
    try lia.
  - constructor.
  - intros pos. unfold insideShell. cbn [In]. lia.
  - replace (totalRows - 1 - 0) with (totalRows - 1) in Hrun by lia.
    replace (C - 1 - 0) with (C - 1) in Hrun by lia.
    destruct components as [|c0 rest].
    + exists [], [], zeroBounds. repeat split; constructor.
    + set (components := c0 :: rest) in *.
      assert (HC0 : (C =? 0) = false) by (apply Z.eqb_neq; lia).
      exists (firstn N positions). eexists _, _. split; [|split; [|split; [|split]]].
      * unfold _layoutSquareCornerConverge. fold C. rewrite HC0.
        fold components N. unfold cornerConvergePositions. fold totalRows.
        rewrite Hrun. reflexivity.
      * rewrite length_firstn. lia.
      * now apply NoDup_firstn.
      * apply Forall_forall. intros pos Hpos. apply In_firstn in Hpos.
        rewrite Forall_forall in Hin. now apply Hin.
      * fold cs. rewrite placeAlong_combine by (fold N; lia).
        unfold N. now rewrite combine_firstn_length.
Qed.

Lemma corner_converge_even_grids_witness :
  let components := repeat (box 10 10) 16 in
  let options := withColumns 4 noOptions in
  0 < JS.default 5 (columns options) /\
  exists (cells : list Cell) placed b,
    _layoutSquareCornerConverge components options = Some (placed, b) /\
    List.length cells = 16%nat /\ NoDup cells.
Proof.
  cbv zeta. split; [reflexivity|].
  destruct (corner_converge_even_grids (repeat (box 10 10) 16) (withColumns 4 noOptions)
              eq_refl eq_refl) as (cells & placed & b & Hrun & Hlen & Hnd & _).
  exists cells, placed, b. repeat split; assumption.
Defined.

(** ** Placed items and the returned box *)

Lemma cellSize_steps (components : list LayoutComponent) (options : LayoutOptions) :
  let cs := _calculateGridCellSize components options in
  cellWidth cs = (maxChildWidth cs + cellColumnGap cs)%Q /\
  cellHeight cs = (maxChildHeight cs + cellRowGap cs)%Q.
Proof.
  unfold _calculateGridCellSize. destruct (fixedSizeGiven options); cbn.
  - split; reflexivity.
  - destruct (maxChildSize components 0 0) as [mw mh]. cbn. split; reflexivity.
Qed.

(** In auto sizing, and in fixed sizing with both fixed sizes given, no item
    is larger than the content box of a cell. *)
Lemma layoutSize_le_max (components : list LayoutComponent) (options : LayoutOptions)
    (child : LayoutComponent) :
  let cs := _calculateGridCellSize components options in
  In child components -> useFixed options = fixedSizeGiven options ->
  (layoutWidth options child <= maxChildWidth cs)%Q /\
  (layoutHeight options child <= maxChildHeight cs)%Q.
Proof.
  intros cs Hin Hmode. unfold cs, _calculateGridCellSize, layoutWidth, layoutHeight.
  rewrite Hmode. destruct (fixedSizeGiven options); cbn.
  - split; apply Qle_refl.
  - destruct (maxChildSize components 0 0) as [mw mh] eqn:E. cbn.
    destruct (maxChildSize_spec components _ _ _ _ E) as (_ & (Hw & Hh) & _).
    rewrite Forall_forall in Hw, Hh. split; [now apply Hw | now apply Hh].
Qed.

Lemma cell_span (step content gap : Q) (k K : Z) (lo hi : Q) :
  (0 <= step)%Q -> step = (content + gap)%Q -> 0 <= k < K ->
  (inject_Z k * step <= lo)%Q -> (hi <= inject_Z k * step + content)%Q ->
  (0 <= lo)%Q /\ (hi <= inject_Z K * step - gap)%Q.
Proof.
  intros Hstep E Hk Hlo Hhi.
  assert (Ha : (0 <= inject_Z k)%Q) by (unfold Qle; cbn; lia).
  assert (Hd : (0 <= inject_Z (K - 1 - k))%Q) by (unfold Qle; cbn; lia).
  assert (Hsplit : (inject_Z K == inject_Z k + inject_Z (K - 1 - k) + 1)%Q)
    by (unfold Qeq, Qplus, inject_Z; cbn; lia).
  set (a := inject_Z k) in *. set (d := inject_Z (K - 1 - k)) in *.
  set (t := inject_Z K) in *. subst step.
  assert (Hprod : (0 <= a * (content + gap))%Q) by (apply Qmult_le_0_compat; assumption).
  assert (Hprod' : (0 <= d * (content + gap))%Q) by (apply Qmult_le_0_compat; assumption).
  split; [lra|]. rewrite Hsplit. nra.
Qed.

(** X25: the placement shared by the cell strategies, [position.set(c *
    cellWidth + maxChildWidth / 2, r * cellHeight + maxChildHeight / 2)],
    keeps an item within the box that these strategies return,
    [(0, 0)] to [(columns * cellWidth - columnGap, totalRows * cellHeight -
    rowGap)]: for every cell of the grid and every item of the collection,
    in auto sizing or with both fixed sizes given, when the cell steps are
    not negative, on inputs on which the arithmetic of the code is exact
    (sizes and gaps that are integers of magnitude at most 2^20, at most
    2^20 rows and columns). *)
Theorem cell_placement_within_bounds (components : list LayoutComponent)
    (options : LayoutOptions) (C R : Z) (pos : Cell) (child : LayoutComponent) :
  let cs := _calculateGridCellSize components options in
  In child components -> useFixed options = fixedSizeGiven options ->
  (0 <= cellWidth cs)%Q -> (0 <= cellHeight cs)%Q ->
  0 <= cellR pos < R -> 0 <= cellC pos < C ->
  smallCount C -> smallCount R -> exactCell cs -> exactItem options child ->
  let p := placeInCell cs pos child in
  let b := plainGridBounds cs C R in
  (minX b <= leftOf options p)%Q /\ (rightOf options p <= maxX b)%Q /\
  (minY b <= topOf options p)%Q /\ (bottomOf options p <= maxY b)%Q.
Proof.
  intros cs Hin Hmode Hcw Hch Hr Hc _ _ _ _ p b.
  destruct (cellSize_steps components options) as [Ew Eh]. fold cs in Ew, Eh.
  destruct (layoutSize_le_max components options child Hin Hmode) as [Hw Hh].
  fold cs in Hw, Hh.
  unfold leftOf, rightOf, topOf, bottomOf, p, b, placeInCell, plainGridBounds, setPosition,
    layoutWidth, layoutHeight in *.
  cbn [position vx vy width height minX minY maxX maxY] in *.
  set (w := if useFixed options then JS.default 0%Q (fixedWidth options) else width child) in *.
  set (h := if useFixed options then JS.default 0%Q (fixedHeight options) else height child) in *.
  pose proof (half_sum w) as Hw2. pose proof (half_sum (maxChildWidth cs)) as Hmw2.
  pose proof (half_sum h) as Hh2. pose proof (half_sum (maxChildHeight cs)) as Hmh2.
  set (w2 := (w / 2)%Q) in *. set (mw2 := (maxChildWidth cs / 2)%Q) in *.
  set (h2 := (h / 2)%Q) in *. set (mh2 := (maxChildHeight cs / 2)%Q) in *.
  destruct (cell_span (cellWidth cs) (maxChildWidth cs) (cellColumnGap cs) (cellC pos) C
              (inject_Z (cellC pos) * cellWidth cs + mw2 - w2)
              (inject_Z (cellC pos) * cellWidth cs + mw2 + w2) Hcw Ew Hc)
    as [Hx1 Hx2]; [lra | lra|].
  destruct (cell_span (cellHeight cs) (maxChildHeight cs) (cellRowGap cs) (cellR pos) R
              (inject_Z (cellR pos) * cellHeight cs + mh2 - h2)
              (inject_Z (cellR pos) * cellHeight cs + mh2 + h2) Hch Eh Hr)
    as [Hy1 Hy2]; [lra | lra|].
  repeat split; assumption.
Qed.

Lemma cell_placement_within_bounds_witness :
  let components := [box 10 20; box 30 10] in
  let cs := _calculateGridCellSize components noOptions in
  let p := placeInCell cs (mkCell 1 2) (box 10 20) in
  let b := plainGridBounds cs 3 2 in
  (minX b <= leftOf noOptions p)%Q /\ (rightOf noOptions p <= maxX b)%Q.
Proof.
  cbv zeta.
  destruct (cell_placement_within_bounds [box 10 20; box 30 10] noOptions 3 2
              (mkCell 1 2) (box 10 20)) as (H1 & H2 & _);
    [now left | reflexivity | discriminate | discriminate | cbn; lia | cbn; lia
    | unfold smallCount; cbn; lia | unfold smallCount; cbn; lia
    | repeat split; reflexivity | split; reflexivity |].
  split; assumption.
Defined.

(** ** The simple grid and its returned box *)

Lemma alignInCell_box (mode : string) (cell maxChild child : Q) :
  (child <= maxChild)%Q ->
  (cell <= alignInCell mode cell maxChild child - child / 2)%Q /\
  (alignInCell mode cell maxChild child + child / 2 <= cell + maxChild)%Q.
Proof.
  intros Hle. unfold alignInCell.
  pose proof (half_sum child) as Hc. pose proof (half_sum maxChild) as Hm.
  set (c2 := (child / 2)%Q) in *. set (m2 := (maxChild / 2)%Q) in *.
  destruct (JS.streq mode "end"); [split; lra|].
  destruct (JS.streq mode "center"); split; lra.
Qed.

Lemma inject_Z_sub (a b : Z) : (inject_Z (a - b) == inject_Z a - inject_Z b)%Q.
Proof. unfold Qeq, Qminus, Qplus, Qopp, inject_Z. cbn. lia. Qed.

Lemma inject_Z_nonneg (a : Z) : 0 <= a -> (0 <= inject_Z a)%Q.
Proof. intros H. unfold Qle. cbn. lia. Qed.

(** A cell of one of the first [k] columns, shifted right by at most the
    room that the columns after the [k]-th leave, stays in the grid. *)
Lemma shifted_cell_span (step content gap shift : Q) (col k K : Z) :
  (0 <= step)%Q -> step = (content + gap)%Q -> 0 <= col < k -> k <= K ->
  (0 <= shift)%Q -> (shift <= inject_Z (K - k) * step)%Q ->
  (0 <= shift + inject_Z col * step)%Q /\
  (shift + inject_Z col * step + content <= inject_Z K * step - gap)%Q.
Proof.
  intros Hstep E Hcol Hk Hshift Hroom.
  pose proof (inject_Z_nonneg col ltac:(lia)) as Ha.
  pose proof (inject_Z_nonneg (k - 1 - col) ltac:(lia)) as Hd.
  pose proof (inject_Z_sub K k) as E1.
  pose proof (inject_Z_sub (k - 1) col) as E2.
  pose proof (inject_Z_sub k 1) as E3.
  rewrite E1 in Hroom. rewrite E2, E3 in Hd.
  change (inject_Z 1) with 1%Q in *.
  set (a := inject_Z col) in *. set (kk := inject_Z k) in *. set (t := inject_Z K) in *.
  subst step.
  assert (Hprod : (0 <= a * (content + gap))%Q) by (apply Qmult_le_0_compat; assumption).
  assert (Hprod' : (0 <= (kk - 1 - a) * (content + gap))%Q)
    by (apply Qmult_le_0_compat; assumption).
  split; nra.
Qed.

Lemma lastRow_items (N C : Z) :
  0 < C -> 0 < N ->
  let R := JS.ceilDiv N C in
  let itemsOnLastRow := if JS.rem N C =? 0 then C else JS.rem N C in
  0 < itemsOnLastRow <= C /\ N - (R - 1) * C = itemsOnLastRow.
Proof.
  intros HC HN R k. unfold k, R, JS.rem, JS.ceilDiv.
  rewrite Z.rem_mod_nonneg by lia.
  pose proof (Z.mod_pos_bound N C HC) as Hm.
  destruct (N mod C =? 0) eqn:E; [apply Z.eqb_eq in E | apply Z.eqb_neq in E].
  - rewrite Z.div_opp_l_z by lia. pose proof (Z.div_exact N C ltac:(lia)) as Hex.
    split; [lia|]. nia.
  - rewrite Z.div_opp_l_nz by lia. pose proof (Z.div_mod N C ltac:(lia)) as Hdm.
    split; [lia|]. nia.
Qed.

Lemma simpleLastRowOffsetX_bounds (options : LayoutOptions) (cs : CellSize) (C N : Z) :
  0 < C -> 0 < N -> (0 <= cellWidth cs)%Q ->
  let itemsOnLastRow := if JS.rem N C =? 0 then C else JS.rem N C in
  let off := simpleLastRowOffsetX options cs C N in
  ((0 <= off)%Q /\ (off <= inject_Z (C - itemsOnLastRow) * cellWidth cs)%Q) /\
  (JS.streq (JS.default "start"%string (lastRowAlign options)) "start" = true -> off = 0%Q).
Proof.
  intros HC HN Hcw k off.
  destruct (lastRow_items N C HC HN) as [Hk _]. fold k in Hk.
  assert (Hroom : (0 <= inject_Z (C - k) * cellWidth cs)%Q).
  { apply Qmult_le_0_compat; [apply inject_Z_nonneg; lia | exact Hcw]. }
  pose proof (inject_Z_sub C k) as Esub.
  unfold off, simpleLastRowOffsetX. fold k.
  destruct (JS.streq (JS.default "start"%string (lastRowAlign options)) "start") eqn:Estart.
  - cbn [negb andb]. split; [|reflexivity]. split; [apply Qle_refl | exact Hroom].
  - split; [|discriminate].
    match goal with |- context [if ?b then _ else _] => destruct b end;
      [|split; [apply Qle_refl | exact Hroom]].
    set (x := inject_Z (C - k)) in *. set (cc := inject_Z C) in *. set (kk := inject_Z k) in *.
    assert (Eempty : (cc * cellWidth cs - cellColumnGap cs
                      - (kk * cellWidth cs - cellColumnGap cs)
                      == x * cellWidth cs)%Q) by (rewrite Esub; ring).
    set (empty := (cc * cellWidth cs - cellColumnGap cs
                   - (kk * cellWidth cs - cellColumnGap cs))%Q) in *.
    pose proof (half_sum empty) as Hhalf. set (e2 := (empty / 2)%Q) in *.
    destruct (JS.streq _ "center"); [split; lra|].
    destruct (JS.streq _ "end"); split; lra.
Qed.

Lemma simpleCenter_within (components : list LayoutComponent) (options : LayoutOptions)
    (child : LayoutComponent) (i : Z) :
  let C := JS.default 3 (columns options) in
  let cs := _calculateGridCellSize components options in
  let flow := JS.default "default"%string (flowDirection options) in
  let N := Z.of_nat (List.length components) in
  let R := JS.ceilDiv N C in
  let center := simpleCenter options cs C R (simpleLastRowOffsetX options cs C N) child i in
  0 < C -> In child components -> 0 <= i < N ->
  useFixed options = fixedSizeGiven options ->
  (0 <= cellWidth cs)%Q -> (0 <= cellHeight cs)%Q ->
  isHoneycombFlow (simpleFlow flow) = false ->
  Qeq_bool (JS.default 0%Q (cornerOffset options)) 0 = true ->
  (JS.default false (flowReverse options) = false \/
   JS.streq (JS.default "start"%string (lastRowAlign options)) "start" = true) ->
  ((0 <= fst center - layoutWidth options child / 2)%Q /\
   (fst center + layoutWidth options child / 2
    <= inject_Z C * cellWidth cs - cellColumnGap cs)%Q) /\
  ((0 <= snd center - layoutHeight options child / 2)%Q /\
   (snd center + layoutHeight options child / 2
    <= inject_Z R * cellHeight cs - cellRowGap cs)%Q).
Proof.
  intros C cs flow N R center HC Hin Hi Hmode Hcw Hch Hhoney Hco Hrev.
  destruct (cellSize_steps components options) as [Ew Eh]. fold cs in Ew, Eh.
  destruct (layoutSize_le_max components options child Hin Hmode) as [Hw Hh].
  fold cs in Hw, Hh.
  assert (HN : 0 < N) by lia.
  destruct (simpleLastRowOffsetX_bounds options cs C N HC HN Hcw) as [[Hoff0 Hoff1] Hstart].
  destruct (lastRow_items N C HC HN) as [Hk Hlast]. fold R in Hlast.
  set (off := simpleLastRowOffsetX options cs C N) in *.
  set (k := if JS.rem N C =? 0 then C else JS.rem N C) in *.
  pose proof (simpleCell_in_grid (simpleFlow flow) (JS.default false (flowReverse options))
                C N i HC Hi) as Hcell.
  cbv zeta in Hcell. fold R in Hcell.
  unfold center, simpleCenter. fold flow.
  fold (layoutWidth options child) (layoutHeight options child).
  destruct (simpleCell (simpleFlow flow) (JS.default false (flowReverse options)) C R i)
    as [fr fc] eqn:Ecell.
  cbn [fst snd] in Hcell. destruct Hcell as [Hfr Hfc].
  rewrite Hhoney. unfold simpleCornerNudge. rewrite Hco. cbn [fst snd].
  set (shift := if (fr =? R - 1) && JS.streq flow "default" then off else 0%Q).
  assert (Hshift : exists k', 0 <= fc < k' /\ k' <= C /\ (0 <= shift)%Q /\
                              (shift <= inject_Z (C - k') * cellWidth cs)%Q).
  { assert (Hplain : (0 <= 0)%Q /\ (0 <= inject_Z (C - C) * cellWidth cs)%Q).
    { split; [apply Qle_refl|]. rewrite Z.sub_diag. change (inject_Z 0) with 0%Q. lra. }
    unfold shift. destruct ((fr =? R - 1) && JS.streq flow "default") eqn:Elast;
      [|exists C; repeat split; try lia; tauto].
    destruct Hrev as [Hrev | Hrev];
      [|rewrite (Hstart Hrev); exists C; repeat split; try lia; tauto].
    apply andb_true_iff in Elast. destruct Elast as [Efr Eflow].
    apply Z.eqb_eq in Efr. apply String.eqb_eq in Eflow.
    rewrite Hrev, Eflow in Ecell. rewrite simpleCell_default in Ecell by lia.
    injection Ecell as Er Ec.
    pose proof (Z.div_mod i C ltac:(lia)) as Hdm.
    exists k. repeat split; try lia; try assumption. }
  destruct Hshift as (k' & Hfc' & Hk' & Hs0 & Hs1).
  destruct (shifted_cell_span (cellWidth cs) (maxChildWidth cs) (cellColumnGap cs) shift
              fc k' C Hcw Ew Hfc' Hk' Hs0 Hs1) as [Hx0 Hx1].
  destruct (cell_span (cellHeight cs) (maxChildHeight cs) (cellRowGap cs) fr R
              (inject_Z fr * cellHeight cs) (inject_Z fr * cellHeight cs + maxChildHeight cs)
              Hch Eh Hfr ltac:(apply Qle_refl) ltac:(apply Qle_refl)) as [Hy0 Hy1].
  destruct (alignInCell_box (JS.default "start"%string (justifyItems options))
              (shift + inject_Z fc * cellWidth cs) (maxChildWidth cs)
              (layoutWidth options child) Hw) as [Hax0 Hax1].
  destruct (alignInCell_box (JS.default "start"%string (alignItems options))
              (inject_Z fr * cellHeight cs) (maxChildHeight cs)
              (layoutHeight options child) Hh) as [Hay0 Hay1].
  split; split; lra.
Qed.

(** X26: the simple grid keeps every item inside the box that it returns.
    With C > 0 columns, in auto sizing or with both fixed sizes given,
    non-negative cell steps, no corner offset and a flow other than
    honeycomb, on inputs on which the arithmetic of the code is exact (sizes
    and gaps that are integers of magnitude at most 2^20, at most 2^20 items
    and columns), every item's box lies within (0, 0) - (gridWidth,
    totalHeight), under every flow direction and every alignment, provided
    [lastRowAlign] is 'start' or [flowReverse] is off (together they shift
    the full first row, which [flowReverse] moves to the bottom). *)
Theorem simple_grid_within_bounds (components : list LayoutComponent)
    (options : LayoutOptions) :
  let C := JS.default 3 (columns options) in
  let cs := _calculateGridCellSize components options in
  let flow := JS.default "default"%string (flowDirection options) in
  0 < C ->
  useFixed options = fixedSizeGiven options ->
  (0 <= cellWidth cs)%Q -> (0 <= cellHeight cs)%Q ->
  isHoneycombFlow (simpleFlow flow) = false ->
  Qeq_bool (JS.default 0%Q (cornerOffset options)) 0 = true ->
  (JS.default false (flowReverse options) = false \/
   JS.streq (JS.default "start"%string (lastRowAlign options)) "start" = true) ->
  smallCount C -> smallCount (Z.of_nat (List.length components)) ->
  exactCell cs -> Forall (exactItem options) components ->
  exists placed b,
    _layoutSquareSimple components options = Some (placed, b) /\
    List.length placed = List.length components /\
    Forall (fun p => (minX b <= leftOf options p)%Q /\ (rightOf options p <= maxX b)%Q /\
                     (minY b <= topOf options p)%Q /\ (bottomOf options p <= maxY b)%Q)
           placed.
Proof.
  intros C cs flow HC Hmode Hcw Hch Hhoney Hco Hrev _ _ _ _.
  destruct components as [|c0 rest].
  - exists [], zeroBounds. repeat split; constructor.
  - set (components := c0 :: rest) in *.
    set (N := Z.of_nat (List.length components)).
    assert (HN : 0 < N) by (unfold N, components; cbn [List.length]; lia).
    destruct (ceilDiv_rows N C HC ltac:(lia)) as (_ & _ & HR). specialize (HR HN).
    set (R := JS.ceilDiv N C) in *.
    assert (HC0 : (C =? 0) = false) by (apply Z.eqb_neq; lia).
    assert (HR0 : (R =? 0) = false) by (apply Z.eqb_neq; lia).
    assert (Hgt : JS.Qgtb (JS.default 0%Q (cornerOffset options)) 0 = false).
    { unfold JS.Qgtb. apply negb_false_iff. apply Qle_bool_iff.
      apply Qeq_bool_iff in Hco. rewrite Hco. apply Qle_refl. }
    eexists _, _. split; [|split].
    + unfold _layoutSquareSimple. fold C. rewrite HC0.
      change (c0 :: rest) with components. fold cs N R flow.
      rewrite HR0, andb_false_r, Hhoney. unfold gridBounds. rewrite Hgt. reflexivity.
    + apply forEachIdx_length.
    + apply Forall_forall. intros p Hp. apply In_nth_error in Hp. destruct Hp as [i Hp].
      rewrite forEachIdx_nth_error in Hp.
      destruct (nth_error components i) as [child|] eqn:Hchild; [|discriminate].
      cbn [option_map] in Hp. injection Hp as <-. rewrite ?Z.add_0_l.
      assert (Hi : 0 <= Z.of_nat i < N).
      { split; [lia|]. unfold N. apply Nat2Z.inj_lt. apply nth_error_Some. congruence. }
      pose proof (simpleCenter_within components options child (Z.of_nat i) HC
                    (nth_error_In _ _ Hchild) Hi Hmode Hcw Hch Hhoney Hco Hrev) as Hin.
      cbv zeta in Hin. fold C cs N R in Hin.
      destruct (simpleCenter options cs C R (simpleLastRowOffsetX options cs C N) child
                  (Z.of_nat i)) as [x y].
      cbn [fst snd] in Hin. destruct Hin as [[Hx0 Hx1] [Hy0 Hy1]].
      unfold leftOf, rightOf, topOf, bottomOf, setPosition, layoutWidth, layoutHeight in *.
      cbn [position vx vy width height minX minY maxX maxY].
      repeat split; assumption.
Qed.

Lemma simple_grid_within_bounds_witness :
  let components := [box 10 20; box 30 10; box 20 20; box 5 5] in
  let options := withFlowDirection "column-snake-bottom" (withColumns 3 noOptions) in
  0 < JS.default 3 (columns options) /\
  exists placed b,
    _layoutSquareSimple components options = Some (placed, b) /\
    List.length placed = 4%nat.
Proof.
  cbv zeta. split; [reflexivity|].
  destruct (simple_grid_within_bounds [box 10 20; box 30 10; box 20 20; box 5 5]
              (withFlowDirection "column-snake-bottom" (withColumns 3 noOptions)))
    as (placed & b & Hrun & Hlen & _);
    [reflexivity | reflexivity | discriminate | discriminate | reflexivity | reflexivity
    | now left | unfold smallCount; cbn; lia | unfold smallCount; cbn; lia
    | repeat split; reflexivity | repeat constructor; reflexivity |].
  exists placed, b. split; assumption.
Defined.

(** ** The spanning placer on items of one cell *)

Lemma find_split {A} (f : A -> bool) (x : A) (l2 : list A) : forall l1,
  (forall y, In y l1 -> f y = false) -> f x = true ->
  find f (l1 ++ x :: l2) = Some x.
Proof.
  induction l1 as [|a l1 IH]; intros Hfalse Hx; cbn.
  - now rewrite Hx.
  - rewrite (Hfalse a (or_introl eq_refl)). apply IH; [|exact Hx].
    intros y Hy. apply Hfalse. now right.
Qed.

Lemma find_nowhere {A} (f : A -> bool) : forall l,
  (forall y, In y l -> f y = false) -> find f l = None.
Proof.
  induction l as [|a l IH]; intros Hfalse; cbn; [reflexivity|].
  rewrite (Hfalse a (or_introl eq_refl)). apply IH. intros y Hy. apply Hfalse. now right.
Qed.

Lemma map_seq_from {A} (n : nat) : forall (a : nat) (f : nat -> A),
  map f (seq a n) = map (fun k => f (a + k)%nat) (seq 0 n).
Proof.
  induction n as [|n IH]; intros a f; cbn [seq map]; [reflexivity|].
  rewrite Nat.add_0_r. f_equal.
  rewrite (IH (S a) f), (IH 1%nat (fun k => f (a + k)%nat)).
  apply map_ext. intros k. f_equal. lia.
Qed.

Lemma range_split (lo m hi : Z) :
  lo <= m < hi -> range lo hi = range lo m ++ m :: range (m + 1) hi.
Proof.
  intros H. unfold range.
  replace (Z.to_nat (hi - lo)) with (Z.to_nat (m - lo) + S (Z.to_nat (hi - (m + 1))))%nat by lia.
  rewrite seq_app, map_app. f_equal. cbn [seq map Nat.add]. f_equal; [lia|].
  rewrite map_seq_from. apply map_ext. intros k. lia.
Qed.

Lemma occupied_marked (grid : Grid) (r c : Z) :
  0 <= r -> 0 <= c -> occupied grid r c = marked grid (Z.to_nat r) (Z.to_nat c).
Proof.
  intros Hr Hc. unfold occupied, marked.
  destruct (r <? 0) eqn:E1; [lia|]. destruct (c <? 0) eqn:E2; [lia|]. reflexivity.
Qed.

Lemma canFit_unit (grid : Grid) (s c : Z) :
  0 <= s -> 0 <= c ->
  canFit grid s c 1 1 = negb (marked grid (Z.to_nat s) (Z.to_nat c)).
Proof.
  intros Hs Hc. unfold canFit. change (JS.upto 1) with [0]. cbn [forallb].
  rewrite !andb_true_r, !Z.add_0_r. now rewrite occupied_marked.
Qed.

Lemma markBlock_unit (grid : Grid) (s c : Z) :
  markBlock grid s c 1 1 = markCell grid (Z.to_nat s) (Z.to_nat c).
Proof.
  unfold markBlock. change (JS.upto 1) with [0]. cbn [fold_left].
  now rewrite !Z.add_0_r.
Qed.

Lemma fresh_rows_unmarked (columns n : nat) : forall i c,
  nth c (nth i (repeat (repeat false columns) n) []) false = false.
Proof.
  induction n as [|n IH]; intros i c; cbn [repeat].
  - destruct i, c; reflexivity.
  - destruct i; cbn [nth]; [apply nth_repeat_false | apply IH].
Qed.

Lemma ensureRows_marked columns grid last r c :
  marked (ensureRows columns grid last) r c = marked grid r c.
Proof.
  unfold marked, ensureRows.
  destruct (Nat.lt_ge_cases r (List.length grid)) as [Hlt|Hge].
  - now rewrite app_nth1.
  - rewrite app_nth2 by exact Hge. rewrite fresh_rows_unmarked.
    rewrite (nth_overflow grid [] Hge). now destruct c.
Qed.

Lemma ensureRows_rows columns grid last :
  List.length (ensureRows columns grid last)
  = Nat.max (List.length grid) (Z.to_nat (last + 1)).
Proof. unfold ensureRows. rewrite length_app, repeat_length. lia. Qed.

Lemma ensureRows_allocated columns grid last :
  last + 1 <= Z.of_nat (List.length grid) -> ensureRows columns grid last = grid.
Proof.
  intros H. unfold ensureRows.
  replace (Z.to_nat (last + 1 - Z.of_nat (List.length grid))) with 0%nat by lia.
  cbn [repeat]. apply app_nil_r.
Qed.

Lemma unitColumn_range snake C r a :
  0 <= a < C -> 0 <= unitColumn snake C r a < C.
Proof. unfold unitColumn. destruct (snake && _); lia. Qed.

Lemma unitColumn_involutive snake C r a :
  unitColumn snake C r (unitColumn snake C r a) = a.
Proof. unfold unitColumn. destruct (snake && _); lia. Qed.

Lemma unit_candidates snake C s a :
  0 <= a < C ->
  exists before rest,
    candidateColumns snake C 1 s = before ++ unitColumn snake C s a :: rest /\
    forall y, In y before -> 0 <= unitColumn snake C s y < a.
Proof.
  intros Ha. unfold candidateColumns, unitColumn.
  destruct (snake && negb (JS.rem s 2 =? 0)).
  - replace (C - 1 + 1) with C by lia.
    rewrite (range_split 0 (C - 1 - a) C) by lia. rewrite rev_app_distr. cbn [rev].
    rewrite <- app_assoc. cbn [app].
    exists (rev (range (C - 1 - a + 1) C)), (rev (range 0 (C - 1 - a))).
    split; [reflexivity|]. intros y Hy. rewrite <- in_rev in Hy. apply In_range in Hy. lia.
  - rewrite (range_split 0 a C) by lia.
    exists (range 0 a), (range (a + 1) C). split; [reflexivity|].
    intros y Hy. apply In_range in Hy. lia.
Qed.

Lemma unit_candidates_range snake C s y :
  In y (candidateColumns snake C 1 s) -> 0 <= y < C.
Proof.
  unfold candidateColumns. destruct (snake && _); intros Hy.
  - rewrite <- in_rev in Hy. apply In_range in Hy. lia.
  - apply In_range in Hy. lia.
Qed.

Lemma unitFilled_rows snake C k grid :
  1 <= C -> 0 <= k -> unitFilled snake C k grid ->
  k / C <= Z.of_nat (List.length grid) <= k / C + 1.
Proof.
  intros HC Hk [Hlen _]. rewrite Hlen.
  assert (k / C <= (k + C - 1) / C) by (apply Z.div_le_mono; lia).
  assert ((k + C - 1) / C <= (k + C) / C) by (apply Z.div_le_mono; lia).
  assert (E : (k + C) / C = k / C + 1).
  { replace (k + C) with (k + 1 * C) by lia. apply Z.div_add. lia. }
  assert (0 <= k / C) by (apply Z.div_pos; lia). lia.
Qed.

Lemma findPosition_unit snake C k grid :
  1 <= C -> 0 <= k -> unitFilled snake C k grid ->
  forall fuel s,
    0 <= s <= k / C -> (Z.to_nat (k / C - s) < fuel)%nat ->
    findPosition fuel snake C 1 1 grid s
    = Some (markCell (ensureRows C grid (k / C)) (Z.to_nat (k / C))
                     (Z.to_nat (unitColumn snake C (k / C) (k mod C))),
            k / C, unitColumn snake C (k / C) (k mod C)).
Proof.
  intros HC Hk Hfilled.
  pose proof (unitFilled_rows snake C k grid HC Hk Hfilled) as Hrows.
  destruct Hfilled as [Hlen Hmarked].
  assert (Hm : 0 <= k mod C < C) by (apply Z.mod_pos_bound; lia).
  assert (Hkq : k = C * (k / C) + k mod C) by (apply Z.div_mod; lia).
  induction fuel as [|fuel IH]; intros s Hs Hfuel; [lia|].
  cbn [findPosition]. replace (s + 1 - 1) with s by lia.
  destruct (Z.eq_dec s (k / C)) as [->|Hne].
  - destruct (unit_candidates snake C (k / C) (k mod C) Hm) as (before & rest & -> & Hbefore).
    pose proof (unitColumn_range snake C (k / C) (k mod C) Hm) as Hcol.
    rewrite find_split.
    + now rewrite markBlock_unit.
    + intros y Hy. pose proof (Hbefore y Hy) as Hy'.
      assert (Hyr : 0 <= y < C).
      { pose proof (unitColumn_range snake C (k / C) (unitColumn snake C (k / C) y)) as Hr.
        rewrite unitColumn_involutive in Hr. apply Hr. lia. }
      rewrite canFit_unit by lia. rewrite ensureRows_marked.
      apply negb_false_iff. apply Hmarked. rewrite !Z2Nat.id by lia. split; [lia|nia].
    + rewrite canFit_unit by lia. rewrite ensureRows_marked.
      apply negb_true_iff. apply not_true_is_false. intros Habs.
      apply Hmarked in Habs. rewrite !Z2Nat.id in Habs by lia.
      rewrite unitColumn_involutive in Habs. nia.
  - rewrite ensureRows_allocated by lia.
    rewrite find_nowhere.
    + apply IH; lia.
    + intros y Hy. apply unit_candidates_range in Hy.
      rewrite canFit_unit by lia. apply negb_false_iff. apply Hmarked.
      rewrite !Z2Nat.id by lia. split; [lia|].
      pose proof (unitColumn_range snake C s y Hy). nia.
Qed.

Lemma unitFilled_step snake C k grid :
  1 <= C -> 0 <= k -> unitFilled snake C k grid ->
  unitFilled snake C (k + 1)
    (markCell (ensureRows C grid (k / C)) (Z.to_nat (k / C))
              (Z.to_nat (unitColumn snake C (k / C) (k mod C)))).
Proof.
  intros HC Hk Hfilled.
  pose proof (unitFilled_rows snake C k grid HC Hk Hfilled) as Hrows.
  destruct Hfilled as [Hlen Hmarked].
  assert (Hm : 0 <= k mod C < C) by (apply Z.mod_pos_bound; lia).
  assert (Hkq : k = C * (k / C) + k mod C) by (apply Z.div_mod; lia).
  assert (Hq : 0 <= k / C) by (apply Z.div_pos; lia).
  pose proof (unitColumn_range snake C (k / C) (k mod C) Hm) as Hcol.
  assert (E : (k + C) / C = k / C + 1).
  { replace (k + C) with (k + 1 * C) by lia. apply Z.div_add. lia. }
  split.
  - rewrite markCell_length, ensureRows_rows.
    replace (k + 1 + C - 1) with (k + C) by lia. rewrite E. lia.
  - intros r c. rewrite markCell_marked, ensureRows_rows, ensureRows_marked.
    assert (Hin : (Z.to_nat (k / C) <? Nat.max (List.length grid) (Z.to_nat (k / C + 1)))%nat = true)
      by (apply Nat.ltb_lt; lia).
    rewrite Hin, andb_true_r.
    destruct (Nat.eqb r (Z.to_nat (k / C))) eqn:Er;
      [destruct (Nat.eqb c (Z.to_nat (unitColumn snake C (k / C) (k mod C)))) eqn:Ec|];
      cbn [andb].
    + apply Nat.eqb_eq in Er, Ec. subst r c. rewrite !Z2Nat.id by lia.
      rewrite unitColumn_involutive. split; [intros _; split; lia | reflexivity].
    + apply Nat.eqb_eq in Er. apply Nat.eqb_neq in Ec. subst r.
      rewrite Hmarked. rewrite !Z2Nat.id by lia.
      split; intros [H1 H2]; (split; [exact H1|]); [lia|].
      assert (Hne : unitColumn snake C (k / C) (Z.of_nat c) <> k mod C).
      { intros Heq. apply Ec. rewrite <- Heq, unitColumn_involutive. lia. }
      nia.
    + apply Nat.eqb_neq in Er. rewrite Hmarked.
      split; intros [H1 H2]; (split; [exact H1|]); [lia|].
      pose proof (unitColumn_range snake C (Z.of_nat r) (Z.of_nat c) ltac:(lia)) as Hu.
      assert (Hne : Z.of_nat r <> k / C) by lia.
      assert (Z.of_nat r * C + unitColumn snake C (Z.of_nat r) (Z.of_nat c) <> k).
      { intros Heq. apply Hne.
        apply (Z.div_unique k C (Z.of_nat r) (unitColumn snake C (Z.of_nat r) (Z.of_nat c)));
          [left; lia | lia]. }
      lia.
Qed.

Lemma unitFilled_empty snake C : 1 <= C -> unitFilled snake C 0 [].
Proof.
  intros HC. split.
  - cbn [List.length]. rewrite Z.div_small by lia. reflexivity.
  - intros r c. unfold marked. split.
    + destruct r, c; discriminate.
    + intros [H1 H2]. pose proof (unitColumn_range snake C (Z.of_nat r) (Z.of_nat c) ltac:(lia)).
      nia.
Qed.

Lemma placeAll_unit options snake C :
  1 <= C ->
  forall components st,
    Forall (fun child => effectiveColSpan C child = 1 /\ effectiveRowSpan child = 1) components ->
    let k := Z.of_nat (List.length (placedItems st)) in
    unitFilled snake C k (occupancyGrid st) ->
    maxRowUsed st = Z.max 0 ((k - 1) / C) ->
    exists st',
      placeAll options snake C components st = Some st' /\
      map (fun item => mkCell (PlacedItem.row item) (PlacedItem.col item)) (placedItems st')
      = map (fun item => mkCell (PlacedItem.row item) (PlacedItem.col item)) (placedItems st)
        ++ map (fun i => mkCell (i / C) (unitColumn snake C (i / C) (i mod C)))
               (range k (k + Z.of_nat (List.length components))) /\
      map PlacedItem.component (placedItems st')
      = map PlacedItem.component (placedItems st) ++ components /\
      maxRowUsed st'
      = Z.max 0 ((k + Z.of_nat (List.length components) - 1) / C).
Proof.
  intros HC. induction components as [|child rest IH]; intros st Hunit k Hfilled Hmax.
  - exists st. cbn [placeAll List.length]. replace (k + Z.of_nat 0) with k by lia.
    assert (E : range k k = []) by (unfold range; now rewrite Z.sub_diag).
    rewrite E. cbn [map]. rewrite !app_nil_r. repeat split; try reflexivity. exact Hmax.
  - inversion Hunit as [|? ? [Hcs Hrs] Hrest]; subst.
    assert (Hk : 0 <= k) by (unfold k; lia).
    pose proof (unitFilled_rows snake C k _ HC Hk Hfilled) as Hrows.
    assert (Hq : 0 <= k / C) by (apply Z.div_pos; lia).
    cbn [placeAll]. rewrite Hcs, Hrs.
    rewrite (findPosition_unit snake C k (occupancyGrid st) HC Hk Hfilled) by lia.
    set (item := PlacedItem.mk child (k / C) (unitColumn snake C (k / C) (k mod C)) 1 1 _ _).
    set (st1 := mkPlacerState _ _ _).
    assert (Hlen1 : Z.of_nat (List.length (placedItems st1)) = k + 1).
    { unfold st1. cbn [placedItems]. rewrite length_app. cbn [List.length]. unfold k. lia. }
    destruct (IH st1 Hrest) as (st' & Hrun & Hcells & Hcomps & Hmax').
    + rewrite Hlen1. unfold st1. cbn [occupancyGrid]. now apply unitFilled_step.
    + rewrite Hlen1. unfold st1. cbn [maxRowUsed]. rewrite Hmax.
      replace (k + 1 - 1) with k by lia.
      assert ((k - 1) / C <= k / C) by (apply Z.div_le_mono; lia). lia.
    + exists st'. split; [exact Hrun|]. rewrite Hlen1 in Hcells, Hmax'.
      cbn [List.length]. replace (k + Z.of_nat (S (List.length rest)))
        with (k + 1 + Z.of_nat (List.length rest)) by lia.
      split; [|split; [|exact Hmax']].
      * rewrite Hcells. unfold st1. cbn [placedItems]. rewrite map_app. cbn [map].
        rewrite <- app_assoc. cbn [app]. f_equal.
        rewrite (range_split k k (k + 1 + Z.of_nat (List.length rest))) by lia.
        assert (E : range k k = []) by (unfold range; now rewrite Z.sub_diag).
        rewrite E. reflexivity.
      * rewrite Hcomps. unfold st1. cbn [placedItems]. rewrite map_app. cbn [map].
        now rewrite <- app_assoc.
Qed.

(** X28: when every item takes one cell (its effective colSpan and rowSpan
    are 1), the first-fit search of the spanning placer hands out the cells
    of the regular grid in order: item i goes to row floor(i / C) and column
    i mod C, or, in snake mode, to the cell of the boustrophedon path; the
    items keep their order, and the last row in use is the one of the last
    item. *)
Theorem spanning_unit_items_fill_in_order (components : list LayoutComponent)
    (options : LayoutOptions) (C : Z) :
  columns options = Some C -> 1 <= C ->
  Forall (fun child => effectiveColSpan C child = 1 /\ effectiveRowSpan child = 1) components ->
  let snake := JS.streq (JS.default "default"%string (flowDirection options)) "snake" in
  let n := Z.of_nat (List.length components) in
  exists st,
    spanningPlacement components options = Some st /\
    map PlacedItem.component (placedItems st) = components /\
    map (fun item => mkCell (PlacedItem.row item) (PlacedItem.col item)) (placedItems st)
    = map (fun i => if snake then boustrophedonCell C i else mkCell (i / C) (i mod C))
          (range 0 n) /\
    maxRowUsed st = Z.max 0 ((n - 1) / C).
Proof.
  intros Hcols HC Hunit snake n.
  destruct (placeAll_unit options snake C HC components (mkPlacerState [] 0 []) Hunit)
    as (st & Hrun & Hcells & Hcomps & Hmax).
  - cbn [placedItems occupancyGrid List.length]. now apply unitFilled_empty.
  - cbn [placedItems maxRowUsed List.length]. change (Z.of_nat 0) with 0.
    assert (E : (0 - 1) / C < 0) by (apply Z.div_lt_upper_bound; lia). lia.
  - exists st. unfold spanningPlacement. rewrite Hcols. cbn [JS.default].
    destruct (C <? 0) eqn:E; [lia|]. fold snake.
    cbn [placedItems List.length map app] in Hcells, Hcomps, Hmax.
    change (Z.of_nat 0) with 0 in *. rewrite !Z.add_0_l in *. fold n in Hcells, Hmax.
    split; [exact Hrun|]. split; [exact Hcomps|]. split; [|exact Hmax].
    rewrite Hcells. apply map_ext_in. intros i Hi. apply In_range in Hi.
    unfold unitColumn. destruct snake; cbn [andb]; [|reflexivity].
    destruct (boustrophedonCell_spec C i ltac:(lia) ltac:(lia)) as (-> & _ & _ & Hq).
    unfold JS.rem. rewrite Z.rem_mod_nonneg by lia. reflexivity.
Qed.

Lemma spanning_unit_items_fill_in_order_witness :
  let components := [box 10 10; box 20 10; box 10 30; box 10 10; box 5 5] in
  let options := withFlowDirection "snake" (withColumns 2 noOptions) in
  columns options = Some 2 /\ 1 <= 2 /\
  exists st,
    spanningPlacement components options = Some st /\
    map (fun item => mkCell (PlacedItem.row item) (PlacedItem.col item)) (placedItems st)
    = [mkCell 0 0; mkCell 0 1; mkCell 1 1; mkCell 1 0; mkCell 2 0] /\
    maxRowUsed st = 2.
Proof.
  intros components options. split; [reflexivity|]. split; [lia|].
  destruct (spanning_unit_items_fill_in_order components options 2) as (st & Hrun & _ & Hcells & Hmax).
  - reflexivity.
  - lia.
  - repeat constructor.
  - exists st. split; [exact Hrun|]. split; [exact Hcells | exact Hmax].
Defined.
